(** * silly-db: a JSON file store with a per-database lock

    Shallow embedding of [src/index.ts] and verification of the
    properties stated in its specification.

    The program is single-threaded JavaScript: synchronous code runs to
    completion, and every [await] parks a continuation that is later run
    from the engine's FIFO job queue.  The embedding keeps exactly that
    structure: the synchronous part of every method is a function on an
    explicit machine state, and every continuation is a [microtask]
    appended to the job queue of that state. *)

From Stdlib Require Import ZArith Lia Bool Ascii String List DecimalString DecimalZ.
From stdpp Require Import base option list gmap strings.

Set Warnings "-register-all".
Local Open Scope string_scope.
Local Open Scope Z_scope.

(** ** JavaScript values *)

(** The values a document can hold.  Numbers are integer valued (doubles
    are not modelled).  [VFun] is a function object; the functions of the
    model are those that, when called, return [undefined] and do nothing
    else, as [() => {}] does (the program calls a function of a document
    in one place only: [JSON.stringify] calls a method named [toJSON]).
    [VCyc] stands for a reference from inside an object back to one of
    the objects enclosing it, which is how a cyclic structure appears to
    a traversal.  An object is its list of own enumerable properties in
    enumeration order. *)
Inductive jsval : Type :=
| VUndefined
| VNull
| VBool (b : bool)
| VNum (n : Z)
| VStr (s : string)
| VFun
| VArr (elems : list jsval)
| VObj (props : list (string * jsval))
| VCyc.

(** Errors a call can throw. *)
Inductive jserror : Type :=
| TypeError
| SyntaxError
| Error (msg : string)
| ThrownString (msg : string).

(** Outcome of a call that may throw. *)
Inductive result (A : Type) : Type :=
| Ok (a : A)
| Throw (e : jserror).
Arguments Ok {A} a.
Arguments Throw {A} e.

Definition is_ok {A} (r : result A) : bool :=
  match r with Ok _ => true | Throw _ => false end.

(** [!v]: the values JavaScript treats as false in a condition. *)
Definition falsy (v : jsval) : bool :=
  match v with
  | VUndefined | VNull | VBool false | VNum 0 | VStr EmptyString => true
  | _ => false
  end.

(** [typeof v === "object"] (which includes [null] and arrays). *)
Definition typeof_object (v : jsval) : bool :=
  match v with
  | VNull | VArr _ | VObj _ | VCyc => true
  | _ => false
  end.

(** JSON documents: the values a JSON text denotes.  An object has each
    key once. *)
Fixpoint is_json (v : jsval) : bool :=
  match v with
  | VUndefined | VFun | VCyc => false
  | VNull | VBool _ | VNum _ | VStr _ => true
  | VArr l => forallb is_json l
  | VObj ps =>
      bool_decide (NoDup (map fst ps))
      && (fix go (ps : list (string * jsval)) : bool :=
            match ps with
            | [] => true
            | (_, x) :: ps' => is_json x && go ps'
            end) ps
  end.

(** ** The platform's JSON object *)

(** Result of the value traversal [JSON.stringify] performs before it
    prints anything. *)
Inductive serialized : Type :=
| SThrow                (* TypeError: cyclic structure *)
| SUndefined            (* nothing to print: undefined or a function *)
| SValue (j : jsval).

(** The first value listed under the name [k]. *)
Fixpoint assoc_get (k : string) (ps : list (string * jsval)) : option jsval :=
  match ps with
  | [] => None
  | (k', x) :: ps' => if String.eqb k' k then Some x else assoc_get k ps'
  end.

(** The object has a method [toJSON]: a property of that name that holds
    a function. *)
Definition has_toJSON (ps : list (string * jsval)) : bool :=
  match assoc_get "toJSON" ps with
  | Some VFun => true
  | _ => false
  end.

(** Modelled from ECMAScript [SerializeJSONProperty]: an object that has
    a method [toJSON] is replaced by what the call of that method
    returns, which is [undefined]; a property of an object whose value is
    undefined or a function is left out, such an element of an array is
    printed as [null], and a cycle throws. *)
Fixpoint serialize (v : jsval) : serialized :=
  match v with
  | VUndefined | VFun => SUndefined
  | VCyc => SThrow
  | VNull | VBool _ | VNum _ | VStr _ => SValue v
  | VArr l =>
      match
        (fix go (l : list jsval) : option (list jsval) :=
           match l with
           | [] => Some []
           | x :: l' =>
               match serialize x, go l' with
               | SThrow, _ | _, None => None
               | SUndefined, Some r => Some (VNull :: r)
               | SValue j, Some r => Some (j :: r)
               end
           end) l
      with
      | Some r => SValue (VArr r)
      | None => SThrow
      end
  | VObj ps =>
      if has_toJSON ps then SUndefined
      else
        match
          (fix go (ps : list (string * jsval)) : option (list (string * jsval)) :=
             match ps with
             | [] => Some []
             | (k, x) :: ps' =>
                 match serialize x, go ps' with
                 | SThrow, _ | _, None => None
                 | SUndefined, Some r => Some r
                 | SValue j, Some r => Some ((k, j) :: r)
                 end
             end) ps
        with
        | Some r => SValue (VObj r)
        | None => SThrow
        end
  end.

(** The text syntax of JSON, as the platform provides it: [json_encode]
    prints a document and [json_decode] parses a text, answering [None]
    where [JSON.parse] throws a [SyntaxError]. *)
Class JSONText : Type := {
  json_encode : jsval -> string;
  json_decode : string -> option jsval;
  json_decode_encode : forall j, is_json j = true -> json_decode (json_encode j) = Some j;
  json_decode_undefined : json_decode "undefined" = None;
}.

(** [JSON.stringify(v)]: throws, or answers [undefined] ([None]), or a
    text. *)
Definition JSON_stringify `{JSONText} (v : jsval) : result (option string) :=
  match serialize v with
  | SThrow => Throw TypeError
  | SUndefined => Ok None
  | SValue j => Ok (Some (json_encode j))
  end.

(** [JSON.parse(x)]: the argument is first converted to a string, so
    [undefined] is read as the text [undefined]. *)
Definition JSON_parse `{JSONText} (x : option string) : result jsval :=
  match json_decode (default "undefined" x) with
  | Some v => Ok v
  | None => Throw SyntaxError
  end.

(** ** Utilities of the module *)

(** [copyData]: [JSON.parse(JSON.stringify(data))]. *)
Definition copyData `{JSONText} (data : jsval) : result jsval :=
  match JSON_stringify data with
  | Throw e => Throw e
  | Ok text => JSON_parse text
  end.

(** ** The file system *)

(** A path is the list of the arguments given to [Path.join]: the root
    directory first, then one name per level. *)
Abbreviation path := (list string).

(** [dirs]: the directories that exist; [files]: the files and their
    contents; [readonly]: paths the disk refuses to create or write;
    [journal]: every file write the disk has completed, oldest first;
    [stringified]: how many times [JSON.stringify] has been called for a
    write to this disk (what an observer of those calls counts). *)
Record filesystem : Type := {
  dirs : gset path;
  files : gmap path string;
  readonly : gset path;
  journal : list (path * string);
  stringified : nat;
}.

Definition dirname (p : path) : path := removelast p.

(** [fs.writeFileSync(p, text)]: [text] must be a string; the directory
    must exist, and the path be writable and not a directory itself. *)
Definition writeFileSync (p : path) (text : option string) (d : filesystem)
  : filesystem * result unit :=
  match text with
  | None => (d, Throw TypeError)
  | Some t =>
      if bool_decide (dirname p ∈ dirs d) && negb (bool_decide (p ∈ readonly d))
         && negb (bool_decide (p ∈ dirs d))
      then ({| dirs := dirs d; files := <[p := t]> (files d);
               readonly := readonly d; journal := (journal d ++ [(p, t)])%list;
               stringified := stringified d |}, Ok ())
      else (d, Throw (Error "EIO"))
  end.

(** All the non-empty prefixes of a path. *)
Fixpoint ancestors (p : path) : list path :=
  match p with
  | [] => []
  | x :: q => [x] :: map (cons x) (ancestors q)
  end.

(** A level of a path that [mkdirSync] cannot get past: a regular file
    is in the way, or the directory is missing and the disk refuses to
    create it. *)
Definition blocked (d : filesystem) (a : path) : bool :=
  bool_decide (is_Some (files d !! a))
  || (bool_decide (a ∈ readonly d) && negb (bool_decide (a ∈ dirs d))).

(** [fs.mkdirSync(dir, {recursive: true})]: makes the directory and the
    missing levels above it; a directory that exists is left as it is. *)
Definition mkdirSync (dir : path) (d : filesystem) : filesystem * result unit :=
  if existsb (blocked d) (ancestors dir) then (d, Throw (Error "EIO"))
  else ({| dirs := dirs d ∪ list_to_set (ancestors dir); files := files d;
           readonly := readonly d; journal := journal d;
           stringified := stringified d |}, Ok ()).

(** The observer counts one more call of [JSON.stringify]. *)
Definition count_stringify (d : filesystem) : filesystem :=
  {| dirs := dirs d; files := files d; readonly := readonly d; journal := journal d;
     stringified := S (stringified d) |}.

(** [fs.readFileSync(p).toString()]. *)
Definition readFileSync (p : path) (d : filesystem) : result string :=
  match files d !! p with
  | Some t => Ok t
  | None => Throw (Error "ENOENT")
  end.

(** The local function [writeToPath] of [writeDB]. *)
Definition writeToPath `{JSONText} (dir : path) (name : string) (data : jsval)
    (d : filesystem) : filesystem * result unit :=
  let p := (dir ++ [name])%list in
  let attempt (d : filesystem) :=
    match JSON_stringify data with
    | Throw e => (count_stringify d, Throw e)
    | Ok text => writeFileSync p text (count_stringify d)
    end in
  match attempt d with
  | (d1, Ok tt) => (d1, Ok tt)
  | (d1, Throw _) =>
      match mkdirSync dir d1 with
      | (d2, Throw e) => (d2, Throw e)
      | (d2, Ok _) => attempt d2
      end
  end.

(** [s.split(".")]. *)
Fixpoint split_dot (s : string) : list string :=
  match s with
  | EmptyString => [EmptyString]
  | String c s' =>
      if Ascii.eqb c "."%char then EmptyString :: split_dot s'
      else match split_dot s' with
           | x :: r => String c x :: r
           | [] => [String c EmptyString]
           end
  end.

(** ** Objects of the program *)

(** The two queues of a [SillyDBStatus]: the keys of [transactions]. *)
Inductive event : Type := unlock | write_end.

(** Who awaits the promise of a [save()] call: the application, or the
    [saveClose()] call of a handle, which goes on to [close()]. *)
Inductive cont : Type :=
| KCaller
| KSaveClose (h : nat).

(** The two closures the program passes to [wait] as [todo]:
    [TodoLock c] is [() => { lockover(); return lock; }] of the [lockDB]
    call number [c], and [TodoWrite u] is [() => this.writeDB(db)] for a
    handle of the database [u]. *)
Inductive todo : Type :=
| TodoLock (c : nat)
| TodoWrite (u : string).

(** [DBTransaction]: the closure to run, the uuid of the handle that
    asked, and the [resolve] function of the promise [wait] returned,
    given by who awaits that promise ([None]: nobody does). *)
Record DBTransaction : Type := {
  job_todo : todo;
  job_uuid : nat;
  job_resolve : option cont;
}.

(** [Transaction]: the pending jobs and the uuid of the running one. *)
Record Transaction : Type := {
  tx_list : list DBTransaction;
  tx_uuid : option nat;
}.

(** [SillyDBStatus]: the state one database has in memory.  [__data]
    holds a reference: [__data_of] is [Some h] when the object it refers
    to is the one the handle [h] keeps as its [__default] (the getter
    [data] stores that very object), and [None] when it is an object of
    its own. *)
Record SillyDBStatus : Type := {
  __db_name : string;
  __data : jsval;
  __data_of : option nat;
  tx_unlock : Transaction;
  tx_write_end : Transaction;
}.

Definition transactions (st : SillyDBStatus) (ev : event) : Transaction :=
  match ev with unlock => tx_unlock st | write_end => tx_write_end st end.

(** A [SillyDB] instance (a handle).  [UID] is the UID of its class;
    [unlockDB] is [None] for the initial function that throws, and
    [Some c] for the resolver returned by the [lockDB] call [c]. *)
Record SillyDB : Type := {
  UID : string;
  __default : jsval;
  __locking : bool;
  __uuid : nat;
  unlockDB : option nat;
}.

(** The continuations the engine's job queue can hold: what remains of
    an [async] function after one of its [await]s. *)
Inductive microtask : Type :=
| MLockDB_wait (c : nat)
    (* lockDB, after the first await: calls dbstatus.wait("unlock", ...) *)
| MLockDB_return (c : nat)
    (* lockDB, after lockover(): returns resolver *)
| MUse (h c : nat)
    (* use, after lockDB: unlockDB = resolver; __locking = true *)
| MHandler (u : string) (ev : event) (jid : nat) (res : option cont) (v : option string)
    (* the queue handler, after await todo(): resolve(v); emit(ev) *)
| MSafeWriteDB (k : cont) (v : option string)
    (* safeWriteDB, after await wait(...): returns v *)
| MSave (k : cont) (v : option string)
    (* save, after await safeWriteDB(...): returns v *)
| MSaveClose (h : nat).
    (* saveClose, after await save(): close() *)

(** The variables of one call of [lockDB]: its arguments, the status it
    found, whether its [lock] promise has been resolved, and the
    continuation parked on that promise, if any. *)
Record lockcall : Type := {
  lc_db : nat;
  lc_status : string;
  lc_uuid : nat;
  lc_resolved : bool;
  lc_parked : option microtask;
}.

(** What an observer of the program records. *)
Inductive observation : Type :=
| Enqueued (u : string) (ev : event) (job : DBTransaction)
| Started (u : string) (ev : event) (job : DBTransaction)
| Finished (u : string) (ev : event) (jid : nat)
| Requested (u : string) (h c : nat)
| Locked (u : string) (h c : nat).

(** The whole machine.  [root] and [databases] are the static fields
    [__path] and [__databases] of [SillyDBUtils]; [objects] holds every
    handle constructed so far and [lockcalls] every call of [lockDB] so
    far, both at the index that names them; [jobqueue] is the engine's
    queue of continuations; [history] is the observer's record. *)
Record machine : Type := {
  root : string;
  databases : gmap string SillyDBStatus;
  disk : filesystem;
  objects : list SillyDB;
  lockcalls : list lockcall;
  jobqueue : list microtask;
  history : list observation;
}.

(** *** Updating one field *)

Definition with_root (r : string) (m : machine) : machine :=
  {| root := r; databases := databases m; disk := disk m; objects := objects m;
     lockcalls := lockcalls m; jobqueue := jobqueue m; history := history m |}.

Definition with_databases (dbs : gmap string SillyDBStatus) (m : machine) : machine :=
  {| root := root m; databases := dbs; disk := disk m; objects := objects m;
     lockcalls := lockcalls m; jobqueue := jobqueue m; history := history m |}.

Definition with_disk (d : filesystem) (m : machine) : machine :=
  {| root := root m; databases := databases m; disk := d; objects := objects m;
     lockcalls := lockcalls m; jobqueue := jobqueue m; history := history m |}.

Definition with_objects (os : list SillyDB) (m : machine) : machine :=
  {| root := root m; databases := databases m; disk := disk m; objects := os;
     lockcalls := lockcalls m; jobqueue := jobqueue m; history := history m |}.

Definition with_lockcalls (ls : list lockcall) (m : machine) : machine :=
  {| root := root m; databases := databases m; disk := disk m; objects := objects m;
     lockcalls := ls; jobqueue := jobqueue m; history := history m |}.

Definition with_jobqueue (q : list microtask) (m : machine) : machine :=
  {| root := root m; databases := databases m; disk := disk m; objects := objects m;
     lockcalls := lockcalls m; jobqueue := q; history := history m |}.

Definition with_history (hs : list observation) (m : machine) : machine :=
  {| root := root m; databases := databases m; disk := disk m; objects := objects m;
     lockcalls := lockcalls m; jobqueue := jobqueue m; history := hs |}.

(** A continuation becomes ready: it goes to the back of the job queue. *)
Definition schedule (t : microtask) (m : machine) : machine :=
  with_jobqueue (jobqueue m ++ [t])%list m.

Definition observe (o : observation) (m : machine) : machine :=
  with_history (history m ++ [o])%list m.

(** [__data] refers to the object [v], which is the default object of
    the handle [a] or, with [None], an object of its own. *)
Definition with_document (v : jsval) (a : option nat) (st : SillyDBStatus) : SillyDBStatus :=
  {| __db_name := __db_name st; __data := v; __data_of := a;
     tx_unlock := tx_unlock st; tx_write_end := tx_write_end st |}.

Definition with_data (v : jsval) (st : SillyDBStatus) : SillyDBStatus :=
  {| __db_name := __db_name st; __data := v; __data_of := None;
     tx_unlock := tx_unlock st; tx_write_end := tx_write_end st |}.

Definition with_transaction (ev : event) (t : Transaction) (st : SillyDBStatus)
  : SillyDBStatus :=
  match ev with
  | unlock => {| __db_name := __db_name st; __data := __data st;
                 __data_of := __data_of st;
                 tx_unlock := t; tx_write_end := tx_write_end st |}
  | write_end => {| __db_name := __db_name st; __data := __data st;
                    __data_of := __data_of st;
                    tx_unlock := tx_unlock st; tx_write_end := t |}
  end.

Definition with_locking (b : bool) (o : SillyDB) : SillyDB :=
  {| UID := UID o; __default := __default o; __locking := b;
     __uuid := __uuid o; unlockDB := unlockDB o |}.

Definition with_unlockDB (r : option nat) (o : SillyDB) : SillyDB :=
  {| UID := UID o; __default := __default o; __locking := __locking o;
     __uuid := __uuid o; unlockDB := r |}.

Definition with_resolved (l : lockcall) : lockcall :=
  {| lc_db := lc_db l; lc_status := lc_status l; lc_uuid := lc_uuid l;
     lc_resolved := true; lc_parked := lc_parked l |}.

Definition with_parked (p : microtask) (l : lockcall) : lockcall :=
  {| lc_db := lc_db l; lc_status := lc_status l; lc_uuid := lc_uuid l;
     lc_resolved := lc_resolved l; lc_parked := Some p |}.

(** ** SillyDBUtils: the registry and the files *)

(** [hasDB], for a class or a handle of UID [u]. *)
Definition hasDB (u : string) (m : machine) : option SillyDBStatus :=
  databases m !! u.

Definition getDBStatus (u : string) (m : machine) : result SillyDBStatus :=
  match hasDB u m with
  | Some st => Ok st
  | None => Throw (Error "Using a DB that is not registed is not allowed")
  end.

Definition getData (u : string) (m : machine) : result jsval :=
  match getDBStatus u m with
  | Ok st => Ok (__data st)
  | Throw e => Throw e
  end.

(** [setData(db, data)]: [a] tells which object [data] is (the default
    object of the handle [a], or an object the application gave). *)
Definition setData (u : string) (v : jsval) (a : option nat) (m : machine)
  : machine * result unit :=
  match getDBStatus u m with
  | Ok st => (with_databases (<[u := with_document v a st]> (databases m)) m, Ok ())
  | Throw e => (m, Throw e)
  end.

(** [root_path(newPath?)]: an absent or empty argument only reads. *)
Definition root_path (newPath : option string) (m : machine) : machine * string :=
  match newPath with
  | Some p => if String.eqb p EmptyString then (m, root m) else (with_root p m, p)
  | None => (m, root m)
  end.

(** [getPath]: [Path.join(root_path(), ...UID.split(".").slice(1))]. *)
Definition getPath (u : string) (m : machine) : path :=
  root m :: tail (split_dot u).

(** One [try] block of [safeReadDB]. *)
Definition read_json `{JSONText} (p : path) (d : filesystem) : result jsval :=
  match readFileSync p d with
  | Ok text => JSON_parse (Some text)
  | Throw e => Throw e
  end.

Definition safeReadDB `{JSONText} (u : string) (m : machine) : jsval :=
  match read_json (getPath u m ++ ["data.json"])%list (disk m) with
  | Ok v => v
  | Throw _ =>
      match read_json (getPath u m ++ ["data.swp.json"])%list (disk m) with
      | Ok v => v
      | Throw _ => VUndefined
      end
  end.

Definition empty_transaction : Transaction := {| tx_list := []; tx_uuid := None |}.

(** [new SillyDBStatus(DB)]. *)
Definition new_SillyDBStatus `{JSONText} (u : string) (m : machine) : SillyDBStatus :=
  {| __db_name := u; __data := safeReadDB u m; __data_of := None;
     tx_unlock := empty_transaction; tx_write_end := empty_transaction |}.

Definition regist `{JSONText} (u : string) (m : machine) : machine :=
  match hasDB u m with
  | Some _ => m
  | None => with_databases (<[u := new_SillyDBStatus u m]> (databases m)) m
  end.

(** [writeDB]: the status string it returns, and the disk it leaves. *)
Definition writeDB `{JSONText} (u : string) (m : machine) : machine * string :=
  match getData u m with
  | Throw _ => (m, "failed")
  | Ok data =>
      match writeToPath (getPath u m) "data.swp.json" data (disk m) with
      | (d1, Throw _) => (with_disk d1 m, "failed")
      | (d1, Ok _) =>
          let m1 := with_disk d1 m in
          match getData u m1 with
          | Throw _ => (m1, "failed")
          | Ok data' =>
              match writeToPath (getPath u m1) "data.json" data' (disk m1) with
              | (d2, Throw _) => (with_disk d2 m1, "failed")
              | (d2, Ok _) => (with_disk d2 m1, "success")
              end
          end
      end
  end.

(** ** SillyDBStatus: the two queues *)

(** The handler runs [todo()] and reaches its [await]. *)
Definition run_todo `{JSONText} (u : string) (ev : event) (job : DBTransaction)
    (m : machine) : machine :=
  let resume := MHandler u ev (job_uuid job) (job_resolve job) in
  match job_todo job with
  | TodoLock c =>
      let m1 := schedule (MLockDB_return c) m in
      match lockcalls m1 !! c with
      | Some l =>
          if lc_resolved l then schedule (resume None) m1
          else with_lockcalls (<[c := with_parked (resume None) l]> (lockcalls m1)) m1
      | None => m1
      end
  | TodoWrite u' =>
      let (m1, status) := writeDB u' m in
      schedule (resume (Some status)) m1
  end.

(** The listener the constructor installs with [events.on], up to its
    [await]. *)
Definition handler `{JSONText} (u : string) (ev : event) (m : machine) : machine :=
  match databases m !! u with
  | None => m
  | Some st =>
      match tx_list (transactions st ev) with
      | [] =>
          let st' := with_transaction ev {| tx_list := []; tx_uuid := None |} st in
          with_databases (<[u := st']> (databases m)) m
      | job :: rest =>
          let st' :=
            with_transaction ev {| tx_list := rest; tx_uuid := Some (job_uuid job) |} st in
          run_todo u ev job
            (observe (Started u ev job) (with_databases (<[u := st']> (databases m)) m))
      end
  end.

(** [wait], on the status of [u]. *)
Definition wait `{JSONText} (u : string) (ev : event) (jid : nat) (td : todo)
    (res : option cont) (m : machine) : machine :=
  match databases m !! u with
  | None => m
  | Some st =>
      let t := transactions st ev in
      let job := {| job_todo := td; job_uuid := jid; job_resolve := res |} in
      let st' :=
        with_transaction ev {| tx_list := (tx_list t ++ [job])%list; tx_uuid := tx_uuid t |} st in
      let m1 := observe (Enqueued u ev job) (with_databases (<[u := st']> (databases m)) m) in
      match tx_uuid t with
      | None => handler u ev m1
      | Some _ => m1
      end
  end.

(** [lockDB], up to its first [await]: the call gets the next free
    number. *)
Definition lockDB (h : nat) (u : string) (jid : nat) (m : machine)
  : machine * result nat :=
  match hasDB u m with
  | None => (m, Throw (Error "locking a db that is not registed"))
  | Some _ =>
      let c := length (lockcalls m) in
      let l := {| lc_db := h; lc_status := u; lc_uuid := jid;
                  lc_resolved := false; lc_parked := None |} in
      (schedule (MLockDB_wait c) (with_lockcalls (lockcalls m ++ [l])%list m), Ok c)
  end.

(** Calling the resolver of the [lockDB] call [c]. *)
Definition resolve_lock (c : nat) (m : machine) : machine :=
  match lockcalls m !! c with
  | Some l =>
      if lc_resolved l then m
      else
        let m1 := with_lockcalls (<[c := with_resolved l]> (lockcalls m)) m in
        match lc_parked l with
        | Some t => schedule t m1
        | None => m1
        end
  | None => m
  end.

Definition safeWriteDB `{JSONText} (u : string) (jid : nat) (k : cont) (m : machine)
  : machine * result unit :=
  match getDBStatus u m with
  | Throw e => (m, Throw e)
  | Ok _ => (wait u write_end jid (TodoWrite u) (Some k) m, Ok ())
  end.

(** ** SillyDB: the handle *)

(** A method called on an object that was never constructed. *)
Definition no_object {A} (m : machine) : machine * result A := (m, Throw TypeError).

(** [new SillyDB(defaultValue)] for the class of UID [u]; the handle gets
    the next free index, which also stands for its random uuid. *)
Definition new_SillyDB `{JSONText} (u : string) (defaultValue : jsval) (m : machine)
  : machine * result nat :=
  let m1 := regist u m in
  match copyData defaultValue with
  | Throw e => (m1, Throw e)
  | Ok dv =>
      let h := length (objects m1) in
      let o := {| UID := u; __default := dv; __locking := false;
                  __uuid := h; unlockDB := None |} in
      (with_objects (objects m1 ++ [o])%list m1, Ok h)
  end.

(** [use()], up to its [await]. *)
Definition use (h : nat) (m : machine) : machine * result unit :=
  match objects m !! h with
  | None => no_object m
  | Some o =>
      if __locking o then (m, Ok ())
      else
        match lockDB h (UID o) (__uuid o) m with
        | (m1, Ok c) => (observe (Requested (UID o) h c) m1, Ok ())
        | (m1, Throw e) => (m1, Throw e)
        end
  end.

Definition close (h : nat) (m : machine) : machine * result unit :=
  match objects m !! h with
  | None => no_object m
  | Some o =>
      match unlockDB o with
      | None => (m, Throw (ThrownString "use a DB before unlock."))
      | Some c =>
          let m1 := resolve_lock c m in
          (with_objects (<[h := with_locking false o]> (objects m1)) m1, Ok ())
      end
  end.

(** [save()], up to its [await]; [k] is who awaits the promise. *)
Definition save_for `{JSONText} (k : cont) (h : nat) (m : machine)
  : machine * result unit :=
  match objects m !! h with
  | None => no_object m
  | Some o =>
      if __locking o then safeWriteDB (UID o) (__uuid o) k m
      else (m, Throw (Error "Cannot save before use!"))
  end.

Definition save `{JSONText} (h : nat) (m : machine) : machine * result unit :=
  save_for KCaller h m.

(** [saveClose()], up to its [await]. *)
Definition saveClose `{JSONText} (h : nat) (m : machine) : machine * result unit :=
  match objects m !! h with
  | None => no_object m
  | Some o =>
      if __locking o then save_for (KSaveClose h) h m
      else (m, Throw (Error "Cannot save before use!"))
  end.

(** [[Symbol.asyncDispose]()], up to its [await]. *)
Definition asyncDispose `{JSONText} (h : nat) (m : machine) : machine * result unit :=
  match objects m !! h with
  | None => no_object m
  | Some o => if __locking o then saveClose h m else (m, Ok ())
  end.

(** [get data()]: where the document counts as false, the default
    object of the handle itself becomes the document. *)
Definition get_data (h : nat) (m : machine) : machine * result jsval :=
  match objects m !! h with
  | None => no_object m
  | Some o =>
      if __locking o then
        match getData (UID o) m with
        | Throw e => (m, Throw e)
        | Ok d =>
            if falsy d then
              match setData (UID o) (__default o) (Some h) m with
              | (m1, Ok _) => (m1, Ok (__default o))
              | (m1, Throw e) => (m1, Throw e)
              end
            else (m, Ok d)
        end
      else (m, Throw (Error "You can't get data before `use`."))
  end.

(** [set data(newData)]. *)
Definition set_data (h : nat) (newData : jsval) (m : machine) : machine * result unit :=
  match objects m !! h with
  | None => no_object m
  | Some o =>
      if __locking o then setData (UID o) newData None m
      else (m, Throw (Error "Cannot set data before use!"))
  end.

(** [datacopy()]. *)
Definition datacopy `{JSONText} (h : nat) (m : machine) : result jsval :=
  match objects m !! h with
  | None => Throw TypeError
  | Some o =>
      match getData (UID o) m with
      | Throw e => Throw e
      | Ok d => if falsy d then copyData (__default o) else copyData d
      end
  end.

(** ** The engine *)

(** Running one continuation taken from the job queue. *)
Definition run_microtask `{JSONText} (t : microtask) (m : machine) : machine :=
  match t with
  | MLockDB_wait c =>
      match lockcalls m !! c with
      | Some l => wait (lc_status l) unlock (lc_uuid l) (TodoLock c) None m
      | None => m
      end
  | MLockDB_return c =>
      match lockcalls m !! c with
      | Some l => schedule (MUse (lc_db l) c) m
      | None => m
      end
  | MUse h c =>
      match objects m !! h with
      | Some o =>
          observe (Locked (UID o) h c)
            (with_objects
               (<[h := with_locking true (with_unlockDB (Some c) o)]> (objects m)) m)
      | None => m
      end
  | MHandler u ev jid res v =>
      let m1 := observe (Finished u ev jid) m in
      let m2 := match res with
                | Some k => schedule (MSafeWriteDB k v) m1
                | None => m1
                end in
      handler u ev m2
  | MSafeWriteDB k v => schedule (MSave k v) m
  | MSave k v =>
      match k with
      | KCaller => m
      | KSaveClose h => schedule (MSaveClose h) m
      end
  | MSaveClose h => fst (close h m)
  end.

(** The engine takes the oldest continuation of the job queue. *)
Definition tick `{JSONText} (m : machine) : machine :=
  match jobqueue m with
  | [] => m
  | t :: q => run_microtask t (with_jobqueue q m)
  end.

(** ** Objects reached by reference: properties and proxies *)

(** The index a property name denotes on an array: the name must be the
    canonical decimal numeral of the index. *)
Definition array_index (k : string) : option nat :=
  match NilZero.uint_of_string k with
  | Some d =>
      let n := Nat.of_uint d in
      if String.eqb (NilZero.string_of_uint (Nat.to_uint n)) k then Some n else None
  | None => None
  end.

(** The names under which every object finds a function it inherits
    from [Object.prototype], and those under which an array finds one it
    inherits from [Array.prototype] (ECMAScript 2023). *)
Definition object_methods : list string :=
  ["constructor"; "hasOwnProperty"; "isPrototypeOf"; "propertyIsEnumerable";
   "toLocaleString"; "toString"; "valueOf";
   "__defineGetter__"; "__defineSetter__"; "__lookupGetter__"; "__lookupSetter__"].

Definition array_methods : list string :=
  ["at"; "concat"; "copyWithin"; "entries"; "every"; "fill"; "filter"; "find";
   "findIndex"; "findLast"; "findLastIndex"; "flat"; "flatMap"; "forEach";
   "includes"; "indexOf"; "join"; "keys"; "lastIndexOf"; "map"; "pop"; "push";
   "reduce"; "reduceRight"; "reverse"; "shift"; "slice"; "some"; "sort"; "splice";
   "toReversed"; "toSorted"; "toSpliced"; "unshift"; "values"; "with"].

Fixpoint assoc_set (k : string) (x : jsval) (ps : list (string * jsval))
  : list (string * jsval) :=
  match ps with
  | [] => [(k, x)]
  | (k', y) :: ps' =>
      if String.eqb k' k then (k', x) :: ps' else (k', y) :: assoc_set k x ps'
  end.

Fixpoint assoc_remove (k : string) (ps : list (string * jsval))
  : list (string * jsval) :=
  match ps with
  | [] => []
  | (k', y) :: ps' =>
      if String.eqb k' k then ps' else (k', y) :: assoc_remove k ps'
  end.

(** The value an object or an array lists under the name [k] as a
    property of its own: a key of the object, an index of the array. *)
Definition own_value (v : jsval) (k : string) : option jsval :=
  match v with
  | VObj ps => assoc_get k ps
  | VArr l =>
      match array_index k with
      | Some i => l !! i
      | None => None
      end
  | _ => None
  end.

(** What reading [v[k]] finds when the object or array lists no such
    property: the length of an array, a function under the name of a
    method it inherits, and [undefined] otherwise.  (The accessor
    [__proto__] is not modelled: the prototype objects are not values of
    the model.  Nor are the properties of primitive values and of
    functions.) *)
Definition inherited_value (v : jsval) (k : string) : jsval :=
  match v with
  | VObj _ => if bool_decide (k ∈ object_methods) then VFun else VUndefined
  | VArr l =>
      if String.eqb k "length" then VNum (Z.of_nat (length l))
      else if bool_decide (k ∈ (array_methods ++ object_methods)%list) then VFun
      else VUndefined
  | _ => VUndefined
  end.

(** [v[k]] for reading. *)
Definition get_prop (v : jsval) (k : string) : jsval :=
  match own_value v k with
  | Some x => x
  | None => inherited_value v k
  end.

(** The ordinary [v[k] = x] on an object or an array (a name that is not
    an index is not recorded on an array). *)
Definition set_prop (v : jsval) (k : string) (x : jsval) : jsval :=
  match v with
  | VObj ps => VObj (assoc_set k x ps)
  | VArr l =>
      match array_index k with
      | Some i =>
          if bool_decide (i < length l)%nat then VArr (<[i := x]> l)
          else VArr (l ++ replicate (i - length l) VUndefined ++ [x])%list
      | None => v
      end
  | _ => v
  end.

(** The ordinary [delete v[k]]; on an array it leaves a hole. *)
Definition delete_prop (v : jsval) (k : string) : jsval :=
  match v with
  | VObj ps => VObj (assoc_remove k ps)
  | VArr l =>
      match array_index k with
      | Some i => VArr (<[i := VUndefined]> l)
      | None => v
      end
  | _ => v
  end.

(** The value found in [doc] by following the property names [p]. *)
Definition deref (doc : jsval) (p : list string) : jsval :=
  fold_left get_prop p doc.

(** [doc] with the value at [p] replaced by its image under [f]. *)
Fixpoint update_at (doc : jsval) (p : list string) (f : jsval -> jsval) : jsval :=
  match p with
  | [] => f doc
  | k :: p' => set_prop doc k (update_at (get_prop doc k) p' f)
  end.

(** An object [makeReadonly] accepts ([typeof data === "object"], not
    [null]). *)
Definition is_object (v : jsval) : bool :=
  match v with
  | VArr _ | VObj _ | VCyc => true
  | _ => false
  end.

(** The two documents a handle can hand out: the shared document of its
    database, and its own copy of the default. *)
Inductive docroot : Type :=
| SharedData (u : string)
| DefaultOf (h : nat).

(** What the application holds after reading a property: a primitive
    value, the object found at a path of a document, a [Proxy] made by
    [makeReadonly] around such an object, or the function [() => {}]. *)
Inductive jsref : Type :=
| Prim (v : jsval)
| Plain (r : docroot) (p : list string)
| Proxy (r : docroot) (p : list string)
| Noop.

(** [makeReadonly(data)], for the value [data] found at [p] in the
    document [r]. *)
Definition makeReadonly (r : docroot) (p : list string) (data : jsval) : jsref :=
  match data with
  | VNull => Prim VNull
  | VArr _ | VObj _ | VCyc => Proxy r p
  | VFun => Noop
  | _ => Prim data
  end.

Definition with_default (v : jsval) (o : SillyDB) : SillyDB :=
  {| UID := UID o; __default := v; __locking := __locking o;
     __uuid := __uuid o; unlockDB := unlockDB o |}.

(** The document a root names ([undefined] when there is none). *)
Definition root_doc (r : docroot) (m : machine) : jsval :=
  match r with
  | SharedData u =>
      match databases m !! u with Some st => __data st | None => VUndefined end
  | DefaultOf h =>
      match objects m !! h with Some o => __default o | None => VUndefined end
  end.

(** The object a database holds as its document, or a handle as its
    default, now has the content [v]. *)
Definition edit_data (u : string) (v : jsval) (m : machine) : machine :=
  match databases m !! u with
  | Some st => with_databases (<[u := with_document v (__data_of st) st]> (databases m)) m
  | None => m
  end.

Definition edit_default (h : nat) (v : jsval) (m : machine) : machine :=
  match objects m !! h with
  | Some o => with_objects (<[h := with_default v o]> (objects m)) m
  | None => m
  end.

(** The object the root names now has the content [v]: where the
    document of a database is the default object of a handle, both see
    it. *)
Definition set_root_doc (r : docroot) (v : jsval) (m : machine) : machine :=
  match r with
  | SharedData u =>
      match databases m !! u with
      | Some st =>
          match __data_of st with
          | Some h => edit_default h v (edit_data u v m)
          | None => edit_data u v m
          end
      | None => m
      end
  | DefaultOf h =>
      match objects m !! h with
      | Some o =>
          match __data_of <$> databases m !! UID o with
          | Some (Some h') =>
              if Nat.eqb h' h then edit_data (UID o) v (edit_default h v m)
              else edit_default h v m
          | _ => edit_default h v m
          end
      | None => m
      end
  end.

(** [o[k]]: a proxy answers through its [get] trap. *)
Definition ref_get (o : jsref) (k : string) (m : machine) : result jsref :=
  match o with
  | Prim VNull | Prim VUndefined => Throw TypeError
  | Prim _ | Noop => Ok (Prim VUndefined)
  | Plain r p =>
      let x := deref (root_doc r m) (p ++ [k]) in
      Ok (if is_object x then Plain r (p ++ [k]) else Prim x)
  | Proxy r p =>
      Ok (makeReadonly r (p ++ [k]) (get_prop (deref (root_doc r m) p) k))
  end.

(** The properties of a function that an assignment cannot write. *)
Definition function_readonly : list string := ["name"; "length"; "caller"; "arguments"].

(** [o[k] = x] in strict code: a proxy answers through its [set] trap,
    which returns [true] and does nothing else. *)
Definition ref_assign (o : jsref) (k : string) (x : jsval) (m : machine)
  : machine * result unit :=
  match o with
  | Prim VFun | Noop =>
      if bool_decide (k ∈ function_readonly) then (m, Throw TypeError) else (m, Ok ())
  | Prim _ => (m, Throw TypeError)
  | Plain r p =>
      (set_root_doc r (update_at (root_doc r m) p (fun v => set_prop v k x)) m, Ok ())
  | Proxy r p => (m, Ok ())
  end.

(** [delete o[k]] in strict code: a proxy answers through its
    [deleteProperty] trap, which returns [true] and does nothing else;
    the engine then refuses that answer for the one property of these
    documents that cannot be deleted, the [length] of an array. *)
Definition ref_delete (o : jsref) (k : string) (m : machine)
  : machine * result unit :=
  match o with
  | Prim VNull | Prim VUndefined => (m, Throw TypeError)
  | Prim _ | Noop => (m, Ok ())
  | Plain r p =>
      match deref (root_doc r m) p with
      | VArr _ =>
          if String.eqb k "length" then (m, Throw TypeError)
          else (set_root_doc r (update_at (root_doc r m) p (fun v => delete_prop v k)) m,
                Ok ())
      | _ => (set_root_doc r (update_at (root_doc r m) p (fun v => delete_prop v k)) m,
              Ok ())
      end
  | Proxy r p =>
      match deref (root_doc r m) p with
      | VArr _ => if String.eqb k "length" then (m, Throw TypeError) else (m, Ok ())
      | _ => (m, Ok ())
      end
  end.

(** [get dataReadonly()]. *)
Definition dataReadonly (h : nat) (m : machine) : result jsref :=
  match objects m !! h with
  | None => Throw TypeError
  | Some o =>
      match getData (UID o) m with
      | Throw e => Throw e
      | Ok d =>
          if falsy d then Ok (makeReadonly (DefaultOf h) [] (__default o))
          else Ok (makeReadonly (SharedData (UID o)) [] d)
      end
  end.

(** The view reached from [o] by reading the properties [p] in turn. *)
Fixpoint navigate (o : jsref) (p : list string) (m : machine) : result jsref :=
  match p with
  | [] => Ok o
  | k :: p' =>
      match ref_get o k m with
      | Ok o' => navigate o' p' m
      | Throw e => Throw e
      end
  end.

(** ** The application *)

(** What the application can do between two continuations. *)
Inductive call : Type :=
| New (u : string) (dv : jsval)
| Use (h : nat)
| Close (h : nat)
| Save (h : nat)
| SaveClose (h : nat)
| Dispose (h : nat)
| GetData (h : nat)
| SetData (h : nat) (v : jsval)
| RootPath (p : option string)
| Assign (o : jsref) (k : string) (x : jsval)
| Delete (o : jsref) (k : string).

Definition perform `{JSONText} (c : call) (m : machine) : machine :=
  match c with
  | New u dv => fst (new_SillyDB u dv m)
  | Use h => fst (use h m)
  | Close h => fst (close h m)
  | Save h => fst (save h m)
  | SaveClose h => fst (saveClose h m)
  | Dispose h => fst (asyncDispose h m)
  | GetData h => fst (get_data h m)
  | SetData h v => fst (set_data h v m)
  | RootPath p => fst (root_path p m)
  | Assign o k x => fst (ref_assign o k x m)
  | Delete o k => fst (ref_delete o k m)
  end.

(** One step of the program: the application makes a call, or the engine
    runs the oldest continuation. *)
Inductive input : Type :=
| Call (c : call)
| Tick.

Definition step `{JSONText} (m : machine) (i : input) : machine :=
  match i with
  | Call c => perform c m
  | Tick => tick m
  end.

Definition run `{JSONText} (ins : list input) (m : machine) : machine :=
  fold_left step ins m.

(** The machine when the module has just been loaded, on the disk [d]. *)
Definition boot (d : filesystem) : machine :=
  {| root := "./data"; databases := ∅; disk := d; objects := [];
     lockcalls := []; jobqueue := []; history := [] |}.

(** The handles of the database [u] that are locked. *)
Definition locked_handles (u : string) (m : machine) : list nat :=
  List.filter (fun h => match objects m !! h with
                   | Some o => String.eqb (UID o) u && __locking o
                   | None => false
                   end)
         (seq 0 (length (objects m))).

(** ** A JSON text syntax *)

(** An instance of the platform's text syntax, used to run the program
    on examples: compact JSON texts, as [JSON.stringify] prints them,
    without insignificant white space and with the two escapes a
    printed string needs. *)
Module Text.

Definition quote : ascii := ascii_of_nat 34.
Definition backslash : ascii := ascii_of_nat 92.

Definition print_num (n : Z) : string := NilEmpty.string_of_int (Z.to_int n).

Definition is_numchar (c : ascii) : bool :=
  bool_decide (c ∈ ["-"; "0"; "1"; "2"; "3"; "4"; "5"; "6"; "7"; "8"; "9"]%char).

(** The longest prefix made of digits and minus signs, and the rest. *)
Fixpoint span_num (s : string) : string * string :=
  match s with
  | EmptyString => (EmptyString, EmptyString)
  | String c s' =>
      if is_numchar c then let (a, b) := span_num s' in (String c a, b)
      else (EmptyString, s)
  end.

Definition parse_num (s : string) : option (Z * string) :=
  let (t, rest) := span_num s in
  match NilEmpty.int_of_string t with
  | Some d =>
      let n := Z.of_int d in
      if String.eqb (print_num n) t then Some (n, rest) else None
  | None => None
  end.

Fixpoint escape (s rest : string) : string :=
  match s with
  | EmptyString => rest
  | String c s' =>
      if Ascii.eqb c quote || Ascii.eqb c backslash
      then String backslash (String c (escape s' rest))
      else String c (escape s' rest)
  end.

Definition print_str (s rest : string) : string :=
  String quote (escape s (String quote rest)).

(** The characters of a string up to its closing quote, and the rest. *)
Fixpoint parse_chars (s : string) : option (string * string) :=
  match s with
  | EmptyString => None
  | String c s' =>
      if Ascii.eqb c quote then Some (EmptyString, s')
      else if Ascii.eqb c backslash then
        match s' with
        | EmptyString => None
        | String c' s'' =>
            if Ascii.eqb c' quote || Ascii.eqb c' backslash then
              match parse_chars s'' with
              | Some (t, r) => Some (String c' t, r)
              | None => None
              end
            else None
        end
      else
        match parse_chars s' with
        | Some (t, r) => Some (String c t, r)
        | None => None
        end
  end.

(** [print v rest]: the text of [v], followed by [rest]. *)
Fixpoint print (v : jsval) (rest : string) : string :=
  match v with
  | VBool true => "true" ++ rest
  | VBool false => "false" ++ rest
  | VNum n => print_num n ++ rest
  | VStr s => print_str s rest
  | VArr l =>
      String "[" ((fix elems (l : list jsval) : string :=
                     match l with
                     | [] => String "]" rest
                     | x :: l' =>
                         print x (match l' with
                                  | [] => String "]" rest
                                  | _ :: _ => String "," (elems l')
                                  end)
                     end) l)
  | VObj ps =>
      String "{" ((fix members (ps : list (string * jsval)) : string :=
                     match ps with
                     | [] => String "}" rest
                     | (k, x) :: ps' =>
                         print_str k
                           (String ":"
                              (print x (match ps' with
                                        | [] => String "}" rest
                                        | _ :: _ => String "," (members ps')
                                        end)))
                     end) ps)
  | VNull | VUndefined | VFun | VCyc => "null" ++ rest
  end.

(** [strip pre s]: what follows [pre] in [s], if [s] starts with it. *)
Fixpoint strip (pre s : string) : option string :=
  match pre, s with
  | EmptyString, _ => Some s
  | String a pre', String b s' => if Ascii.eqb a b then strip pre' s' else None
  | String _ _, EmptyString => None
  end.

(** At least one element, separated by commas, up to the bracket. *)
Fixpoint parse_elems (pv : string -> option (jsval * string)) (n : nat) (s : string)
  : option (list jsval * string) :=
  match n with
  | O => None
  | S n' =>
      match pv s with
      | Some (v, String c r) =>
          if Ascii.eqb c "," then
            match parse_elems pv n' r with
            | Some (vs, r') => Some (v :: vs, r')
            | None => None
            end
          else if Ascii.eqb c "]" then Some ([v], r)
          else None
      | _ => None
      end
  end.

(** At least one member, separated by commas, up to the brace. *)
Fixpoint parse_members (pv : string -> option (jsval * string)) (n : nat) (s : string)
  : option (list (string * jsval) * string) :=
  match n with
  | O => None
  | S n' =>
      match strip (String quote EmptyString) s with
      | None => None
      | Some s1 =>
          match parse_chars s1 with
          | None => None
          | Some (k, s2) =>
              match strip ":" s2 with
              | None => None
              | Some s3 =>
                  match pv s3 with
                  | Some (v, String c r) =>
                      if Ascii.eqb c "," then
                        match parse_members pv n' r with
                        | Some (kvs, r') => Some ((k, v) :: kvs, r')
                        | None => None
                        end
                      else if Ascii.eqb c "}" then Some ([(k, v)], r)
                      else None
                  | _ => None
                  end
              end
          end
      end
  end.

(** The object a list of members denotes: a repeated key keeps its
    first place and its last value. *)
Definition build_object (kvs : list (string * jsval)) : list (string * jsval) :=
  fold_left (fun acc kv => assoc_set (fst kv) (snd kv) acc) kvs [].

Fixpoint parse_value (fuel : nat) (s : string) : option (jsval * string) :=
  match fuel with
  | O => None
  | S fuel' =>
      match s with
      | EmptyString => None
      | String c r =>
          if Ascii.eqb c "n" then option_map (pair VNull) (strip "ull" r)
          else if Ascii.eqb c "t" then option_map (pair (VBool true)) (strip "rue" r)
          else if Ascii.eqb c "f" then option_map (pair (VBool false)) (strip "alse" r)
          else if Ascii.eqb c quote then
            match parse_chars r with
            | Some (t, r') => Some (VStr t, r')
            | None => None
            end
          else if Ascii.eqb c "[" then
            match strip "]" r with
            | Some r' => Some (VArr [], r')
            | None =>
                match parse_elems (parse_value fuel') fuel' r with
                | Some (l, r') => Some (VArr l, r')
                | None => None
                end
            end
          else if Ascii.eqb c "{" then
            match strip "}" r with
            | Some r' => Some (VObj [], r')
            | None =>
                match parse_members (parse_value fuel') fuel' r with
                | Some (kvs, r') => Some (VObj (build_object kvs), r')
                | None => None
                end
            end
          else
            match parse_num s with
            | Some (n, r') => Some (VNum n, r')
            | None => None
            end
      end
  end.

Definition encode (v : jsval) : string := print v EmptyString.

Definition decode (s : string) : option jsval :=
  match parse_value (S (String.length s)) s with
  | Some (v, EmptyString) => Some v
  | _ => None
  end.

(** The elements of an array as [print] lays them out, and the members
    of an object. *)
Fixpoint print_elems (l : list jsval) (rest : string) : string :=
  match l with
  | [] => String "]" rest
  | x :: l' =>
      print x (match l' with
               | [] => String "]" rest
               | _ :: _ => String "," (print_elems l' rest)
               end)
  end.

Fixpoint print_members (ps : list (string * jsval)) (rest : string) : string :=
  match ps with
  | [] => String "}" rest
  | (k, x) :: ps' =>
      print_str k
        (String ":"
           (print x (match ps' with
                     | [] => String "}" rest
                     | _ :: _ => String "," (print_members ps' rest)
                     end)))
  end.

(** A text that can follow a number: it does not go on with a digit. *)
Definition ok_rest (rest : string) : Prop :=
  match rest with
  | EmptyString => True
  | String c _ => is_numchar c = false
  end.

(** With fuel [f], the text of [x] is read back as [x]. *)
Definition parses_back (f : nat) (x : jsval) : Prop :=
  forall rest, ok_rest rest -> parse_value f (print x rest) = Some (x, rest).

End Text.

(** The number of nodes of a value. *)
Fixpoint jsval_size (v : jsval) : nat :=
  match v with
  | VArr l => S (list_sum (map jsval_size l))
  | VObj ps => S (list_sum (map (fun kv => jsval_size (snd kv)) ps))
  | _ => 1
  end.

(** ** Notions used by the statements *)

(** The two files of the database [u]. *)
Definition primary_file (u : string) (m : machine) : path :=
  (getPath u m ++ ["data.json"])%list.

Definition swap_file (u : string) (m : machine) : path :=
  (getPath u m ++ ["data.swp.json"])%list.

(** The load the specification describes, from the contents of the two
    files: parse the primary; on any failure parse the swap; when both
    fail the document is absent. *)
Definition load_chain `{JSONText} (primary swap : option string) : jsval :=
  match primary ≫= json_decode with
  | Some v => v
  | None =>
      match swap ≫= json_decode with
      | Some v => v
      | None => VUndefined
      end
  end.

(** The job [save()] gives to the flush queue for the handle [o]: the
    closure [() => this.writeDB(db)], the uuid of the handle, and the
    caller of [save()] as the one who awaits. *)
Definition save_job (o : SillyDB) : DBTransaction :=
  {| job_todo := TodoWrite (UID o); job_uuid := __uuid o; job_resolve := Some KCaller |}.

(** A restart of the process: the disk stays, everything in memory is as
    when the module has just been loaded, and the root path is configured
    as before. *)
Definition restart (m : machine) : machine :=
  with_root (root m) (boot (disk m)).

(** What [writeDB] does to the disk, from the path, the document it is
    given by [getData], and the disk. *)
Definition write_files `{JSONText} (dir : path) (data : result jsval) (d : filesystem)
  : filesystem * string :=
  match data with
  | Throw _ => (d, "failed")
  | Ok x =>
      match writeToPath dir "data.swp.json" x d with
      | (d1, Throw _) => (d1, "failed")
      | (d1, Ok _) =>
          match writeToPath dir "data.json" x d1 with
          | (d2, Throw _) => (d2, "failed")
          | (d2, Ok _) => (d2, "success")
          end
      end
  end.



(** Every object inside the value lists each of its keys once, as the
    objects of the language do. *)
Fixpoint unique_keys (v : jsval) : bool :=
  match v with
  | VArr l => forallb unique_keys l
  | VObj ps =>
      bool_decide (NoDup (map fst ps))
      && (fix go (ps : list (string * jsval)) : bool :=
            match ps with
            | [] => true
            | (_, x) :: ps' => unique_keys x && go ps'
            end) ps
  | _ => true
  end.

(** The traversal of [serialize] along a list of elements and along a
    list of properties. *)
Fixpoint serialize_elems (l : list jsval) : option (list jsval) :=
  match l with
  | [] => Some []
  | x :: l' =>
      match serialize x, serialize_elems l' with
      | SThrow, _ | _, None => None
      | SUndefined, Some r => Some (VNull :: r)
      | SValue j, Some r => Some (j :: r)
      end
  end.

Fixpoint serialize_props (ps : list (string * jsval)) : option (list (string * jsval)) :=
  match ps with
  | [] => Some []
  | (k, x) :: ps' =>
      match serialize x, serialize_props ps' with
      | SThrow, _ | _, None => None
      | SUndefined, Some r => Some r
      | SValue j, Some r => Some ((k, j) :: r)
      end
  end.

(** * The text syntax is an instance *)

(** ** Induction on values *)

Lemma jsval_ind_nested (P : jsval -> Prop) :
  P VUndefined -> P VNull -> (forall b, P (VBool b)) -> (forall n, P (VNum n)) ->
  (forall s, P (VStr s)) -> P VFun ->
  (forall l, Forall P l -> P (VArr l)) ->
  (forall ps, Forall (fun kv => P (snd kv)) ps -> P (VObj ps)) ->
  P VCyc ->
  forall v, P v.
Proof.
  intros Hu Hn Hb Hz Hs Hf Ha Ho Hc.
  fix IH 1. intros [ | | b | n | s | | l | ps | ].
  - exact Hu.
  - exact Hn.
  - apply Hb.
  - apply Hz.
  - apply Hs.
  - exact Hf.
  - apply Ha. induction l as [|x l IHl]; constructor; [apply IH | exact IHl].
  - apply Ho. induction ps as [|[k x] ps IHps]; constructor; [apply IH | exact IHps].
  - exact Hc.
Qed.

Lemma is_json_VArr l : is_json (VArr l) = true <-> Forall (fun x => is_json x = true) l.
Proof.
  simpl. rewrite forallb_forall, List.Forall_forall. reflexivity.
Qed.

Lemma is_json_VObj ps :
  is_json (VObj ps) = true <->
  NoDup (map fst ps) /\ Forall (fun kv => is_json (snd kv) = true) ps.
Proof.
  simpl. rewrite andb_true_iff, bool_decide_eq_true.
  apply and_iff_compat_l.
  induction ps as [|[k x] ps IH]; simpl.
  - split; auto.
  - rewrite andb_true_iff, IH, Forall_cons. reflexivity.
Qed.

(** ** The text syntax round trip *)

Module TextFacts.
Import Text.

Lemma strip_app pre r : strip pre (pre ++ r) = Some r.
Proof.
  induction pre as [|a pre IH]; simpl; [reflexivity|].
  rewrite Ascii.eqb_refl. exact IH.
Qed.

Lemma uint_numchars d rest :
  ok_rest rest ->
  span_num (NilEmpty.string_of_uint d ++ rest) = (NilEmpty.string_of_uint d, rest).
Proof.
  intros Hr. induction d; simpl;
    try (rewrite IHd; reflexivity).
  destruct rest as [|c r]; simpl in *; [reflexivity|]. rewrite Hr. reflexivity.
Qed.

Lemma span_print_num n rest :
  ok_rest rest -> span_num (print_num n ++ rest) = (print_num n, rest).
Proof.
  intros Hr. unfold print_num. destruct (Z.to_int n) as [d|d]; simpl.
  - apply uint_numchars, Hr.
  - rewrite uint_numchars by exact Hr. reflexivity.
Qed.

Lemma parse_print_num n rest :
  ok_rest rest -> parse_num (print_num n ++ rest) = Some (n, rest).
Proof.
  intros Hr. unfold parse_num. rewrite span_print_num by exact Hr.
  unfold print_num at 1. rewrite NilEmpty.isi, DecimalZ.of_to.
  rewrite String.eqb_refl. reflexivity.
Qed.

Lemma parse_chars_escape s rest :
  parse_chars (escape s (String quote rest)) = Some (s, rest).
Proof.
  induction s as [|c s IH]; simpl; [reflexivity|].
  destruct (Ascii.eqb c quote) eqn:Hq; simpl.
  - rewrite Hq. simpl. rewrite IH. reflexivity.
  - destruct (Ascii.eqb c backslash) eqn:Hb; simpl.
    + rewrite Hq, Hb. rewrite orb_true_r. rewrite IH. reflexivity.
    + rewrite Hq, Hb, IH. reflexivity.
Qed.

Lemma numchar_head c :
  is_numchar c = true ->
  Ascii.eqb c "n" = false /\ Ascii.eqb c "t" = false /\ Ascii.eqb c "f" = false /\
  Ascii.eqb c quote = false /\ Ascii.eqb c "[" = false /\ Ascii.eqb c "{" = false /\
  Ascii.eqb "]" c = false.
Proof.
  destruct c as [[] [] [] [] [] [] [] []]; vm_compute; intros Hc;
    first [discriminate Hc | repeat split].
Qed.

Lemma uint_head d :
  d <> Decimal.Nil ->
  exists c r, NilEmpty.string_of_uint d = String c r /\ is_numchar c = true.
Proof.
  destruct d; intros Hd; [congruence | simpl; eexists _, _; split; reflexivity ..].
Qed.

Lemma print_num_head n :
  exists c r, print_num n = String c r /\ is_numchar c = true.
Proof.
  unfold print_num. destruct n as [|p|p]; simpl.
  - eexists _, _; split; reflexivity.
  - apply uint_head, DecimalPos.Unsigned.to_uint_nonnil.
  - eexists _, _; split; reflexivity.
Qed.

Lemma print_VArr l rest : print (VArr l) rest = String "[" (print_elems l rest).
Proof. simpl. f_equal. induction l as [|x l IH]; simpl; [reflexivity|]. rewrite IH. reflexivity. Qed.

Lemma print_VObj ps rest : print (VObj ps) rest = String "{" (print_members ps rest).
Proof.
  simpl. f_equal. induction ps as [|[k x] ps IH]; simpl; [reflexivity|].
  rewrite IH. reflexivity.
Qed.

(** A printed value never starts with a closing bracket. *)
Lemma print_head v rest :
  exists c r, print v rest = String c r /\ Ascii.eqb "]" c = false.
Proof.
  destruct v as [ | | [] | n | s | | l | ps | ];
    try (simpl; eexists _, _; split; reflexivity).
  - destruct (print_num_head n) as (c & r & Hp & Hc).
    simpl. rewrite Hp. simpl. eexists _, _; split; [reflexivity|].
    apply numchar_head in Hc. tauto.
Qed.

Lemma assoc_set_fresh k x acc :
  k ∉ map fst acc -> assoc_set k x acc = (acc ++ [(k, x)])%list.
Proof.
  induction acc as [|[k' y] acc IH]; simpl; intros Hk; [reflexivity|].
  rewrite not_elem_of_cons in Hk. destruct Hk as [Hne Hk].
  destruct (String.eqb_spec k' k) as [->|_]; [congruence|].
  rewrite IH by exact Hk. reflexivity.
Qed.

Lemma build_object_nodup kvs : NoDup (map fst kvs) -> build_object kvs = kvs.
Proof.
  unfold build_object.
  enough (forall acc, NoDup (map fst (acc ++ kvs)%list) ->
            fold_left (fun acc kv => assoc_set (fst kv) (snd kv) acc) kvs acc
            = (acc ++ kvs)%list) as Hgen by (intros Hn; apply (Hgen [] Hn)).
  induction kvs as [|[k x] kvs IH]; intros acc Hn; simpl.
  - rewrite app_nil_r. reflexivity.
  - rewrite assoc_set_fresh.
    + rewrite IH; rewrite <- app_assoc; [reflexivity | exact Hn].
    + rewrite map_app in Hn. simpl in Hn.
      apply NoDup_app in Hn. destruct Hn as (_ & Hd & _).
      intros Hin. apply (Hd k Hin). left.
Qed.
End TextFacts.

Module TextRoundTrip.
Import Text TextFacts.

Lemma parse_elems_print f rest l :
  Forall (parses_back f) l -> l <> [] ->
  forall n, (length l <= n)%nat ->
  parse_elems (parse_value f) n (print_elems l rest) = Some (l, rest).
Proof.
  induction 1 as [|x l Hx Hl IH]; intros Hne n Hn; [congruence|].
  destruct n as [|n]; simpl in Hn; [lia|].
  simpl. destruct l as [|y l'].
  - rewrite Hx by reflexivity. reflexivity.
  - rewrite Hx by reflexivity. simpl.
    rewrite IH; [reflexivity | congruence | simpl in *; lia].
Qed.

Lemma parse_members_print f rest ps :
  Forall (fun kv => parses_back f (snd kv)) ps -> ps <> [] ->
  forall n, (length ps <= n)%nat ->
  parse_members (parse_value f) n (print_members ps rest) = Some (ps, rest).
Proof.
  induction 1 as [|[k x] ps Hx Hl IH]; intros Hne n Hn; [congruence|].
  destruct n as [|n]; simpl in Hn; [lia|].
  simpl in Hx.
  cbn [parse_members print_members print_str strip].
  rewrite Ascii.eqb_refl, parse_chars_escape.
  cbn [strip]. rewrite Ascii.eqb_refl.
  destruct ps as [|q ps'].
  - rewrite Hx by reflexivity. reflexivity.
  - rewrite Hx by reflexivity.
    cbn [Ascii.eqb]. simpl Ascii.eqb.
    rewrite IH; [reflexivity | congruence | simpl in *; lia].
Qed.

Lemma size_elems_le (l : list jsval) :
  (length l <= list_sum (map jsval_size l))%nat.
Proof.
  induction l as [|x l IH]; simpl; [lia|].
  destruct x; simpl; lia.
Qed.

Lemma size_members_le (ps : list (string * jsval)) :
  (length ps <= list_sum (map (fun kv => jsval_size (snd kv)) ps))%nat.
Proof.
  induction ps as [|[k x] ps IH]; simpl; [lia|].
  destruct x; simpl; lia.
Qed.

Lemma size_in_le {A} (f : A -> nat) (x : A) (l : list A) :
  x ∈ l -> (f x <= list_sum (map f l))%nat.
Proof.
  induction 1 as [x l|x y l _ IH]; simpl; lia.
Qed.

Lemma parse_print v :
  is_json v = true ->
  forall fuel, (jsval_size v < fuel)%nat -> parses_back fuel v.
Proof.
  induction v as [ | | b | n | s | | l IHl | ps IHps | ] using jsval_ind_nested;
    intros Hj fuel Hf rest Hr; try discriminate Hj;
    (destruct fuel as [|f]; [lia|]).
  - reflexivity.
  - destruct b; reflexivity.
  - destruct (print_num_head n) as (c & r & Hp & Hc).
    pose proof (parse_print_num n rest Hr) as Hn.
    cbn [print]. rewrite Hp in *.
    apply numchar_head in Hc. destruct Hc as (H1 & H2 & H3 & H4 & H5 & H6 & _).
    change (String c r ++ rest) with (String c (r ++ rest)) in *.
    cbn [parse_value].
    rewrite H1, H2, H3, H4, H5, H6, Hn. reflexivity.
  - cbn [print print_str parse_value]. simpl Ascii.eqb. cbn iota.
    rewrite parse_chars_escape. reflexivity.
  - rewrite print_VArr. cbn [parse_value]. simpl Ascii.eqb. cbn iota.
    destruct l as [|x l]; [reflexivity|].
    destruct (print_head x (match l with
                            | [] => String "]" rest
                            | _ :: _ => String "," (print_elems l rest)
                            end)) as (c & r & Hp & Hc).
    assert (Hs : strip "]" (print_elems (x :: l) rest) = None).
    { cbn [print_elems]. rewrite Hp. cbn [strip]. rewrite Hc. reflexivity. }
    rewrite Hs.
    apply is_json_VArr in Hj.
    rewrite parse_elems_print; [reflexivity | | congruence | ].
    + apply Forall_forall. intros y Hy.
      rewrite Forall_forall in IHl, Hj.
      apply IHl; [exact Hy | apply Hj, Hy | ].
      cbn [jsval_size] in Hf. pose proof (size_in_le jsval_size y _ Hy). lia.
    + cbn [jsval_size] in Hf. pose proof (size_elems_le (x :: l)). lia.
  - rewrite print_VObj. cbn [parse_value]. simpl Ascii.eqb. cbn iota.
    destruct ps as [|[k x] ps]; [reflexivity|].
    assert (Hs : strip "}" (print_members ((k, x) :: ps) rest) = None) by reflexivity.
    rewrite Hs.
    apply is_json_VObj in Hj. destruct Hj as [Hnd Hj].
    rewrite parse_members_print; [ | | congruence | ].
    + rewrite build_object_nodup by exact Hnd. reflexivity.
    + apply Forall_forall. intros y Hy.
      rewrite Forall_forall in IHps, Hj.
      apply IHps; [exact Hy | apply Hj, Hy | ].
      cbn [jsval_size] in Hf.
      pose proof (size_in_le (fun kv => jsval_size (snd kv)) y _ Hy). simpl in *. lia.
    + cbn [jsval_size] in Hf. pose proof (size_members_le ((k, x) :: ps)). lia.
Qed.

Lemma length_app_string (a b : string) :
  String.length (a ++ b) = (String.length a + String.length b)%nat.
Proof. induction a as [|c a IH]; simpl; [reflexivity | rewrite IH; reflexivity]. Qed.

Lemma length_escape s rest :
  (String.length rest <= String.length (escape s rest))%nat.
Proof.
  induction s as [|c s IH]; simpl; [lia|].
  destruct (Ascii.eqb c quote || Ascii.eqb c backslash); simpl; lia.
Qed.

Lemma length_print v :
  forall rest, (jsval_size v + String.length rest <= String.length (print v rest))%nat.
Proof.
  induction v as [ | | b | n | s | | l IHl | ps IHps | ] using jsval_ind_nested;
    intros rest;
    try (cbn [print jsval_size]; rewrite length_app_string; simpl; lia).
  - destruct b; cbn [print jsval_size]; rewrite length_app_string; simpl; lia.
  - destruct (print_num_head n) as (c & r & Hp & _).
    cbn [print jsval_size]. rewrite Hp, length_app_string. simpl. lia.
  - cbn [print print_str jsval_size String.length].
    pose proof (length_escape s (String quote rest)) as He.
    cbn [String.length] in He. lia.
  - rewrite print_VArr. cbn [jsval_size String.length].
    enough (list_sum (map jsval_size l) + String.length rest
            <= String.length (print_elems l rest))%nat by lia.
    induction IHl as [|x l Hx _ IH]; cbn [print_elems map list_sum fold_right String.length];
      [lia|].
    destruct l as [|y l'].
    + specialize (Hx (String "]" rest)).
      cbn [map list_sum fold_right String.length] in *. unfold list_sum in *. lia.
    + specialize (Hx (String "," (print_elems (y :: l') rest))).
      cbn [String.length] in Hx. unfold list_sum in *. lia.
  - rewrite print_VObj. cbn [jsval_size String.length].
    enough (list_sum (map (fun kv => jsval_size (snd kv)) ps) + String.length rest
            <= String.length (print_members ps rest))%nat by lia.
    induction IHps as [|[k x] ps Hx _ IH];
      cbn [print_members print_str map list_sum fold_right String.length snd];
      [lia|].
    cbn [snd] in Hx.
    match goal with |- (_ <= S (String.length (escape k (String quote (String ":" ?t)))))%nat =>
      pose proof (length_escape k (String quote (String ":" t))) as He;
      cbn [String.length] in He end.
    destruct ps as [|y ps'].
    + specialize (Hx (String "}" rest)).
      cbn [map list_sum fold_right String.length] in *. unfold list_sum in *. lia.
    + specialize (Hx (String "," (print_members (y :: ps') rest))).
      cbn [String.length] in Hx. unfold list_sum in *. lia.
Qed.

Lemma decode_encode j : is_json j = true -> decode (encode j) = Some j.
Proof.
  intros Hj. unfold decode, encode.
  rewrite (parse_print j Hj); [reflexivity | | exact I].
  pose proof (length_print j EmptyString). simpl in *. lia.
Qed.

Lemma decode_undefined : decode "undefined" = None.
Proof. reflexivity. Qed.

End TextRoundTrip.

(** The concrete syntax is an instance of the platform's. *)
#[export] Instance text_syntax : JSONText := {|
  json_encode := Text.encode;
  json_decode := Text.decode;
  json_decode_encode := TextRoundTrip.decode_encode;
  json_decode_undefined := TextRoundTrip.decode_undefined;
|}.

(** ** Sample runs *)

Module Example.

(** A database, an empty disk, and a disk that already holds a saved
    document. *)
Definition u : string := "SillyDB.UserDB".

Definition empty_disk : filesystem :=
  {| dirs := ∅; files := ∅; readonly := ∅; journal := []; stringified := 0 |}.

(** One handle with default [[]] is constructed and opened: [use()],
    then the three continuations that lead to the lock, then a first
    read of [data]. *)
Definition opened : machine :=
  run [Call (New u (VArr [])); Call (Use 0); Tick; Tick; Tick; Call (GetData 0)]
      (boot empty_disk).

End Example.

(** A reference through which the application cannot reach a document
    object itself. *)
Definition guarded (o : jsref) : Prop :=
  match o with
  | Plain _ _ => False
  | _ => True
  end.

(** The document [dataReadonly] wraps: the shared one, or the default of
    the handle when the shared one is absent (or any value that counts
    as false). *)
Definition view_root (h : nat) (m : machine) : option docroot :=
  match objects m !! h with
  | None => None
  | Some o =>
      match databases m !! UID o with
      | None => None
      | Some st => Some (if falsy (__data st) then DefaultOf h else SharedData (UID o))
      end
  end.

(** An object or an array: what has properties of its own. *)
Definition is_container (v : jsval) : bool :=
  match v with
  | VArr _ | VObj _ => true
  | _ => false
  end.

(** The property [k] of [v] is the length of an array: the one property
    of a document that cannot be deleted. *)
Definition array_length (v : jsval) (k : string) : bool :=
  match v with
  | VArr _ => String.eqb k "length"
  | _ => false
  end.

Module Scenario.
Import Example.

(** The shared document of the sample run is replaced by a nested one. *)
Definition nested_doc : jsval :=
  VObj [("a", VObj [("b", VArr [VNum 1; VNum 2])]); ("n", VNum 7)].

Definition nested : machine := run [Call (SetData 0 nested_doc)] opened.

(** A disk whose primary file is damaged and whose swap file is whole. *)
Definition damaged_disk : filesystem :=
  {| dirs := {[ ["./data"]; ["./data"; "UserDB"] ]};
     files := {[ ["./data"; "UserDB"; "data.json"] := "[1,";
                 ["./data"; "UserDB"; "data.swp.json"] := "[1,2]" ]};
     readonly := ∅; journal := []; stringified := 0 |}.

(** A session that stores the number 0 and closes: the handle is
    constructed with the default ["none"] and opened, [data] is set to
    0, [saveClose()] is called, and the engine runs the continuations of
    the save and of the close. *)
Definition stored_zero : machine :=
  run [Call (New u (VStr "none")); Call (Use 0); Tick; Tick; Tick;
       Call (SetData 0 (VNum 0)); Call (SaveClose 0); Tick; Tick; Tick; Tick; Tick]
      (boot empty_disk).

(** A second session on the same database: a new handle is constructed
    and opened. *)
Definition reopened : machine :=
  run [Call (New u (VStr "none")); Call (Use 1); Tick; Tick; Tick] stored_zero.

(** The same second session after a restart of the process. *)
Definition reopened_after_restart : machine :=
  run [Call (New u (VStr "none")); Call (Use 0); Tick; Tick; Tick] (restart stored_zero).

(** A handle that was opened and then closed. *)
Definition closed : machine := run [Call (Close 0)] opened.

(** Two saves that overlap: the locked handle stores 1 and calls
    [save()], then stores 2 and calls [save()] again before the engine
    has run any continuation. *)
Definition overlapping_saves : list input :=
  [Call (SetData 0 (VNum 1)); Call (Save 0);
   Call (SetData 0 (VNum 2)); Call (Save 0)].

End Scenario.

(** ** Notions for the lock *)

(** The lock calls of the database [u] among the numbers [cs]. *)
Definition ids_with (u : string) (ls : list lockcall) (cs : list nat) : list nat :=
  filter (fun c => lc_status <$> ls !! c = Some u) cs.

Definition lock_db (m : machine) (c : nat) : option nat := lc_db <$> lockcalls m !! c.

(** Whether the [lock] promise of the call [c] has been resolved. *)
Definition resolved (m : machine) (c : nat) : bool :=
  match lockcalls m !! c with Some l => lc_resolved l | None => false end.

Definition wait_id (t : microtask) : option nat :=
  match t with MLockDB_wait c => Some c | _ => None end.

Definition grant_id (t : microtask) : option nat :=
  match t with MLockDB_return c | MUse _ c => Some c | _ => None end.

Definition job_lock (j : DBTransaction) : option nat :=
  match job_todo j with TodoLock c => Some c | TodoWrite _ => None end.

Definition locked_id (u : string) (o : observation) : option nat :=
  match o with
  | Locked u' _ c => if decide (u' = u) then Some c else None
  | _ => None
  end.

Definition is_resume (u : string) (ev : event) (t : microtask) : bool :=
  match t with
  | MHandler u' ev' _ _ _ =>
      String.eqb u' u && match ev', ev with
                         | unlock, unlock | write_end, write_end => true
                         | _, _ => false
                         end
  | _ => false
  end.

Definition queue_of (u : string) (ev : event) (m : machine) : Transaction :=
  match databases m !! u with
  | Some st => transactions st ev
  | None => empty_transaction
  end.

(** The lock calls of [u], in the order in which they were made. *)
Definition requested (u : string) (m : machine) : list nat :=
  ids_with u (lockcalls m) (seq 0 (length (lockcalls m))).

(** Those that have not yet reached the queue of [u]. *)
Definition waiting (u : string) (m : machine) : list nat :=
  ids_with u (lockcalls m) (omap wait_id (jobqueue m)).

(** Those that wait in the queue of [u]. *)
Definition queued (u : string) (m : machine) : list nat :=
  omap job_lock (tx_list (queue_of u unlock m)).

(** Those whose job has started and whose [use()] has not yet resumed. *)
Definition granting (u : string) (m : machine) : list nat :=
  ids_with u (lockcalls m) (omap grant_id (jobqueue m)).

(** Those whose [use()] has completed, in the order of completion. *)
Definition locked (u : string) (m : machine) : list nat :=
  omap (locked_id u) (history m).

(** Those whose job has started. *)
Definition started (u : string) (m : machine) : list nat :=
  (locked u m ++ granting u m)%list.

(** The handler continuations of a queue that are ready to run. *)
Definition resumes (u : string) (ev : event) (m : machine) : list microtask :=
  List.filter (is_resume u ev) (jobqueue m).

(** The handle [h] is a locked handle of the database [u]. *)
Definition holds (m : machine) (h : nat) (u : string) : Prop :=
  exists o, objects m !! h = Some o /\ UID o = u /\ __locking o = true.

(** The job [wait] makes for the lock call [c]. *)
Definition lock_job (c : nat) (l : lockcall) : DBTransaction :=
  {| job_todo := TodoLock c; job_uuid := lc_uuid l; job_resolve := None |}.

(** What a continuation of the job queue refers to exists. *)
Definition task_ok (m : machine) (t : microtask) : Prop :=
  match t with
  | MLockDB_wait c | MLockDB_return c => (c < length (lockcalls m))%nat
  | MUse h c => lock_db m c = Some h
  | MHandler u ev _ res _ =>
      is_Some (databases m !! u) /\ (ev = unlock -> res = None)
  | _ => True
  end.

(** The invariant of the lock. *)
Record lock_inv (m : machine) : Prop := {
  inv_fifo : forall u,
    requested u m = (locked u m ++ granting u m ++ queued u m ++ waiting u m)%list;
  inv_tasks : forall t, t ∈ jobqueue m -> task_ok m t;
  inv_jobs : forall u j,
    j ∈ tx_list (queue_of u unlock m) -> exists c, job_todo j = TodoLock c /\ job_resolve j = None;
  inv_wjobs : forall u j,
    j ∈ tx_list (queue_of u write_end m) -> exists u', job_todo j = TodoWrite u';
  inv_frames : forall c l,
    lockcalls m !! c = Some l ->
    (exists o, objects m !! lc_db l = Some o /\ UID o = lc_status l)
    /\ is_Some (databases m !! lc_status l)
    /\ (forall t, lc_parked l = Some t ->
          (exists jid, t = MHandler (lc_status l) unlock jid None None)
          /\ c ∈ started (lc_status l) m);
  inv_last : forall u c,
    c ∈ started u m -> resolved m c = false -> last (started u m) = Some c;
  inv_pending : forall u c,
    c ∈ (granting u m ++ queued u m ++ waiting u m)%list -> resolved m c = false;
  inv_idle : forall u,
    tx_uuid (queue_of u unlock m) = None ->
    tx_list (queue_of u unlock m) = []
    /\ (forall c, c ∈ started u m -> resolved m c = true)
    /\ resumes u unlock m = [];
  inv_resume : forall u,
    (length (resumes u unlock m) <= 1)%nat
    /\ (resumes u unlock m <> [] -> forall c, c ∈ started u m -> resolved m c = true);
  inv_handles : forall h o,
    objects m !! h = Some o ->
    (__locking o = true -> is_Some (unlockDB o))
    /\ (forall c, unlockDB o = Some c ->
          c ∈ locked (UID o) m /\ lock_db m c = Some h
          /\ (__locking o = true -> resolved m c = false));
}.

(** A continuation that is neither of the lock nor of an unlock queue. *)
Definition quiet_task (t : microtask) : Prop :=
  match t with
  | MHandler _ write_end _ _ _ | MSafeWriteDB _ _ | MSave _ _ | MSaveClose _ => True
  | _ => False
  end.

(** The jobs of the flush queues are writes. *)
Definition write_jobs (m : machine) : Prop :=
  forall u j, j ∈ tx_list (queue_of u write_end m) -> exists u', job_todo j = TodoWrite u'.

(** [m'] differs from [m] by nothing the invariant of the lock looks at. *)
Record quiet (m m' : machine) : Prop := {
  q_lockcalls : lockcalls m' = lockcalls m;
  q_wait : omap wait_id (jobqueue m') = omap wait_id (jobqueue m);
  q_grant : omap grant_id (jobqueue m') = omap grant_id (jobqueue m);
  q_resumes : forall u, resumes u unlock m' = resumes u unlock m;
  q_tasks : forall t, t ∈ jobqueue m' -> t ∈ jobqueue m \/ task_ok m' t;
  q_locked : forall u, locked u m' = locked u m;
  q_queue : forall u, queue_of u unlock m' = queue_of u unlock m;
  q_statuses : forall u, is_Some (databases m !! u) -> is_Some (databases m' !! u);
  q_handles : forall h o, objects m !! h = Some o ->
     exists o', objects m' !! h = Some o' /\ UID o' = UID o;
  q_handles' : forall h o', objects m' !! h = Some o' ->
     (exists o, objects m !! h = Some o /\ UID o = UID o'
                /\ __locking o = __locking o' /\ unlockDB o = unlockDB o')
     \/ (objects m !! h = None /\ __locking o' = false /\ unlockDB o' = None);
  q_wjobs : write_jobs m -> write_jobs m';
}.


(** The machine with the running mark of the unlock queue of [u] set to
    [a]. *)
Definition set_uuid (u : string) (a : option nat) (m : machine) : machine :=
  match databases m !! u with
  | Some st =>
      with_databases
        (<[u := with_transaction unlock
                  {| tx_list := tx_list (tx_unlock st); tx_uuid := a |} st]> (databases m)) m
  | None => m
  end.

(** The step [i] runs [close()] on the handle [h]: the application calls
    it, or the [saveClose()] of the handle resumes after its save. *)
Definition releases (i : input) (m : machine) (h : nat) : bool :=
  match i with
  | Call (Close h') => Nat.eqb h' h
  | Tick =>
      match jobqueue m with
      | MSaveClose h' :: _ => Nat.eqb h' h
      | _ => false
      end
  | _ => false
  end.

(** No step of [ins], run from [m], runs [close()] on [h]. *)
Fixpoint unreleased `{JSONText} (h : nat) (ins : list input) (m : machine) : bool :=
  match ins with
  | [] => true
  | i :: rest => negb (releases i m h) && unreleased h rest (step m i)
  end.

(** Two handles of one database race for its lock. *)
Module Race.
Definition u : string := "SillyDB.UserDB".
Definition start : list input :=
  [Call (New u VNull); Call (New u VNull); Call (Use 0); Call (Use 1); Tick; Tick; Tick; Tick].
Definition later : list input :=
  [Tick; Tick; Call (Save 0); Tick; Tick; Tick; Call (Use 1); Tick; Tick].
End Race.

(** ** Notions for the order of the queues *)

(** The queue [ev'] of [u'] is the queue [ev] of [u]. *)
Definition same_queue (u : string) (ev : event) (u' : string) (ev' : event) : bool :=
  is_resume u ev (MHandler u' ev' 0%nat None None).

(** What an observation says of the queue [ev] of the database [u]. *)
Definition enqueued_job (u : string) (ev : event) (o : observation) : option DBTransaction :=
  match o with
  | Enqueued u' ev' j => if same_queue u ev u' ev' then Some j else None
  | _ => None
  end.

Definition started_job (u : string) (ev : event) (o : observation) : option DBTransaction :=
  match o with
  | Started u' ev' j => if same_queue u ev u' ev' then Some j else None
  | _ => None
  end.

Definition finished_id (u : string) (ev : event) (o : observation) : option nat :=
  match o with
  | Finished u' ev' jid =>
      if same_queue u ev u' ev' then Some jid else None
  | _ => None
  end.

(** The jobs given to the queue [ev] of [u], in the order of the calls
    of [wait]. *)
Definition enqueued (u : string) (ev : event) (m : machine) : list DBTransaction :=
  omap (enqueued_job u ev) (history m).

(** The jobs the queue has started, in the order in which it started
    them. *)
Definition started_jobs (u : string) (ev : event) (m : machine) : list DBTransaction :=
  omap (started_job u ev) (history m).

(** The jobs whose [await todo()] has returned. *)
Definition finished (u : string) (ev : event) (m : machine) : list nat :=
  omap (finished_id u ev) (history m).

(** 1 when the queue carries the mark of a running job. *)
Definition active (u : string) (ev : event) (m : machine) : nat :=
  match tx_uuid (queue_of u ev m) with Some _ => 1%nat | None => 0%nat end.

(** The lock call holds back the handler of the queue [ev] of [u]. *)
Definition parked_resume (u : string) (ev : event) (l : lockcall) : bool :=
  negb (lc_resolved l)
  && match lc_parked l with Some t => is_resume u ev t | None => false end.

(** How many continuations of the handler of the queue exist: those
    ready to run and those that wait for a lock to be released. *)
Definition pending (u : string) (ev : event) (m : machine) : nat :=
  (length (resumes u ev m) + length (List.filter (parked_resume u ev) (lockcalls m)))%nat.

Record queue_ok (u : string) (ev : event) (m : machine) : Prop := {
  qk_fifo : enqueued u ev m = (started_jobs u ev m ++ tx_list (queue_of u ev m))%list;
  qk_count :
    length (started_jobs u ev m) = (length (finished u ev m) + active u ev m)%nat;
  qk_pending : (pending u ev m <= active u ev m)%nat;
}.

(** The handles of [u] whose [use()] asked for the lock, in the order of
    the calls, and those whose [use()] completed, in the order of
    completion. *)
Definition opened_by (u : string) (o : observation) : option nat :=
  match o with
  | Requested u' h _ => if decide (u' = u) then Some h else None
  | _ => None
  end.

Definition locked_by (u : string) (o : observation) : option nat :=
  match o with
  | Locked u' h _ => if decide (u' = u) then Some h else None
  | _ => None
  end.

Definition opened (u : string) (m : machine) : list nat := omap (opened_by u) (history m).

Definition became_locked (u : string) (m : machine) : list nat :=
  omap (locked_by u) (history m).

Definition requested_id (u : string) (o : observation) : option nat :=
  match o with
  | Requested u' _ c => if decide (u' = u) then Some c else None
  | _ => None
  end.

(** The observation is of a lock call. *)
Definition lock_event (o : observation) : bool :=
  match o with Requested _ _ _ | Locked _ _ _ => true | _ => false end.

(** The record of the lock calls agrees with the calls made. *)
Record hist_inv (m : machine) : Prop := {
  hi_req : forall u, omap (requested_id u) (history m) = requested u m;
  hi_req_db : forall u h c, Requested u h c ∈ history m -> lock_db m c = Some h;
  hi_lock_db : forall u h c, Locked u h c ∈ history m -> lock_db m c = Some h;
}.

(** [m'] differs from [m] by nothing the queues or the lock look at. *)
Record still (m m' : machine) : Prop := {
  st_history : history m' = history m;
  st_lockcalls : lockcalls m' = lockcalls m;
  st_queue : forall u ev, queue_of u ev m' = queue_of u ev m;
  st_resumes : forall u ev, resumes u ev m' = resumes u ev m;
}.

(** The step from [m] to [m'] leaves the queue [ev] of [u] alone: its
    record and its state are the same, and it has no more continuations
    of its handler. *)
Record queue_frame (u : string) (ev : event) (m m' : machine) : Prop := {
  qf_enqueued : enqueued u ev m' = enqueued u ev m;
  qf_started : started_jobs u ev m' = started_jobs u ev m;
  qf_finished : finished u ev m' = finished u ev m;
  qf_queue : queue_of u ev m' = queue_of u ev m;
  qf_pending : (pending u ev m' <= pending u ev m)%nat;
}.

(** The same, but for at most [k] more continuations of the handler. *)
Record queue_step (k : nat) (u : string) (ev : event) (m m' : machine) : Prop := {
  qs_enqueued : enqueued u ev m' = enqueued u ev m;
  qs_started : started_jobs u ev m' = started_jobs u ev m;
  qs_finished : finished u ev m' = finished u ev m;
  qs_queue : queue_of u ev m' = queue_of u ev m;
  qs_pending : (pending u ev m' <= pending u ev m + k)%nat;
}.

Definition still_queues (m m' : machine) : Prop := forall u ev, queue_frame u ev m m'.

(** [m'] differs from [m] by nothing the record of the lock calls looks
    at. *)
Record still_locks (m m' : machine) : Prop := {
  sl_history : exists new, history m' = (history m ++ new)%list
                           /\ forall o, o ∈ new -> lock_event o = false;
  sl_length : length (lockcalls m') = length (lockcalls m);
  sl_db : forall c, lc_db <$> lockcalls m' !! c = lc_db <$> lockcalls m !! c;
  sl_status : forall c, lc_status <$> lockcalls m' !! c = lc_status <$> lockcalls m !! c;
}.

(** A continuation that is not of a handler. *)
Definition no_resume (t : microtask) : Prop :=
  match t with MHandler _ _ _ _ _ => False | _ => True end.

(** The invariant of the queues. *)
Definition queue_inv (m : machine) : Prop := forall u ev, queue_ok u ev m.

(** ** Notions for the progress of the queues *)

(** The lock call of the job [j], if it is a lock job, has no
    continuation parked on its [lock] promise. *)
Definition parkable (m : machine) (j : DBTransaction) : Prop :=
  forall c, job_todo j = TodoLock c ->
    exists l, lockcalls m !! c = Some l /\ lc_parked l = None.

(** A queue that carries the mark of a running job has a continuation of
    its handler, and a queue without the mark holds no job. *)
Record live_ok (u : string) (ev : event) (m : machine) : Prop := {
  lv_pending : (active u ev m <= pending u ev m)%nat;
  lv_idle : tx_uuid (queue_of u ev m) = None -> tx_list (queue_of u ev m) = [];
}.

Definition live_inv (m : machine) : Prop := forall u ev, live_ok u ev m.

(** The step from [m] to [m'] leaves the queue [ev] of [u] as it is and
    loses no continuation of its handler. *)
Record live_frame (u : string) (ev : event) (m m' : machine) : Prop := {
  lf_queue : queue_of u ev m' = queue_of u ev m;
  lf_pending : (pending u ev m <= pending u ev m')%nat;
}.

(** A lock call that was served and whose [lock] promise is not resolved
    belongs to a handle that is locked through it. *)
Definition held_inv (m : machine) : Prop :=
  forall u c, c ∈ locked u m -> resolved m c = false ->
    exists h o, lock_db m c = Some h /\ objects m !! h = Some o /\ UID o = u
                /\ __locking o = true /\ unlockDB o = Some c.

(** The holders of a lock call [close()] in turn: [h] holds the lock and
    the handles [hs] wait for it, in this order; three continuations
    after each [close()] the next handle holds the lock. *)
Fixpoint handoffs (h : nat) (hs : list nat) : list input :=
  match hs with
  | [] => []
  | h' :: rest => ([Call (Close h); Tick; Tick; Tick] ++ handoffs h' rest)%list
  end.

(** The work the engine has left: every continuation, every job that
    waits in a queue and every continuation parked on a lock counts for
    the continuations it can still give rise to. *)
Definition cont_weight (k : cont) : nat :=
  match k with KCaller => 1%nat | KSaveClose _ => 2%nat end.

Definition resolve_weight (res : option cont) : nat :=
  match res with Some k => S (S (cont_weight k)) | None => 1%nat end.

Definition task_weight (t : microtask) : nat :=
  match t with
  | MLockDB_wait _ => 4%nat
  | MLockDB_return _ => 2%nat
  | MUse _ _ => 1%nat
  | MHandler _ _ _ res _ => resolve_weight res
  | MSafeWriteDB k _ => S (cont_weight k)
  | MSave k _ => cont_weight k
  | MSaveClose _ => 1%nat
  end.

Definition job_weight (j : DBTransaction) : nat :=
  (2 + resolve_weight (job_resolve j))%nat.

Definition jobs_weight (js : list DBTransaction) : nat := list_sum (map job_weight js).

Definition status_weight (st : SillyDBStatus) : nat :=
  (jobs_weight (tx_list (tx_unlock st)) + jobs_weight (tx_list (tx_write_end st)))%nat.

Definition parked_weight (l : lockcall) : nat :=
  if lc_resolved l then 0%nat
  else match lc_parked l with Some t => task_weight t | None => 0%nat end.

Definition registry_weight (dbs : gmap string SillyDBStatus) : nat :=
  map_fold (fun _ st acc => (status_weight st + acc)%nat) 0%nat dbs.

Definition work (m : machine) : nat :=
  (list_sum (map task_weight (jobqueue m))
   + registry_weight (databases m)
   + list_sum (map parked_weight (lockcalls m)))%nat.

(** What the engine records by itself: anything but a call of [use()]
    and a job given to a flush queue. *)
Definition engine_event (o : observation) : bool :=
  match o with
  | Requested _ _ _ | Enqueued _ write_end _ => false
  | _ => true
  end.

(** From [m] to [m'] the record grew by what the engine records by
    itself. *)
Definition engine_only (m m' : machine) : Prop :=
  exists new, history m' = (history m ++ new)%list
              /\ forall o, o ∈ new -> engine_event o = true.

(** ** Classes of databases *)

(** The classes a handle can be an instance of: [SillyDB] itself, a class
    the application declares with [class name extends parent] (and which
    declares no [UID] of its own), and the class [SubDB] that
    [parent.sub(subname)] makes. *)
Inductive dbclass : Type :=
| BaseDB
| Extends (name : string) (parent : dbclass)
| SubDB (subname : string) (parent : dbclass).

(** [this.name]. *)
Definition class_name (this : dbclass) : string :=
  match this with
  | BaseDB => "SillyDB"
  | Extends name _ => name
  | SubDB _ _ => "SubDB"
  end.

(** The [static get UID] that a read of [this.UID] finds on the way up
    from [this]: [None] is the one of [SillyDB], [Some subname] the one
    of the class [sub(subname)] made. *)
Fixpoint UID_getter (this : dbclass) : option string :=
  match this with
  | BaseDB => None
  | Extends _ parent => UID_getter parent
  | SubDB subname _ => Some subname
  end.

(** [this.UID]: the getter of [SillyDB] answers
    [this.super.UID + "." + this.name] below [SillyDB] and [this.name] on
    it; the getter of a [SubDB] answers [this.super.UID + "." + subname],
    where [this.super] is the class [this] extends. *)
Fixpoint class_UID (this : dbclass) : string :=
  match this with
  | BaseDB => class_name BaseDB
  | Extends _ super | SubDB _ super =>
      match UID_getter this with
      | None => class_UID super ++ "." ++ class_name this
      | Some subname => class_UID super ++ "." ++ subname
      end
  end.

(** A character of the class [[_a-zA-Z0-9\-]]. *)
Definition name_char (c : ascii) : bool :=
  let n := nat_of_ascii c in
  Nat.eqb n 95 || (Nat.leb 97 n && Nat.leb n 122) || (Nat.leb 65 n && Nat.leb n 90)
  || (Nat.leb 48 n && Nat.leb n 57) || Nat.eqb n 45.

(** [nametest]: the name matches [/^[_a-zA-Z0-9\-]+$/]. *)
Definition nametest (name : string) : bool :=
  match name with
  | EmptyString => false
  | _ => forallb name_char (list_ascii_of_string name)
  end.

(** [s.indexOf(".")], with [None] for -1. *)
Fixpoint indexOf_dot (s : string) : option nat :=
  match s with
  | EmptyString => None
  | String c s' => if Ascii.eqb c "."%char then Some 0%nat else S <$> indexOf_dot s'
  end.

(** [s.slice(0, n)] and [s.slice(n)]. *)
Fixpoint slice_to (n : nat) (s : string) : string :=
  match n, s with
  | S n', String c s' => String c (slice_to n' s')
  | _, _ => EmptyString
  end.

Fixpoint slice_from (n : nat) (s : string) : string :=
  match n, s with
  | S n', String _ s' => slice_from n' s'
  | _, _ => s
  end.

(** [this.sub(subname)], with the depth of its recursion bounded by
    [fuel]; [None] when the bound is reached. *)
Fixpoint sub_rec (fuel : nat) (this : dbclass) (subname : string)
  : option (result dbclass) :=
  match indexOf_dot subname with
  | Some dot =>
      match fuel with
      | O => None
      | S fuel' =>
          match sub_rec fuel' this (slice_to dot subname) with
          | Some (Ok first) => sub_rec fuel' first (slice_from (S dot) subname)
          | r => r
          end
      end
  | None =>
      Some (if nametest subname then Ok (SubDB subname this) else Throw SyntaxError)
  end.

(** [this.sub(subname)]: the length of the name bounds the recursion. *)
Definition sub (this : dbclass) (subname : string) : result dbclass :=
  match sub_rec (String.length subname) this subname with
  | Some r => r
  | None => Throw (Error "unreachable")
  end.

(** The classes [sub] makes for the names [names], one below the other. *)
Definition nested_sub (this : dbclass) (names : list string) : dbclass :=
  fold_left (fun k name => SubDB name k) names this.

(** What [sub] does, segment by segment. *)
Fixpoint sub_names (this : dbclass) (names : list string) : result dbclass :=
  match names with
  | [] => Ok this
  | name :: rest =>
      if nametest name then sub_names (SubDB name this) rest else Throw SyntaxError
  end.

(** The class reached from [this] by the declarations
    [class name extends ...], one for each of [names], the first one
    directly below [this]. *)
Definition declared (names : list string) (this : dbclass) : dbclass :=
  fold_left (fun k name => Extends name k) names this.

(** [n] times a dot and [s]. *)
Fixpoint dotted (n : nat) (s : string) : string :=
  match n with
  | O => EmptyString
  | S n' => ("." ++ s ++ dotted n' s)%string
  end.

(** Joining the segments with dots gives the name back. *)
Fixpoint join_dot (names : list string) : string :=
  match names with
  | [] => EmptyString
  | [name] => name
  | name :: rest => (name ++ "." ++ join_dot rest)%string
  end.


(** Handles that have just been constructed, on an empty disk: one
    database, and two handles of it. *)
Module Fresh.
Definition constructed : machine :=
  run [Call (New Example.u (VArr []))] (boot Example.empty_disk).
Definition two_handles : machine :=
  run [Call (New Example.u (VArr [])); Call (New Example.u (VArr []))]
      (boot Example.empty_disk).

(** Of the two handles, the first has asked for the lock and got it. *)
Definition one_locked : machine :=
  run [Call (Use 0); Tick; Tick; Tick] two_handles.
End Fresh.

(** [SillyDB.use(defaultValue)], for the class of UID [u]:
    [new this(defaultValue).use()], up to the [await] of [use()]. *)
Definition static_use `{JSONText} (u : string) (defaultValue : jsval) (m : machine)
  : machine * result nat :=
  match new_SillyDB u defaultValue m with
  | (m1, Ok h) => (fst (use h m1), Ok h)
  | (m1, Throw e) => (m1, Throw e)
  end.

(** ** What a step keeps *)

(** The step can replace a document: it assigns [data], reads it (which
    puts the default where the document counts as false), or assigns to
    or deletes a property of an object. *)
Definition writes_document (i : input) : bool :=
  match i with
  | Call (SetData _ _) | Call (GetData _) | Call (Assign _ _ _) | Call (Delete _ _) => true
  | _ => false
  end.

(** From [m] to [m'] every database keeps its document, and every handle
    its database and its default; a new handle is of a database of the
    registry. *)
Record keeps (m m' : machine) : Prop := {
  k_data : forall u st,
    databases m !! u = Some st ->
    exists st', databases m' !! u = Some st' /\ __data st' = __data st;
  k_old : forall h o,
    objects m !! h = Some o ->
    exists o', objects m' !! h = Some o' /\ UID o' = UID o /\ __default o' = __default o;
  k_new : forall h o',
    objects m' !! h = Some o' ->
    is_Some (objects m !! h) \/ is_Some (databases m' !! UID o');
}.

(** The same without the documents and the defaults. *)
Record keeps_registry (m m' : machine) : Prop := {
  r_statuses : forall u, is_Some (databases m !! u) -> is_Some (databases m' !! u);
  r_old : forall h o,
    objects m !! h = Some o -> exists o', objects m' !! h = Some o' /\ UID o' = UID o;
  r_new : forall h o',
    objects m' !! h = Some o' ->
    is_Some (objects m !! h) \/ is_Some (databases m' !! UID o');
}.

(** Every handle is of a database of the registry. *)
Definition registered (m : machine) : Prop :=
  forall h o, objects m !! h = Some o -> is_Some (databases m !! UID o).

(** ** Where an unresolved lock call is *)

(** The lock call [c], with variables [l], has not yet been served its
    turn, or holds back the handler of its queue: its first
    continuation is in the job queue, or its job is in the queue of its
    database, or the handler of that queue is parked on its [lock]
    promise. *)
Definition call_waits (m : machine) (c : nat) (l : lockcall) : Prop :=
  MLockDB_wait c ∈ jobqueue m
  \/ (exists j, j ∈ tx_list (queue_of (lc_status l) unlock m) /\ job_todo j = TodoLock c)
  \/ (exists jid, lc_parked l = Some (MHandler (lc_status l) unlock jid None None)).

Definition wait_inv (m : machine) : Prop :=
  forall c l, lockcalls m !! c = Some l -> lc_resolved l = false -> call_waits m c l.

(** Every job of a lock queue is of a lock call of its database. *)
Definition jobs_ok (m : machine) : Prop :=
  forall u j, j ∈ tx_list (queue_of u unlock m) ->
    exists c l, job_todo j = TodoLock c /\ job_resolve j = None
                /\ lockcalls m !! c = Some l /\ lc_status l = u.

(** ** What editing a document keeps *)


(** * Verification *)

(** ** Persistence *)

Section Persistence.
Context `{JSONText}.

Lemma serialize_VArr l :
  serialize (VArr l)
  = match serialize_elems l with Some r => SValue (VArr r) | None => SThrow end.
Proof.
  cbn [serialize].
  match goal with |- match ?g l with _ => _ end = _ =>
    assert (Hg : g l = serialize_elems l) end.
  { induction l as [|x l IH]; [reflexivity|]. cbn [serialize_elems]. rewrite <- IH.
    reflexivity. }
  rewrite Hg. reflexivity.
Qed.

Lemma serialize_VObj ps :
  serialize (VObj ps)
  = if has_toJSON ps then SUndefined
    else match serialize_props ps with Some r => SValue (VObj r) | None => SThrow end.
Proof.
  cbn [serialize]. destruct (has_toJSON ps); [reflexivity|].
  match goal with |- match ?g ps with _ => _ end = _ =>
    assert (Hg : g ps = serialize_props ps) end.
  { induction ps as [|[k x] ps IH]; [reflexivity|]. cbn [serialize_props]. rewrite <- IH.
    reflexivity. }
  rewrite Hg. reflexivity.
Qed.

Lemma assoc_get_elem k ps x : assoc_get k ps = Some x -> (k, x) ∈ ps.
Proof.
  induction ps as [|[k' y] ps IH]; [discriminate|]. simpl.
  destruct (String.eqb_spec k' k) as [->|_].
  - intros [= ->]. left.
  - intros Hx. right. apply IH, Hx.
Qed.

(** A JSON document has no method. *)
Lemma has_toJSON_json ps : is_json (VObj ps) = true -> has_toJSON ps = false.
Proof.
  intros Hj. apply is_json_VObj in Hj. destruct Hj as [_ Hj]. unfold has_toJSON.
  destruct (assoc_get "toJSON" ps) as [x|] eqn:Hx; [|reflexivity].
  apply assoc_get_elem in Hx. rewrite List.Forall_forall in Hj.
  apply list_elem_of_In, Hj in Hx. simpl in Hx. destruct x; try reflexivity. discriminate.
Qed.

Lemma serialize_json j : is_json j = true -> serialize j = SValue j.
Proof.
  induction j as [ | | b | n | s | | l IHl | ps IHps | ] using jsval_ind_nested;
    intros Hj; try discriminate Hj; try reflexivity.
  - apply is_json_VArr in Hj. rewrite serialize_VArr.
    assert (Hg : serialize_elems l = Some l).
    { induction l as [|x l IH]; [reflexivity|].
      apply Forall_cons in IHl, Hj. destruct IHl as [Hx IHl], Hj as [Hjx Hj].
      cbn [serialize_elems]. rewrite (Hx Hjx), (IH IHl Hj). reflexivity. }
    rewrite Hg. reflexivity.
  - rewrite serialize_VObj, (has_toJSON_json ps Hj).
    apply is_json_VObj in Hj. destruct Hj as [_ Hj].
    assert (Hg : serialize_props ps = Some ps).
    { induction ps as [|[k x] ps IH]; [reflexivity|].
      apply Forall_cons in IHps, Hj. destruct IHps as [Hx IHps], Hj as [Hjx Hj].
      simpl in Hx, Hjx. cbn [serialize_props]. rewrite (Hx Hjx), (IH IHps Hj). reflexivity. }
    rewrite Hg. reflexivity.
Qed.

Lemma stringify_json j :
  is_json j = true -> JSON_stringify j = Ok (Some (json_encode j)).
Proof. intros Hj. unfold JSON_stringify. rewrite serialize_json by exact Hj. reflexivity. Qed.

Lemma parse_stringify_json j :
  is_json j = true -> JSON_parse (Some (json_encode j)) = Ok j.
Proof. intros Hj. unfold JSON_parse. simpl. rewrite json_decode_encode by exact Hj. reflexivity. Qed.

(** What one [writeFileSync] leaves. *)
Lemma writeFileSync_ok p text d d' :
  writeFileSync p text d = (d', Ok ()) ->
  exists t, text = Some t /\ files d' = <[p := t]> (files d) /\
            journal d' = (journal d ++ [(p, t)])%list /\
            dirs d' = dirs d /\ readonly d' = readonly d.
Proof.
  unfold writeFileSync. destruct text as [t|]; [|discriminate].
  destruct (_ && _); [|discriminate].
  intros [= <-]. exists t. simpl. auto.
Qed.

Lemma count_stringify_fields d :
  files (count_stringify d) = files d /\ journal (count_stringify d) = journal d
  /\ dirs (count_stringify d) = dirs d /\ readonly (count_stringify d) = readonly d.
Proof. repeat split; reflexivity. Qed.

Lemma writeFileSync_throw p text d d' e :
  writeFileSync p text d = (d', Throw e) -> d' = d.
Proof.
  unfold writeFileSync. destruct text as [t|]; [|congruence].
  destruct (_ && _); congruence.
Qed.

Lemma mkdirSync_files dir d d' r :
  mkdirSync dir d = (d', r) ->
  files d' = files d /\ journal d' = journal d /\ readonly d' = readonly d.
Proof.
  unfold mkdirSync. destruct (existsb _ _); intros [= <- _]; simpl; auto.
Qed.

(** [writeToPath] completes at most one write: exactly one when it
    returns, none when it throws. *)
Lemma writeToPath_ok dir name data d d' :
  writeToPath dir name data d = (d', Ok ()) ->
  exists t, JSON_stringify data = Ok (Some t) /\
            files d' = <[(dir ++ [name])%list := t]> (files d) /\
            journal d' = (journal d ++ [((dir ++ [name])%list, t)])%list /\
            readonly d' = readonly d.
Proof.
  unfold writeToPath.
  destruct (JSON_stringify data) as [text|e] eqn:Hs.
  - destruct (writeFileSync _ text (count_stringify d)) as [d1 [[]|e1]] eqn:Hw.
    + intros [= <-]. apply writeFileSync_ok in Hw.
      destruct Hw as (t & -> & Hf & Hj & _ & Hr). exists t. auto.
    + apply writeFileSync_throw in Hw. subst d1.
      destruct (mkdirSync dir (count_stringify d)) as [d2 [[]|e2]] eqn:Hm; [|discriminate].
      apply mkdirSync_files in Hm. destruct Hm as (Hf2 & Hj2 & Hr2).
      intros Hw2. apply writeFileSync_ok in Hw2.
      destruct Hw2 as (t & -> & Hf & Hj & _ & Hr). exists t.
      cbn [files journal readonly count_stringify] in Hf, Hj, Hr, Hf2, Hj2, Hr2.
      rewrite Hf, Hj, Hr, Hf2, Hj2, Hr2. auto.
  - destruct (mkdirSync dir (count_stringify d)) as [d2 [[]|e2]]; discriminate.
Qed.

Lemma writeToPath_throw dir name data d d' e :
  writeToPath dir name data d = (d', Throw e) ->
  files d' = files d /\ journal d' = journal d.
Proof.
  unfold writeToPath.
  destruct (JSON_stringify data) as [text|e0] eqn:Hs.
  - destruct (writeFileSync _ text (count_stringify d)) as [d1 [[]|e1]] eqn:Hw;
      [discriminate|].
    apply writeFileSync_throw in Hw. subst d1.
    destruct (mkdirSync dir (count_stringify d)) as [d2 [[]|e2]] eqn:Hm;
      apply mkdirSync_files in Hm; destruct Hm as (Hf2 & Hj2 & _).
    + intros Hw2. apply writeFileSync_throw in Hw2. subst d'. auto.
    + intros [= <- _]. auto.
  - destruct (mkdirSync dir (count_stringify d)) as [d2 [[]|e2]] eqn:Hm;
      apply mkdirSync_files in Hm; destruct Hm as (Hf2 & Hj2 & _);
      intros [= <- _]; auto.
Qed.
End Persistence.

Section PersistenceClaims.
Context `{JSONText}.

Lemma read_json_spec p d :
  read_json p d = match files d !! p ≫= json_decode with
                  | Some v => Ok v
                  | None => match files d !! p with
                            | Some _ => Throw SyntaxError
                            | None => Throw (Error "ENOENT")
                            end
                  end.
Proof.
  unfold read_json, readFileSync, JSON_parse.
  destruct (files d !! p) as [t|]; simpl; [|reflexivity].
  destruct (json_decode t); reflexivity.
Qed.

Lemma safeReadDB_load_chain u m :
  safeReadDB u m
  = load_chain (files (disk m) !! primary_file u m) (files (disk m) !! swap_file u m).
Proof.
  unfold safeReadDB, load_chain, primary_file, swap_file.
  rewrite !read_json_spec.
  destruct (files (disk m) !! _ ≫= json_decode) as [v|]; [reflexivity|].
  destruct (files (disk m) !! (getPath u m ++ ["data.json"])%list);
    destruct (files (disk m) !! _ ≫= json_decode) as [v|]; try reflexivity;
    destruct (files (disk m) !! (getPath u m ++ ["data.swp.json"])%list); reflexivity.
Qed.

(** C6.  Loading follows the fallback chain: [safeReadDB] is the load
    the specification describes (primary, else swap, else absent) and
    always returns; when the primary is missing or does not parse and
    the swap holds a document, that document is loaded; and a locked
    handle that finds the document absent reads its default. *)
Theorem load_fallback_chain (u : string) (m : machine) :
  safeReadDB u m
  = load_chain (files (disk m) !! primary_file u m) (files (disk m) !! swap_file u m)
  /\ (forall t v,
        files (disk m) !! primary_file u m ≫= json_decode = None ->
        files (disk m) !! swap_file u m = Some t ->
        json_decode t = Some v ->
        safeReadDB u m = v)
  /\ (files (disk m) !! primary_file u m ≫= json_decode = None ->
      files (disk m) !! swap_file u m ≫= json_decode = None ->
      safeReadDB u m = VUndefined)
  /\ (forall h o st,
        objects m !! h = Some o -> __locking o = true ->
        databases m !! UID o = Some st -> __data st = VUndefined ->
        snd (get_data h m) = Ok (__default o)).
Proof.
  split; [apply safeReadDB_load_chain|].
  rewrite safeReadDB_load_chain. unfold load_chain.
  split; [|split].
  - intros t v -> -> Hv. simpl. rewrite Hv. reflexivity.
  - intros -> ->. reflexivity.
  - intros h o st Ho Hl Hst Hd. unfold get_data, getData, getDBStatus, hasDB, setData,
      getDBStatus, hasDB.
    rewrite Ho, Hl, Hst, Hd. simpl. reflexivity.
Qed.

(** The writes one [writeDB] completes, and the status it answers. *)
Lemma writeDB_journal (u : string) (m : machine) :
  exists written,
    journal (disk (fst (writeDB u m))) = (journal (disk m) ++ written)%list
    /\ ((written = [] /\ snd (writeDB u m) = "failed")
        \/ exists data t,
             getData u m = Ok data /\ JSON_stringify data = Ok (Some t)
             /\ ((written = [(swap_file u m, t)] /\ snd (writeDB u m) = "failed")
                 \/ (written = [(swap_file u m, t); (primary_file u m, t)]
                     /\ snd (writeDB u m) = "success"))).
Proof.
  unfold writeDB.
  destruct (getData u m) as [data|e] eqn:Hd.
  2:{ exists []. rewrite app_nil_r. auto. }
  destruct (writeToPath (getPath u m) "data.swp.json" data (disk m))
    as [d1 [[]|e1]] eqn:Hw1.
  2:{ apply writeToPath_throw in Hw1. destruct Hw1 as [_ Hj].
      exists []. simpl. rewrite app_nil_r. auto. }
  apply writeToPath_ok in Hw1. destruct Hw1 as (t & Hs & _ & Hj1 & _).
  change (getData u (with_disk d1 m)) with (getData u m). rewrite Hd.
  change (getPath u (with_disk d1 m)) with (getPath u m).
  change (disk (with_disk d1 m)) with d1.
  destruct (writeToPath (getPath u m) "data.json" data d1) as [d2 [[]|e2]] eqn:Hw2.
  - apply writeToPath_ok in Hw2. destruct Hw2 as (t' & Hs' & _ & Hj2 & _).
    rewrite Hs in Hs'. injection Hs' as <-.
    exists [(swap_file u m, t); (primary_file u m, t)]. simpl.
    rewrite Hj2, Hj1, <- app_assoc. split; [reflexivity|].
    right. exists data, t. auto.
  - apply writeToPath_throw in Hw2. destruct Hw2 as [_ Hj2].
    exists [(swap_file u m, t)]. simpl. rewrite Hj2, Hj1. split; [reflexivity|].
    right. exists data, t. auto.
Qed.

End PersistenceClaims.

Section Durability.
Context `{JSONText}.

Lemma with_disk_same m : with_disk (disk m) m = m.
Proof. destruct m; reflexivity. Qed.

Lemma writeDB_write_files u m :
  writeDB u m
  = (with_disk (fst (write_files (getPath u m) (getData u m) (disk m))) m,
     snd (write_files (getPath u m) (getData u m) (disk m))).
Proof.
  unfold writeDB, write_files.
  destruct (getData u m) as [data|e] eqn:Hd;
    [|cbn [fst snd]; rewrite with_disk_same; reflexivity].
  destruct (writeToPath _ "data.swp.json" data (disk m)) as [d1 [[]|e1]]; [|reflexivity].
  change (getData u (with_disk d1 m)) with (getData u m). rewrite Hd.
  change (getPath u (with_disk d1 m)) with (getPath u m).
  change (disk (with_disk d1 m)) with d1.
  destruct (writeToPath _ "data.json" data d1) as [d2 [[]|e2]]; reflexivity.
Qed.

Lemma safeReadDB_ext u m1 m2 :
  root m1 = root m2 -> disk m1 = disk m2 -> safeReadDB u m1 = safeReadDB u m2.
Proof. intros Hr Hd. unfold safeReadDB, getPath. rewrite Hr, Hd. reflexivity. Qed.

Lemma path_snoc_inj (dir : path) (a b : string) :
  a <> b -> (dir ++ [a])%list <> (dir ++ [b])%list.
Proof. intros Hab Heq. apply app_inv_head in Heq. congruence. Qed.

(** A successful [writeDB] of a JSON document is read back by a load. *)
Lemma write_then_load u m D :
  getData u m = Ok D -> is_json D = true ->
  snd (writeDB u m) = "success" ->
  safeReadDB u (fst (writeDB u m)) = D.
Proof.
  intros Hd Hj. rewrite writeDB_write_files. simpl. rewrite Hd.
  unfold write_files.
  destruct (writeToPath _ "data.swp.json" D (disk m)) as [d1 [[]|e1]] eqn:Hw1;
    [|discriminate].
  destruct (writeToPath _ "data.json" D d1) as [d2 [[]|e2]] eqn:Hw2; [|discriminate].
  intros _. simpl.
  apply writeToPath_ok in Hw2. destruct Hw2 as (t & Hs & Hf & _).
  rewrite stringify_json in Hs by exact Hj. injection Hs as <-.
  unfold safeReadDB. change (getPath u (with_disk d2 m)) with (getPath u m).
  change (disk (with_disk d2 m)) with d2.
  rewrite read_json_spec, Hf, lookup_insert_eq. simpl.
  rewrite json_decode_encode by exact Hj. reflexivity.
Qed.

Lemma getData_ext u m1 m2 :
  __data <$> databases m1 !! u = __data <$> databases m2 !! u ->
  getData u m1 = getData u m2.
Proof.
  unfold getData, getDBStatus, hasDB. intros He.
  destruct (databases m1 !! u) as [s1|], (databases m2 !! u) as [s2|]; try discriminate He;
    [|reflexivity]. injection He as ->. reflexivity.
Qed.

Lemma writeDB_ext u m1 m2 :
  root m1 = root m2 -> disk m1 = disk m2 ->
  __data <$> databases m1 !! u = __data <$> databases m2 !! u ->
  disk (fst (writeDB u m1)) = disk (fst (writeDB u m2))
  /\ snd (writeDB u m1) = snd (writeDB u m2).
Proof.
  intros Hr Hd Hdata. rewrite !writeDB_write_files. cbn [fst snd disk with_disk].
  unfold getPath. rewrite Hr, Hd, (getData_ext u m1 m2 Hdata). auto.
Qed.

(** A load after a successful [writeDB], in the process and after a
    restart that keeps only the disk. *)
Lemma load_after_write u D m m' :
  getData u m = Ok D -> is_json D = true -> snd (writeDB u m) = "success" ->
  root m' = root m -> disk m' = disk (fst (writeDB u m)) ->
  safeReadDB u m' = D
  /\ __data <$> databases (regist u (restart m')) !! u = Some D.
Proof.
  intros Hgd Hj Hok Hr Hd.
  pose proof (write_then_load u m D Hgd Hj Hok) as Hload.
  assert (Hread : safeReadDB u m' = D).
  { rewrite <- Hload. apply safeReadDB_ext; [|exact Hd].
    rewrite Hr, writeDB_write_files. reflexivity. }
  split; [exact Hread|].
  unfold regist, hasDB, restart. cbn [databases with_root boot].
  rewrite lookup_empty. cbn [databases with_databases].
  rewrite lookup_insert_eq. cbn [fmap option_fmap option_map new_SillyDBStatus __data].
  f_equal. rewrite <- Hread. apply safeReadDB_ext; reflexivity.
Qed.

(** C3, as the code has it.  [save()] on a locked handle returns a
    promise and gives a write job to the flush queue of the database.
    When the queue is idle the job runs at once: [writeDB] writes the
    document [D] that is in memory, and its status is scheduled.  When
    the queue is busy the call only queues the job, behind the earlier
    ones: nothing is written and nothing else changes.  The job then
    runs when the handler of the queue reaches it, and [writeDB] writes
    the document that is in memory at that moment.  In both cases, when
    the status of the write is "success" and the document written is a
    JSON document, loading the database again gives that document, both
    in the running process and after a restart that keeps only the
    disk. *)
Theorem durability_round_trip
    (h : nat) (o : SillyDB) (st : SillyDBStatus) (D : jsval) (m : machine) :
  objects m !! h = Some o -> __locking o = true ->
  databases m !! UID o = Some st -> __data st = D -> is_json D = true ->
  snd (save h m) = Ok ()
  /\ (tx_uuid (tx_write_end st) = None -> tx_list (tx_write_end st) = [] ->
      disk (fst (save h m)) = disk (fst (writeDB (UID o) m))
      /\ jobqueue (fst (save h m))
         = (jobqueue m ++ [MHandler (UID o) write_end (__uuid o) (Some KCaller)
                             (Some (snd (writeDB (UID o) m)))])%list
      /\ (snd (writeDB (UID o) m) = "success" ->
          safeReadDB (UID o) (fst (save h m)) = D
          /\ __data <$> databases (regist (UID o) (restart (fst (save h m)))) !! UID o
             = Some D))
  /\ (forall a, tx_uuid (tx_write_end st) = Some a ->
        fst (save h m)
        = observe (Enqueued (UID o) write_end (save_job o))
            (with_databases
               (<[UID o := with_transaction write_end
                             {| tx_list := (tx_list (tx_write_end st) ++ [save_job o])%list;
                                tx_uuid := Some a |} st]> (databases m)) m))
  /\ (forall m' jid res v q st' rest D',
        jobqueue m' = MHandler (UID o) write_end jid res v :: q ->
        databases m' !! UID o = Some st' ->
        tx_list (tx_write_end st') = save_job o :: rest ->
        __data st' = D' -> is_json D' = true ->
        disk (tick m') = disk (fst (writeDB (UID o) m'))
        /\ last (jobqueue (tick m'))
           = Some (MHandler (UID o) write_end (__uuid o) (Some KCaller)
                     (Some (snd (writeDB (UID o) m'))))
        /\ tx_list (queue_of (UID o) write_end (tick m')) = rest
        /\ (snd (writeDB (UID o) m') = "success" ->
            safeReadDB (UID o) (tick m') = D'
            /\ __data <$> databases (regist (UID o) (restart (tick m'))) !! UID o
               = Some D')).
Proof.
  intros Ho Hl Hst HD Hj.
  assert (Hgd : getData (UID o) m = Ok D).
  { unfold getData, getDBStatus, hasDB. rewrite Hst, HD. reflexivity. }
  split; [|split; [|split]].
  - unfold save, save_for. rewrite Ho, Hl.
    unfold safeWriteDB, getDBStatus, hasDB. rewrite Hst. reflexivity.
  - intros Hidle Hempty.
    unfold save, save_for. rewrite Ho, Hl.
    unfold safeWriteDB, getDBStatus, hasDB. rewrite Hst.
    unfold wait. rewrite Hst. cbn [transactions]. rewrite Hidle, Hempty.
    unfold handler. cbn [databases with_databases observe with_history].
    rewrite lookup_insert_eq. cbn [transactions with_transaction tx_write_end tx_list app].
    unfold run_todo. cbn [job_todo job_uuid job_resolve fst].
    match goal with |- context [writeDB (UID o) ?m1] =>
      destruct (writeDB_ext (UID o) m1 m) as [Ed Es];
        [reflexivity | reflexivity
        | cbn [databases observe with_history with_databases];
          rewrite lookup_insert_eq, Hst; reflexivity |];
      destruct (writeDB (UID o) m1) as [mw sw] eqn:Hw
    end.
    cbn [fst snd] in Ed, Es. cbn [fst snd disk jobqueue schedule with_jobqueue].
    assert (Hroot : root mw = root m).
    { pose proof (f_equal fst Hw) as Hmw. rewrite writeDB_write_files in Hmw.
      cbn [fst] in Hmw. rewrite <- Hmw. reflexivity. }
    assert (Hq : jobqueue mw = jobqueue m).
    { pose proof (f_equal fst Hw) as Hmw. rewrite writeDB_write_files in Hmw.
      cbn [fst] in Hmw. rewrite <- Hmw. reflexivity. }
    split; [exact Ed|]. split; [rewrite Hq, Es; reflexivity|].
    intros Hok. apply (load_after_write (UID o) D m); auto.
  - intros a Ha.
    unfold save, save_for. rewrite Ho, Hl.
    unfold safeWriteDB, getDBStatus, hasDB. rewrite Hst.
    unfold wait. rewrite Hst. cbn [transactions fst]. rewrite Ha. reflexivity.
  - intros m' jid res v q st' rest D' Hq Hst' Hlist HD' Hj'.
    assert (Hgd' : getData (UID o) m' = Ok D').
    { unfold getData, getDBStatus, hasDB. rewrite Hst', HD'. reflexivity. }
    unfold tick. rewrite Hq. cbn [run_microtask].
    set (m2 := match res with
               | Some k => schedule (MSafeWriteDB k v) _
               | None => _
               end).
    assert (E2 : root m2 = root m' /\ disk m2 = disk m' /\ databases m2 = databases m').
    { unfold m2. destruct res; auto. }
    destruct E2 as (Er & Ed & Edb).
    unfold handler. rewrite Edb, Hst'. cbn [transactions]. rewrite Hlist.
    unfold run_todo. cbn [job_todo job_uuid job_resolve save_job].
    match goal with |- context [writeDB (UID o) ?m1] =>
      destruct (writeDB_ext (UID o) m1 m') as [Ed' Es'];
        [exact Er | exact Ed
        | cbn [databases observe with_history with_databases];
          rewrite lookup_insert_eq, Hst'; reflexivity |];
      pose proof (writeDB_write_files (UID o) m1) as Hwf;
      destruct (writeDB (UID o) m1) as [mw sw] eqn:Hw
    end.
    cbn [fst snd] in Ed', Es'. subst sw.
    injection Hwf as Hmw _.
    split; [exact Ed'|]. split; [|split].
    + cbn [jobqueue schedule with_jobqueue]. rewrite last_snoc. reflexivity.
    + unfold queue_of. cbn [databases schedule with_jobqueue]. rewrite Hmw.
      cbn [databases with_disk observe with_history with_databases].
      rewrite lookup_insert_eq. reflexivity.
    + intros Hok. apply (load_after_write (UID o) D' m'); auto.
      * cbn [root schedule with_jobqueue]. rewrite Hmw. cbn [root with_disk]. exact Er.
Qed.
End Durability.

(** ** The swap file and the primary file *)

Section SwapDiscipline.
Context `{JSONText}.

Lemma writeFileSync_stringified p text d d' r :
  writeFileSync p text d = (d', r) -> stringified d' = stringified d.
Proof.
  unfold writeFileSync. destruct text as [t|]; [|intros [= <- _]; reflexivity].
  destruct (_ && _); intros [= <- _]; reflexivity.
Qed.

Lemma mkdirSync_stringified dir d d' r :
  mkdirSync dir d = (d', r) -> stringified d' = stringified d.
Proof. unfold mkdirSync. destruct (existsb _ _); intros [= <- _]; reflexivity. Qed.

(** [writeToPath] calls [JSON.stringify] once for the write it attempts,
    and once more when it attempts the write again. *)
Lemma writeToPath_stringified dir name data d d' r :
  writeToPath dir name data d = (d', r) ->
  stringified d' = S (stringified d) \/ stringified d' = S (S (stringified d)).
Proof.
  unfold writeToPath.
  assert (Hfirst : forall d0,
             stringified (fst (match JSON_stringify data with
                               | Throw e => (count_stringify d0, Throw e)
                               | Ok text =>
                                   writeFileSync (dir ++ [name])%list text (count_stringify d0)
                               end)) = S (stringified d0)).
  { intros d0. destruct (JSON_stringify data) as [text|e]; [|reflexivity].
    destruct (writeFileSync (dir ++ [name])%list text (count_stringify d0)) as [dx rx] eqn:Hw.
    apply writeFileSync_stringified in Hw. exact Hw. }
  pose proof (Hfirst d) as H1.
  destruct (match JSON_stringify data with
            | Throw e => (count_stringify d, Throw e)
            | Ok text => writeFileSync (dir ++ [name])%list text (count_stringify d)
            end) as [d1 [[]|e1]]; cbn [fst] in H1.
  - intros [= <- _]. left. exact H1.
  - destruct (mkdirSync dir d1) as [d2 [[]|e2]] eqn:Hm;
      apply mkdirSync_stringified in Hm.
    + pose proof (Hfirst d2) as H2.
      destruct (match JSON_stringify data with
                | Throw e => (count_stringify d2, Throw e)
                | Ok text => writeFileSync (dir ++ [name])%list text (count_stringify d2)
                end) as [d3 r3]; cbn [fst] in H2.
      intros [= <- _]. right. rewrite H2, Hm, H1. reflexivity.
    + intros [= <- _]. left. rewrite Hm. exact H1.
Qed.

(** C5, as the code has it.  Every [writeDB] completes its writes in
    this order: nothing, or the swap file alone, or the swap file and
    then the primary file; the text is what [JSON.stringify] prints for
    the document in memory, the same for both files; and it answers
    "success" exactly when both were written.  The document is not
    printed once: [JSON.stringify] is called for every write that is
    attempted, so at most four times, at least once when the database is
    registered, and at least twice in a save that succeeds.  When the
    disk takes the swap file and then the primary file at the first
    attempt, both are written and the answer is "success"; and so it is
    when the first attempt fails, the directory is then made, and the
    disk takes the two files. *)
Theorem swap_written_before_primary (u : string) (m : machine) :
  (exists written,
     journal (disk (fst (writeDB u m))) = (journal (disk m) ++ written)%list
     /\ ((written = [] /\ snd (writeDB u m) = "failed")
         \/ exists data t,
              getData u m = Ok data /\ JSON_stringify data = Ok (Some t)
              /\ ((written = [(swap_file u m, t)] /\ snd (writeDB u m) = "failed")
                  \/ (written = [(swap_file u m, t); (primary_file u m, t)]
                      /\ snd (writeDB u m) = "success"))))
  /\ (exists n,
        stringified (disk (fst (writeDB u m))) = (stringified (disk m) + n)%nat
        /\ (n <= 4)%nat
        /\ (is_ok (getData u m) = true -> (1 <= n)%nat)
        /\ (snd (writeDB u m) = "success" -> (2 <= n)%nat))
  /\ (forall data t d1 d2,
        getData u m = Ok data -> JSON_stringify data = Ok (Some t) ->
        writeFileSync (swap_file u m) (Some t) (count_stringify (disk m)) = (d1, Ok ()) ->
        writeFileSync (primary_file u m) (Some t) (count_stringify d1) = (d2, Ok ()) ->
        writeDB u m = (with_disk d2 m, "success")
        /\ journal d2
           = (journal (disk m) ++ [(swap_file u m, t); (primary_file u m, t)])%list
        /\ stringified d2 = (stringified (disk m) + 2)%nat)
  /\ (forall data t d0 e d1 d2 d3,
        getData u m = Ok data -> JSON_stringify data = Ok (Some t) ->
        writeFileSync (swap_file u m) (Some t) (count_stringify (disk m)) = (d0, Throw e) ->
        mkdirSync (getPath u m) d0 = (d1, Ok ()) ->
        writeFileSync (swap_file u m) (Some t) (count_stringify d1) = (d2, Ok ()) ->
        writeFileSync (primary_file u m) (Some t) (count_stringify d2) = (d3, Ok ()) ->
        writeDB u m = (with_disk d3 m, "success")
        /\ journal d3
           = (journal (disk m) ++ [(swap_file u m, t); (primary_file u m, t)])%list
        /\ stringified d3 = (stringified (disk m) + 3)%nat).
Proof.
  split; [exact (writeDB_journal u m)|]. split; [|split].
  - rewrite writeDB_write_files. cbn [fst snd disk with_disk]. unfold write_files.
    destruct (getData u m) as [data|e].
    2:{ exists 0%nat. split; [cbn [fst]; lia|]. split; [lia|].
        split; [discriminate|]. cbn [snd]. discriminate. }
    destruct (writeToPath (getPath u m) "data.swp.json" data (disk m)) as [d1 [[]|e1]] eqn:Hw1;
      apply writeToPath_stringified in Hw1.
    + destruct (writeToPath (getPath u m) "data.json" data d1) as [d2 [[]|e2]] eqn:Hw2;
        apply writeToPath_stringified in Hw2; cbn [fst snd];
        exists (stringified d2 - stringified (disk m))%nat;
        (split; [lia|]); (split; [lia|]); (split; intros _; lia).
    + cbn [fst snd]. exists (stringified d1 - stringified (disk m))%nat.
      split; [lia|]. split; [lia|]. split; [intros _; lia | discriminate].
  - intros data t d1 d2 Hd Hs Hw1 Hw2.
    rewrite writeDB_write_files, Hd. unfold write_files, writeToPath.
    rewrite Hs. unfold swap_file in Hw1. unfold primary_file in Hw2.
    rewrite Hw1, Hw2. cbn [fst snd]. split; [reflexivity|].
    pose proof (writeFileSync_stringified _ _ _ _ _ Hw1) as Hc1.
    pose proof (writeFileSync_stringified _ _ _ _ _ Hw2) as Hc2.
    apply writeFileSync_ok in Hw1. destruct Hw1 as (t1 & Ht1 & _ & Hj1 & _).
    apply writeFileSync_ok in Hw2. destruct Hw2 as (t2 & Ht2 & _ & Hj2 & _).
    injection Ht1 as <-. injection Ht2 as <-. split.
    + rewrite Hj2. cbn [journal count_stringify]. rewrite Hj1.
      cbn [journal count_stringify]. rewrite <- app_assoc. reflexivity.
    + rewrite Hc2. cbn [stringified count_stringify]. rewrite Hc1.
      cbn [stringified count_stringify]. lia.
  - intros data t d0 e d1 d2 d3 Hd Hs Hw0 Hm Hw1 Hw2.
    rewrite writeDB_write_files, Hd. unfold write_files, writeToPath.
    rewrite Hs. unfold swap_file in Hw0, Hw1. unfold primary_file in Hw2.
    rewrite Hw0, Hm, Hw1, Hw2. cbn [fst snd]. split; [reflexivity|].
    pose proof (writeFileSync_stringified _ _ _ _ _ Hw0) as Hc0.
    pose proof (mkdirSync_stringified _ _ _ _ Hm) as Hcm.
    pose proof (writeFileSync_stringified _ _ _ _ _ Hw1) as Hc1.
    pose proof (writeFileSync_stringified _ _ _ _ _ Hw2) as Hc2.
    apply writeFileSync_throw in Hw0. subst d0.
    apply mkdirSync_files in Hm. destruct Hm as (_ & Hjm & _).
    apply writeFileSync_ok in Hw1. destruct Hw1 as (t1 & Ht1 & _ & Hj1 & _).
    apply writeFileSync_ok in Hw2. destruct Hw2 as (t2 & Ht2 & _ & Hj2 & _).
    injection Ht1 as <-. injection Ht2 as <-. split.
    + rewrite Hj2. cbn [journal count_stringify]. rewrite Hj1.
      cbn [journal count_stringify]. rewrite Hjm. cbn [journal count_stringify].
      rewrite <- app_assoc. reflexivity.
    + rewrite Hc2. cbn [stringified count_stringify]. rewrite Hc1.
      cbn [stringified count_stringify]. rewrite Hcm.
      cbn [stringified count_stringify]. lia.
Qed.
End SwapDiscipline.

(** ** The copy of the default value *)

Section Serialize.


Lemma unique_keys_VObj ps :
  unique_keys (VObj ps)
  = bool_decide (NoDup (map fst ps)) && forallb (fun kv => unique_keys (snd kv)) ps.
Proof.
  simpl. f_equal. induction ps as [|[k x] ps IH]; [reflexivity|]. simpl.
  rewrite IH. reflexivity.
Qed.




Lemma serialize_props_keys ps r :
  serialize_props ps = Some r -> sublist (map fst r) (map fst ps).
Proof.
  revert r. induction ps as [|[k x] ps IH]; intros r; cbn [serialize_props].
  - intros [= <-]. constructor.
  - destruct (serialize x); destruct (serialize_props ps) as [r'|]; try discriminate;
      intros [= <-]; simpl.
    + apply sublist_cons, IH. reflexivity.
    + apply sublist_skip, IH. reflexivity.
Qed.

(** What [JSON.stringify] prints is a JSON document. *)
Lemma serialize_is_json v j :
  unique_keys v = true -> serialize v = SValue j -> is_json j = true.
Proof.
  revert j.
  induction v as [ | | b | n | s | | l IHl | ps IHps | ] using jsval_ind_nested;
    intros j Hu; try (simpl; intros [= <-]; reflexivity); try discriminate.
  - rewrite serialize_VArr.
    destruct (serialize_elems l) as [r|] eqn:Hr; [|discriminate]. intros [= <-].
    apply is_json_VArr. cbn [unique_keys] in Hu. rewrite forallb_forall in Hu.
    revert r Hr. induction IHl as [|x l Hx _ IH]; intros r; cbn [serialize_elems].
    + intros [= <-]. constructor.
    + assert (Hux : unique_keys x = true) by (apply Hu; left; reflexivity).
      assert (Hul : forall y, In y l -> unique_keys y = true)
        by (intros y Hy; apply Hu; right; exact Hy).
      destruct (serialize x) as [| |jx] eqn:Hsx;
        destruct (serialize_elems l) as [r'|]; try discriminate;
        intros [= <-]; constructor; eauto.
  - rewrite serialize_VObj. destruct (has_toJSON ps); [discriminate|].
    destruct (serialize_props ps) as [r|] eqn:Hr; [|discriminate]. intros [= <-].
    rewrite unique_keys_VObj, andb_true_iff, bool_decide_eq_true, forallb_forall in Hu.
    destruct Hu as [Hnd Hu].
    apply is_json_VObj. split.
    + eapply sublist_NoDup; [exact Hnd | apply serialize_props_keys, Hr].
    + clear Hnd. revert r Hr.
      induction IHps as [|[k x] ps Hx _ IH]; intros r; cbn [serialize_props].
      * intros [= <-]. constructor.
      * assert (Hux : unique_keys x = true) by (apply (Hu (k, x)); left; reflexivity).
        assert (Hul : forall y, In y ps -> unique_keys (snd y) = true)
          by (intros y Hy; apply Hu; right; exact Hy).
        simpl in Hx.
        destruct (serialize x) as [| |jx] eqn:Hsx;
          destruct (serialize_props ps) as [r'|]; try discriminate;
          intros [= <-]; [|constructor]; eauto.
Qed.


End Serialize.

Section DefaultCopy.
Context `{JSONText}.







End DefaultCopy.

(** ** The root path *)

Section RootPath.
Context `{JSONText}.

Lemma root_path_set p m :
  p <> EmptyString -> root_path (Some p) m = (with_root p m, p).
Proof.
  intros Hp. unfold root_path. destruct (String.eqb_spec p EmptyString); [contradiction|].
  reflexivity.
Qed.

Lemma regist_existing u m : is_Some (databases m !! u) -> regist u m = m.
Proof. intros [st Hst]. unfold regist, hasDB. rewrite Hst. reflexivity. Qed.

(** C8, as the code has it.  The root path is read each time a path is
    computed, that is at the first load of a database and at every
    save.  Changing it leaves the registry and the disk as they are, so
    a database already in memory keeps its document and is not loaded
    again; but from then on its paths are under the new root, and that
    is where its next save writes. *)
Theorem root_path_read_at_every_use (u p : string) (m : machine) :
  p <> EmptyString ->
  databases (fst (root_path (Some p) m)) = databases m
  /\ disk (fst (root_path (Some p) m)) = disk m
  /\ (is_Some (databases m !! u) ->
      regist u (fst (root_path (Some p) m)) = fst (root_path (Some p) m))
  /\ getPath u (fst (root_path (Some p) m)) = p :: tail (split_dot u)
  /\ exists written,
       journal (disk (fst (writeDB u (fst (root_path (Some p) m)))))
       = (journal (disk m) ++ written)%list
       /\ forall q t, (q, t) ∈ written ->
            q = (p :: tail (split_dot u) ++ ["data.swp.json"])%list
            \/ q = (p :: tail (split_dot u) ++ ["data.json"])%list.
Proof.
  intros Hp. rewrite root_path_set by exact Hp. cbn [fst].
  split; [reflexivity|]. split; [reflexivity|].
  split; [intros Hs; apply regist_existing; exact Hs|].
  split; [reflexivity|].
  destruct (writeDB_journal u (with_root p m)) as (written & Hj & Hw).
  exists written. split; [exact Hj|].
  intros q t Hin.
  destruct Hw as [[-> _]|(data & t' & _ & _ & [[-> _]|[-> _]])].
  - inversion Hin.
  - apply list_elem_of_singleton in Hin. injection Hin as -> _. left. reflexivity.
  - apply elem_of_cons in Hin. destruct Hin as [[= -> _]|Hin]; [left; reflexivity|].
    apply list_elem_of_singleton in Hin. injection Hin as -> _. right. reflexivity.
Qed.
End RootPath.

(** C8, as stated, fails: the database of the sample run is in memory
    when the root path changes, and its next save goes to the new
    place. *)
Lemma root_path_change_moves_saves :
  is_Some (databases Example.opened !! Example.u)
  /\ primary_file Example.u (fst (root_path (Some "./elsewhere") Example.opened))
     <> primary_file Example.u Example.opened
  /\ journal (disk (fst (writeDB Example.u
                          (fst (root_path (Some "./elsewhere") Example.opened)))))
     = [(["./elsewhere"; "UserDB"; "data.swp.json"], "[]");
        (["./elsewhere"; "UserDB"; "data.json"], "[]")].
Proof.
  split; [|split].
  - vm_compute. eauto.
  - vm_compute. discriminate.
  - vm_compute. reflexivity.
Qed.

Lemma root_path_read_at_every_use_witness :
  getPath Example.u (fst (root_path (Some "./elsewhere") Example.opened))
  = ["./elsewhere"; "UserDB"].
Proof.
  refine (proj1 (proj2 (proj2 (proj2
            (root_path_read_at_every_use Example.u "./elsewhere" Example.opened _))))).
  discriminate.
Defined.

(** ** The read-only view *)

Lemma navigate_snoc o p k m :
  navigate o (p ++ [k]) m
  = match navigate o p m with
    | Ok o' => ref_get o' k m
    | Throw e => Throw e
    end.
Proof.
  revert o. induction p as [|k0 p IH]; intros o; simpl.
  - destruct (ref_get o k m); reflexivity.
  - destruct (ref_get o k0 m) as [o'|e]; [apply IH | reflexivity].
Qed.

Lemma deref_snoc doc p k : deref doc (p ++ [k]) = get_prop (deref doc p) k.
Proof. unfold deref. rewrite fold_left_app. reflexivity. Qed.

Lemma makeReadonly_guarded r p v : guarded (makeReadonly r p v).
Proof. destruct v; exact I. Qed.

Lemma ref_get_guarded o k m o' : guarded o -> ref_get o k m = Ok o' -> guarded o'.
Proof.
  destruct o as [v|r p|r p|]; simpl; intros Hg; try contradiction.
  - destruct v; intros [= <-]; exact I.
  - intros [= <-]. apply makeReadonly_guarded.
  - intros [= <-]. exact I.
Qed.

Lemma navigate_guarded p : forall o m o',
  guarded o -> navigate o p m = Ok o' -> guarded o'.
Proof.
  induction p as [|k p IH]; intros o m o' Hg; simpl.
  - intros [= <-]. exact Hg.
  - destruct (ref_get o k m) as [o1|e] eqn:Hget; [|discriminate].
    apply IH. eapply ref_get_guarded; eauto.
Qed.

Lemma guarded_assign o k x m : guarded o -> fst (ref_assign o k x m) = m.
Proof.
  destruct o as [[]| | |]; simpl; intros Hg; try contradiction; try reflexivity;
    destruct (bool_decide (k ∈ function_readonly)); reflexivity.
Qed.

(** What [set_root_doc] is made of. *)
Lemma set_root_doc_cases r v m :
  set_root_doc r v m = m
  \/ (exists u, set_root_doc r v m = edit_data u v m)
  \/ (exists h, set_root_doc r v m = edit_default h v m)
  \/ (exists u h, set_root_doc r v m = edit_default h v (edit_data u v m))
  \/ (exists u h, set_root_doc r v m = edit_data u v (edit_default h v m)).
Proof.
  destruct r as [u|h]; cbn [set_root_doc].
  - destruct (databases m !! u) as [st|]; [|auto].
    destruct (__data_of st) as [h|]; eauto 7.
  - destruct (objects m !! h) as [o|]; [|auto].
    destruct (__data_of <$> databases m !! UID o) as [[h'|]|]; eauto 7.
    destruct (Nat.eqb h' h); eauto 8.
Qed.

(** An assignment or a delete leaves the machine as it is, or replaces
    one document. *)
Lemma ref_assign_cases o k x m :
  fst (ref_assign o k x m) = m
  \/ exists r v, fst (ref_assign o k x m) = set_root_doc r v m.
Proof.
  destruct o as [[]|r p|r p|]; simpl; eauto;
    destruct (bool_decide (k ∈ function_readonly)); auto.
Qed.

Lemma ref_delete_cases o k m :
  fst (ref_delete o k m) = m
  \/ exists r v, fst (ref_delete o k m) = set_root_doc r v m.
Proof.
  destruct o as [[]|r p|r p|]; simpl; eauto.
  - destruct (deref (root_doc r m) p); simpl; eauto.
    destruct (String.eqb k "length"); simpl; eauto.
  - destruct (deref (root_doc r m) p); simpl; eauto.
    destruct (String.eqb k "length"); simpl; eauto.
Qed.

Lemma guarded_delete o k m : guarded o -> fst (ref_delete o k m) = m.
Proof.
  destruct o as [[]|r p|r p|]; simpl; intros Hg; try contradiction; try reflexivity.
  destruct (deref (root_doc r m) p); try reflexivity.
  destruct (String.eqb k "length"); reflexivity.
Qed.

Lemma container_parent v k : is_container (get_prop v k) = true -> is_container v = true.
Proof. destruct v; simpl; intros Hk; try discriminate; reflexivity. Qed.

Lemma makeReadonly_container r p v : is_container v = true -> makeReadonly r p v = Proxy r p.
Proof. destruct v; simpl; intros Hv; try discriminate; reflexivity. Qed.

(** Reading down to an object of the document through the view gives the
    proxy of that object. *)
Lemma navigate_proxy r m p :
  is_container (deref (root_doc r m) p) = true ->
  navigate (makeReadonly r [] (root_doc r m)) p m = Ok (Proxy r p).
Proof.
  induction p as [|k p IH] using rev_ind; intros Hc.
  - simpl in *. rewrite makeReadonly_container by exact Hc. reflexivity.
  - rewrite deref_snoc in Hc. rewrite navigate_snoc, IH by (eapply container_parent; eauto).
    simpl. rewrite makeReadonly_container by exact Hc. reflexivity.
Qed.

Lemma dataReadonly_view h m view :
  dataReadonly h m = Ok view ->
  exists r, view_root h m = Some r /\ view = makeReadonly r [] (root_doc r m).
Proof.
  unfold dataReadonly, view_root, getData, getDBStatus, hasDB.
  destruct (objects m !! h) as [o|] eqn:Ho; [|discriminate].
  destruct (databases m !! UID o) as [st|] eqn:Hst; [|discriminate].
  destruct (falsy (__data st)); intros [= <-]; eexists; (split; [reflexivity|]);
    simpl; rewrite ?Ho, ?Hst; reflexivity.
Qed.

(** C9, as the code has it.  The view [dataReadonly] returns is
    write-inert, and silent but for one property.  For every object or
    array of the underlying document, at any depth, reading down to it
    through the view gives its proxy; assigning to any property there
    returns normally; deleting any property there returns normally,
    except the [length] of an array, where the delete throws a
    TypeError; and in every case the whole machine, so the document
    too, is exactly as it was.  More generally nothing that can be
    reached through the view changes anything when it is assigned to or
    deleted from. *)
Theorem readonly_view_is_write_inert (h : nat) (m : machine) (view : jsref) :
  dataReadonly h m = Ok view ->
  exists r,
    view_root h m = Some r /\ view = makeReadonly r [] (root_doc r m)
    /\ (forall p k x,
          is_container (deref (root_doc r m) p) = true ->
          navigate view p m = Ok (Proxy r p)
          /\ ref_assign (Proxy r p) k x m = (m, Ok ())
          /\ ref_delete (Proxy r p) k m
             = (m, if array_length (deref (root_doc r m) p) k
                   then Throw TypeError else Ok ()))
    /\ (forall p o k x,
          navigate view p m = Ok o ->
          fst (ref_assign o k x m) = m /\ fst (ref_delete o k m) = m).
Proof.
  intros Hv. destruct (dataReadonly_view h m view Hv) as (r & Hr & ->).
  exists r. split; [exact Hr|]. split; [reflexivity|]. split.
  - intros p k x Hc.
    split; [apply navigate_proxy; exact Hc|].
    split; [reflexivity|]. simpl.
    destruct (deref (root_doc r m) p) eqn:Hd; try reflexivity.
    cbn [array_length]. destruct (String.eqb k "length"); reflexivity.
  - intros p o k x Hn.
    assert (Hg : guarded o)
      by (eapply navigate_guarded; [apply makeReadonly_guarded | exact Hn]).
    split; [apply guarded_assign | apply guarded_delete]; exact Hg.
Qed.

(** ** Reading [data] *)

(** The first read of [data] by a locked handle when no document is in
    memory: the default of the handle is returned and becomes the shared
    document; the disk is not touched. *)
Lemma get_data_materializes h o st m :
  objects m !! h = Some o -> __locking o = true ->
  databases m !! UID o = Some st -> __data st = VUndefined ->
  get_data h m
  = (with_databases
       (<[UID o := with_document (__default o) (Some h) st]> (databases m)) m,
     Ok (__default o)).
Proof.
  intros Ho Hl Hst Hd. unfold get_data, getData, setData, getDBStatus, hasDB.
  rewrite Ho, Hl, Hst, Hd. reflexivity.
Qed.

(** A document in memory that does not count as false is returned as it
    is, and nothing changes. *)
Lemma get_data_present h o st m :
  objects m !! h = Some o -> __locking o = true ->
  databases m !! UID o = Some st -> falsy (__data st) = false ->
  get_data h m = (m, Ok (__data st)).
Proof.
  intros Ho Hl Hst Hd. unfold get_data, getData, setData, getDBStatus, hasDB.
  rewrite Ho, Hl, Hst. cbn. rewrite Hd. reflexivity.
Qed.

(** A document that counts as false is treated as absent: the read
    returns the default and overwrites the document with it. *)
Lemma get_data_falsy h o st m :
  objects m !! h = Some o -> __locking o = true ->
  databases m !! UID o = Some st -> falsy (__data st) = true ->
  get_data h m
  = (with_databases
       (<[UID o := with_document (__default o) (Some h) st]> (databases m)) m,
     Ok (__default o)).
Proof.
  intros Ho Hl Hst Hd. unfold get_data, getData, setData, getDBStatus, hasDB.
  rewrite Ho, Hl, Hst. cbn. rewrite Hd. reflexivity.
Qed.

(** C4 fails on the code.  A session stores the document 0 with
    [saveClose()]; the file holds the text of 0 and so does the memory.
    The next handle, constructed with the default ["none"] and opened,
    reads [data]: it gets ["none"], and the document in memory is now
    ["none"].  The same happens when the process is restarted in
    between. *)
Theorem stored_zero_reads_as_default :
  files (disk Scenario.reopened) !! primary_file Example.u Scenario.reopened = Some "0"
  /\ __data <$> databases Scenario.reopened !! Example.u = Some (VNum 0)
  /\ snd (get_data 1 Scenario.reopened) = Ok (VStr "none")
  /\ __data <$> databases (fst (get_data 1 Scenario.reopened)) !! Example.u
     = Some (VStr "none")
  /\ __data <$> databases Scenario.reopened_after_restart !! Example.u = Some (VNum 0)
  /\ snd (get_data 0 Scenario.reopened_after_restart) = Ok (VStr "none").
Proof. vm_compute. repeat split; reflexivity. Qed.

(** ** Calls on a handle that is not locked *)

Section NotLocked.
Context `{JSONText}.

(** On a handle that is not locked, reading or assigning [data], [save]
    and [saveClose] throw and leave the machine as it is; so does [close]
    as long as the handle never held a lock. *)
Lemma not_locked_calls_throw h o m :
  objects m !! h = Some o -> __locking o = false ->
  (exists e, get_data h m = (m, Throw e))
  /\ (forall v, exists e, set_data h v m = (m, Throw e))
  /\ (exists e, save h m = (m, Throw e))
  /\ (exists e, saveClose h m = (m, Throw e))
  /\ (unlockDB o = None -> exists e, close h m = (m, Throw e)).
Proof.
  intros Ho Hl. unfold get_data, set_data, save, save_for, saveClose, close.
  rewrite Ho, Hl. repeat split; eauto.
  intros ->. eauto.
Qed.

(** [close] on a handle that holds a resolver always returns. *)
Lemma close_with_resolver_returns h o c m :
  objects m !! h = Some o -> unlockDB o = Some c -> snd (close h m) = Ok ().
Proof. intros Ho Hc. unfold close. rewrite Ho, Hc. reflexivity. Qed.
End NotLocked.

(** C7 fails on the code for [close].  The handle of the sample run is
    closed; it is not locked any more, reading its [data] throws, but a
    second [close()] returns normally (and changes nothing). *)
Theorem close_on_closed_handle_returns :
  __locking <$> objects Scenario.closed !! 0%nat = Some false
  /\ is_ok (snd (get_data 0 Scenario.closed)) = false
  /\ close 0 Scenario.closed = (Scenario.closed, Ok ()).
Proof. vm_compute. repeat split; reflexivity. Qed.

(** ** The statements at work on the sample runs *)

Lemma load_fallback_chain_witness :
  safeReadDB Example.u (boot Scenario.damaged_disk) = VArr [VNum 1; VNum 2].
Proof.
  refine (proj1 (proj2 (load_fallback_chain Example.u (boot Scenario.damaged_disk)))
            "[1,2]" _ _ _ _); vm_compute; reflexivity.
Defined.

Lemma swap_written_before_primary_witness :
  snd (writeDB Example.u (fst (writeDB Example.u Scenario.nested))) = "success"
  /\ stringified (disk (fst (writeDB Example.u (fst (writeDB Example.u Scenario.nested)))))
     = (stringified (disk (fst (writeDB Example.u Scenario.nested))) + 2)%nat.
Proof.
  pose proof (proj1 (proj2 (proj2
                (swap_written_before_primary Example.u
                   (fst (writeDB Example.u Scenario.nested)))))) as Hfirst.
  edestruct (Hfirst Scenario.nested_doc) as (Hw & _ & Hc);
    [vm_compute; reflexivity | vm_compute; reflexivity | vm_compute; reflexivity
    | vm_compute; reflexivity |].
  rewrite Hw. split; [reflexivity | exact Hc].
Defined.

(** C5, as stated, fails: the document is not printed once.  The first
    save of the sample run, on a disk without the directory, prints it
    three times (the write of the swap file is attempted twice), and the
    next save twice; both write the swap file and then the primary
    file, with the same text. *)
Lemma save_prints_at_every_attempt :
  snd (writeDB Example.u Example.opened) = "success"
  /\ journal (disk (fst (writeDB Example.u Example.opened)))
     = [(["./data"; "UserDB"; "data.swp.json"], "[]");
        (["./data"; "UserDB"; "data.json"], "[]")]
  /\ stringified (disk Example.opened) = 0%nat
  /\ stringified (disk (fst (writeDB Example.u Example.opened))) = 3%nat
  /\ stringified (disk (fst (writeDB Example.u (fst (writeDB Example.u Example.opened)))))
     = 5%nat.
Proof. vm_compute. repeat split; reflexivity. Qed.

Lemma durability_round_trip_witness :
  __data <$> databases (regist Example.u (restart (fst (save 0 Scenario.nested))))
             !! Example.u
  = Some Scenario.nested_doc.
Proof.
  eapply (fun st H1 H2 H3 H4 H5 H6 H7 H8 =>
            proj2 (proj2 (proj2
              (proj1 (proj2
                 (durability_round_trip 0
                    {| UID := Example.u; __default := VArr []; __locking := true;
                       __uuid := 0; unlockDB := Some 0%nat |}
                    st Scenario.nested_doc Scenario.nested
                    H1 H2 H3 H4 H5)) H6 H7)) H8));
    vm_compute; reflexivity.
Defined.

(** C3, as stated, fails when saves overlap.  The locked handle of the
    sample run stores 1 and calls [save()], which writes at once; it
    stores 2 and calls [save()] again, which has to wait; it stores 3;
    then the engine runs every continuation.  The second save was called
    with the document 2 in memory, it wrote 3, and 3 is what a fresh
    load yields: 2 was never written. *)
Lemma queued_save_writes_later_document :
  getData Example.u (run Scenario.overlapping_saves Example.opened) = Ok (VNum 2)
  /\ length (enqueued Example.u write_end (run Scenario.overlapping_saves Example.opened)) = 2%nat
  /\ jobqueue (run (Scenario.overlapping_saves
                    ++ [Call (SetData 0 (VNum 3)); Tick; Tick; Tick; Tick; Tick; Tick])
                 Example.opened) = []
  /\ length (finished Example.u write_end
               (run (Scenario.overlapping_saves
                     ++ [Call (SetData 0 (VNum 3)); Tick; Tick; Tick; Tick; Tick; Tick])
                  Example.opened)) = 2%nat
  /\ journal (disk (run (Scenario.overlapping_saves
                          ++ [Call (SetData 0 (VNum 3)); Tick; Tick; Tick; Tick; Tick; Tick])
                       Example.opened))
     = [(["./data"; "UserDB"; "data.swp.json"], "1");
        (["./data"; "UserDB"; "data.json"], "1");
        (["./data"; "UserDB"; "data.swp.json"], "3");
        (["./data"; "UserDB"; "data.json"], "3")]
  /\ __data <$> databases
                 (regist Example.u
                    (restart (run (Scenario.overlapping_saves
                                   ++ [Call (SetData 0 (VNum 3));
                                       Tick; Tick; Tick; Tick; Tick; Tick])
                                Example.opened))) !! Example.u
     = Some (VNum 3).
Proof. vm_compute. repeat split; reflexivity. Qed.

Lemma readonly_view_is_write_inert_witness :
  navigate (Proxy (SharedData Example.u) []) ["a"; "b"] Scenario.nested
  = Ok (Proxy (SharedData Example.u) ["a"; "b"])
  /\ ref_assign (Proxy (SharedData Example.u) ["a"; "b"]) "0" (VNum 9) Scenario.nested
     = (Scenario.nested, Ok ())
  /\ ref_delete (Proxy (SharedData Example.u) ["a"; "b"]) "0" Scenario.nested
     = (Scenario.nested, Ok ()).
Proof.
  destruct (readonly_view_is_write_inert 0 Scenario.nested
              (Proxy (SharedData Example.u) []) eq_refl)
    as (r & Hr & _ & Hown & _).
  assert (Hr' : Some (SharedData Example.u) = Some r) by exact Hr.
  injection Hr' as <-. apply (Hown ["a"; "b"] "0" (VNum 9)). vm_compute. reflexivity.
Defined.

(** C9, as stated, fails: a delete through the view can throw.  The
    array at [a.b] of the sample document is read through the view of an
    unlocked handle; deleting its [length] there throws a TypeError
    (and changes nothing), where the claim says every delete is
    silent. *)
Lemma readonly_view_delete_length_throws :
  dataReadonly 0 Scenario.nested = Ok (Proxy (SharedData Example.u) [])
  /\ navigate (Proxy (SharedData Example.u) []) ["a"; "b"] Scenario.nested
     = Ok (Proxy (SharedData Example.u) ["a"; "b"])
  /\ ref_get (Proxy (SharedData Example.u) ["a"; "b"]) "length" Scenario.nested
     = Ok (Prim (VNum 2))
  /\ ref_delete (Proxy (SharedData Example.u) ["a"; "b"]) "length" Scenario.nested
     = (Scenario.nested, Throw TypeError).
Proof. vm_compute. repeat split; reflexivity. Qed.



(** For contrast: the same assignment on the object itself, as a locked
    handle reaches it through [data], does change the document. *)
Example plain_assignment_writes :
  root_doc (SharedData Example.u)
    (fst (ref_assign (Plain (SharedData Example.u) ["a"; "b"]) "0" (VNum 9)
            Scenario.nested))
  = VObj [("a", VObj [("b", VArr [VNum 9; VNum 2])]); ("n", VNum 7)].
Proof. vm_compute. reflexivity. Qed.

(** A default with properties that JSON leaves out. *)
Example default_without_functions :
  copyData (VObj [("f", VFun); ("a", VNum 1); ("u", VUndefined);
                  ("l", VArr [VUndefined; VNum 2])])
  = Ok (VObj [("a", VNum 1); ("l", VArr [VNull; VNum 2])]).
Proof. vm_compute. reflexivity. Qed.

(** ** The lock: basic facts *)

Local Open Scope list_scope.
Local Open Scope nat_scope.

Lemma ids_with_app u ls cs cs' :
  ids_with u ls (cs ++ cs') = (ids_with u ls cs ++ ids_with u ls cs')%list.
Proof. apply filter_app. Qed.

Lemma ids_with_elem u ls cs c :
  c ∈ ids_with u ls cs <-> c ∈ cs /\ lc_status <$> ls !! c = Some u.
Proof. unfold ids_with. rewrite list_elem_of_filter. tauto. Qed.

Lemma ids_with_ext u ls ls' cs :
  (forall c, c ∈ cs -> lc_status <$> ls' !! c = lc_status <$> ls !! c) ->
  ids_with u ls' cs = ids_with u ls cs.
Proof.
  unfold ids_with. induction cs as [|c cs IH]; intros Hext; [reflexivity|].
  rewrite !filter_cons, (Hext c) by left.
  rewrite IH by (intros c' Hc'; apply Hext; right; exact Hc'). reflexivity.
Qed.

Lemma ids_with_cons u ls c cs :
  ids_with u ls (c :: cs)
  = if decide (lc_status <$> ls !! c = Some u) then c :: ids_with u ls cs
    else ids_with u ls cs.
Proof. unfold ids_with. rewrite filter_cons. reflexivity. Qed.

Lemma requested_valid u m c : c ∈ requested u m -> (c < length (lockcalls m))%nat.
Proof.
  unfold requested. rewrite ids_with_elem, elem_of_seq. lia.
Qed.

Lemma NoDup_requested u m : NoDup (requested u m).
Proof. unfold requested, ids_with. apply NoDup_filter, NoDup_seq. Qed.

Lemma lock_inv_boot d : lock_inv (boot d).
Proof.
  split.
  - reflexivity.
  - intros t Ht. inversion Ht.
  - intros u j. unfold queue_of. simpl. rewrite lookup_empty. simpl. intros Hj. inversion Hj.
  - intros u j. unfold queue_of. simpl. rewrite lookup_empty. simpl. intros Hj. inversion Hj.
  - intros c l. simpl. rewrite lookup_nil. discriminate.
  - intros u c Hc. inversion Hc.
  - intros u c Hc. unfold queued, queue_of in Hc. simpl in Hc. rewrite lookup_empty in Hc.
    inversion Hc.
  - intros u _. unfold queue_of. simpl. rewrite lookup_empty. simpl.
    split; [reflexivity|]. split; [|reflexivity]. intros c Hc. inversion Hc.
  - intros u. split; [simpl; lia|]. intros Hne. contradiction.
  - intros h o. simpl. rewrite lookup_nil. discriminate.
Qed.

Lemma status_app_old (ls : list lockcall) l c :
  (c < length ls)%nat -> lc_status <$> (ls ++ [l]) !! c = lc_status <$> ls !! c.
Proof. intros Hc. rewrite lookup_app_l by exact Hc. reflexivity. Qed.

Lemma ids_with_app_old u (ls : list lockcall) l cs :
  Forall (fun c => (c < length ls)%nat) cs ->
  ids_with u (ls ++ [l]) cs = ids_with u ls cs.
Proof.
  intros Hcs. apply ids_with_ext. intros c Hc. apply status_app_old.
  rewrite Forall_forall in Hcs. apply Hcs, Hc.
Qed.

Lemma ids_with_new u (ls : list lockcall) l :
  ids_with u (ls ++ [l]) [length ls] = if decide (lc_status l = u) then [length ls] else [].
Proof.
  rewrite ids_with_cons. unfold ids_with. rewrite filter_nil.
  rewrite list_lookup_middle by reflexivity. simpl.
  destruct (decide (lc_status l = u)) as [->|Hne].
  - rewrite decide_True by reflexivity. reflexivity.
  - rewrite decide_False by congruence. reflexivity.
Qed.

Lemma status_insert (ls : list lockcall) c l l' c' :
  ls !! c = Some l -> lc_status l' = lc_status l ->
  lc_status <$> (<[c := l']> ls) !! c' = lc_status <$> ls !! c'.
Proof.
  intros Hl Hs. destruct (decide (c' = c)) as [->|Hne].
  - rewrite list_lookup_insert_eq by (eapply lookup_lt_Some; eauto). rewrite Hl. simpl.
    congruence.
  - rewrite list_lookup_insert_ne by congruence. reflexivity.
Qed.

Lemma ids_with_insert u (ls : list lockcall) c l l' cs :
  ls !! c = Some l -> lc_status l' = lc_status l ->
  ids_with u (<[c := l']> ls) cs = ids_with u ls cs.
Proof. intros Hl Hs. apply ids_with_ext. intros c' _. eapply status_insert; eauto. Qed.

(** Every lock call that a list of the invariant mentions exists. *)
Lemma grant_ids_valid m :
  (forall t, t ∈ jobqueue m -> task_ok m t) ->
  Forall (fun c => (c < length (lockcalls m))%nat) (omap grant_id (jobqueue m)).
Proof.
  intros Hok. apply Forall_forall. intros c Hc.
  apply list_elem_of_omap in Hc. destruct Hc as (t & Ht & Hg).
  specialize (Hok t Ht). destruct t; try discriminate; injection Hg as ->; simpl in Hok.
  - exact Hok.
  - unfold lock_db in Hok. destruct (lockcalls m !! c) eqn:Hl; [|discriminate].
    eapply lookup_lt_Some; eauto.
Qed.

Lemma wait_ids_valid m :
  (forall t, t ∈ jobqueue m -> task_ok m t) ->
  Forall (fun c => (c < length (lockcalls m))%nat) (omap wait_id (jobqueue m)).
Proof.
  intros Hok. apply Forall_forall. intros c Hc.
  apply list_elem_of_omap in Hc. destruct Hc as (t & Ht & Hg).
  specialize (Hok t Ht). destruct t; try discriminate; injection Hg as ->. exact Hok.
Qed.

(** The invariant only looks at the lock calls, at the handles, at the
    continuations of the lock and of the unlock queues, at the lock
    observations and at the unlock queues: a step that leaves these alone
    keeps it.  The step may also mark an unlock queue as running, take
    away the handler continuations of a queue, or unlock a handle. *)
Lemma lock_inv_frame m m' :
  lockcalls m' = lockcalls m ->
  (forall u, waiting u m' = waiting u m) ->
  (forall u, granting u m' = granting u m) ->
  (forall u, resumes u unlock m' = resumes u unlock m \/ resumes u unlock m' = []) ->
  (forall t, t ∈ jobqueue m' -> t ∈ jobqueue m \/ task_ok m' t) ->
  (forall u, locked u m' = locked u m) ->
  (forall u, tx_list (queue_of u unlock m') = tx_list (queue_of u unlock m)) ->
  (forall u, tx_uuid (queue_of u unlock m') = None ->
     tx_uuid (queue_of u unlock m) = None
     \/ (tx_list (queue_of u unlock m) = []
         /\ (forall c, c ∈ started u m -> resolved m c = true)
         /\ resumes u unlock m' = [])) ->
  (forall u j, j ∈ tx_list (queue_of u write_end m') -> exists u', job_todo j = TodoWrite u') ->
  (forall u, is_Some (databases m !! u) -> is_Some (databases m' !! u)) ->
  (forall h o, objects m !! h = Some o ->
     exists o', objects m' !! h = Some o' /\ UID o' = UID o) ->
  (forall h o', objects m' !! h = Some o' ->
     (exists o, objects m !! h = Some o /\ UID o = UID o'
                /\ (__locking o' = true -> __locking o = true)
                /\ unlockDB o = unlockDB o')
     \/ (__locking o' = false /\ unlockDB o' = None)) ->
  lock_inv m -> lock_inv m'.
Proof.
  intros Hls Hwa Hgr Hr Ht Hl Hq Hid Hwj Hdb Hob Hob' Hinv.
  assert (Hqu : forall u, queued u m' = queued u m)
    by (intros u; unfold queued; rewrite Hq; reflexivity).
  assert (Hst : forall u, started u m' = started u m)
    by (intros u; unfold started; rewrite Hl, Hgr; reflexivity).
  assert (Hre : forall c, resolved m' c = resolved m c)
    by (intros c; unfold resolved; rewrite Hls; reflexivity).
  assert (Hld : forall c, lock_db m' c = lock_db m c)
    by (intros c; unfold lock_db; rewrite Hls; reflexivity).
  assert (Hok : forall t, task_ok m t -> task_ok m' t).
  { intros [c|c|h c|u ev jid res v|k v|k v|h]; simpl; rewrite ?Hls, ?Hld; auto.
    intros [Hs Hn]. split; auto. }
  destruct Hinv as [Ififo Itasks Ijobs Iwjobs Iframes Ilast Ipend Iidle Iresume Ihandles].
  split.
  - intros u. unfold requested. rewrite Hls, Hl, Hgr, Hqu, Hwa. apply Ififo.
  - intros t Hin. destruct (Ht t Hin) as [Hold|Hnew]; [apply Hok, Itasks, Hold | exact Hnew].
  - intros u j. rewrite Hq. apply Ijobs.
  - exact Hwj.
  - intros c l. rewrite Hls. intros Hc.
    destruct (Iframes c l Hc) as ((o & Ho & Hu) & Hs & Hp).
    split; [|split].
    + destruct (Hob _ _ Ho) as (o' & Ho' & Hu'). exists o'. split; [exact Ho' | congruence].
    + apply Hdb, Hs.
    + intros t Hpt. rewrite Hst. apply Hp, Hpt.
  - intros u c. rewrite Hst, Hre. apply Ilast.
  - intros u c. rewrite Hgr, Hqu, Hwa, Hre. apply Ipend.
  - intros u Hi. rewrite Hq. destruct (Hid u Hi) as [Hi'|(H1 & H2 & H3)].
    + destruct (Iidle u Hi') as (H1 & H2 & H3).
      split; [exact H1|]. split.
      * intros c. rewrite Hst, Hre. apply H2.
      * destruct (Hr u) as [->| ->]; [exact H3 | reflexivity].
    + split; [exact H1|]. split; [|exact H3].
      intros c. rewrite Hst, Hre. apply H2.
  - intros u. destruct (Iresume u) as [H1 H2]. destruct (Hr u) as [->|Hnil].
    + split; [exact H1|]. intros Hne c. rewrite Hst, Hre. apply H2, Hne.
    + rewrite Hnil. split; [simpl; lia|]. intros Hne. contradiction.
  - intros h o' Ho'. destruct (Hob' h o' Ho') as [(o & Ho & Hu & Hlk & Hun)|[Hlk Hun]].
    + destruct (Ihandles h o Ho) as [H1 H2]. rewrite <- Hun, <- Hu.
      split; [intros Hl'; apply H1, Hlk, Hl'|].
      intros c Hc. rewrite Hl, Hld, Hre. destruct (H2 c Hc) as (H3 & H4 & H5).
      split; [exact H3|]. split; [exact H4|]. intros Hl'. apply H5, Hlk, Hl'.
    + rewrite Hlk, Hun. split; [discriminate|]. intros c. discriminate.
Qed.

Lemma lock_inv_quiet m m' : quiet m m' -> lock_inv m -> lock_inv m'.
Proof.
  intros [] Hinv. eapply lock_inv_frame; eauto.
  - intros u. unfold waiting. rewrite q_lockcalls0, q_wait0. reflexivity.
  - intros u. unfold granting. rewrite q_lockcalls0, q_grant0. reflexivity.
  - intros u. rewrite q_queue0. reflexivity.
  - intros u. rewrite q_queue0. auto.
  - apply q_wjobs0. exact (inv_wjobs _ Hinv).
  - intros h o' Ho'. destruct (q_handles'0 h o' Ho') as [(o & Ho & Hu & Hl & Hn)|(_ & Hnew)];
      [left | right; exact Hnew].
    exists o. repeat split; auto. congruence.
Qed.

Lemma quiet_refl m : quiet m m.
Proof.
  split; auto.
  - intros h o Ho. eauto.
  - intros h o Ho. left. eauto.
Qed.

Lemma task_ok_quiet m m' t : quiet m m' -> task_ok m t -> task_ok m' t.
Proof.
  intros Hq. destruct t as [c|c|h c|u ev jid res v|k v|k v|h]; simpl;
    unfold lock_db; rewrite ?(q_lockcalls _ _ Hq); auto.
  intros [Hs Hn]. split; [apply (q_statuses _ _ Hq), Hs | exact Hn].
Qed.

Lemma quiet_trans m1 m2 m3 : quiet m1 m2 -> quiet m2 m3 -> quiet m1 m3.
Proof.
  intros H12 H23. split.
  - rewrite (q_lockcalls _ _ H23). apply H12.
  - rewrite (q_wait _ _ H23). apply H12.
  - rewrite (q_grant _ _ H23). apply H12.
  - intros u. rewrite (q_resumes _ _ H23). apply H12.
  - intros t Ht. destruct (q_tasks _ _ H23 t Ht) as [Hin|Hok]; [|right; exact Hok].
    destruct (q_tasks _ _ H12 t Hin) as [Hin'|Hok]; [left; exact Hin'|].
    right. eapply task_ok_quiet; eauto.
  - intros u. rewrite (q_locked _ _ H23). apply H12.
  - intros u. rewrite (q_queue _ _ H23). apply H12.
  - intros u Hs. apply (q_statuses _ _ H23), (q_statuses _ _ H12), Hs.
  - intros h o Ho. destruct (q_handles _ _ H12 h o Ho) as (o2 & Ho2 & Hu2).
    destruct (q_handles _ _ H23 h o2 Ho2) as (o3 & Ho3 & Hu3).
    exists o3. split; [exact Ho3 | congruence].
  - intros h o3 Ho3.
    destruct (q_handles' _ _ H23 h o3 Ho3) as [(o2 & Ho2 & Hu & Hl & Hn)|(Hno & Hnew)].
    2:{ right. split; [|exact Hnew]. destruct (objects m1 !! h) as [o1|] eqn:Ho1; [|reflexivity].
        destruct (q_handles _ _ H12 h o1 Ho1) as (o2 & Ho2 & _). congruence. }
    destruct (q_handles' _ _ H12 h o2 Ho2) as [(o1 & Ho1 & Hu1 & Hl1 & Hn1)|(Hno & Hl1 & Hn1)].
    + left. exists o1. repeat split; congruence.
    + right. split; [exact Hno|]. split; congruence.
  - intros Hw. apply (q_wjobs _ _ H23), (q_wjobs _ _ H12), Hw.
Qed.

(** The elementary updates that are quiet. *)
Lemma quiet_same m m' :
  lockcalls m' = lockcalls m -> jobqueue m' = jobqueue m -> history m' = history m ->
  objects m' = objects m ->
  (forall u ev, queue_of u ev m' = queue_of u ev m) ->
  (forall u, is_Some (databases m !! u) -> is_Some (databases m' !! u)) ->
  quiet m m'.
Proof.
  intros Hl Hj Hh Ho Hq Hs.
  split; unfold resumes, locked, write_jobs; rewrite ?Hl, ?Hj, ?Hh, ?Ho; auto.
  - intros h o Hho. eauto.
  - intros h o Hho. left. eauto.
  - intros Hw u j. rewrite Hq. apply Hw.
Qed.

Lemma quiet_with_root r m : quiet m (with_root r m).
Proof. apply quiet_same; auto. Qed.

Lemma quiet_with_disk d m : quiet m (with_disk d m).
Proof. apply quiet_same; auto. Qed.

Lemma queue_of_insert u u' ev st m :
  queue_of u' ev (with_databases (<[u := st]> (databases m)) m)
  = if decide (u' = u) then transactions st ev else queue_of u' ev m.
Proof.
  unfold queue_of. cbn [databases with_databases].
  destruct (decide (u' = u)) as [->|Hne].
  - rewrite lookup_insert_eq. reflexivity.
  - rewrite lookup_insert_ne by congruence. reflexivity.
Qed.

Lemma quiet_with_status u st m :
  (forall ev, transactions st ev = queue_of u ev m) ->
  quiet m (with_databases (<[u := st]> (databases m)) m).
Proof.
  intros Hst. apply quiet_same; auto.
  - intros u' ev. rewrite queue_of_insert. destruct (decide (u' = u)) as [->|]; auto.
  - intros u' Hs. cbn [databases with_databases].
    destruct (decide (u' = u)) as [->|Hne].
    + rewrite lookup_insert_eq. eauto.
    + rewrite lookup_insert_ne by congruence. exact Hs.
Qed.

Lemma quiet_schedule t m :
  quiet_task t -> task_ok m t -> quiet m (schedule t m).
Proof.
  intros Hq Hok. split; unfold resumes; cbn [lockcalls jobqueue schedule with_jobqueue objects
    databases history]; auto.
  - rewrite omap_app. destruct t; try contradiction; try destruct ev; try contradiction;
      simpl; rewrite app_nil_r; reflexivity.
  - rewrite omap_app. destruct t; try contradiction; try destruct ev; try contradiction;
      simpl; rewrite app_nil_r; reflexivity.
  - intros u. rewrite List.filter_app.
    destruct t; try contradiction; try destruct ev; try contradiction;
      simpl; rewrite ?andb_false_r, ?app_nil_r; reflexivity.
  - intros t' Ht'. apply elem_of_app in Ht'. destruct Ht' as [Ht'|Ht']; [left; exact Ht'|].
    apply list_elem_of_singleton in Ht'. subst t'. right.
    destruct t; simpl in *; auto.
  - intros h o Ho. eauto.
  - intros h o Ho. left. eauto.
Qed.

Lemma quiet_observe o m :
  (forall u, locked_id u o = None) -> quiet m (observe o m).
Proof.
  intros Ho. split; unfold resumes, locked; cbn [lockcalls jobqueue observe with_history objects
    databases history]; auto.
  - intros u. rewrite omap_app. simpl. rewrite Ho. apply app_nil_r.
  - intros h o' Ho'. eauto.
  - intros h o' Ho'. left. eauto.
Qed.

(** Taking a quiet continuation from the front of the job queue. *)
Lemma quiet_pop t q m :
  jobqueue m = t :: q -> quiet_task t -> quiet m (with_jobqueue q m).
Proof.
  intros Hj Hq. split; unfold resumes; cbn [lockcalls jobqueue with_jobqueue objects
    databases history]; rewrite ?Hj; auto.
  - destruct t; try contradiction; try destruct ev; try contradiction; reflexivity.
  - destruct t; try contradiction; try destruct ev; try contradiction; reflexivity.
  - intros u. destruct t; try contradiction; try destruct ev; try contradiction; simpl;
      rewrite ?andb_false_r; reflexivity.
  - intros t' Ht'. left. right. exact Ht'.
  - intros h o Ho. eauto.
  - intros h o Ho. left. eauto.
Qed.

Lemma quiet_with_objects os m :
  (forall h o, objects m !! h = Some o -> exists o', os !! h = Some o' /\ UID o' = UID o) ->
  (forall h o', os !! h = Some o' ->
     (exists o, objects m !! h = Some o /\ UID o = UID o'
                /\ __locking o = __locking o' /\ unlockDB o = unlockDB o')
     \/ (objects m !! h = None /\ __locking o' = false /\ unlockDB o' = None)) ->
  quiet m (with_objects os m).
Proof. intros H1 H2. split; auto. Qed.

Lemma quiet_with_default h o v m :
  objects m !! h = Some o ->
  quiet m (with_objects (<[h := with_default v o]> (objects m)) m).
Proof.
  intros Ho. apply quiet_with_objects.
  - intros h' o' Ho'. destruct (decide (h' = h)) as [->|Hne].
    + rewrite list_lookup_insert_eq by (eapply lookup_lt_Some; eauto).
      rewrite Ho in Ho'. injection Ho' as <-. eauto.
    + rewrite list_lookup_insert_ne by congruence. eauto.
  - intros h' o' Ho'. left. destruct (decide (h' = h)) as [->|Hne].
    + rewrite list_lookup_insert_eq in Ho' by (eapply lookup_lt_Some; eauto).
      injection Ho' as <-. exists o. auto.
    + rewrite list_lookup_insert_ne in Ho' by congruence. eauto.
Qed.

Lemma quiet_new_object o m :
  __locking o = false -> unlockDB o = None ->
  quiet m (with_objects (objects m ++ [o]) m).
Proof.
  intros Hl Hu. apply quiet_with_objects.
  - intros h o' Ho'. exists o'. split; [|reflexivity].
    rewrite lookup_app_l by (eapply lookup_lt_Some; eauto). exact Ho'.
  - intros h o' Ho'. apply lookup_app_Some in Ho'. destruct Ho' as [Ho'|[Hlen Ho']].
    + left. eauto.
    + right. apply list_lookup_singleton_Some in Ho'. destruct Ho' as [Hh <-].
      split; [|auto]. apply lookup_ge_None. exact Hlen.
Qed.

Lemma queue_of_Some u ev st m : databases m !! u = Some st -> queue_of u ev m = transactions st ev.
Proof. intros Hst. unfold queue_of. rewrite Hst. reflexivity. Qed.

Lemma quiet_with_data u st v m :
  databases m !! u = Some st ->
  quiet m (with_databases (<[u := with_data v st]> (databases m)) m).
Proof.
  intros Hst. apply quiet_with_status. intros ev.
  rewrite (queue_of_Some _ _ _ _ Hst). destruct ev; reflexivity.
Qed.

Lemma quiet_with_document u st v a m :
  databases m !! u = Some st ->
  quiet m (with_databases (<[u := with_document v a st]> (databases m)) m).
Proof.
  intros Hst. apply quiet_with_status. intros ev.
  rewrite (queue_of_Some _ _ _ _ Hst). destruct ev; reflexivity.
Qed.

Lemma quiet_setData u v a m : quiet m (fst (setData u v a m)).
Proof.
  unfold setData, getDBStatus, hasDB. destruct (databases m !! u) as [st|] eqn:Hst; simpl.
  - apply quiet_with_document, Hst.
  - apply quiet_refl.
Qed.

Lemma quiet_edit_data u v m : quiet m (edit_data u v m).
Proof.
  unfold edit_data. destruct (databases m !! u) as [st|] eqn:Hst;
    [apply quiet_with_document, Hst | apply quiet_refl].
Qed.

Lemma quiet_get_data h m : quiet m (fst (get_data h m)).
Proof.
  unfold get_data, no_object. destruct (objects m !! h) as [o|]; [|apply quiet_refl].
  destruct (__locking o); [|apply quiet_refl].
  destruct (getData (UID o) m) as [d|e]; [|apply quiet_refl].
  destruct (falsy d); [|apply quiet_refl].
  pose proof (quiet_setData (UID o) (__default o) (Some h) m) as Hq.
  destruct (setData (UID o) (__default o) (Some h) m) as [m1 [[]|e]]; exact Hq.
Qed.

Lemma quiet_set_data h v m : quiet m (fst (set_data h v m)).
Proof.
  unfold set_data, no_object. destruct (objects m !! h) as [o|]; [|apply quiet_refl].
  destruct (__locking o); [apply quiet_setData | apply quiet_refl].
Qed.

Lemma quiet_root_path p m : quiet m (fst (root_path p m)).
Proof.
  unfold root_path. destruct p as [p|]; [|apply quiet_refl].
  destruct (String.eqb p EmptyString); [apply quiet_refl | apply quiet_with_root].
Qed.

Lemma quiet_edit_default h v m : quiet m (edit_default h v m).
Proof.
  unfold edit_default.
  destruct (objects m !! h) as [o|] eqn:Ho; [apply quiet_with_default, Ho | apply quiet_refl].
Qed.

Lemma quiet_set_root_doc r v m : quiet m (set_root_doc r v m).
Proof.
  destruct (set_root_doc_cases r v m)
    as [->|[(u & ->)|[(h & ->)|[(u & h & ->)|(u & h & ->)]]]].
  - apply quiet_refl.
  - apply quiet_edit_data.
  - apply quiet_edit_default.
  - eapply quiet_trans; [apply quiet_edit_data | apply quiet_edit_default].
  - eapply quiet_trans; [apply quiet_edit_default | apply quiet_edit_data].
Qed.

Lemma quiet_ref_assign o k x m : quiet m (fst (ref_assign o k x m)).
Proof.
  destruct (ref_assign_cases o k x m) as [->|(r & v & ->)];
    [apply quiet_refl | apply quiet_set_root_doc].
Qed.

Lemma quiet_ref_delete o k m : quiet m (fst (ref_delete o k m)).
Proof.
  destruct (ref_delete_cases o k m) as [->|(r & v & ->)];
    [apply quiet_refl | apply quiet_set_root_doc].
Qed.

Section QuietProgram.
Context `{JSONText}.

Lemma quiet_regist u m : quiet m (regist u m).
Proof.
  unfold regist, hasDB. destruct (databases m !! u) as [st|] eqn:Hst; [apply quiet_refl|].
  apply quiet_with_status. intros ev. unfold queue_of. rewrite Hst. destruct ev; reflexivity.
Qed.

Lemma quiet_new_SillyDB u dv m : quiet m (fst (new_SillyDB u dv m)).
Proof.
  unfold new_SillyDB. destruct (copyData dv) as [d|e]; simpl.
  - eapply quiet_trans; [apply quiet_regist|]. apply quiet_new_object; reflexivity.
  - apply quiet_regist.
Qed.

Lemma quiet_writeDB u m : quiet m (fst (writeDB u m)).
Proof. rewrite writeDB_write_files. apply quiet_with_disk. Qed.
End QuietProgram.

Section QuietFlush.
Context `{JSONText}.

Lemma quiet_with_wqueue u st t m :
  databases m !! u = Some st ->
  (write_jobs m -> forall j, j ∈ tx_list t -> exists u', job_todo j = TodoWrite u') ->
  quiet m (with_databases (<[u := with_transaction write_end t st]> (databases m)) m).
Proof.
  intros Hst Ht. split; auto.
  - intros u'. rewrite queue_of_insert. destruct (decide (u' = u)) as [->|]; [|reflexivity].
    rewrite (queue_of_Some _ _ _ _ Hst). reflexivity.
  - intros u' Hs. cbn [databases with_databases].
    destruct (decide (u' = u)) as [->|Hne].
    + rewrite lookup_insert_eq. eauto.
    + rewrite lookup_insert_ne by congruence. exact Hs.
  - intros h o Ho. eauto.
  - intros h o Ho. left. eauto.
  - intros Hw u' j. rewrite queue_of_insert. destruct (decide (u' = u)) as [->|].
    + simpl. apply Ht, Hw.
    + apply Hw.
Qed.

Lemma quiet_run_todo_write u job u' m :
  is_Some (databases m !! u) -> job_todo job = TodoWrite u' ->
  quiet m (run_todo u write_end job m).
Proof.
  intros Hs Hj. unfold run_todo. rewrite Hj.
  pose proof (quiet_writeDB u' m) as Hq.
  destruct (writeDB u' m) as [m1 status]. simpl in Hq.
  eapply quiet_trans; [exact Hq|]. apply quiet_schedule; [exact I|].
  simpl. split; [apply (q_statuses _ _ Hq), Hs | discriminate].
Qed.

Lemma quiet_handler_write u m : write_jobs m -> quiet m (handler u write_end m).
Proof.
  intros Hw. unfold handler. destruct (databases m !! u) as [st|] eqn:Hst; [|apply quiet_refl].
  pose proof (Hw u) as Hwu. rewrite (queue_of_Some _ _ _ _ Hst) in Hwu.
  destruct (tx_list (transactions st write_end)) as [|job rest] eqn:Hl.
  - apply quiet_with_wqueue; [exact Hst|]. intros _ j Hj. inversion Hj.
  - destruct (Hwu job) as [u' Hu']; [left|].
    eapply quiet_trans; [|eapply quiet_trans].
    + apply (quiet_with_wqueue u st {| tx_list := rest; tx_uuid := Some (job_uuid job) |} m Hst).
      intros _ j Hj. apply Hwu. right. exact Hj.
    + apply (quiet_observe (Started u write_end job)). reflexivity.
    + eapply quiet_run_todo_write; [|exact Hu'].
      cbn [databases observe with_history with_databases]. rewrite lookup_insert_eq. eauto.
Qed.

Lemma quiet_wait_write u jid u' res m :
  write_jobs m -> quiet m (wait u write_end jid (TodoWrite u') res m).
Proof.
  intros Hw. unfold wait. destruct (databases m !! u) as [st|] eqn:Hst; [|apply quiet_refl].
  pose proof (Hw u) as Hwu. rewrite (queue_of_Some _ _ _ _ Hst) in Hwu.
  set (job := {| job_todo := TodoWrite u'; job_uuid := jid; job_resolve := res |}).
  set (t := {| tx_list := tx_list (transactions st write_end) ++ [job];
               tx_uuid := tx_uuid (transactions st write_end) |}).
  assert (Hq1 : quiet m (observe (Enqueued u write_end job)
                   (with_databases (<[u := with_transaction write_end t st]> (databases m)) m))).
  { eapply quiet_trans.
    - apply (quiet_with_wqueue u st t m Hst). intros _ j Hj. simpl in Hj.
      apply elem_of_app in Hj. destruct Hj as [Hj|Hj]; [apply Hwu, Hj|].
      apply list_elem_of_singleton in Hj. subst j. simpl. eauto.
    - apply quiet_observe. reflexivity. }
  destruct (tx_uuid (transactions st write_end)); [exact Hq1|].
  eapply quiet_trans; [exact Hq1|]. apply quiet_handler_write, (q_wjobs _ _ Hq1), Hw.
Qed.

Lemma quiet_save_for k h m : write_jobs m -> quiet m (fst (save_for k h m)).
Proof.
  intros Hw. unfold save_for, no_object. destruct (objects m !! h) as [o|]; [|apply quiet_refl].
  destruct (__locking o); [|apply quiet_refl].
  unfold safeWriteDB. destruct (getDBStatus (UID o) m); [|apply quiet_refl].
  apply quiet_wait_write, Hw.
Qed.

Lemma quiet_saveClose h m : write_jobs m -> quiet m (fst (saveClose h m)).
Proof.
  intros Hw. unfold saveClose, no_object. destruct (objects m !! h) as [o|]; [|apply quiet_refl].
  destruct (__locking o); [apply quiet_save_for, Hw | apply quiet_refl].
Qed.

Lemma quiet_asyncDispose h m : write_jobs m -> quiet m (fst (asyncDispose h m)).
Proof.
  intros Hw. unfold asyncDispose, no_object. destruct (objects m !! h) as [o|]; [|apply quiet_refl].
  destruct (__locking o); [apply quiet_saveClose, Hw | apply quiet_refl].
Qed.

(** Running a continuation of a flush. *)
Lemma quiet_tick_flush t q m :
  jobqueue m = t :: q -> task_ok m t -> write_jobs m ->
  match t with
  | MHandler _ write_end _ _ _ | MSafeWriteDB _ _ | MSave _ _ => True
  | _ => False
  end ->
  quiet m (run_microtask t (with_jobqueue q m)).
Proof.
  intros Hj Hok Hw Ht.
  assert (Hpop : quiet m (with_jobqueue q m)).
  { eapply quiet_pop; [exact Hj|]. destruct t; try contradiction; try destruct ev; try contradiction;
      exact I. }
  destruct t as [c|c|h c|u ev jid res v|k v|k v|h]; try contradiction.
  - destruct ev; [contradiction|]. simpl.
    assert (Hq1 : quiet m (observe (Finished u write_end jid) (with_jobqueue q m))).
    { eapply quiet_trans; [exact Hpop|]. apply quiet_observe. reflexivity. }
    destruct res as [k|].
    + assert (Hq2 : quiet m (schedule (MSafeWriteDB k v)
                               (observe (Finished u write_end jid) (with_jobqueue q m)))).
      { eapply quiet_trans; [exact Hq1|]. apply quiet_schedule; exact I. }
      eapply quiet_trans; [exact Hq2|].
      apply quiet_handler_write, (q_wjobs _ _ Hq2), Hw.
    + eapply quiet_trans; [exact Hq1|].
      apply quiet_handler_write, (q_wjobs _ _ Hq1), Hw.
  - simpl. eapply quiet_trans; [exact Hpop|]. apply quiet_schedule; exact I.
  - simpl. destruct k as [|h]; [exact Hpop|].
    eapply quiet_trans; [exact Hpop|]. apply quiet_schedule; exact I.
Qed.
End QuietFlush.

(** ** The lock: consequences of the invariant *)

Lemma lock_lists_NoDup u m :
  lock_inv m -> NoDup (locked u m ++ granting u m ++ queued u m ++ waiting u m).
Proof. intros Hinv. rewrite <- (inv_fifo _ Hinv). apply NoDup_requested. Qed.

Lemma lock_lists_valid u m c :
  lock_inv m -> c ∈ locked u m ++ granting u m ++ queued u m ++ waiting u m ->
  c < length (lockcalls m) /\ lc_status <$> lockcalls m !! c = Some u.
Proof.
  intros Hinv Hc. rewrite <- (inv_fifo _ Hinv) in Hc.
  split; [eapply requested_valid; eauto|].
  unfold requested in Hc. apply ids_with_elem in Hc. tauto.
Qed.

Lemma resolved_valid m c : resolved m c = true -> c < length (lockcalls m).
Proof.
  unfold resolved. destruct (lockcalls m !! c) eqn:Hl; [|discriminate].
  intros _. eapply lookup_lt_Some; eauto.
Qed.

(** At most one lock call of a database is between the start of its job
    and the resumption of its [use()]. *)
Lemma granting_at_most_one u m :
  lock_inv m -> granting u m = [] \/ exists c, granting u m = [c].
Proof.
  intros Hinv. destruct (granting u m) as [|c g] eqn:Hg; [left; reflexivity|].
  right. exists c. f_equal.
  destruct g as [|c' g'] using rev_ind; [reflexivity|]. exfalso. clear IHg'.
  assert (Hc : c ∈ started u m) by (unfold started; rewrite Hg; set_solver).
  assert (Hr : resolved m c = false).
  { apply (inv_pending _ Hinv u). rewrite Hg. set_solver. }
  pose proof (inv_last _ Hinv u c Hc Hr) as Hlast.
  unfold started in Hlast. rewrite Hg in Hlast.
  change (c :: g' ++ [c']) with ((c :: g') ++ [c']) in Hlast.
  rewrite app_assoc, last_snoc in Hlast. injection Hlast as ->.
  pose proof (lock_lists_NoDup u m Hinv) as Hnd. rewrite Hg in Hnd.
  apply NoDup_app in Hnd. destruct Hnd as (_ & _ & Hnd).
  apply NoDup_app in Hnd. destruct Hnd as (Hnd & _ & _).
  apply NoDup_cons in Hnd. destruct Hnd as [Hnin _]. apply Hnin. set_solver.
Qed.

Lemma granting_none_when_resolved u m :
  lock_inv m -> (forall c, c ∈ started u m -> resolved m c = true) -> granting u m = [].
Proof.
  intros Hinv Hall. destruct (granting u m) as [|c g] eqn:Hg; [reflexivity|]. exfalso.
  assert (Hr : resolved m c = false).
  { apply (inv_pending _ Hinv u). rewrite Hg. set_solver. }
  rewrite Hall in Hr; [discriminate|]. unfold started. rewrite Hg. set_solver.
Qed.

(** The jobs of an unlock queue are the jobs of its lock calls. *)
Lemma unlock_list_empty u m :
  lock_inv m -> queued u m = [] -> tx_list (queue_of u unlock m) = [].
Proof.
  intros Hinv Hq. destruct (tx_list (queue_of u unlock m)) as [|j l] eqn:Hl; [reflexivity|].
  destruct (inv_jobs _ Hinv u j) as (c & Hc & _); [rewrite Hl; left|].
  unfold queued in Hq. rewrite Hl in Hq. simpl in Hq. unfold job_lock in Hq at 1.
  rewrite Hc in Hq. discriminate.
Qed.

(** ** The lock: the steps that move a lock call *)

Lemma resolved_app_old (ls : list lockcall) l c m m' :
  lockcalls m' = lockcalls m ++ [l] -> c < length (lockcalls m) ->
  resolved m' c = resolved m c.
Proof.
  intros Hl Hc. unfold resolved. rewrite Hl, lookup_app_l by exact Hc. reflexivity.
Qed.

Lemma lock_db_app_old l c m m' :
  lockcalls m' = lockcalls m ++ [l] -> c < length (lockcalls m) ->
  lock_db m' c = lock_db m c.
Proof.
  intros Hl Hc. unfold lock_db. rewrite Hl, lookup_app_l by exact Hc. reflexivity.
Qed.

(** [use()] on a handle that is not locked: a new lock call, which
    waits. *)
Lemma lock_inv_use h m : lock_inv m -> lock_inv (fst (use h m)).
Proof.
  intros Hinv. unfold use, no_object.
  destruct (objects m !! h) as [o|] eqn:Ho; [|exact Hinv].
  destruct (__locking o) eqn:Hlk; [exact Hinv|].
  unfold lockDB, hasDB. destruct (databases m !! UID o) as [st|] eqn:Hst; [|exact Hinv].
  cbn [fst].
  set (c := length (lockcalls m)).
  set (l := {| lc_db := h; lc_status := UID o; lc_uuid := __uuid o;
               lc_resolved := false; lc_parked := None |}).
  set (m' := observe (Requested (UID o) h c)
               (schedule (MLockDB_wait c) (with_lockcalls (lockcalls m ++ [l]) m))).
  assert (Hls : lockcalls m' = lockcalls m ++ [l]) by reflexivity.
  assert (Hjq : jobqueue m' = jobqueue m ++ [MLockDB_wait c]) by reflexivity.
  assert (Hob : objects m' = objects m) by reflexivity.
  assert (Hdb : databases m' = databases m) by reflexivity.
  assert (Hnew : forall u, ids_with u (lockcalls m ++ [l]) [c]
                           = if decide (UID o = u) then [c] else [])
    by (intros u; apply (ids_with_new u (lockcalls m) l)).
  assert (Hreq : forall u, requested u m'
                           = requested u m ++ if decide (UID o = u) then [c] else []).
  { intros u. unfold requested. rewrite Hls, length_app. cbn [length].
    rewrite Nat.add_1_r.
    replace (seq 0 (S (length (lockcalls m)))) with (seq 0 (length (lockcalls m)) ++ [c])
      by (rewrite seq_S; reflexivity).
    rewrite ids_with_app, Hnew. f_equal.
    apply ids_with_app_old. apply Forall_forall. intros x Hx. apply elem_of_seq in Hx. lia. }
  assert (Hloc : forall u, locked u m' = locked u m).
  { intros u. unfold locked. cbn. rewrite omap_app. simpl. apply app_nil_r. }
  assert (Hgr : forall u, granting u m' = granting u m).
  { intros u. unfold granting. rewrite Hls. cbn. rewrite omap_app. simpl. rewrite app_nil_r.
    apply ids_with_app_old, grant_ids_valid, (inv_tasks _ Hinv). }
  assert (Hqu : forall u, queued u m' = queued u m) by reflexivity.
  assert (Hwa : forall u, waiting u m'
                          = waiting u m ++ if decide (UID o = u) then [c] else []).
  { intros u. unfold waiting. rewrite Hls. unfold m'.
    cbn [jobqueue observe schedule with_history with_jobqueue with_lockcalls].
    rewrite omap_app, ids_with_app. cbn [omap list_omap wait_id]. rewrite Hnew. f_equal.
    apply ids_with_app_old, wait_ids_valid, (inv_tasks _ Hinv). }
  assert (Hsta : forall u, started u m' = started u m)
    by (intros u; unfold started; rewrite Hloc, Hgr; reflexivity).
  assert (Hres : forall u, resumes u unlock m' = resumes u unlock m).
  { intros u. unfold resumes. cbn. rewrite List.filter_app. simpl. apply app_nil_r. }
  assert (Hold : forall u x, x ∈ locked u m ++ granting u m ++ queued u m ++ waiting u m ->
                             resolved m' x = resolved m x).
  { intros u x Hx. apply (resolved_app_old (lockcalls m) l); [exact Hls|].
    eapply lock_lists_valid; eauto. }
  split.
  - intros u. rewrite Hreq, Hloc, Hgr, Hqu, Hwa, (inv_fifo _ Hinv u), <- !app_assoc.
    reflexivity.
  - intros t Ht. rewrite Hjq in Ht. apply elem_of_app in Ht. destruct Ht as [Ht|Ht].
    + pose proof (inv_tasks _ Hinv t Ht) as Hok.
      destruct t as [x|x|h' x|u ev jid res v|k v|k v|h']; cbn [task_ok] in *;
        rewrite ?Hls, ?Hdb, ?length_app; cbn [length]; auto; try lia.
      unfold lock_db in *. rewrite Hls. destruct (lockcalls m !! x) eqn:Hx; [|discriminate].
      rewrite lookup_app_l by (eapply lookup_lt_Some; eauto). rewrite Hx. exact Hok.
    + apply list_elem_of_singleton in Ht. subst t. cbn [task_ok]. rewrite Hls, length_app.
      cbn [length]. unfold c. lia.
  - apply (inv_jobs _ Hinv).
  - apply (inv_wjobs _ Hinv).
  - intros x lx Hx. rewrite Hls in Hx. rewrite Hob, Hdb. apply lookup_app_Some in Hx.
    destruct Hx as [Hx|[_ Hx]].
    + destruct (inv_frames _ Hinv x lx Hx) as (H1 & H2 & H3).
      split; [exact H1|]. split; [exact H2|]. intros t Ht. rewrite Hsta. apply H3, Ht.
    + apply list_lookup_singleton_Some in Hx. destruct Hx as [_ <-]. cbn [lc_db lc_status l].
      split; [eauto|]. split; [eauto|]. discriminate.
  - intros u x. rewrite Hsta. intros Hx. rewrite (Hold u x).
    + apply (inv_last _ Hinv). exact Hx.
    + unfold started in Hx. rewrite app_assoc. apply elem_of_app. left. exact Hx.
  - intros u x. rewrite Hgr, Hqu, Hwa. rewrite !app_assoc. intros Hx.
    apply elem_of_app in Hx. destruct Hx as [Hx|Hx].
    + rewrite (Hold u x).
      * apply (inv_pending _ Hinv u). rewrite !app_assoc. exact Hx.
      * rewrite <- !app_assoc in Hx. apply elem_of_app. right. exact Hx.
    + destruct (decide (UID o = u)); [|inversion Hx].
      apply list_elem_of_singleton in Hx. subst x. unfold resolved. rewrite Hls.
      rewrite list_lookup_middle by reflexivity. reflexivity.
  - intros u Hi. destruct (inv_idle _ Hinv u Hi) as (H1 & H2 & H3).
    split; [exact H1|]. split; [|rewrite Hres; exact H3].
    intros x. rewrite Hsta. intros Hx. rewrite (Hold u x); [apply H2, Hx|].
    unfold started in Hx. rewrite app_assoc. apply elem_of_app. left. exact Hx.
  - intros u. rewrite Hres. destruct (inv_resume _ Hinv u) as [H1 H2]. split; [exact H1|].
    intros Hne x. rewrite Hsta. intros Hx. rewrite (Hold u x); [apply H2; assumption|].
    unfold started in Hx. rewrite app_assoc. apply elem_of_app. left. exact Hx.
  - intros h' o'. rewrite Hob. intros Ho'.
    destruct (inv_handles _ Hinv h' o' Ho') as [H1 H2].
    split; [exact H1|]. intros x Hx. destruct (H2 x Hx) as (H3 & H4 & H5).
    assert (Hv : x < length (lockcalls m)).
    { eapply (lock_lists_valid (UID o')); eauto. apply elem_of_app. left. exact H3. }
    rewrite Hloc. split; [exact H3|]. split.
    + rewrite (lock_db_app_old l x m m' Hls Hv). exact H4.
    + rewrite (resolved_app_old (lockcalls m) l x m m' Hls Hv). exact H5.
Qed.

Lemma ids_with_singleton u ls c :
  ids_with u ls [c] = if decide (lc_status <$> ls !! c = Some u) then [c] else [].
Proof. rewrite ids_with_cons. reflexivity. Qed.

(** Moving the one granted lock call of a database from the front of
    the job queue to its back does not change the list. *)
Lemma granting_rotate u m c q t' :
  lock_inv m -> jobqueue m = MLockDB_return c :: q -> grant_id t' = Some c ->
  ids_with u (lockcalls m) (omap grant_id (q ++ [t'])) = granting u m.
Proof.
  intros Hinv Hj Ht'. unfold granting. rewrite Hj, omap_app, ids_with_app.
  cbn [omap list_omap grant_id]. rewrite Ht'. cbn [omap list_omap option_bind].
  fold (omap grant_id q).
  rewrite (ids_with_cons u _ c (omap grant_id q)), ids_with_singleton.
  destruct (decide (lc_status <$> lockcalls m !! c = Some u)) as [Hc|Hc];
    [|apply app_nil_r].
  destruct (granting_at_most_one u m Hinv) as [Hg|[c' Hg]];
    unfold granting in Hg; rewrite Hj in Hg; cbn [omap list_omap grant_id] in Hg;
    fold (omap grant_id q) in Hg;
    rewrite (ids_with_cons u _ c (omap grant_id q)), decide_True in Hg by exact Hc.
  - discriminate.
  - injection Hg as -> Hg. rewrite Hg. reflexivity.
Qed.

(** [lockDB] returns the resolver: [use()] is made ready. *)
Lemma lock_inv_tick_return c q m :
  lock_inv m -> jobqueue m = MLockDB_return c :: q ->
  lock_inv (run_microtask (MLockDB_return c) (with_jobqueue q m)).
Proof.
  intros Hinv Hj.
  assert (Hok : task_ok m (MLockDB_return c)) by (apply (inv_tasks _ Hinv); rewrite Hj; left).
  simpl in Hok. cbn [run_microtask lockcalls with_jobqueue].
  destruct (lockcalls m !! c) as [l|] eqn:Hl;
    [|apply lookup_ge_None in Hl; lia].
  eapply lock_inv_frame; [..|exact Hinv]; cbn [lockcalls jobqueue schedule with_jobqueue
    databases objects history]; auto.
  - intros u. unfold waiting. cbn [lockcalls jobqueue schedule with_jobqueue].
    rewrite Hj, omap_app. cbn [omap list_omap wait_id]. rewrite app_nil_r. reflexivity.
  - intros u. unfold granting at 1. cbn [lockcalls jobqueue schedule with_jobqueue].
    apply (granting_rotate u m c q); auto.
  - intros u. left. unfold resumes. cbn [jobqueue schedule with_jobqueue].
    rewrite Hj, List.filter_app. simpl. apply app_nil_r.
  - intros t Ht. apply elem_of_app in Ht. destruct Ht as [Ht|Ht].
    + left. rewrite Hj. right. exact Ht.
    + right. apply list_elem_of_singleton in Ht. subst t. simpl. unfold lock_db. simpl.
      rewrite Hl. reflexivity.
  - apply (inv_wjobs _ Hinv).
  - intros h o Ho. eauto.
  - intros h o Ho. left. eauto.
Qed.

Lemma lookup_insert_handle (os : list SillyDB) h o o' h' x :
  os !! h = Some o -> (<[h := o']> os) !! h' = Some x ->
  (h' = h /\ x = o') \/ (h' <> h /\ os !! h' = Some x).
Proof.
  intros Ho Hx. destruct (decide (h' = h)) as [->|Hne].
  - rewrite list_lookup_insert_eq in Hx by (eapply lookup_lt_Some; eauto). left.
    split; congruence.
  - rewrite list_lookup_insert_ne in Hx by congruence. right. auto.
Qed.

Lemma resolved_insert m c l l' x ls :
  lockcalls m !! c = Some l -> ls = <[c := l']> (lockcalls m) ->
  match lockcalls (with_lockcalls ls m) !! x with
  | Some lx => lc_resolved lx
  | None => false
  end = if decide (x = c) then lc_resolved l' else resolved m x.
Proof.
  intros Hl ->. cbn [lockcalls with_lockcalls]. unfold resolved.
  destruct (decide (x = c)) as [->|Hne].
  - rewrite list_lookup_insert_eq by (eapply lookup_lt_Some; eauto). reflexivity.
  - rewrite list_lookup_insert_ne by congruence. reflexivity.
Qed.

(** A handle stops being locked and nothing else changes. *)
Lemma lock_inv_unlock_handle h o m :
  objects m !! h = Some o -> lock_inv m ->
  lock_inv (with_objects (<[h := with_locking false o]> (objects m)) m).
Proof.
  intros Ho Hinv.
  apply (lock_inv_frame m); try reflexivity; try exact Hinv.
  - intros u. left. reflexivity.
  - intros t Ht. left. exact Ht.
  - intros u Hu. left. exact Hu.
  - apply (inv_wjobs _ Hinv).
  - intros u Hu. exact Hu.
  - intros h1 o1 Ho1. cbn [objects with_objects].
    destruct (decide (h1 = h)) as [->|Hne].
    + rewrite list_lookup_insert_eq by (eapply lookup_lt_Some; eauto).
      rewrite Ho in Ho1. injection Ho1 as <-. eauto.
    + rewrite list_lookup_insert_ne by congruence. eauto.
  - intros h1 o1 Ho1. cbn [objects with_objects] in Ho1. left.
    destruct (lookup_insert_handle _ _ _ _ _ _ Ho Ho1) as [[-> ->]|[Hne Ho1']].
    + exists o. simpl. repeat split; auto. discriminate.
    + exists o1. auto.
Qed.

(** [close()]: the lock is released, and the handler that waits for it is
    made ready. *)
Lemma lock_inv_close h m : lock_inv m -> lock_inv (fst (close h m)).
Proof.
  intros Hinv. unfold close, no_object.
  destruct (objects m !! h) as [o|] eqn:Ho; [|exact Hinv].
  destruct (unlockDB o) as [c|] eqn:Hun; [|exact Hinv].
  cbn [fst].
  destruct (inv_handles _ Hinv h o Ho) as [_ Hh].
  destruct (Hh c Hun) as (Hcl & Hdb & _).
  unfold lock_db in Hdb. destruct (lockcalls m !! c) as [l|] eqn:Hl; [|discriminate].
  injection Hdb as Hdb.
  destruct (inv_frames _ Hinv c l Hl) as ((o0 & Ho0 & Hu0) & Hs0 & Hp0).
  rewrite Hdb, Ho in Ho0. injection Ho0 as <-.
  unfold resolve_lock. rewrite Hl. destruct (lc_resolved l) eqn:Hres.
  { apply lock_inv_unlock_handle; assumption. }
  set (ls := <[c := with_resolved l]> (lockcalls m)).
  set (m1 := match lc_parked l with
             | Some t => schedule t (with_lockcalls ls m)
             | None => with_lockcalls ls m
             end).
  set (m' := with_objects (<[h := with_locking false o]> (objects m1)) m1).
  assert (Hls : lockcalls m' = ls) by (unfold m', m1; destruct (lc_parked l); reflexivity).
  assert (Hob : objects m' = <[h := with_locking false o]> (objects m))
    by (unfold m', m1; destruct (lc_parked l); reflexivity).
  assert (Hdbs : databases m' = databases m)
    by (unfold m', m1; destruct (lc_parked l); reflexivity).
  assert (Hhis : history m' = history m)
    by (unfold m', m1; destruct (lc_parked l); reflexivity).
  assert (Hjq : jobqueue m'
                = jobqueue m ++ match lc_parked l with Some t => [t] | None => [] end).
  { unfold m', m1. destruct (lc_parked l); cbn; [reflexivity | rewrite app_nil_r; reflexivity]. }
  assert (Hpark : forall t, lc_parked l = Some t ->
                    exists jid, t = MHandler (UID o) unlock jid None None).
  { intros t Ht. destruct (Hp0 t Ht) as [[jid ->] _]. rewrite Hu0. eauto. }
  assert (Hids : forall u cs, ids_with u (lockcalls m') cs = ids_with u (lockcalls m) cs).
  { intros u cs. rewrite Hls. apply (ids_with_insert u (lockcalls m) c l); auto. }
  assert (Hwa : forall u, waiting u m' = waiting u m).
  { intros u. unfold waiting. rewrite Hids, Hjq, omap_app.
    destruct (lc_parked l) as [t|] eqn:Ht; [|rewrite app_nil_r; reflexivity].
    destruct (Hpark t eq_refl) as [jid ->]. simpl. rewrite app_nil_r. reflexivity. }
  assert (Hgr : forall u, granting u m' = granting u m).
  { intros u. unfold granting. rewrite Hids, Hjq, omap_app.
    destruct (lc_parked l) as [t|] eqn:Ht; [|rewrite app_nil_r; reflexivity].
    destruct (Hpark t eq_refl) as [jid ->]. simpl. rewrite app_nil_r. reflexivity. }
  assert (Hqo : forall u ev, queue_of u ev m' = queue_of u ev m)
    by (intros u ev; unfold queue_of; rewrite Hdbs; reflexivity).
  assert (Hqu : forall u, queued u m' = queued u m)
    by (intros u; unfold queued; rewrite Hqo; reflexivity).
  assert (Hlo : forall u, locked u m' = locked u m)
    by (intros u; unfold locked; rewrite Hhis; reflexivity).
  assert (Hsta : forall u, started u m' = started u m)
    by (intros u; unfold started; rewrite Hlo, Hgr; reflexivity).
  assert (Hreq : forall u, requested u m' = requested u m).
  { intros u. unfold requested. rewrite Hids, Hls. unfold ls. rewrite length_insert.
    reflexivity. }
  assert (Hre : forall x, resolved m' x = if decide (x = c) then true else resolved m x).
  { intros x. unfold resolved at 1. rewrite Hls. unfold ls.
    destruct (decide (x = c)) as [->|Hne].
    - rewrite list_lookup_insert_eq by (eapply lookup_lt_Some; eauto). reflexivity.
    - rewrite list_lookup_insert_ne by congruence. reflexivity. }
  assert (Hldb : forall x, lock_db m' x = lock_db m x).
  { intros x. unfold lock_db. rewrite Hls. unfold ls.
    destruct (decide (x = c)) as [->|Hne].
    - rewrite list_lookup_insert_eq by (eapply lookup_lt_Some; eauto). rewrite Hl.
      reflexivity.
    - rewrite list_lookup_insert_ne by congruence. reflexivity. }
  assert (Hcs : c ∈ started (UID o) m) by (unfold started; apply elem_of_app; left; exact Hcl).
  assert (Hunres : resolved m c = false) by (unfold resolved; rewrite Hl; exact Hres).
  assert (Honly : forall x, x ∈ started (UID o) m -> resolved m x = false -> x = c).
  { intros x Hx Hr.
    pose proof (inv_last _ Hinv _ _ Hx Hr) as H1.
    pose proof (inv_last _ Hinv _ _ Hcs Hunres) as H2. congruence. }
  assert (Hmono : forall x, resolved m x = true -> resolved m' x = true).
  { intros x Hx. rewrite Hre. destruct (decide (x = c)); auto. }
  assert (Hres0 : resumes (UID o) unlock m = []).
  { destruct (resumes (UID o) unlock m) eqn:Hr; [reflexivity|]. exfalso.
    destruct (inv_resume _ Hinv (UID o)) as [_ H2].
    rewrite H2 in Hunres; [discriminate | rewrite Hr; discriminate | exact Hcs]. }
  assert (Hresu : forall u, u <> UID o -> resumes u unlock m' = resumes u unlock m).
  { intros u Hne. unfold resumes. rewrite Hjq, List.filter_app.
    destruct (lc_parked l) as [t|] eqn:Ht; [|apply app_nil_r].
    destruct (Hpark t eq_refl) as [jid ->]. simpl.
    destruct (String.eqb_spec (UID o) u); [congruence|]. simpl. apply app_nil_r. }
  assert (Hresu0 : length (resumes (UID o) unlock m') <= 1).
  { unfold resumes. rewrite Hjq, List.filter_app. fold (resumes (UID o) unlock m).
    rewrite Hres0. destruct (lc_parked l) as [t|]; simpl; [|lia].
    destruct (is_resume (UID o) unlock t); simpl; lia. }
  split.
  - intros u. rewrite Hreq, Hlo, Hgr, Hqu, Hwa. apply (inv_fifo _ Hinv).
  - intros t Ht. rewrite Hjq in Ht. apply elem_of_app in Ht. destruct Ht as [Ht|Ht].
    + pose proof (inv_tasks _ Hinv t Ht) as Hok.
      destruct t as [x|x|h' x|u ev jid res v|k v|k v|h']; cbn [task_ok] in *;
        rewrite ?Hldb, ?Hdbs, ?Hls; unfold ls; rewrite ?length_insert; auto.
    + destruct (lc_parked l) as [t0|] eqn:Ht0; [|inversion Ht].
      apply list_elem_of_singleton in Ht. subst t.
      destruct (Hpark t0 eq_refl) as [jid ->]. cbn [task_ok]. rewrite Hdbs, Hu0.
      split; [exact Hs0 | reflexivity].
  - intros u j. rewrite Hqo. apply (inv_jobs _ Hinv).
  - intros u j. rewrite Hqo. apply (inv_wjobs _ Hinv).
  - intros x lx. rewrite Hls, Hob, Hdbs. unfold ls. intros Hx.
    assert (Hlx : exists l0, lockcalls m !! x = Some l0 /\ lc_db lx = lc_db l0
                             /\ lc_status lx = lc_status l0 /\ lc_parked lx = lc_parked l0).
    { destruct (decide (x = c)) as [->|Hne].
      - rewrite list_lookup_insert_eq in Hx by (eapply lookup_lt_Some; eauto).
        injection Hx as <-. exists l. auto.
      - rewrite list_lookup_insert_ne in Hx by congruence. exists lx. auto. }
    destruct Hlx as (l0 & Hl0 & -> & -> & ->).
    destruct (inv_frames _ Hinv x l0 Hl0) as ((o1 & Ho1 & Hu1) & Hs1 & Hp1).
    split; [|split; [exact Hs1|]].
    + destruct (decide (lc_db l0 = h)) as [Heq|Hne].
      * rewrite Heq in *. rewrite list_lookup_insert_eq by (eapply lookup_lt_Some; eauto).
        rewrite Ho in Ho1. injection Ho1 as <-. eauto.
      * rewrite list_lookup_insert_ne by congruence. eauto.
    + intros t Ht. rewrite Hsta. apply Hp1, Ht.
  - intros u x. rewrite Hsta, Hre. destruct (decide (x = c)); [discriminate|].
    apply (inv_last _ Hinv).
  - intros u x. rewrite Hgr, Hqu, Hwa, Hre. intros Hx.
    destruct (decide (x = c)) as [->|Hne]; [|apply (inv_pending _ Hinv u), Hx].
    exfalso.
    assert (Hu : u = UID o).
    { assert (H1 : lc_status <$> lockcalls m !! c = Some u).
      { apply (lock_lists_valid u m c Hinv). apply elem_of_app. right. exact Hx. }
      rewrite Hl in H1. simpl in H1. congruence. }
    subst u. pose proof (lock_lists_NoDup (UID o) m Hinv) as Hnd.
    apply NoDup_app in Hnd. destruct Hnd as (_ & Hnd & _). apply (Hnd c Hcl Hx).
  - intros u. rewrite Hqo. intros Hi. destruct (inv_idle _ Hinv u Hi) as (H1 & H2 & H3).
    split; [exact H1|]. split.
    + intros x. rewrite Hsta. intros Hx. apply Hmono, H2, Hx.
    + destruct (decide (u = UID o)) as [->|Hne]; [|rewrite Hresu by exact Hne; exact H3].
      rewrite (H2 c Hcs) in Hunres. discriminate.
  - intros u. destruct (decide (u = UID o)) as [->|Hne].
    + split; [exact Hresu0|]. intros _ x. rewrite Hsta. intros Hx.
      destruct (resolved m x) eqn:Hrx; [apply Hmono, Hrx|].
      rewrite (Honly x Hx Hrx), Hre, decide_True by reflexivity. reflexivity.
    + rewrite Hresu by exact Hne. destruct (inv_resume _ Hinv u) as [H1 H2].
      split; [exact H1|]. intros Hn x. rewrite Hsta. intros Hx. apply Hmono, H2; assumption.
  - intros h1 o1. rewrite Hob. intros Ho1.
    destruct (lookup_insert_handle _ _ _ _ _ _ Ho Ho1) as [[-> ->]|[Hne Ho1']].
    + cbn [with_locking __locking unlockDB UID]. split; [discriminate|].
      intros x Hx. rewrite Hun in Hx. injection Hx as <-.
      rewrite Hlo, Hldb. split; [exact Hcl|]. split; [|discriminate].
      unfold lock_db. rewrite Hl. simpl. congruence.
    + destruct (inv_handles _ Hinv h1 o1 Ho1') as [H1 H2]. split; [exact H1|].
      intros x Hx. destruct (H2 x Hx) as (H3 & H4 & H5).
      rewrite Hlo, Hldb, Hre. split; [exact H3|]. split; [exact H4|].
      destruct (decide (x = c)) as [->|]; [|exact H5].
      exfalso. unfold lock_db in H4. rewrite Hl in H4. simpl in H4. congruence.
Qed.

(** [use()] resumes: the handle is locked. *)
Lemma lock_inv_tick_use h c q m :
  lock_inv m -> jobqueue m = MUse h c :: q ->
  lock_inv (run_microtask (MUse h c) (with_jobqueue q m)).
Proof.
  intros Hinv Hj.
  assert (Hok : task_ok m (MUse h c)) by (apply (inv_tasks _ Hinv); rewrite Hj; left).
  cbn [task_ok] in Hok. unfold lock_db in Hok.
  destruct (lockcalls m !! c) as [l|] eqn:Hl; [|discriminate]. injection Hok as Hdb.
  destruct (inv_frames _ Hinv c l Hl) as ((o & Ho & Hu) & Hs & Hp).
  rewrite Hdb in Ho.
  cbn [run_microtask objects with_jobqueue]. rewrite Ho.
  set (o' := with_locking true (with_unlockDB (Some c) o)).
  set (m' := observe (Locked (UID o) h c)
               (with_objects (<[h := o']> (objects m)) (with_jobqueue q m))).
  assert (Hst : lc_status <$> lockcalls m !! c = Some (UID o))
    by (rewrite Hl; simpl; congruence).
  assert (Hg0 : granting (UID o) m = [c] /\ ids_with (UID o) (lockcalls m) (omap grant_id q) = []).
  { destruct (granting_at_most_one (UID o) m Hinv) as [Hg|[c' Hg]];
      unfold granting in *; rewrite Hj in *; cbn [omap list_omap grant_id] in *;
      fold (omap grant_id q) in *;
      rewrite (ids_with_cons (UID o) _ c (omap grant_id q)), decide_True in * by exact Hst.
    - discriminate.
    - injection Hg as -> Hg. rewrite Hg. auto. }
  destruct Hg0 as [Hg0 Hg1].
  assert (Hgr : forall u, granting u m' = if decide (UID o = u) then [] else granting u m).
  { intros u. unfold granting. cbn [lockcalls jobqueue m' observe with_history with_objects
      with_jobqueue]. rewrite Hj. cbn [omap list_omap grant_id]. fold (omap grant_id q).
    rewrite (ids_with_cons u _ c (omap grant_id q)).
    destruct (decide (UID o = u)) as [<-|Hne]; [exact Hg1|].
    rewrite decide_False; [reflexivity|]. rewrite Hst. congruence. }
  assert (Hlo : forall u, locked u m' = locked u m ++ if decide (UID o = u) then [c] else []).
  { intros u. unfold locked. cbn [history m' observe with_history with_objects with_jobqueue].
    rewrite omap_app. cbn [omap list_omap locked_id].
    destruct (decide (UID o = u)); reflexivity. }
  assert (Hsta : forall u, started u m' = started u m).
  { intros u. unfold started. rewrite Hlo, Hgr.
    destruct (decide (UID o = u)) as [<-|Hne]; [|rewrite app_nil_r; reflexivity].
    rewrite Hg0, app_nil_r. reflexivity. }
  assert (Hwa : forall u, waiting u m' = waiting u m).
  { intros u. unfold waiting. cbn [lockcalls jobqueue m' observe with_history with_objects
      with_jobqueue]. rewrite Hj. reflexivity. }
  assert (Hresu : forall u, resumes u unlock m' = resumes u unlock m).
  { intros u. unfold resumes. cbn [jobqueue m' observe with_history with_objects with_jobqueue].
    rewrite Hj. reflexivity. }
  assert (Hunres : resolved m c = false).
  { apply (inv_pending _ Hinv (UID o)). rewrite Hg0. left. }
  split.
  - intros u. change (requested u m') with (requested u m). rewrite (inv_fifo _ Hinv u).
    rewrite Hlo, Hgr, Hwa. change (queued u m') with (queued u m).
    destruct (decide (UID o = u)) as [<-|Hne]; [|rewrite app_nil_r; reflexivity].
    rewrite Hg0, <- !app_assoc. reflexivity.
  - intros t Ht. cbn [jobqueue m' observe with_history with_objects with_jobqueue] in Ht.
    assert (Ht' : t ∈ jobqueue m) by (rewrite Hj; right; exact Ht).
    apply (inv_tasks _ Hinv) in Ht'. destruct t; exact Ht'.
  - apply (inv_jobs _ Hinv).
  - apply (inv_wjobs _ Hinv).
  - intros x lx Hx. change (lockcalls m !! x = Some lx) in Hx.
    destruct (inv_frames _ Hinv x lx Hx) as ((o1 & Ho1 & Hu1) & Hs1 & Hp1).
    split; [|split; [exact Hs1|]].
    + cbn [objects m' observe with_history with_objects].
      destruct (decide (lc_db lx = h)) as [Heq|Hne].
      * rewrite Heq in *. rewrite list_lookup_insert_eq by (eapply lookup_lt_Some; eauto).
        rewrite Ho in Ho1. injection Ho1 as <-. exists o'. auto.
      * rewrite list_lookup_insert_ne by congruence. eauto.
    + intros t Ht. rewrite Hsta. apply Hp1, Ht.
  - intros u x. rewrite Hsta. apply (inv_last _ Hinv).
  - intros u x. rewrite Hgr, Hwa. change (queued u m') with (queued u m).
    change (resolved m' x) with (resolved m x). intros Hx. apply (inv_pending _ Hinv u).
    destruct (decide (UID o = u)); [|exact Hx]. apply elem_of_app. right. exact Hx.
  - intros u Hi. destruct (inv_idle _ Hinv u Hi) as (H1 & H2 & H3).
    split; [exact H1|]. split; [|rewrite Hresu; exact H3].
    intros x. rewrite Hsta. apply H2.
  - intros u. rewrite Hresu. destruct (inv_resume _ Hinv u) as [H1 H2]. split; [exact H1|].
    intros Hne x. rewrite Hsta. apply H2, Hne.
  - intros h1 o1 Ho1. cbn [objects m' observe with_history with_objects] in Ho1.
    destruct (lookup_insert_handle _ _ _ _ _ _ Ho Ho1) as [[-> ->]|[Hne Ho1']].
    + cbn [o' with_locking with_unlockDB __locking unlockDB UID]. split; [eauto|].
      intros x [= <-]. rewrite Hlo, decide_True by reflexivity.
      split; [apply elem_of_app; right; left|]. split; [|intros _; exact Hunres].
      unfold lock_db. cbn [lockcalls m' observe with_history with_objects with_jobqueue].
      rewrite Hl. simpl. congruence.
    + destruct (inv_handles _ Hinv h1 o1 Ho1') as [H1 H2]. split; [exact H1|].
      intros x Hx. destruct (H2 x Hx) as (H3 & H4 & H5).
      split; [rewrite Hlo; apply elem_of_app; left; exact H3|]. split; [exact H4 | exact H5].
Qed.

Section LockQueue.
Context `{JSONText}.

(** The queue handler finds its list empty: the queue becomes idle. *)
Lemma lock_inv_stop u st m :
  lock_inv m -> databases m !! u = Some st -> tx_list (tx_unlock st) = [] ->
  (forall c, c ∈ started u m -> resolved m c = true) -> resumes u unlock m = [] ->
  lock_inv (with_databases
              (<[u := with_transaction unlock {| tx_list := []; tx_uuid := None |} st]>
                 (databases m)) m).
Proof.
  intros Hinv Hst Hl Hall Hres.
  apply (lock_inv_frame m); try reflexivity; try exact Hinv.
  - intros u'. left. reflexivity.
  - intros t Ht. left. exact Ht.
  - intros u'. rewrite queue_of_insert. destruct (decide (u' = u)) as [->|]; [|reflexivity].
    rewrite (queue_of_Some _ _ _ _ Hst). simpl. congruence.
  - intros u'. rewrite queue_of_insert. destruct (decide (u' = u)) as [->|]; [|auto].
    intros _. right. rewrite (queue_of_Some _ _ _ _ Hst). auto.
  - intros u' j. rewrite queue_of_insert. destruct (decide (u' = u)) as [->|].
    + intros Hj. apply (inv_wjobs _ Hinv u j). rewrite (queue_of_Some _ _ _ _ Hst). exact Hj.
    + apply (inv_wjobs _ Hinv).
  - intros u' Hs. cbn [databases with_databases].
    destruct (decide (u' = u)) as [->|Hne].
    + rewrite lookup_insert_eq. eauto.
    + rewrite lookup_insert_ne by congruence. exact Hs.
  - intros h o Ho. eauto.
  - intros h o Ho. left. exists o. auto.
Qed.

(** The queue handler starts the job at the head of its list. *)
Lemma lock_inv_start u st job rest m :
  lock_inv m -> databases m !! u = Some st -> tx_list (tx_unlock st) = job :: rest ->
  tx_uuid (tx_unlock st) <> None ->
  (forall c, c ∈ started u m -> resolved m c = true) -> resumes u unlock m = [] ->
  lock_inv (run_todo u unlock job
              (observe (Started u unlock job)
                 (with_databases
                    (<[u := with_transaction unlock
                             {| tx_list := rest; tx_uuid := Some (job_uuid job) |} st]>
                       (databases m)) m))).
Proof.
  intros Hinv Hst Hlist Hbusy Hall Hres.
  assert (Hq : queue_of u unlock m = tx_unlock st) by (apply (queue_of_Some _ unlock _ _ Hst)).
  destruct (inv_jobs _ Hinv u job) as (c & Hc & Hnone); [rewrite Hq, Hlist; left|].
  assert (Hqueued : queued u m = c :: omap job_lock rest).
  { unfold queued. rewrite Hq, Hlist. cbn [omap list_omap]. unfold job_lock at 1.
    rewrite Hc. reflexivity. }
  assert (Hcin : c ∈ locked u m ++ granting u m ++ queued u m ++ waiting u m).
  { rewrite Hqueued. set_solver. }
  destruct (lock_lists_valid u m c Hinv Hcin) as [Hvalid Hstatus].
  destruct (lockcalls m !! c) as [l|] eqn:Hl; [|discriminate]. injection Hstatus as Hstatus.
  assert (Hunres : resolved m c = false).
  { apply (inv_pending _ Hinv u). rewrite Hqueued. set_solver. }
  assert (Hlres : lc_resolved l = false) by (unfold resolved in Hunres; rewrite Hl in Hunres; exact Hunres).
  assert (Hg0 : granting u m = []) by (apply granting_none_when_resolved; assumption).
  unfold run_todo. rewrite Hc, Hnone.
  cbn [lockcalls schedule observe with_history with_jobqueue with_databases].
  rewrite Hl, Hlres.
  set (t := MHandler u unlock (job_uuid job) None None).
  set (ls := <[c := with_parked t l]> (lockcalls m)).
  set (dbs := <[u := with_transaction unlock
                       {| tx_list := rest; tx_uuid := Some (job_uuid job) |} st]> (databases m)).
  set (m' := with_lockcalls ls
               (schedule (MLockDB_return c)
                  (observe (Started u unlock job) (with_databases dbs m)))).
  assert (Hids : forall u' cs, ids_with u' ls cs = ids_with u' (lockcalls m) cs).
  { intros u' cs. apply (ids_with_insert u' (lockcalls m) c l); auto. }
  assert (Hreq : forall u', requested u' m' = requested u' m).
  { intros u'. unfold requested. cbn [lockcalls m' with_lockcalls]. rewrite Hids. unfold ls.
    rewrite length_insert. reflexivity. }
  assert (Hlo : forall u', locked u' m' = locked u' m).
  { intros u'. unfold locked. cbn [history m' with_lockcalls schedule with_jobqueue observe
      with_history with_databases]. rewrite omap_app. apply app_nil_r. }
  assert (Hgr : forall u', granting u' m'
                           = granting u' m ++ if decide (u' = u) then [c] else []).
  { intros u'. unfold granting. cbn [lockcalls jobqueue m' with_lockcalls schedule with_jobqueue
      observe with_history with_databases]. rewrite Hids, omap_app, ids_with_app. f_equal.
    cbn [omap list_omap grant_id]. rewrite ids_with_singleton, Hl. cbn [fmap option_fmap option_map].
    destruct (decide (u' = u)) as [->|Hne].
    - rewrite decide_True by congruence. reflexivity.
    - rewrite decide_False by congruence. reflexivity. }
  assert (Hwa : forall u', waiting u' m' = waiting u' m).
  { intros u'. unfold waiting. cbn [lockcalls jobqueue m' with_lockcalls schedule with_jobqueue
      observe with_history with_databases]. rewrite Hids, omap_app.
    cbn [omap list_omap wait_id]. rewrite app_nil_r. reflexivity. }
  assert (Hqo : forall u' ev, queue_of u' ev m'
      = if decide (u' = u) then
          transactions (with_transaction unlock
                          {| tx_list := rest; tx_uuid := Some (job_uuid job) |} st) ev
        else queue_of u' ev m).
  { intros u' ev. apply (queue_of_insert u u' ev _ m). }
  assert (Hqu : forall u', queued u' m'
                           = if decide (u' = u) then omap job_lock rest else queued u' m).
  { intros u'. unfold queued. rewrite Hqo. destruct (decide (u' = u)); reflexivity. }
  assert (Hre : forall x, resolved m' x = resolved m x).
  { intros x. unfold resolved. cbn [lockcalls m' with_lockcalls]. unfold ls.
    destruct (decide (x = c)) as [->|Hne].
    - rewrite list_lookup_insert_eq by (eapply lookup_lt_Some; eauto). rewrite Hl. reflexivity.
    - rewrite list_lookup_insert_ne by congruence. reflexivity. }
  assert (Hldb : forall x, lock_db m' x = lock_db m x).
  { intros x. unfold lock_db. cbn [lockcalls m' with_lockcalls]. unfold ls.
    destruct (decide (x = c)) as [->|Hne].
    - rewrite list_lookup_insert_eq by (eapply lookup_lt_Some; eauto). rewrite Hl. reflexivity.
    - rewrite list_lookup_insert_ne by congruence. reflexivity. }
  assert (Hsta : forall u', started u' m'
                            = started u' m ++ if decide (u' = u) then [c] else []).
  { intros u'. unfold started. rewrite Hlo, Hgr, app_assoc. reflexivity. }
  assert (Hresu : forall u', resumes u' unlock m' = resumes u' unlock m).
  { intros u'. unfold resumes. cbn [jobqueue m' with_lockcalls schedule with_jobqueue
      observe with_history with_databases]. rewrite List.filter_app. simpl. apply app_nil_r. }
  assert (Hsome : forall u', is_Some (databases m !! u') -> is_Some (dbs !! u')).
  { intros u' Hs. unfold dbs. destruct (decide (u' = u)) as [->|Hne].
    - rewrite lookup_insert_eq. eauto.
    - rewrite lookup_insert_ne by congruence. exact Hs. }
  split.
  - intros u'. rewrite Hreq, Hlo, Hgr, Hqu, Hwa, (inv_fifo _ Hinv u').
    destruct (decide (u' = u)) as [->|Hne]; [|rewrite app_nil_r; reflexivity].
    rewrite Hg0, Hqueued. reflexivity.
  - intros t' Ht'. cbn [jobqueue m' with_lockcalls schedule with_jobqueue
      observe with_history with_databases] in Ht'.
    apply elem_of_app in Ht'. destruct Ht' as [Ht'|Ht'].
    + pose proof (inv_tasks _ Hinv t' Ht') as Hok.
      destruct t' as [x|x|h' x|u' ev jid res v|k v|k v|h']; cbn [task_ok] in *;
        rewrite ?Hldb; cbn [lockcalls databases m' with_lockcalls schedule with_jobqueue
          observe with_history with_databases]; unfold ls; rewrite ?length_insert; auto.
      destruct Hok as [Hs Hn]. split; [apply Hsome, Hs | exact Hn].
    + apply list_elem_of_singleton in Ht'. subst t'. cbn [task_ok lockcalls m' with_lockcalls].
      unfold ls. rewrite length_insert. exact Hvalid.
  - intros u' j. rewrite Hqo. destruct (decide (u' = u)) as [->|]; [|apply (inv_jobs _ Hinv)].
    cbn [transactions with_transaction tx_unlock tx_list]. intros Hj.
    apply (inv_jobs _ Hinv u). rewrite Hq, Hlist. right. exact Hj.
  - intros u' j. rewrite Hqo. destruct (decide (u' = u)) as [->|]; [|apply (inv_wjobs _ Hinv)].
    cbn [transactions with_transaction tx_write_end]. intros Hj.
    apply (inv_wjobs _ Hinv u). rewrite (queue_of_Some _ _ _ _ Hst). exact Hj.
  - intros x lx. cbn [lockcalls objects databases m' with_lockcalls schedule with_jobqueue
      observe with_history with_databases]. unfold ls. intros Hx.
    destruct (decide (x = c)) as [->|Hne].
    + rewrite list_lookup_insert_eq in Hx by (eapply lookup_lt_Some; eauto).
      injection Hx as <-. cbn [with_parked lc_db lc_status lc_parked].
      destruct (inv_frames _ Hinv c l Hl) as (H1 & H2 & _).
      split; [exact H1|]. split; [apply Hsome, H2|].
      intros t0 [= <-]. rewrite Hstatus. split; [unfold t; eauto|].
      rewrite Hsta, decide_True by reflexivity. apply elem_of_app. right. left.
    + rewrite list_lookup_insert_ne in Hx by congruence.
      destruct (inv_frames _ Hinv x lx Hx) as (H1 & H2 & H3).
      split; [exact H1|]. split; [apply Hsome, H2|].
      intros t0 Ht0. destruct (H3 t0 Ht0) as [H4 H5]. split; [exact H4|].
      rewrite Hsta. apply elem_of_app. left. exact H5.
  - intros u' x. rewrite Hsta, Hre. destruct (decide (u' = u)) as [->|Hne].
    + intros Hx Hr. apply elem_of_app in Hx. destruct Hx as [Hx|Hx].
      * rewrite (Hall x Hx) in Hr. discriminate.
      * apply list_elem_of_singleton in Hx. subst x. apply last_snoc.
    + rewrite app_nil_r. apply (inv_last _ Hinv).
  - intros u' x. rewrite Hgr, Hqu, Hwa, Hre. intros Hx. apply (inv_pending _ Hinv u').
    destruct (decide (u' = u)) as [->|Hne]; [|rewrite app_nil_r in Hx; exact Hx].
    rewrite Hg0, Hqueued. rewrite Hg0 in Hx. exact Hx.
  - intros u'. rewrite Hqo. destruct (decide (u' = u)) as [->|Hne]; [discriminate|].
    intros Hi. destruct (inv_idle _ Hinv u' Hi) as (H1 & H2 & H3).
    split; [exact H1|]. split; [|rewrite Hresu; exact H3].
    intros x. rewrite Hsta, decide_False, app_nil_r, Hre by exact Hne. apply H2.
  - intros u'. rewrite Hresu. destruct (decide (u' = u)) as [->|Hne].
    + rewrite Hres. split; [simpl; lia|]. intros Hn. contradiction.
    + destruct (inv_resume _ Hinv u') as [H1 H2]. split; [exact H1|].
      intros Hn x. rewrite Hsta, decide_False, app_nil_r, Hre by exact Hne. apply H2, Hn.
  - intros h1 o1 Ho1. change (objects m !! h1 = Some o1) in Ho1.
    destruct (inv_handles _ Hinv h1 o1 Ho1) as [H1 H2]. split; [exact H1|].
    intros x Hx. rewrite Hlo, Hldb, Hre. apply H2, Hx.
Qed.
End LockQueue.

Section LockHandler.
Context `{JSONText}.

(** The handler overwrites the running mark before it reads it. *)
Lemma handler_set_uuid u a m : handler u unlock (set_uuid u a m) = handler u unlock m.
Proof.
  unfold set_uuid, handler. destruct (databases m !! u) as [st|] eqn:Hst; [|rewrite Hst; reflexivity].
  cbn [databases with_databases]. rewrite lookup_insert_eq.
  cbn [transactions with_transaction tx_unlock tx_list].
  destruct (tx_list (tx_unlock st)) as [|job rest]; rewrite insert_insert_eq; reflexivity.
Qed.

Lemma lock_inv_set_busy u x m : lock_inv m -> lock_inv (set_uuid u (Some x) m).
Proof.
  intros Hinv. unfold set_uuid. destruct (databases m !! u) as [st|] eqn:Hst; [|exact Hinv].
  apply (lock_inv_frame m); try reflexivity; try exact Hinv.
  - intros u'. left. reflexivity.
  - intros t Ht. left. exact Ht.
  - intros u'. rewrite queue_of_insert. destruct (decide (u' = u)) as [->|]; [|reflexivity].
    rewrite (queue_of_Some _ _ _ _ Hst). reflexivity.
  - intros u'. rewrite queue_of_insert. destruct (decide (u' = u)) as [->|]; [discriminate|auto].
  - intros u' j. rewrite queue_of_insert. destruct (decide (u' = u)) as [->|].
    + intros Hj. apply (inv_wjobs _ Hinv u j). rewrite (queue_of_Some _ _ _ _ Hst). exact Hj.
    + apply (inv_wjobs _ Hinv).
  - intros u' Hs. cbn [databases with_databases].
    destruct (decide (u' = u)) as [->|Hne].
    + rewrite lookup_insert_eq. eauto.
    + rewrite lookup_insert_ne by congruence. exact Hs.
  - intros h o Ho. eauto.
  - intros h o Ho. left. exists o. auto.
Qed.

(** The handler of an unlock queue runs when nothing of the queue is in
    flight: it starts the next job or leaves the queue idle. *)
Lemma lock_inv_handler_busy u m :
  lock_inv m -> tx_uuid (queue_of u unlock m) <> None ->
  (forall c, c ∈ started u m -> resolved m c = true) -> resumes u unlock m = [] ->
  lock_inv (handler u unlock m).
Proof.
  intros Hinv Hbusy Hall Hres. unfold handler.
  destruct (databases m !! u) as [st|] eqn:Hst; [|exact Hinv].
  rewrite (queue_of_Some _ _ _ _ Hst) in Hbusy.
  destruct (tx_list (transactions st unlock)) as [|job rest] eqn:Hl.
  - apply lock_inv_stop; assumption.
  - apply lock_inv_start; assumption.
Qed.

Lemma lock_inv_handler u m :
  lock_inv m ->
  (forall c, c ∈ started u m -> resolved m c = true) -> resumes u unlock m = [] ->
  lock_inv (handler u unlock m).
Proof.
  intros Hinv Hall Hres. rewrite <- (handler_set_uuid u (Some 0)).
  destruct (databases m !! u) as [st|] eqn:Hst.
  - apply lock_inv_handler_busy.
    + apply lock_inv_set_busy, Hinv.
    + unfold set_uuid. rewrite Hst, queue_of_insert, decide_True by reflexivity. discriminate.
    + unfold set_uuid. rewrite Hst. exact Hall.
    + unfold set_uuid. rewrite Hst. exact Hres.
  - unfold set_uuid, handler. rewrite !Hst. exact Hinv.
Qed.

(** A handler continuation of an unlock queue runs. *)
Lemma lock_inv_tick_handler u jid res v q m :
  lock_inv m -> jobqueue m = MHandler u unlock jid res v :: q ->
  lock_inv (run_microtask (MHandler u unlock jid res v) (with_jobqueue q m)).
Proof.
  intros Hinv Hj.
  assert (Hok : task_ok m (MHandler u unlock jid res v))
    by (apply (inv_tasks _ Hinv); rewrite Hj; left).
  destruct Hok as [Hs Hn]. rewrite (Hn eq_refl) in *.
  cbn [run_microtask].
  set (m1 := observe (Finished u unlock jid) (with_jobqueue q m)).
  assert (Hrm : resumes u unlock m = MHandler u unlock jid None v :: resumes u unlock m1).
  { unfold resumes. rewrite Hj. simpl. rewrite String.eqb_refl. reflexivity. }
  assert (Hr1 : resumes u unlock m1 = []).
  { destruct (inv_resume _ Hinv u) as [Hlen _]. rewrite Hrm in Hlen. simpl in Hlen.
    destruct (resumes u unlock m1); [reflexivity | simpl in Hlen; lia]. }
  assert (Hall : forall c, c ∈ started u m -> resolved m c = true).
  { destruct (inv_resume _ Hinv u) as [_ Hall]. apply Hall. rewrite Hrm. discriminate. }
  assert (Hinv1 : lock_inv m1).
  { apply (lock_inv_frame m); try exact Hinv; try reflexivity.
    - intros u'. unfold waiting. cbn [lockcalls jobqueue m1 observe with_history with_jobqueue].
      rewrite Hj. reflexivity.
    - intros u'. unfold granting. cbn [lockcalls jobqueue m1 observe with_history with_jobqueue].
      rewrite Hj. reflexivity.
    - intros u'. unfold resumes. cbn [jobqueue m1 observe with_history with_jobqueue].
      rewrite Hj. simpl. destruct (String.eqb_spec u u') as [->|Hne]; simpl.
      + right. exact Hr1.
      + left. reflexivity.
    - intros t Ht. left. rewrite Hj. right. exact Ht.
    - intros u'. unfold locked. cbn [history m1 observe with_history with_jobqueue].
      rewrite omap_app. apply app_nil_r.
    - intros u' Hu'. left. exact Hu'.
    - apply (inv_wjobs _ Hinv).
    - intros u' Hu'. exact Hu'.
    - intros h o Ho. eauto.
    - intros h o Ho. left. exists o. auto. }
  apply lock_inv_handler; [exact Hinv1 | | exact Hr1].
  intros c Hc. apply Hall.
  unfold started, locked, granting in *.
  cbn [lockcalls jobqueue history m1 observe with_history with_jobqueue] in Hc.
  rewrite omap_app, app_nil_r in Hc. rewrite Hj. exact Hc.
Qed.
End LockHandler.

Section LockEnqueue.
Context `{JSONText}.

(** [lockDB] reaches [wait]: the job of the lock call joins the unlock
    queue, which is running. *)
Lemma lock_inv_enqueue c q l st x m :
  lock_inv m -> jobqueue m = MLockDB_wait c :: q ->
  lockcalls m !! c = Some l -> databases m !! lc_status l = Some st ->
  lock_inv
    (observe (Enqueued (lc_status l) unlock (lock_job c l))
       (with_databases
          (<[lc_status l :=
               with_transaction unlock
                 {| tx_list := tx_list (tx_unlock st) ++ [lock_job c l]; tx_uuid := Some x |}
                 st]> (databases m))
          (with_jobqueue q m))).
Proof.
  intros Hinv Hj Hl Hst.
  set (u := lc_status l) in *.
  set (t := {| tx_list := tx_list (tx_unlock st) ++ [lock_job c l]; tx_uuid := Some x |}).
  set (m' := observe (Enqueued u unlock (lock_job c l))
               (with_databases (<[u := with_transaction unlock t st]> (databases m))
                  (with_jobqueue q m))).
  assert (Hstatus : lc_status <$> lockcalls m !! c = Some u) by (rewrite Hl; reflexivity).
  assert (Hq : queue_of u unlock m = tx_unlock st) by (apply (queue_of_Some _ unlock _ _ Hst)).
  assert (Hqo : forall u' ev, queue_of u' ev m'
      = if decide (u' = u) then transactions (with_transaction unlock t st) ev
        else queue_of u' ev m).
  { intros u' ev. apply (queue_of_insert u u' ev _ (with_jobqueue q m)). }
  assert (Hwa : forall u', waiting u' m = (if decide (u' = u) then [c] else []) ++ waiting u' m').
  { intros u'. unfold waiting. cbn [lockcalls jobqueue m' observe with_history with_databases
      with_jobqueue]. rewrite Hj. cbn [omap list_omap wait_id]. fold (omap wait_id q).
    rewrite (ids_with_cons u' _ c (omap wait_id q)), Hstatus.
    destruct (decide (u' = u)) as [->|Hne].
    - rewrite decide_True by reflexivity. reflexivity.
    - rewrite decide_False by congruence. reflexivity. }
  assert (Hqu : forall u', queued u' m' = queued u' m ++ if decide (u' = u) then [c] else []).
  { intros u'. unfold queued. rewrite Hqo. destruct (decide (u' = u)) as [->|Hne].
    - cbn [transactions with_transaction tx_unlock tx_list t]. rewrite Hq, omap_app.
      reflexivity.
    - rewrite app_nil_r. reflexivity. }
  assert (Hgr : forall u', granting u' m' = granting u' m).
  { intros u'. unfold granting. cbn [lockcalls jobqueue m' observe with_history with_databases
      with_jobqueue]. rewrite Hj. reflexivity. }
  assert (Hlo : forall u', locked u' m' = locked u' m).
  { intros u'. unfold locked. cbn [history m' observe with_history with_databases with_jobqueue].
    rewrite omap_app. apply app_nil_r. }
  assert (Hsta : forall u', started u' m' = started u' m)
    by (intros u'; unfold started; rewrite Hlo, Hgr; reflexivity).
  assert (Hresu : forall u', resumes u' unlock m' = resumes u' unlock m).
  { intros u'. unfold resumes. cbn [jobqueue m' observe with_history with_databases with_jobqueue].
    rewrite Hj. reflexivity. }
  assert (Hsome : forall u', is_Some (databases m !! u') -> is_Some (databases m' !! u')).
  { intros u' Hs. cbn [databases m' observe with_history with_databases].
    destruct (decide (u' = u)) as [->|Hne].
    - rewrite lookup_insert_eq. eauto.
    - rewrite lookup_insert_ne by congruence. exact Hs. }
  assert (Hpend : forall u' y,
            y ∈ granting u' m' ++ queued u' m' ++ waiting u' m' ->
            y ∈ granting u' m ++ queued u' m ++ waiting u' m).
  { intros u' y. rewrite Hgr, Hqu, (Hwa u'). destruct (decide (u' = u)); set_solver. }
  split.
  - intros u'. change (requested u' m') with (requested u' m).
    rewrite (inv_fifo _ Hinv u'), Hlo, Hgr, Hqu, (Hwa u'), <- !app_assoc. reflexivity.
  - intros t' Ht'. cbn [jobqueue m' observe with_history with_databases with_jobqueue] in Ht'.
    assert (Hin : t' ∈ jobqueue m) by (rewrite Hj; right; exact Ht').
    pose proof (inv_tasks _ Hinv t' Hin) as Hok.
    destruct t' as [y|y|h' y|u' ev jid res v|k v|k v|h']; cbn [task_ok] in *; auto.
    destruct Hok as [Hs Hn]. split; [apply Hsome, Hs | exact Hn].
  - intros u' j. rewrite Hqo. destruct (decide (u' = u)) as [->|]; [|apply (inv_jobs _ Hinv)].
    cbn [transactions with_transaction tx_unlock tx_list t]. intros Hin.
    apply elem_of_app in Hin. destruct Hin as [Hin|Hin].
    + apply (inv_jobs _ Hinv u). rewrite Hq. exact Hin.
    + apply list_elem_of_singleton in Hin. subst j. simpl. eauto.
  - intros u' j. rewrite Hqo. destruct (decide (u' = u)) as [->|]; [|apply (inv_wjobs _ Hinv)].
    cbn [transactions with_transaction tx_write_end]. intros Hin.
    apply (inv_wjobs _ Hinv u). rewrite (queue_of_Some _ _ _ _ Hst). exact Hin.
  - intros y ly Hy. change (lockcalls m !! y = Some ly) in Hy.
    destruct (inv_frames _ Hinv y ly Hy) as (H1 & H2 & H3).
    split; [exact H1|]. split; [apply Hsome, H2|].
    intros t0 Ht0. rewrite Hsta. apply H3, Ht0.
  - intros u' y. rewrite Hsta. apply (inv_last _ Hinv).
  - intros u' y Hy. apply (inv_pending _ Hinv u'), Hpend, Hy.
  - intros u'. rewrite Hqo. destruct (decide (u' = u)) as [->|Hne]; [discriminate|].
    intros Hi. destruct (inv_idle _ Hinv u' Hi) as (H1 & H2 & H3).
    split; [exact H1|]. split; [|rewrite Hresu; exact H3].
    intros y. rewrite Hsta. apply H2.
  - intros u'. rewrite Hresu. destruct (inv_resume _ Hinv u') as [H1 H2]. split; [exact H1|].
    intros Hn y. rewrite Hsta. apply H2, Hn.
  - intros h1 o1 Ho1. change (objects m !! h1 = Some o1) in Ho1.
    destruct (inv_handles _ Hinv h1 o1 Ho1) as [H1 H2]. split; [exact H1|].
    intros y Hy. rewrite Hlo. apply H2, Hy.
Qed.

(** [lockDB] resumes after its first [await] and calls [wait]. *)
Lemma lock_inv_tick_wait c q m :
  lock_inv m -> jobqueue m = MLockDB_wait c :: q ->
  lock_inv (run_microtask (MLockDB_wait c) (with_jobqueue q m)).
Proof.
  intros Hinv Hj.
  assert (Hok : task_ok m (MLockDB_wait c)) by (apply (inv_tasks _ Hinv); rewrite Hj; left).
  cbn [task_ok] in Hok. cbn [run_microtask lockcalls with_jobqueue].
  destruct (lockcalls m !! c) as [l|] eqn:Hl; [|apply lookup_ge_None in Hl; lia].
  destruct (inv_frames _ Hinv c l Hl) as (_ & [st Hst] & _).
  unfold wait. cbn [databases with_jobqueue]. rewrite Hst.
  fold (lock_job c l).
  destruct (tx_uuid (transactions st unlock)) as [x|] eqn:Hx.
  - apply lock_inv_enqueue; assumption.
  - set (m1 := observe _ _).
    assert (Hm1 : set_uuid (lc_status l) (Some 0) m1
                  = observe (Enqueued (lc_status l) unlock (lock_job c l))
                      (with_databases
                         (<[lc_status l :=
                              with_transaction unlock
                                {| tx_list := tx_list (tx_unlock st) ++ [lock_job c l];
                                   tx_uuid := Some 0 |} st]> (databases m))
                         (with_jobqueue q m))).
    { unfold set_uuid, m1. cbn [databases observe with_history with_databases].
      rewrite lookup_insert_eq, insert_insert_eq. reflexivity. }
    assert (Hinv1 : lock_inv (set_uuid (lc_status l) (Some 0) m1))
      by (rewrite Hm1; apply lock_inv_enqueue; assumption).
    rewrite <- (handler_set_uuid _ (Some 0)).
    assert (Hidle : tx_uuid (queue_of (lc_status l) unlock m) = None)
      by (rewrite (queue_of_Some _ _ _ _ Hst); exact Hx).
    destruct (inv_idle _ Hinv _ Hidle) as (_ & Hall & Hres).
    apply lock_inv_handler_busy; [exact Hinv1 | | |].
    + rewrite Hm1. unfold queue_of. cbn [databases observe with_history with_databases].
      rewrite lookup_insert_eq. discriminate.
    + rewrite Hm1. intros y Hy. apply Hall.
      unfold started, locked, granting in *.
      cbn [lockcalls jobqueue history observe with_history with_databases with_jobqueue] in Hy.
      rewrite omap_app, app_nil_r in Hy. rewrite Hj. exact Hy.
    + rewrite Hm1. unfold resumes in *.
      cbn [jobqueue observe with_history with_databases with_jobqueue].
      rewrite Hj in Hres. exact Hres.
Qed.
End LockEnqueue.

(** ** The lock: every step keeps the invariant *)

Section LockSteps.
Context `{JSONText}.

Lemma lock_inv_perform c m : lock_inv m -> lock_inv (perform c m).
Proof.
  intros Hinv. pose proof (inv_wjobs _ Hinv) as Hw.
  destruct c as [u dv|h|h|h|h|h|h|h v|p|o k x|o k]; cbn [perform].
  - eapply lock_inv_quiet; [apply quiet_new_SillyDB | exact Hinv].
  - apply lock_inv_use, Hinv.
  - apply lock_inv_close, Hinv.
  - eapply lock_inv_quiet; [apply quiet_save_for; exact Hw | exact Hinv].
  - eapply lock_inv_quiet; [apply quiet_saveClose; exact Hw | exact Hinv].
  - eapply lock_inv_quiet; [apply quiet_asyncDispose; exact Hw | exact Hinv].
  - eapply lock_inv_quiet; [apply quiet_get_data | exact Hinv].
  - eapply lock_inv_quiet; [apply quiet_set_data | exact Hinv].
  - eapply lock_inv_quiet; [apply quiet_root_path | exact Hinv].
  - eapply lock_inv_quiet; [apply quiet_ref_assign | exact Hinv].
  - eapply lock_inv_quiet; [apply quiet_ref_delete | exact Hinv].
Qed.

Lemma lock_inv_tick m : lock_inv m -> lock_inv (tick m).
Proof.
  intros Hinv. unfold tick. destruct (jobqueue m) as [|t q] eqn:Hj; [exact Hinv|].
  assert (Hok : task_ok m t) by (apply (inv_tasks _ Hinv); rewrite Hj; left).
  pose proof (inv_wjobs _ Hinv) as Hw.
  destruct t as [c|c|h c|u ev jid res v|k v|k v|h].
  - apply lock_inv_tick_wait; assumption.
  - apply lock_inv_tick_return; assumption.
  - apply lock_inv_tick_use; assumption.
  - destruct ev.
    + apply lock_inv_tick_handler; assumption.
    + eapply lock_inv_quiet; [|exact Hinv]. apply quiet_tick_flush; auto.
  - eapply lock_inv_quiet; [|exact Hinv]. apply quiet_tick_flush; auto.
  - eapply lock_inv_quiet; [|exact Hinv]. apply quiet_tick_flush; auto.
  - cbn [run_microtask]. apply lock_inv_close.
    eapply lock_inv_quiet; [|exact Hinv]. eapply quiet_pop; [exact Hj | exact I].
Qed.

Lemma lock_inv_step m i : lock_inv m -> lock_inv (step m i).
Proof. destruct i as [c|]; [apply lock_inv_perform | apply lock_inv_tick]. Qed.

Lemma lock_inv_run ins m : lock_inv m -> lock_inv (run ins m).
Proof.
  revert m. induction ins as [|i ins IH]; intros m Hinv; [exact Hinv|].
  apply IH, lock_inv_step, Hinv.
Qed.

Lemma lock_inv_reachable d ins : lock_inv (run ins (boot d)).
Proof. apply lock_inv_run, lock_inv_boot. Qed.

Lemma run_snoc ins i m : run (ins ++ [i]) m = step (run ins m) i.
Proof. unfold run. rewrite fold_left_app. reflexivity. Qed.
End LockSteps.

(** Two locked handles of one database are one handle. *)
Lemma lock_inv_exclusive m u h1 h2 :
  lock_inv m -> holds m h1 u -> holds m h2 u -> h1 = h2.
Proof.
  intros Hinv (o1 & Ho1 & Hu1 & Hl1) (o2 & Ho2 & Hu2 & Hl2).
  destruct (inv_handles _ Hinv h1 o1 Ho1) as [Hs1 Hc1].
  destruct (inv_handles _ Hinv h2 o2 Ho2) as [Hs2 Hc2].
  destruct (Hs1 Hl1) as [c1 Hun1]. destruct (Hs2 Hl2) as [c2 Hun2].
  destruct (Hc1 c1 Hun1) as (Hin1 & Hdb1 & Hr1).
  destruct (Hc2 c2 Hun2) as (Hin2 & Hdb2 & Hr2).
  rewrite Hu1 in Hin1. rewrite Hu2 in Hin2.
  assert (Hlast1 : last (started u m) = Some c1).
  { apply (inv_last _ Hinv); [unfold started; apply elem_of_app; left; exact Hin1 | auto]. }
  assert (Hlast2 : last (started u m) = Some c2).
  { apply (inv_last _ Hinv); [unfold started; apply elem_of_app; left; exact Hin2 | auto]. }
  assert (c1 = c2) by congruence. subst c2. congruence.
Qed.

(** ** Who holds the lock, step by step *)

Lemma holds_objects m m' h u : objects m' = objects m -> holds m h u <-> holds m' h u.
Proof. intros E. unfold holds. rewrite E. reflexivity. Qed.

Lemma holds_quiet m m' h u : quiet m m' -> holds m h u <-> holds m' h u.
Proof.
  intros Hq. split.
  - intros (o & Ho & Hu & Hl). destruct (q_handles _ _ Hq h o Ho) as (o' & Ho' & _).
    destruct (q_handles' _ _ Hq h o' Ho') as [(o2 & Ho2 & Hu2 & Hl2 & _)|(Hn & _)];
      [|congruence].
    exists o'. split; [exact Ho'|]. assert (o2 = o) by congruence. subst o2.
    split; congruence.
  - intros (o' & Ho' & Hu & Hl).
    destruct (q_handles' _ _ Hq h o' Ho') as [(o & Ho & Hu2 & Hl2 & _)|(_ & Hf & _)];
      [|congruence].
    exists o. split; [exact Ho|]. split; congruence.
Qed.

Lemma objects_resolve_lock c m : objects (resolve_lock c m) = objects m.
Proof.
  unfold resolve_lock. destruct (lockcalls m !! c) as [l|]; [|reflexivity].
  destruct (lc_resolved l); [reflexivity|]. destruct (lc_parked l); reflexivity.
Qed.

Lemma objects_use h m : objects (fst (use h m)) = objects m.
Proof.
  unfold use, no_object. destruct (objects m !! h) as [o|]; [|reflexivity].
  destruct (__locking o); [reflexivity|]. unfold lockDB.
  destruct (hasDB (UID o) m); reflexivity.
Qed.

Lemma holds_close_old h' m h u : holds (fst (close h' m)) h u -> holds m h u.
Proof.
  unfold close, no_object. destruct (objects m !! h') as [o|] eqn:Ho; [|auto].
  destruct (unlockDB o) as [c|]; [|auto]. cbn [fst].
  intros (o' & Ho' & Hu & Hl). cbn [objects with_objects] in Ho'.
  rewrite objects_resolve_lock in Ho'.
  destruct (decide (h = h')) as [->|Hne].
  - rewrite list_lookup_insert_eq in Ho' by (eapply lookup_lt_Some; exact Ho).
    injection Ho' as <-. discriminate Hl.
  - rewrite list_lookup_insert_ne in Ho' by congruence. exists o'. auto.
Qed.

Lemma holds_close_other h' m h u : h <> h' -> holds m h u -> holds (fst (close h' m)) h u.
Proof.
  intros Hne. unfold close, no_object. destruct (objects m !! h') as [o|] eqn:Ho; [|auto].
  destruct (unlockDB o) as [c|]; [|auto]. cbn [fst].
  intros (o' & Ho' & Hu & Hl). exists o'. cbn [objects with_objects].
  rewrite objects_resolve_lock, list_lookup_insert_ne by congruence. auto.
Qed.

Section HoldsSteps.
Context `{JSONText}.

Lemma objects_writeDB u m : objects (fst (writeDB u m)) = objects m.
Proof.
  unfold writeDB. repeat (match goal with |- context [match ?x with _ => _ end] =>
    destruct x end; try reflexivity).
Qed.

Lemma objects_run_todo u ev job m : objects (run_todo u ev job m) = objects m.
Proof.
  unfold run_todo. destruct (job_todo job) as [c|u'].
  - destruct (lockcalls (schedule (MLockDB_return c) m) !! c) as [l|]; [|reflexivity].
    destruct (lc_resolved l); reflexivity.
  - pose proof (objects_writeDB u' m) as E. destruct (writeDB u' m) as [m1 s]. exact E.
Qed.

Lemma objects_handler u ev m : objects (handler u ev m) = objects m.
Proof.
  unfold handler. destruct (databases m !! u) as [st|]; [|reflexivity].
  destruct (tx_list (transactions st ev)) as [|job rest]; [reflexivity|].
  rewrite objects_run_todo. reflexivity.
Qed.

Lemma objects_wait u ev jid td res m : objects (wait u ev jid td res m) = objects m.
Proof.
  unfold wait. destruct (databases m !! u) as [st|]; [|reflexivity].
  destruct (tx_uuid (transactions st ev)); [reflexivity|].
  rewrite objects_handler. reflexivity.
Qed.
End HoldsSteps.

Section HoldsStep.
Context `{JSONText}.

Lemma holds_perform c m h u :
  lock_inv m -> (forall h', c <> Close h') -> holds m h u <-> holds (perform c m) h u.
Proof.
  intros Hinv Hc. pose proof (inv_wjobs _ Hinv) as Hw.
  destruct c as [u0 dv|h0|h0|h0|h0|h0|h0|h0 v|p|o k x|o k]; cbn [perform].
  - apply holds_quiet, quiet_new_SillyDB.
  - apply holds_objects, objects_use.
  - destruct (Hc h0); reflexivity.
  - apply holds_quiet, quiet_save_for; exact Hw.
  - apply holds_quiet, quiet_saveClose; exact Hw.
  - apply holds_quiet, quiet_asyncDispose; exact Hw.
  - apply holds_quiet, quiet_get_data.
  - apply holds_quiet, quiet_set_data.
  - apply holds_quiet, quiet_root_path.
  - apply holds_quiet, quiet_ref_assign.
  - apply holds_quiet, quiet_ref_delete.
Qed.

Lemma holds_run_microtask t m h u :
  match t with MUse _ _ | MSaveClose _ => False | _ => True end ->
  holds m h u <-> holds (run_microtask t m) h u.
Proof.
  intros Ht. apply holds_objects.
  destruct t as [c|c|h0 c|u0 ev jid res v|k v|k v|h0]; try contradiction; cbn [run_microtask].
  - destruct (lockcalls m !! c) as [l|]; [apply objects_wait | reflexivity].
  - destruct (lockcalls m !! c) as [l|]; reflexivity.
  - rewrite objects_handler. destruct res; reflexivity.
  - reflexivity.
  - destruct k; reflexivity.
Qed.

Lemma holds_MUse_old h' c m h u : holds m h u -> holds (run_microtask (MUse h' c) m) h u.
Proof.
  intros (o & Ho & Hu & Hl). cbn [run_microtask].
  destruct (objects m !! h') as [o'|] eqn:Ho'; [|exists o; auto].
  unfold holds. cbn [objects observe with_history with_objects].
  destruct (decide (h = h')) as [->|Hne].
  - rewrite list_lookup_insert_eq by (eapply lookup_lt_Some; exact Ho').
    eexists. split; [reflexivity|]. assert (o' = o) by congruence. subst o'.
    split; [exact Hu | reflexivity].
  - rewrite list_lookup_insert_ne by congruence. exists o. auto.
Qed.

Lemma holds_MUse_new h' c m h u :
  holds (run_microtask (MUse h' c) m) h u -> holds m h u \/ h = h'.
Proof.
  cbn [run_microtask]. destruct (objects m !! h') as [o'|] eqn:Ho'; [|auto].
  destruct (decide (h = h')) as [->|Hne]; [auto|]. left.
  destruct H0 as (o & Ho & Hu & Hl). cbn [objects observe with_history with_objects] in Ho.
  rewrite list_lookup_insert_ne in Ho by congruence. exists o. auto.
Qed.

(** A locked handle stays locked over a step that does not run its
    [close()]. *)
Lemma step_keeps_lock m i h u :
  lock_inv m -> holds m h u -> releases i m h = false -> holds (step m i) h u.
Proof.
  intros Hinv Hh Hr. destruct i as [c|].
  - destruct c as [u0 dv|h0|h0|h0|h0|h0|h0|h0 v|p|o k x|o k];
      try (refine (proj1 (holds_perform _ _ _ _ Hinv _) Hh); discriminate).
    cbn [releases] in Hr. apply Nat.eqb_neq in Hr.
    cbn [step perform]. apply holds_close_other; [congruence | exact Hh].
  - cbn [step]. unfold tick. cbn [releases] in Hr.
    destruct (jobqueue m) as [|t q] eqn:Hj; [exact Hh|].
    assert (Hpop : holds (with_jobqueue q m) h u) by exact Hh.
    destruct t as [c|c|h0 c|u0 ev jid res v|k v|k v|h0];
      try (refine (proj1 (holds_run_microtask _ _ _ _ _) Hpop); exact I).
    + apply holds_MUse_old, Hpop.
    + apply Nat.eqb_neq in Hr. cbn [run_microtask].
      apply holds_close_other; [congruence | exact Hpop].
Qed.

(** A handle becomes locked only when its own [use()] resumes. *)
Lemma step_new_lock m i h u :
  lock_inv m -> holds (step m i) h u ->
  holds m h u \/ (i = Tick /\ exists c q, jobqueue m = MUse h c :: q).
Proof.
  intros Hinv Hh. destruct i as [c|].
  - left. cbn [step] in Hh. destruct c as [u0 dv|h0|h0|h0|h0|h0|h0|h0 v|p|o k x|o k];
      try (refine (proj2 (holds_perform _ _ _ _ Hinv _) Hh); discriminate).
    eapply holds_close_old. exact Hh.
  - cbn [step] in Hh. unfold tick in Hh.
    destruct (jobqueue m) as [|t q] eqn:Hj; [left; exact Hh|].
    assert (Hpop : holds (with_jobqueue q m) h u -> holds m h u) by (intros Hx; exact Hx).
    destruct t as [c|c|h0 c|u0 ev jid res v|k v|k v|h0];
      try (left; apply Hpop; refine (proj2 (holds_run_microtask _ _ _ _ _) Hh); exact I).
    + destruct (holds_MUse_new _ _ _ _ _ Hh) as [Hx| ->]; [left; exact (Hpop Hx)|].
      right. split; [reflexivity|]. exists c, q. reflexivity.
    + left. apply Hpop. eapply holds_close_old. exact Hh.
Qed.

Lemma run_keeps_lock ins m h u :
  lock_inv m -> holds m h u -> unreleased h ins m = true -> holds (run ins m) h u.
Proof.
  revert m. induction ins as [|i ins IH]; intros m Hinv Hh Hr; [exact Hh|].
  cbn [unreleased] in Hr. apply andb_true_iff in Hr. destruct Hr as [Hr1 Hr2].
  apply negb_true_iff in Hr1. apply IH; [apply lock_inv_step, Hinv | | exact Hr2].
  apply step_keeps_lock; assumption.
Qed.
End HoldsStep.

Lemma elem_of_locked_handles u m h : h ∈ locked_handles u m <-> holds m h u.
Proof.
  unfold locked_handles, holds. rewrite list_elem_of_In, filter_In, in_seq. split.
  - intros [_ Hf]. destruct (objects m !! h) as [o|]; [|discriminate].
    apply andb_true_iff in Hf. destruct Hf as [Hu Hl]. apply String.eqb_eq in Hu. eauto.
  - intros (o & Ho & Hu & Hl). split.
    + split; [lia|]. apply lookup_lt_Some in Ho. simpl. exact Ho.
    + rewrite Ho. apply andb_true_iff. split; [apply String.eqb_eq, Hu | exact Hl].
Qed.

Lemma NoDup_locked_handles u m : NoDup (locked_handles u m).
Proof.
  unfold locked_handles. apply NoDup_ListNoDup, List.NoDup_filter, seq_NoDup.
Qed.

Lemma one_element {A} (l : list A) (x : A) :
  NoDup l -> x ∈ l -> (forall y, y ∈ l -> y = x) -> l = [x].
Proof.
  intros Hnd Hx Hall. destruct l as [|a l]; [inversion Hx|].
  assert (a = x) by (apply Hall; left). subst a.
  destruct l as [|b l]; [reflexivity|].
  assert (b = x) by (apply Hall; right; left). subst b.
  apply NoDup_cons in Hnd. destruct Hnd as [Hn _]. exfalso. apply Hn. left.
Qed.

Lemma at_most_one {A} (l : list A) :
  NoDup l -> (forall x y, x ∈ l -> y ∈ l -> x = y) -> length l <= 1.
Proof.
  intros Hnd Hall. destruct l as [|a l]; [simpl; lia|].
  rewrite (one_element (a :: l) a Hnd); [simpl; lia | left |].
  intros y Hy. apply Hall; [exact Hy | left].
Qed.

Section MutualExclusion.
Context `{JSONText}.

(** C1. Mutual exclusion per database: in every state the program can
    reach from its start, on any disk and by any interleaving of calls
    and continuations, at most one handle of a database is locked; and
    once a handle is locked, as long as no step runs its [close()], it
    is the one locked handle of its database, so that no [use()] of
    another handle completes. *)
Theorem one_locked_handle_per_database (d : filesystem) (ins : list input) (u : string) :
  length (locked_handles u (run ins (boot d))) <= 1 /\
  (forall h ins',
     h ∈ locked_handles u (run ins (boot d)) ->
     unreleased h ins' (run ins (boot d)) = true ->
     locked_handles u (run ins' (run ins (boot d))) = [h]).
Proof.
  split.
  - apply at_most_one; [apply NoDup_locked_handles|].
    intros x y Hx Hy. apply elem_of_locked_handles in Hx, Hy.
    eapply lock_inv_exclusive; [apply lock_inv_reachable | exact Hx | exact Hy].
  - intros h ins' Hh Hr. apply elem_of_locked_handles in Hh.
    assert (Hinv : lock_inv (run ins (boot d))) by apply lock_inv_reachable.
    pose proof (run_keeps_lock ins' _ h u Hinv Hh Hr) as Hk.
    apply one_element; [apply NoDup_locked_handles | apply elem_of_locked_handles, Hk |].
    intros y Hy. apply elem_of_locked_handles in Hy.
    eapply lock_inv_exclusive; [apply lock_inv_run, Hinv | exact Hy | exact Hk].
Qed.
End MutualExclusion.

Lemma one_locked_handle_per_database_witness :
  locked_handles Race.u (run Race.later (run Race.start (boot Example.empty_disk))) = [0%nat].
Proof.
  apply (one_locked_handle_per_database Example.empty_disk Race.start Race.u);
    vm_compute; [left | reflexivity].
Defined.

(** ** The queues: steps that leave them alone *)

Lemma still_refl m : still m m.
Proof. split; reflexivity. Qed.

Lemma still_trans m1 m2 m3 : still m1 m2 -> still m2 m3 -> still m1 m3.
Proof.
  intros [A1 A2 A3 A4] [B1 B2 B3 B4].
  split; first [congruence | intros u ev; rewrite ?B3, ?B4; auto].
Qed.

Lemma queue_frame_refl u ev m : queue_frame u ev m m.
Proof. split; reflexivity. Qed.

Lemma queue_frame_trans u ev m1 m2 m3 :
  queue_frame u ev m1 m2 -> queue_frame u ev m2 m3 -> queue_frame u ev m1 m3.
Proof.
  intros [A1 A2 A3 A4 A5] [B1 B2 B3 B4 B5].
  split; [rewrite B1|rewrite B2|rewrite B3|rewrite B4|]; auto. lia.
Qed.

Lemma still_queues_refl m : still_queues m m.
Proof. intros u ev. apply queue_frame_refl. Qed.

Lemma still_queues_trans m1 m2 m3 :
  still_queues m1 m2 -> still_queues m2 m3 -> still_queues m1 m3.
Proof. intros A B u ev. eapply queue_frame_trans; [apply A | apply B]. Qed.

Lemma still_still_queues m m' : still m m' -> still_queues m m'.
Proof.
  intros [A1 A2 A3 A4] u ev.
  split; unfold enqueued, started_jobs, finished, pending; rewrite ?A1, ?A2, ?A4; auto.
Qed.

Lemma still_locks_refl m : still_locks m m.
Proof.
  split; try reflexivity. exists []. rewrite app_nil_r. split; [reflexivity|].
  intros o Ho. inversion Ho.
Qed.

Lemma still_locks_trans m1 m2 m3 :
  still_locks m1 m2 -> still_locks m2 m3 -> still_locks m1 m3.
Proof.
  intros [(n1 & A1 & A1') A2 A3 A4] [(n2 & B1 & B1') B2 B3 B4]. split.
  - exists (n1 ++ n2). rewrite B1, A1, app_assoc. split; [reflexivity|].
    intros o Ho. apply elem_of_app in Ho. destruct Ho; auto.
  - congruence.
  - intros c. rewrite B3. apply A3.
  - intros c. rewrite B4. apply A4.
Qed.

Lemma still_still_locks m m' : still m m' -> still_locks m m'.
Proof.
  intros [A1 A2 A3 A4]. split; rewrite ?A2; try reflexivity.
  exists []. rewrite app_nil_r. split; [exact A1|]. intros o Ho. inversion Ho.
Qed.

Lemma queue_ok_frame u ev m m' : queue_frame u ev m m' -> queue_ok u ev m -> queue_ok u ev m'.
Proof.
  intros [A1 A2 A3 A4 A5] [B1 B2 B3]. unfold active in *.
  split; unfold active; rewrite ?A1, ?A2, ?A3, ?A4; try assumption. lia.
Qed.

Lemma requested_still_locks u m m' : still_locks m m' -> requested u m' = requested u m.
Proof.
  intros [_ A2 _ A4]. unfold requested. rewrite A2. apply ids_with_ext.
  intros c _. apply A4.
Qed.

Lemma lock_db_still_locks m m' c : still_locks m m' -> lock_db m' c = lock_db m c.
Proof. intros [_ _ A3 _]. apply A3. Qed.

Lemma omap_no_lock_event {A} (f : observation -> option A) new :
  (forall o, lock_event o = false -> f o = None) ->
  (forall o, o ∈ new -> lock_event o = false) -> omap f new = [].
Proof.
  intros Hf Hnew. induction new as [|o new IH]; [reflexivity|].
  simpl. rewrite (Hf o) by (apply Hnew; left). apply IH. intros o' Ho'. apply Hnew. right. exact Ho'.
Qed.

Lemma hist_inv_still_locks m m' : still_locks m m' -> hist_inv m -> hist_inv m'.
Proof.
  intros Hs [B1 B2 B3]. pose proof Hs as [(new & A1 & A1') A2 A3 A4]. split.
  - intros u. rewrite (requested_still_locks u m m' Hs), A1, omap_app, B1.
    rewrite (omap_no_lock_event (requested_id u) new); [apply app_nil_r | | exact A1'].
    intros [] Ho; try reflexivity; discriminate.
  - intros u h c Ho. rewrite (lock_db_still_locks m m' c Hs). rewrite A1 in Ho.
    apply elem_of_app in Ho. destruct Ho as [Ho|Ho]; [eapply B2; exact Ho|].
    apply A1' in Ho. discriminate.
  - intros u h c Ho. rewrite (lock_db_still_locks m m' c Hs). rewrite A1 in Ho.
    apply elem_of_app in Ho. destruct Ho as [Ho|Ho]; [eapply B3; exact Ho|].
    apply A1' in Ho. discriminate.
Qed.

Lemma still_same m m' :
  history m' = history m -> lockcalls m' = lockcalls m -> databases m' = databases m ->
  jobqueue m' = jobqueue m -> still m m'.
Proof.
  intros E1 E2 E3 E4. split; auto; intros u ev; unfold queue_of, resumes; rewrite ?E3, ?E4; reflexivity.
Qed.

Lemma still_with_root p m : still m (with_root p m).
Proof. apply still_same; reflexivity. Qed.

Lemma still_with_disk d m : still m (with_disk d m).
Proof. apply still_same; reflexivity. Qed.

Lemma still_with_objects os m : still m (with_objects os m).
Proof. apply still_same; reflexivity. Qed.

Lemma still_with_status u st m :
  (forall ev, transactions st ev = queue_of u ev m) ->
  still m (with_databases (<[u := st]> (databases m)) m).
Proof.
  intros Hst. split; try reflexivity.
  intros u' ev. rewrite queue_of_insert. destruct (decide (u' = u)) as [->|]; auto.
Qed.

Lemma still_with_data u st v m :
  databases m !! u = Some st ->
  still m (with_databases (<[u := with_data v st]> (databases m)) m).
Proof.
  intros Hst. apply still_with_status. intros ev.
  rewrite (queue_of_Some _ _ _ _ Hst). destruct ev; reflexivity.
Qed.

Lemma is_resume_no_resume u ev t : no_resume t -> is_resume u ev t = false.
Proof. destruct t; simpl; try reflexivity. contradiction. Qed.

Lemma still_schedule t m : no_resume t -> still m (schedule t m).
Proof.
  intros Ht. split; try reflexivity. intros u ev. unfold resumes.
  cbn [jobqueue schedule with_jobqueue]. rewrite List.filter_app. simpl.
  rewrite (is_resume_no_resume u ev t Ht). apply app_nil_r.
Qed.

Lemma still_pop t q m : jobqueue m = t :: q -> no_resume t -> still m (with_jobqueue q m).
Proof.
  intros Hj Ht. split; try reflexivity. intros u ev. unfold resumes.
  cbn [jobqueue with_jobqueue]. rewrite Hj. simpl.
  rewrite (is_resume_no_resume u ev t Ht). reflexivity.
Qed.

Lemma still_with_document u st v a m :
  databases m !! u = Some st ->
  still m (with_databases (<[u := with_document v a st]> (databases m)) m).
Proof.
  intros Hst. apply still_with_status. intros ev.
  rewrite (queue_of_Some _ _ _ _ Hst). destruct ev; reflexivity.
Qed.

Lemma still_setData u v a m : still m (fst (setData u v a m)).
Proof.
  unfold setData, getDBStatus, hasDB. destruct (databases m !! u) as [st|] eqn:Hst; simpl.
  - apply still_with_document, Hst.
  - apply still_refl.
Qed.

Lemma still_edit_data u v m : still m (edit_data u v m).
Proof.
  unfold edit_data. destruct (databases m !! u) as [st|] eqn:Hst;
    [apply still_with_document, Hst | apply still_refl].
Qed.

Lemma still_get_data h m : still m (fst (get_data h m)).
Proof.
  unfold get_data, no_object. destruct (objects m !! h) as [o|]; [|apply still_refl].
  destruct (__locking o); [|apply still_refl].
  destruct (getData (UID o) m) as [d|e]; [|apply still_refl].
  destruct (falsy d); [|apply still_refl].
  pose proof (still_setData (UID o) (__default o) (Some h) m) as Hq.
  destruct (setData (UID o) (__default o) (Some h) m) as [m1 [[]|e]]; exact Hq.
Qed.

Lemma still_set_data h v m : still m (fst (set_data h v m)).
Proof.
  unfold set_data, no_object. destruct (objects m !! h) as [o|]; [|apply still_refl].
  destruct (__locking o); [apply still_setData | apply still_refl].
Qed.

Lemma still_root_path p m : still m (fst (root_path p m)).
Proof.
  unfold root_path. destruct p as [p|]; [|apply still_refl].
  destruct (String.eqb p EmptyString); [apply still_refl | apply still_with_root].
Qed.

Lemma still_edit_default h v m : still m (edit_default h v m).
Proof.
  unfold edit_default.
  destruct (objects m !! h) as [o|] eqn:Ho; [apply still_with_objects | apply still_refl].
Qed.

Lemma still_set_root_doc r v m : still m (set_root_doc r v m).
Proof.
  destruct (set_root_doc_cases r v m)
    as [->|[(u & ->)|[(h & ->)|[(u & h & ->)|(u & h & ->)]]]].
  - apply still_refl.
  - apply still_edit_data.
  - apply still_edit_default.
  - eapply still_trans; [apply still_edit_data | apply still_edit_default].
  - eapply still_trans; [apply still_edit_default | apply still_edit_data].
Qed.

Lemma still_ref_assign o k x m : still m (fst (ref_assign o k x m)).
Proof.
  destruct (ref_assign_cases o k x m) as [->|(r & v & ->)];
    [apply still_refl | apply still_set_root_doc].
Qed.

Lemma still_ref_delete o k m : still m (fst (ref_delete o k m)).
Proof.
  destruct (ref_delete_cases o k m) as [->|(r & v & ->)];
    [apply still_refl | apply still_set_root_doc].
Qed.

Section StillProgram.
Context `{JSONText}.

Lemma still_regist u m : still m (regist u m).
Proof.
  unfold regist, hasDB. destruct (databases m !! u) as [st|] eqn:Hst; [apply still_refl|].
  apply still_with_status. intros ev. unfold queue_of. rewrite Hst. destruct ev; reflexivity.
Qed.

Lemma still_new_SillyDB u dv m : still m (fst (new_SillyDB u dv m)).
Proof.
  unfold new_SillyDB. destruct (copyData dv) as [d|e]; simpl.
  - eapply still_trans; [apply still_regist|]. apply still_with_objects.
  - apply still_regist.
Qed.

Lemma still_writeDB u m : still m (fst (writeDB u m)).
Proof. rewrite writeDB_write_files. apply still_with_disk. Qed.
End StillProgram.

Lemma filter_length_insert {A} (f : A -> bool) (ls : list A) c l l' :
  ls !! c = Some l ->
  length (List.filter f (<[c := l']> ls)) + (if f l then 1 else 0)
  = length (List.filter f ls) + (if f l' then 1 else 0).
Proof.
  intros Hl. rewrite insert_take_drop by (eapply lookup_lt_Some; exact Hl).
  rewrite <- (take_drop_middle ls c l Hl) at 3.
  rewrite !List.filter_app, !length_app. simpl.
  destruct (f l), (f l'); simpl; lia.
Qed.

Lemma queue_frame_observe u ev o m :
  enqueued_job u ev o = None -> started_job u ev o = None -> finished_id u ev o = None ->
  queue_frame u ev m (observe o m).
Proof.
  intros E1 E2 E3. split; try reflexivity;
    unfold enqueued, started_jobs, finished; cbn [history observe with_history];
    rewrite omap_app; simpl; rewrite ?E1, ?E2, ?E3; apply app_nil_r.
Qed.

Lemma still_queues_observe o m : lock_event o = true -> still_queues m (observe o m).
Proof.
  intros Ho u ev. apply queue_frame_observe; destruct o; try discriminate; reflexivity.
Qed.

Lemma still_queues_new_call l m :
  lc_parked l = None -> still_queues m (with_lockcalls (lockcalls m ++ [l]) m).
Proof.
  intros Hp u ev. split; try reflexivity. unfold pending.
  cbn [lockcalls with_lockcalls]. rewrite List.filter_app, length_app. simpl.
  unfold parked_resume at 2. rewrite Hp, andb_false_r. simpl.
  unfold resumes. cbn [jobqueue with_lockcalls]. lia.
Qed.

Lemma still_queues_resolve_lock c m : still_queues m (resolve_lock c m).
Proof.
  unfold resolve_lock. destruct (lockcalls m !! c) as [l|] eqn:Hl; [|apply still_queues_refl].
  destruct (lc_resolved l) eqn:Hr; [apply still_queues_refl|].
  intros u ev.
  pose proof (filter_length_insert (parked_resume u ev) (lockcalls m) c l (with_resolved l) Hl)
    as Hf.
  assert (Hnew : parked_resume u ev (with_resolved l) = false) by reflexivity.
  rewrite Hnew in Hf. unfold parked_resume at 2 in Hf. rewrite Hr in Hf. simpl in Hf.
  destruct (lc_parked l) as [t|] eqn:Hp.
  - split; try reflexivity. unfold pending, resumes.
    cbn [lockcalls jobqueue schedule with_jobqueue with_lockcalls].
    rewrite List.filter_app, length_app. simpl.
    destruct (is_resume u ev t); simpl; lia.
  - split; try reflexivity. unfold pending, resumes.
    cbn [lockcalls jobqueue with_lockcalls]. lia.
Qed.

Lemma still_queues_close h m : still_queues m (fst (close h m)).
Proof.
  unfold close, no_object. destruct (objects m !! h) as [o|]; [|apply still_queues_refl].
  destruct (unlockDB o) as [c|]; [|apply still_queues_refl]. cbn [fst].
  eapply still_queues_trans; [apply still_queues_resolve_lock|].
  apply still_still_queues, still_with_objects.
Qed.

Lemma still_queues_use h m : still_queues m (fst (use h m)).
Proof.
  unfold use, no_object. destruct (objects m !! h) as [o|]; [|apply still_queues_refl].
  destruct (__locking o); [apply still_queues_refl|]. unfold lockDB.
  destruct (hasDB (UID o) m); [|apply still_queues_refl]. cbn [fst].
  eapply still_queues_trans; [|apply still_queues_observe; reflexivity].
  eapply still_queues_trans; [|apply still_still_queues, still_schedule; exact I].
  apply still_queues_new_call. reflexivity.
Qed.

(** ** The queues: the steps of [wait] and of the handler *)

Lemma same_queue_true u ev u' ev' : same_queue u ev u' ev' = true <-> u' = u /\ ev' = ev.
Proof.
  unfold same_queue. simpl. rewrite andb_true_iff, String.eqb_eq.
  destruct ev', ev; intuition congruence.
Qed.

Lemma same_queue_refl u ev : same_queue u ev u ev = true.
Proof. apply same_queue_true. split; reflexivity. Qed.

Lemma same_queue_false u ev u' ev' : same_queue u ev u' ev' = false -> u' <> u \/ ev' <> ev.
Proof.
  intros Hf. destruct (decide (u' = u)) as [->|]; [|left; assumption]. right. intros ->.
  rewrite same_queue_refl in Hf. discriminate.
Qed.

Lemma transactions_same ev t st : transactions (with_transaction ev t st) ev = t.
Proof. destruct ev; reflexivity. Qed.

Lemma transactions_other ev ev' t st :
  ev' <> ev -> transactions (with_transaction ev t st) ev' = transactions st ev'.
Proof. destruct ev, ev'; intros Hne; try reflexivity; congruence. Qed.

Lemma queue_of_update u ev t st m u' ev' :
  databases m !! u = Some st ->
  queue_of u' ev' (with_databases (<[u := with_transaction ev t st]> (databases m)) m)
  = if same_queue u' ev' u ev then t else queue_of u' ev' m.
Proof.
  intros Hst. rewrite queue_of_insert. destruct (same_queue u' ev' u ev) eqn:Hs.
  - apply same_queue_true in Hs. destruct Hs as [-> ->].
    rewrite decide_True by reflexivity. apply transactions_same.
  - destruct (decide (u' = u)) as [->|Hne]; [|reflexivity].
    rewrite (queue_of_Some _ _ _ _ Hst). apply transactions_other.
    destruct (same_queue_false _ _ _ _ Hs) as [Hx|Hx]; congruence.
Qed.

Lemma queue_step_frame u ev m m' : queue_step 0 u ev m m' -> queue_frame u ev m m'.
Proof. intros [A1 A2 A3 A4 A5]. split; auto. lia. Qed.

Lemma queue_frame_step k u ev m m' : queue_frame u ev m m' -> queue_step k u ev m m'.
Proof. intros [A1 A2 A3 A4 A5]. split; auto. lia. Qed.

Lemma queue_step_trans k1 k2 u ev m1 m2 m3 :
  queue_step k1 u ev m1 m2 -> queue_step k2 u ev m2 m3 -> queue_step (k1 + k2) u ev m1 m3.
Proof.
  intros [A1 A2 A3 A4 A5] [B1 B2 B3 B4 B5].
  split; [rewrite B1|rewrite B2|rewrite B3|rewrite B4|]; auto. lia.
Qed.

Lemma queue_step_schedule u ev t m :
  queue_step (if is_resume u ev t then 1 else 0) u ev m (schedule t m).
Proof.
  split; try reflexivity. unfold pending, resumes.
  cbn [lockcalls jobqueue schedule with_jobqueue]. rewrite List.filter_app, length_app. simpl.
  destruct (is_resume u ev t); simpl; lia.
Qed.

Lemma queue_step_park u ev t c l m :
  lockcalls m !! c = Some l ->
  queue_step (if is_resume u ev t then 1 else 0) u ev m
    (with_lockcalls (<[c := with_parked t l]> (lockcalls m)) m).
Proof.
  intros Hl. split; try reflexivity.
  pose proof (filter_length_insert (parked_resume u ev) (lockcalls m) c l (with_parked t l) Hl)
    as Hf.
  unfold pending, resumes. cbn [lockcalls jobqueue with_lockcalls].
  assert (Hle : (if parked_resume u ev (with_parked t l) then 1 else 0)
                <= (if is_resume u ev t then 1 else 0)).
  { unfold parked_resume. cbn [lc_resolved lc_parked with_parked].
    destruct (lc_resolved l), (is_resume u ev t); simpl; lia. }
  destruct (parked_resume u ev l); lia.
Qed.

Section QueueSteps.
Context `{JSONText}.

Lemma queue_step_run_todo u ev job m u' ev' :
  queue_step (if same_queue u' ev' u ev then 1 else 0) u' ev' m (run_todo u ev job m).
Proof.
  unfold run_todo. destruct (job_todo job) as [c|w].
  - assert (Hs : queue_step 0 u' ev' m (schedule (MLockDB_return c) m)).
    { apply queue_frame_step, still_still_queues, still_schedule. exact I. }
    destruct (lockcalls (schedule (MLockDB_return c) m) !! c) as [l|] eqn:Hl.
    + destruct (lc_resolved l).
      * apply (queue_step_trans 0 _ _ _ _ _ _ Hs).
        apply (queue_step_schedule u' ev' (MHandler u ev (job_uuid job) (job_resolve job) None)).
      * apply (queue_step_trans 0 _ _ _ _ _ _ Hs).
        apply (queue_step_park u' ev' (MHandler u ev (job_uuid job) (job_resolve job) None)).
        exact Hl.
    + apply queue_frame_step, queue_step_frame, Hs.
  - pose proof (still_writeDB w m) as Hw. destruct (writeDB w m) as [m1 s]. cbn [fst] in Hw.
    apply (queue_step_trans 0 _ _ _ _ m1).
    + apply queue_frame_step, still_still_queues, Hw.
    + apply (queue_step_schedule u' ev'
               (MHandler u ev (job_uuid job) (job_resolve job) (Some s))).
Qed.

Lemma queue_frame_handler u ev m u' ev' :
  same_queue u' ev' u ev = false -> queue_frame u' ev' m (handler u ev m).
Proof.
  intros Hs. unfold handler. destruct (databases m !! u) as [st|] eqn:Hst;
    [|apply queue_frame_refl].
  destruct (tx_list (transactions st ev)) as [|job rest] eqn:Hl.
  - split; try reflexivity. rewrite (queue_of_update _ _ _ _ _ _ _ Hst), Hs. reflexivity.
  - eapply queue_frame_trans; [|apply queue_step_frame;
      pose proof (queue_step_run_todo u ev job
        (observe (Started u ev job)
           (with_databases (<[u := with_transaction ev
              {| tx_list := rest; tx_uuid := Some (job_uuid job) |} st]> (databases m)) m))
        u' ev') as Hr; rewrite Hs in Hr; exact Hr].
    eapply queue_frame_trans; [|apply queue_frame_observe; simpl; rewrite ?Hs; reflexivity].
    split; try reflexivity. rewrite (queue_of_update _ _ _ _ _ _ _ Hst), Hs. reflexivity.
Qed.
End QueueSteps.

Section QueueHandler.
Context `{JSONText}.

(** The handler, called on a queue none of whose jobs is running. *)
Lemma queue_ok_handler u ev m :
  enqueued u ev m = started_jobs u ev m ++ tx_list (queue_of u ev m) ->
  length (started_jobs u ev m) = length (finished u ev m) ->
  pending u ev m = 0 ->
  queue_ok u ev (handler u ev m).
Proof.
  intros Hfifo Hcount Hpend. unfold handler.
  destruct (databases m !! u) as [st|] eqn:Hst.
  - rewrite (queue_of_Some _ _ _ _ Hst) in Hfifo.
    destruct (tx_list (transactions st ev)) as [|job rest] eqn:Hl.
    + split; unfold active; rewrite (queue_of_update _ _ _ _ _ _ _ Hst), same_queue_refl.
      * exact Hfifo.
      * simpl. rewrite Nat.add_0_r. exact Hcount.
      * simpl. apply Nat.eq_le_incl. exact Hpend.
    + set (m2 := observe (Started u ev job)
                   (with_databases (<[u := with_transaction ev
                      {| tx_list := rest; tx_uuid := Some (job_uuid job) |} st]>
                      (databases m)) m)).
      assert (E : enqueued u ev m2 = enqueued u ev m).
      { unfold enqueued, m2. cbn [history observe with_history with_databases].
        rewrite omap_app. simpl. apply app_nil_r. }
      assert (S : started_jobs u ev m2 = started_jobs u ev m ++ [job]).
      { unfold started_jobs, m2. cbn [history observe with_history with_databases].
        rewrite omap_app. simpl. rewrite same_queue_refl. reflexivity. }
      assert (F : finished u ev m2 = finished u ev m).
      { unfold finished, m2. cbn [history observe with_history with_databases].
        rewrite omap_app. simpl. apply app_nil_r. }
      assert (Q : queue_of u ev m2 = {| tx_list := rest; tx_uuid := Some (job_uuid job) |}).
      { unfold m2. change (queue_of u ev (observe ?o ?x)) with (queue_of u ev x).
        rewrite (queue_of_update _ _ _ _ _ _ _ Hst), same_queue_refl. reflexivity. }
      assert (P : pending u ev m2 = pending u ev m) by reflexivity.
      pose proof (queue_step_run_todo u ev job m2 u ev) as [R1 R2 R3 R4 R5].
      rewrite same_queue_refl in R5.
      split; unfold active; rewrite ?R1, ?R2, ?R3, ?R4, ?E, ?S, ?F, ?Q.
      * rewrite Hfifo, <- app_assoc. reflexivity.
      * simpl. rewrite length_app. simpl. lia.
      * simpl. lia.
  - assert (Q : queue_of u ev m = empty_transaction) by (unfold queue_of; rewrite Hst; reflexivity).
    split; unfold active; rewrite ?Q; simpl; try lia. rewrite Q in Hfifo. exact Hfifo.
Qed.

Lemma queue_frame_wait u ev jid td res m u' ev' :
  same_queue u' ev' u ev = false -> queue_frame u' ev' m (wait u ev jid td res m).
Proof.
  intros Hs. unfold wait. destruct (databases m !! u) as [st|] eqn:Hst;
    [|apply queue_frame_refl].
  match goal with |- context [observe ?o ?x] => set (m1 := observe o x) end.
  assert (Hf : queue_frame u' ev' m m1).
  { unfold m1. eapply queue_frame_trans; [|apply queue_frame_observe; simpl; rewrite ?Hs;
      reflexivity].
    split; try reflexivity. rewrite (queue_of_update _ _ _ _ _ _ _ Hst), Hs. reflexivity. }
  destruct (tx_uuid (transactions st ev)); [exact Hf|].
  eapply queue_frame_trans; [exact Hf|]. apply queue_frame_handler, Hs.
Qed.

Lemma queue_ok_wait u ev jid td res m :
  queue_ok u ev m -> queue_ok u ev (wait u ev jid td res m).
Proof.
  intros [Hfifo Hcount Hpend]. unfold wait.
  destruct (databases m !! u) as [st|] eqn:Hst; [|split; assumption].
  unfold active in *. rewrite (queue_of_Some _ _ _ _ Hst) in *.
  remember (tx_uuid (transactions st ev)) as a eqn:Ha.
  remember {| job_todo := td; job_uuid := jid; job_resolve := res |} as job eqn:Hjob.
  match goal with |- context [observe (Enqueued u ev job) ?x] =>
    remember (observe (Enqueued u ev job) x) as m1 eqn:Hm1 end.
  assert (E : enqueued u ev m1 = enqueued u ev m ++ [job]).
  { rewrite Hm1. unfold enqueued. cbn [history observe with_history with_databases].
    rewrite omap_app. simpl. rewrite same_queue_refl. reflexivity. }
  assert (S : started_jobs u ev m1 = started_jobs u ev m).
  { rewrite Hm1. unfold started_jobs. cbn [history observe with_history with_databases].
    rewrite omap_app. simpl. apply app_nil_r. }
  assert (F : finished u ev m1 = finished u ev m).
  { rewrite Hm1. unfold finished. cbn [history observe with_history with_databases].
    rewrite omap_app. simpl. apply app_nil_r. }
  assert (Q : queue_of u ev m1 = {| tx_list := tx_list (transactions st ev) ++ [job];
                                    tx_uuid := a |}).
  { rewrite Hm1. change (queue_of u ev (observe ?o ?x)) with (queue_of u ev x).
    rewrite (queue_of_update _ _ _ _ _ _ _ Hst), same_queue_refl. reflexivity. }
  assert (P : pending u ev m1 = pending u ev m) by (rewrite Hm1; reflexivity).
  clear Hm1. destruct a as [a|].
  - split; unfold active; rewrite ?E, ?S, ?F, ?Q, ?P; simpl.
    + rewrite Hfifo, <- app_assoc. reflexivity.
    + exact Hcount.
    + exact Hpend.
  - apply queue_ok_handler; rewrite ?E, ?S, ?F, ?Q, ?P; simpl.
    + rewrite Hfifo, <- app_assoc. reflexivity.
    + lia.
    + lia.
Qed.

Lemma queue_inv_wait u ev jid td res m :
  queue_inv m -> queue_inv (wait u ev jid td res m).
Proof.
  intros Hinv u' ev'. destruct (same_queue u' ev' u ev) eqn:Hs.
  - apply same_queue_true in Hs. destruct Hs as [-> ->]. apply queue_ok_wait, Hinv.
  - eapply queue_ok_frame; [apply queue_frame_wait, Hs | apply Hinv].
Qed.
End QueueHandler.

Lemma queue_inv_still m m' : still_queues m m' -> queue_inv m -> queue_inv m'.
Proof. intros Hs Hinv u ev. eapply queue_ok_frame; [apply Hs | apply Hinv]. Qed.

Lemma queue_inv_boot d : queue_inv (boot d).
Proof. intros u ev. split; reflexivity. Qed.

Section QueueTicks.
Context `{JSONText}.

Lemma queue_ok_tick_handler u ev jid res v q m :
  jobqueue m = MHandler u ev jid res v :: q -> queue_ok u ev m ->
  queue_ok u ev (run_microtask (MHandler u ev jid res v) (with_jobqueue q m)).
Proof.
  intros Hj [Hfifo Hcount Hpend]. cbn [run_microtask].
  assert (Hres : resumes u ev m = MHandler u ev jid res v :: resumes u ev (with_jobqueue q m)).
  { unfold resumes. rewrite Hj. cbn [List.filter jobqueue with_jobqueue].
    change (is_resume u ev (MHandler u ev jid res v)) with (same_queue u ev u ev).
    rewrite same_queue_refl. reflexivity. }
  assert (Hp : pending u ev m = S (pending u ev (with_jobqueue q m))).
  { unfold pending. rewrite Hres. reflexivity. }
  assert (Ha : active u ev m = 1).
  { unfold active in *. destruct (tx_uuid (queue_of u ev m)); [reflexivity | lia]. }
  match goal with |- queue_ok u ev (handler u ev ?x) => remember x as m2 eqn:Hm2 end.
  assert (E : enqueued u ev m2 = enqueued u ev m).
  { rewrite Hm2. unfold enqueued. destruct res; cbn [history observe with_history schedule
      with_jobqueue]; rewrite omap_app; simpl; apply app_nil_r. }
  assert (S : started_jobs u ev m2 = started_jobs u ev m).
  { rewrite Hm2. unfold started_jobs. destruct res; cbn [history observe with_history schedule
      with_jobqueue]; rewrite omap_app; simpl; apply app_nil_r. }
  assert (F : finished u ev m2 = finished u ev m ++ [jid]).
  { rewrite Hm2. unfold finished. destruct res; cbn [history observe with_history schedule
      with_jobqueue]; rewrite omap_app; simpl; rewrite same_queue_refl; reflexivity. }
  assert (Q : queue_of u ev m2 = queue_of u ev m) by (rewrite Hm2; destruct res; reflexivity).
  assert (P : pending u ev m2 = pending u ev (with_jobqueue q m)).
  { rewrite Hm2. destruct res as [k|]; [|reflexivity].
    unfold pending, resumes. cbn [lockcalls jobqueue schedule with_jobqueue observe with_history].
    rewrite List.filter_app. simpl. rewrite app_nil_r. reflexivity. }
  apply queue_ok_handler; rewrite ?E, ?S, ?F, ?Q, ?P.
  - exact Hfifo.
  - rewrite length_app. simpl. lia.
  - lia.
Qed.

Lemma queue_frame_tick_handler u ev jid res v q m u' ev' :
  jobqueue m = MHandler u ev jid res v :: q -> same_queue u' ev' u ev = false ->
  queue_frame u' ev' m (run_microtask (MHandler u ev jid res v) (with_jobqueue q m)).
Proof.
  intros Hj Hs. cbn [run_microtask].
  eapply queue_frame_trans; [|apply queue_frame_handler, Hs].
  assert (H0 : queue_frame u' ev' m (observe (Finished u ev jid) (with_jobqueue q m))).
  { eapply queue_frame_trans; [|apply queue_frame_observe; simpl; rewrite ?Hs; reflexivity].
    split; try reflexivity. unfold pending, resumes. rewrite Hj.
    cbn [List.filter jobqueue with_jobqueue lockcalls].
    change (is_resume u' ev' (MHandler u ev jid res v)) with (same_queue u' ev' u ev).
    rewrite Hs. reflexivity. }
  destruct res as [k|]; [|exact H0].
  eapply queue_frame_trans; [exact H0|]. apply still_still_queues, still_schedule. exact I.
Qed.

Lemma queue_inv_tick_handler u ev jid res v q m :
  jobqueue m = MHandler u ev jid res v :: q -> queue_inv m ->
  queue_inv (run_microtask (MHandler u ev jid res v) (with_jobqueue q m)).
Proof.
  intros Hj Hinv u' ev'. destruct (same_queue u' ev' u ev) eqn:Hs.
  - apply same_queue_true in Hs. destruct Hs as [-> ->].
    apply queue_ok_tick_handler; [exact Hj | apply Hinv].
  - eapply queue_ok_frame; [apply queue_frame_tick_handler; eassumption | apply Hinv].
Qed.

Lemma queue_inv_save_for k h m : queue_inv m -> queue_inv (fst (save_for k h m)).
Proof.
  intros Hinv. unfold save_for, no_object. destruct (objects m !! h) as [o|]; [|exact Hinv].
  destruct (__locking o); [|exact Hinv].
  unfold safeWriteDB. destruct (getDBStatus (UID o) m); [|exact Hinv].
  apply queue_inv_wait, Hinv.
Qed.

Lemma queue_inv_saveClose h m : queue_inv m -> queue_inv (fst (saveClose h m)).
Proof.
  intros Hinv. unfold saveClose, no_object. destruct (objects m !! h) as [o|]; [|exact Hinv].
  destruct (__locking o); [apply queue_inv_save_for, Hinv | exact Hinv].
Qed.

Lemma queue_inv_asyncDispose h m : queue_inv m -> queue_inv (fst (asyncDispose h m)).
Proof.
  intros Hinv. unfold asyncDispose, no_object. destruct (objects m !! h) as [o|]; [|exact Hinv].
  destruct (__locking o); [apply queue_inv_saveClose, Hinv | exact Hinv].
Qed.

Lemma queue_inv_perform c m : queue_inv m -> queue_inv (perform c m).
Proof.
  intros Hinv. destruct c as [u dv|h|h|h|h|h|h|h v|p|o k x|o k]; cbn [perform].
  - eapply queue_inv_still; [apply still_still_queues, still_new_SillyDB | exact Hinv].
  - eapply queue_inv_still; [apply still_queues_use | exact Hinv].
  - eapply queue_inv_still; [apply still_queues_close | exact Hinv].
  - apply queue_inv_save_for, Hinv.
  - apply queue_inv_saveClose, Hinv.
  - apply queue_inv_asyncDispose, Hinv.
  - eapply queue_inv_still; [apply still_still_queues, still_get_data | exact Hinv].
  - eapply queue_inv_still; [apply still_still_queues, still_set_data | exact Hinv].
  - eapply queue_inv_still; [apply still_still_queues, still_root_path | exact Hinv].
  - eapply queue_inv_still; [apply still_still_queues, still_ref_assign | exact Hinv].
  - eapply queue_inv_still; [apply still_still_queues, still_ref_delete | exact Hinv].
Qed.

Lemma queue_inv_tick m : queue_inv m -> queue_inv (tick m).
Proof.
  intros Hinv. unfold tick. destruct (jobqueue m) as [|t q] eqn:Hj; [exact Hinv|].
  destruct t as [c|c|h c|u ev jid res v|k v|k v|h];
    try (assert (Hpop : queue_inv (with_jobqueue q m))
           by (eapply queue_inv_still; [|exact Hinv];
               apply still_still_queues; eapply still_pop; [exact Hj | exact I]));
    cbn [run_microtask].
  - destruct (lockcalls (with_jobqueue q m) !! c) as [l|]; [|exact Hpop].
    apply queue_inv_wait, Hpop.
  - destruct (lockcalls (with_jobqueue q m) !! c) as [l|]; [|exact Hpop].
    eapply queue_inv_still; [|exact Hpop]. apply still_still_queues, still_schedule. exact I.
  - destruct (objects (with_jobqueue q m) !! h) as [o|]; [|exact Hpop].
    eapply queue_inv_still; [|exact Hpop].
    eapply still_queues_trans; [apply still_still_queues, still_with_objects|].
    apply still_queues_observe. reflexivity.
  - apply (queue_inv_tick_handler u ev jid res v q m Hj Hinv).
  - eapply queue_inv_still; [|exact Hpop]. apply still_still_queues, still_schedule. exact I.
  - destruct k; [exact Hpop|].
    eapply queue_inv_still; [|exact Hpop]. apply still_still_queues, still_schedule. exact I.
  - eapply queue_inv_still; [|exact Hpop]. apply still_queues_close.
Qed.

Lemma queue_inv_reachable d ins : queue_inv (run ins (boot d)).
Proof.
  unfold run. generalize (queue_inv_boot d). generalize (boot d).
  induction ins as [|i ins IH]; intros m Hinv; [exact Hinv|].
  apply IH. destruct i; [apply queue_inv_perform | apply queue_inv_tick]; exact Hinv.
Qed.
End QueueTicks.

(** ** The record of the lock calls *)

Lemma still_locks_same m m' :
  history m' = history m -> lockcalls m' = lockcalls m -> still_locks m m'.
Proof.
  intros E1 E2. split; rewrite ?E2; try reflexivity.
  exists []. rewrite app_nil_r. split; [exact E1|]. intros o Ho. inversion Ho.
Qed.

Lemma still_locks_observe o m : lock_event o = false -> still_locks m (observe o m).
Proof.
  intros Ho. split; try reflexivity. exists [o]. split; [reflexivity|].
  intros o' Ho'. apply list_elem_of_singleton in Ho'. subst o'. exact Ho.
Qed.

Lemma still_locks_update c l l' m :
  lockcalls m !! c = Some l -> lc_db l' = lc_db l -> lc_status l' = lc_status l ->
  still_locks m (with_lockcalls (<[c := l']> (lockcalls m)) m).
Proof.
  intros Hl Hd Hs. split; cbn [history lockcalls with_lockcalls].
  - exists []. rewrite app_nil_r. split; [reflexivity|]. intros o Ho. inversion Ho.
  - apply length_insert.
  - intros c'. destruct (decide (c' = c)) as [->|Hne].
    + rewrite list_lookup_insert_eq by (eapply lookup_lt_Some; eauto). rewrite Hl. simpl.
      congruence.
    + rewrite list_lookup_insert_ne by congruence. reflexivity.
  - intros c'. eapply status_insert; eauto.
Qed.

Lemma still_locks_resolve_lock c m : still_locks m (resolve_lock c m).
Proof.
  unfold resolve_lock. destruct (lockcalls m !! c) as [l|] eqn:Hl; [|apply still_locks_refl].
  destruct (lc_resolved l); [apply still_locks_refl|].
  pose proof (still_locks_update c l (with_resolved l) m Hl eq_refl eq_refl) as Hu.
  destruct (lc_parked l) as [t|]; [|exact Hu].
  eapply still_locks_trans; [exact Hu|]. apply still_locks_same; reflexivity.
Qed.

Lemma still_locks_close h m : still_locks m (fst (close h m)).
Proof.
  unfold close, no_object. destruct (objects m !! h) as [o|]; [|apply still_locks_refl].
  destruct (unlockDB o) as [c|]; [|apply still_locks_refl]. cbn [fst].
  eapply still_locks_trans; [apply still_locks_resolve_lock|].
  apply still_locks_same; reflexivity.
Qed.

Section LockRecord.
Context `{JSONText}.

Lemma still_locks_run_todo u ev job m : still_locks m (run_todo u ev job m).
Proof.
  unfold run_todo. destruct (job_todo job) as [c|w].
  - destruct (lockcalls (schedule (MLockDB_return c) m) !! c) as [l|] eqn:Hl;
      [|apply still_locks_same; reflexivity].
    destruct (lc_resolved l); [apply still_locks_same; reflexivity|].
    eapply still_locks_trans; [|apply (still_locks_update c l); [exact Hl | |]; reflexivity].
    apply still_locks_same; reflexivity.
  - pose proof (still_writeDB w m) as Hw. destruct (writeDB w m) as [m1 s]. cbn [fst] in Hw.
    eapply still_locks_trans; [apply still_still_locks, Hw|].
    apply still_locks_same; reflexivity.
Qed.

Lemma still_locks_handler u ev m : still_locks m (handler u ev m).
Proof.
  unfold handler. destruct (databases m !! u) as [st|]; [|apply still_locks_refl].
  destruct (tx_list (transactions st ev)) as [|job rest];
    [apply still_locks_same; reflexivity|].
  eapply still_locks_trans; [|apply still_locks_run_todo].
  eapply still_locks_trans; [|apply still_locks_observe; reflexivity].
  apply still_locks_same; reflexivity.
Qed.

Lemma still_locks_wait u ev jid td res m : still_locks m (wait u ev jid td res m).
Proof.
  unfold wait. destruct (databases m !! u) as [st|]; [|apply still_locks_refl].
  match goal with |- context [observe ?o ?x] =>
    assert (Hs : still_locks m (observe o x)) end.
  { eapply still_locks_trans; [|apply still_locks_observe; reflexivity].
    apply still_locks_same; reflexivity. }
  destruct (tx_uuid (transactions st ev)); [exact Hs|].
  eapply still_locks_trans; [exact Hs | apply still_locks_handler].
Qed.

Lemma still_locks_save_for k h m : still_locks m (fst (save_for k h m)).
Proof.
  unfold save_for, no_object. destruct (objects m !! h) as [o|]; [|apply still_locks_refl].
  destruct (__locking o); [|apply still_locks_refl].
  unfold safeWriteDB. destruct (getDBStatus (UID o) m); [|apply still_locks_refl].
  apply still_locks_wait.
Qed.

Lemma still_locks_saveClose h m : still_locks m (fst (saveClose h m)).
Proof.
  unfold saveClose, no_object. destruct (objects m !! h) as [o|]; [|apply still_locks_refl].
  destruct (__locking o); [apply still_locks_save_for | apply still_locks_refl].
Qed.

Lemma still_locks_asyncDispose h m : still_locks m (fst (asyncDispose h m)).
Proof.
  unfold asyncDispose, no_object. destruct (objects m !! h) as [o|]; [|apply still_locks_refl].
  destruct (__locking o); [apply still_locks_saveClose | apply still_locks_refl].
Qed.
End LockRecord.

Lemma hist_inv_boot d : hist_inv (boot d).
Proof. split; [reflexivity | |]; intros u h c Ho; inversion Ho. Qed.

Lemma hist_inv_use h m : hist_inv m -> hist_inv (fst (use h m)).
Proof.
  intros [B1 B2 B3]. unfold use, no_object.
  destruct (objects m !! h) as [o|] eqn:Ho; [|split; assumption].
  destruct (__locking o); [split; assumption|].
  unfold lockDB, hasDB. destruct (databases m !! UID o) as [st|]; [|split; assumption].
  cbn [fst].
  set (c := length (lockcalls m)).
  set (l := {| lc_db := h; lc_status := UID o; lc_uuid := __uuid o;
               lc_resolved := false; lc_parked := None |}).
  set (m' := observe (Requested (UID o) h c)
               (schedule (MLockDB_wait c) (with_lockcalls (lockcalls m ++ [l]) m))).
  assert (Hls : lockcalls m' = lockcalls m ++ [l]) by reflexivity.
  assert (Hh : history m' = history m ++ [Requested (UID o) h c]) by reflexivity.
  assert (Hold : forall x y, lock_db m x = Some y -> lock_db m' x = Some y).
  { intros x y Hx. rewrite (lock_db_app_old l x m m' Hls); [exact Hx|].
    unfold lock_db in Hx. destruct (lockcalls m !! x) eqn:E; [|discriminate].
    eapply lookup_lt_Some; exact E. }
  split.
  - intros u. rewrite Hh, omap_app, B1. unfold requested. rewrite Hls, length_app.
    cbn [length]. rewrite Nat.add_1_r.
    replace (seq 0 (S (length (lockcalls m)))) with (seq 0 (length (lockcalls m)) ++ [c])
      by (rewrite seq_S; reflexivity).
    rewrite ids_with_app.
    rewrite (ids_with_new u (lockcalls m) l : ids_with u (lockcalls m ++ [l]) [c] = _). f_equal.
    + symmetry. apply ids_with_app_old. apply Forall_forall. intros x Hx.
      apply elem_of_seq in Hx. lia.
    + simpl. destruct (decide (UID o = u)); reflexivity.
  - intros u h' c' Hin. rewrite Hh in Hin. apply elem_of_app in Hin.
    destruct Hin as [Hin|Hin]; [apply Hold; eapply B2; exact Hin|].
    apply list_elem_of_singleton in Hin. injection Hin as -> -> ->.
    unfold lock_db. rewrite Hls, list_lookup_middle by reflexivity. reflexivity.
  - intros u h' c' Hin. rewrite Hh in Hin. apply elem_of_app in Hin.
    destruct Hin as [Hin|Hin]; [apply Hold; eapply B3; exact Hin|].
    apply list_elem_of_singleton in Hin. discriminate Hin.
Qed.

Lemma hist_inv_locked h c o m :
  lock_db m c = Some h -> hist_inv m ->
  hist_inv (observe (Locked (UID o) h c)
              (with_objects (<[h := with_locking true (with_unlockDB (Some c) o)]> (objects m))
                 m)).
Proof.
  intros Hc [B1 B2 B3]. split.
  - intros u. cbn [history observe with_history with_objects]. rewrite omap_app, B1.
    simpl. apply app_nil_r.
  - intros u h' c' Hin. cbn [history observe with_history with_objects] in Hin.
    apply elem_of_app in Hin. destruct Hin as [Hin|Hin]; [eapply B2; exact Hin|].
    apply list_elem_of_singleton in Hin. discriminate Hin.
  - intros u h' c' Hin. cbn [history observe with_history with_objects] in Hin.
    apply elem_of_app in Hin. destruct Hin as [Hin|Hin]; [eapply B3; exact Hin|].
    apply list_elem_of_singleton in Hin. injection Hin as -> -> ->. exact Hc.
Qed.

Section LockRecordSteps.
Context `{JSONText}.

Lemma hist_inv_perform c m : hist_inv m -> hist_inv (perform c m).
Proof.
  intros Hinv. destruct c as [u dv|h|h|h|h|h|h|h v|p|o k x|o k]; cbn [perform].
  - eapply hist_inv_still_locks; [apply still_still_locks, still_new_SillyDB | exact Hinv].
  - apply hist_inv_use, Hinv.
  - eapply hist_inv_still_locks; [apply still_locks_close | exact Hinv].
  - eapply hist_inv_still_locks; [apply still_locks_save_for | exact Hinv].
  - eapply hist_inv_still_locks; [apply still_locks_saveClose | exact Hinv].
  - eapply hist_inv_still_locks; [apply still_locks_asyncDispose | exact Hinv].
  - eapply hist_inv_still_locks; [apply still_still_locks, still_get_data | exact Hinv].
  - eapply hist_inv_still_locks; [apply still_still_locks, still_set_data | exact Hinv].
  - eapply hist_inv_still_locks; [apply still_still_locks, still_root_path | exact Hinv].
  - eapply hist_inv_still_locks; [apply still_still_locks, still_ref_assign | exact Hinv].
  - eapply hist_inv_still_locks; [apply still_still_locks, still_ref_delete | exact Hinv].
Qed.

Lemma hist_inv_tick m : lock_inv m -> hist_inv m -> hist_inv (tick m).
Proof.
  intros Hlock Hinv. unfold tick. destruct (jobqueue m) as [|t q] eqn:Hj; [exact Hinv|].
  assert (Hok : task_ok m t) by (apply (inv_tasks _ Hlock); rewrite Hj; left).
  assert (Hpop : hist_inv (with_jobqueue q m)).
  { eapply hist_inv_still_locks; [|exact Hinv]. apply still_locks_same; reflexivity. }
  destruct t as [c|c|h c|u ev jid res v|k v|k v|h]; cbn [run_microtask].
  - destruct (lockcalls (with_jobqueue q m) !! c) as [l|]; [|exact Hpop].
    eapply hist_inv_still_locks; [apply still_locks_wait | exact Hpop].
  - destruct (lockcalls (with_jobqueue q m) !! c) as [l|]; [|exact Hpop].
    eapply hist_inv_still_locks; [|exact Hpop]. apply still_locks_same; reflexivity.
  - destruct (objects (with_jobqueue q m) !! h) as [o|]; [|exact Hpop].
    apply (hist_inv_locked h c o (with_jobqueue q m)); [exact Hok | exact Hpop].
  - eapply hist_inv_still_locks; [apply still_locks_handler|].
    assert (H1 : hist_inv (observe (Finished u ev jid) (with_jobqueue q m))).
    { eapply hist_inv_still_locks; [apply still_locks_observe; reflexivity | exact Hpop]. }
    destruct res; [|exact H1].
    eapply hist_inv_still_locks; [|exact H1]. apply still_locks_same; reflexivity.
  - eapply hist_inv_still_locks; [|exact Hpop]. apply still_locks_same; reflexivity.
  - destruct k; [exact Hpop|].
    eapply hist_inv_still_locks; [|exact Hpop]. apply still_locks_same; reflexivity.
  - eapply hist_inv_still_locks; [apply still_locks_close | exact Hpop].
Qed.

Lemma hist_inv_reachable d ins : hist_inv (run ins (boot d)).
Proof.
  assert (Hb : lock_inv (run ins (boot d)) /\ hist_inv (run ins (boot d))).
  { unfold run. generalize (conj (lock_inv_boot d) (hist_inv_boot d)). generalize (boot d).
    induction ins as [|i ins IH]; intros m Hinv; [exact Hinv|].
    apply IH. destruct Hinv as [Hl Hh]. split; [apply lock_inv_step, Hl|].
    destruct i; [apply hist_inv_perform, Hh | apply hist_inv_tick; assumption]. }
  apply Hb.
Qed.
End LockRecordSteps.

Lemma omap_step {A B} (f : A -> option B) (x : A) (l : list A) :
  omap f (x :: l) = match f x with Some y => y :: omap f l | None => omap f l end.
Proof. reflexivity. Qed.

Lemma opened_lock_db m u (l : list observation) :
  (forall u' h c, Requested u' h c ∈ l -> lock_db m c = Some h) ->
  omap (opened_by u) l = omap (lock_db m) (omap (requested_id u) l).
Proof.
  induction l as [|o l IH]; intros Hl; [reflexivity|].
  assert (IH' : omap (opened_by u) l = omap (lock_db m) (omap (requested_id u) l)).
  { apply IH. intros u' h c Hin. eapply Hl. right. exact Hin. }
  rewrite (omap_step (opened_by u)), (omap_step (requested_id u)).
  destruct o as [u' ev j|u' ev j|u' ev jid|u' h c|u' h c];
    cbn [opened_by requested_id]; try exact IH'.
  destruct (decide (u' = u)); [|exact IH'].
  rewrite omap_step, (Hl u' h c) by left. rewrite IH'. reflexivity.
Qed.

Lemma locked_lock_db m u (l : list observation) :
  (forall u' h c, Locked u' h c ∈ l -> lock_db m c = Some h) ->
  omap (locked_by u) l = omap (lock_db m) (omap (locked_id u) l).
Proof.
  induction l as [|o l IH]; intros Hl; [reflexivity|].
  assert (IH' : omap (locked_by u) l = omap (lock_db m) (omap (locked_id u) l)).
  { apply IH. intros u' h c Hin. eapply Hl. right. exact Hin. }
  rewrite (omap_step (locked_by u)), (omap_step (locked_id u)).
  destruct o as [u' ev j|u' ev j|u' ev jid|u' h c|u' h c];
    cbn [locked_by locked_id]; try exact IH'.
  destruct (decide (u' = u)); [|exact IH'].
  rewrite omap_step, (Hl u' h c) by left. rewrite IH'. reflexivity.
Qed.

(** The handles become locked in the order in which they asked. *)
Lemma became_locked_prefix m u :
  lock_inv m -> hist_inv m -> became_locked u m `prefix_of` opened u m.
Proof.
  intros Hlock [B1 B2 B3]. unfold became_locked, opened.
  rewrite (opened_lock_db m u (history m) B2), (locked_lock_db m u (history m) B3), B1.
  fold (locked u m). rewrite (inv_fifo _ Hlock u), omap_app. eexists. reflexivity.
Qed.

Lemma active_le_1 u ev m : active u ev m <= 1.
Proof. unfold active. destruct (tx_uuid (queue_of u ev m)); lia. Qed.

(** ** Classes and their UIDs *)

Lemma split_dot_nonempty s : split_dot s <> [].
Proof.
  induction s as [|c s IH]; simpl; [discriminate|].
  destruct (Ascii.eqb c "."); [discriminate|]. destruct (split_dot s); discriminate.
Qed.

Lemma split_dot_index s :
  split_dot s = match indexOf_dot s with
                | None => [s]
                | Some d => slice_to d s :: split_dot (slice_from (S d) s)
                end.
Proof.
  induction s as [|c s IH]; [reflexivity|]. simpl.
  destruct (Ascii.eqb c "."); [reflexivity|].
  rewrite IH. destruct (indexOf_dot s) as [d|]; reflexivity.
Qed.

Lemma indexOf_dot_slice_to s d : indexOf_dot s = Some d -> indexOf_dot (slice_to d s) = None.
Proof.
  revert d. induction s as [|c s IH]; intros d Hd; [discriminate|]. simpl in Hd.
  destruct (Ascii.eqb c ".") eqn:Hc.
  - injection Hd as <-. reflexivity.
  - destruct (indexOf_dot s) as [d'|]; [|discriminate]. injection Hd as <-.
    simpl. rewrite Hc, (IH d' eq_refl). reflexivity.
Qed.

Lemma slice_from_length n s : String.length (slice_from n s) <= String.length s.
Proof.
  revert s. induction n as [|n IH]; intros s; [simpl; lia|].
  destruct s as [|c s]; simpl; [lia|]. specialize (IH s). lia.
Qed.

Lemma indexOf_dot_lt s d : indexOf_dot s = Some d -> d < String.length s.
Proof.
  revert d. induction s as [|c s IH]; intros d Hd; [discriminate|]. simpl in Hd.
  destruct (Ascii.eqb c "."); [injection Hd as <-; simpl; lia|].
  destruct (indexOf_dot s) as [d'|]; [|discriminate]. injection Hd as <-.
  specialize (IH d' eq_refl). simpl. lia.
Qed.

Lemma slice_from_S_length d s :
  d < String.length s -> String.length (slice_from (S d) s) < String.length s.
Proof.
  destruct s as [|c s]; simpl; [lia|]. intros _. pose proof (slice_from_length d s). lia.
Qed.

Lemma sub_rec_unfold fuel this subname :
  sub_rec fuel this subname
  = match indexOf_dot subname with
    | Some dot =>
        match fuel with
        | O => None
        | S fuel' =>
            match sub_rec fuel' this (slice_to dot subname) with
            | Some (Ok first) => sub_rec fuel' first (slice_from (S dot) subname)
            | r => r
            end
        end
    | None =>
        Some (if nametest subname then Ok (SubDB subname this) else Throw SyntaxError)
    end.
Proof. destruct fuel; reflexivity. Qed.

Lemma sub_rec_names fuel : forall this s,
  String.length s <= fuel -> sub_rec fuel this s = Some (sub_names this (split_dot s)).
Proof.
  induction fuel as [|fuel IH]; intros this s Hlen; rewrite sub_rec_unfold, split_dot_index;
    destruct (indexOf_dot s) as [d|] eqn:Hd.
  - apply indexOf_dot_lt in Hd. lia.
  - simpl. destruct (nametest s); reflexivity.
  - rewrite sub_rec_unfold, (indexOf_dot_slice_to s d Hd). cbn [sub_names].
    destruct (nametest (slice_to d s)); [|reflexivity].
    apply IH. pose proof (indexOf_dot_lt s d Hd).
    pose proof (slice_from_S_length d s). lia.
  - simpl. destruct (nametest s); reflexivity.
Qed.

Lemma sub_names_app this a b :
  sub_names this (a ++ b)
  = match sub_names this a with Ok k => sub_names k b | Throw e => Throw e end.
Proof.
  revert this. induction a as [|n a IH]; intros this; [reflexivity|]. simpl.
  destruct (nametest n); [apply IH | reflexivity].
Qed.

Lemma sub_names_forallb this names :
  sub_names this names
  = if forallb nametest names then Ok (nested_sub this names) else Throw SyntaxError.
Proof.
  revert this. induction names as [|n names IH]; intros this; [reflexivity|]. simpl.
  destruct (nametest n); [apply IH | reflexivity].
Qed.

Lemma sub_sub_names this s : sub this s = sub_names this (split_dot s).
Proof. unfold sub. rewrite sub_rec_names by apply Nat.le_refl. reflexivity. Qed.

Lemma split_dot_app a b :
  split_dot (a ++ "." ++ b)%string = split_dot a ++ split_dot b.
Proof.
  induction a as [|c a IH]; [reflexivity|].
  change (String c a ++ "." ++ b)%string with (String c (a ++ "." ++ b))%string.
  cbn [split_dot]. rewrite IH. destruct (Ascii.eqb c "."); [reflexivity|].
  destruct (split_dot a) as [|x r] eqn:Ha; [destruct (split_dot_nonempty a Ha)|]. reflexivity.
Qed.

Lemma str_app_assoc (a b c : string) : ((a ++ b) ++ c = a ++ (b ++ c))%string.
Proof.
  induction a as [|x a IH]; [reflexivity|].
  change (String x ((a ++ b) ++ c) = String x (a ++ (b ++ c)))%string. rewrite IH. reflexivity.
Qed.

Lemma join_split_dot s : join_dot (split_dot s) = s.
Proof.
  induction s as [|c s IH]; [reflexivity|]. cbn [split_dot].
  destruct (Ascii.eqb c ".") eqn:Hc.
  - apply Ascii.eqb_eq in Hc. subst c. 
    destruct (split_dot s) as [|x r] eqn:Hs; [destruct (split_dot_nonempty s Hs)|].
    change (join_dot (EmptyString :: x :: r)) with ("." ++ join_dot (x :: r))%string.
    rewrite IH. reflexivity.
  - destruct (split_dot s) as [|x r] eqn:Hs; [destruct (split_dot_nonempty s Hs)|].
    destruct r as [|y r].
    + simpl in *. congruence.
    + change (join_dot (String c x :: y :: r))
        with (String c (x ++ "." ++ join_dot (y :: r)))%string.
      change (join_dot (x :: y :: r)) with (x ++ "." ++ join_dot (y :: r))%string in IH.
      rewrite IH. reflexivity.
Qed.

Lemma nested_sub_UID names : forall this,
  names <> [] ->
  class_UID (nested_sub this names) = (class_UID this ++ "." ++ join_dot names)%string.
Proof.
  induction names as [|n names IH]; intros this Hne; [congruence|].
  destruct names as [|n' names]; [reflexivity|].
  change (nested_sub this (n :: n' :: names)) with (nested_sub (SubDB n this) (n' :: names)).
  rewrite IH by discriminate.
  change (class_UID (SubDB n this)) with (class_UID this ++ "." ++ n)%string.
  change (join_dot (n :: n' :: names)) with (n ++ "." ++ join_dot (n' :: names))%string.
  rewrite !str_app_assoc. reflexivity.
Qed.

Lemma sub_ok_UID this s x :
  sub this s = Ok x -> class_UID x = (class_UID this ++ "." ++ s)%string.
Proof.
  rewrite sub_sub_names, sub_names_forallb. destruct (forallb nametest (split_dot s));
    [|discriminate].
  intros Hx. injection Hx as <-. rewrite nested_sub_UID by apply split_dot_nonempty.
  rewrite join_split_dot. reflexivity.
Qed.

Lemma sub_ok_names this s x : sub this s = Ok x -> forallb nametest (split_dot s) = true.
Proof.
  rewrite sub_sub_names, sub_names_forallb. destruct (forallb nametest (split_dot s));
    [reflexivity | discriminate].
Qed.

(** X1.  [sub] makes one class per segment of the dotted name, each
    below the one before, and throws a [SyntaxError] exactly when a
    segment is not a name of [nametest]; it makes no class then. *)
Theorem sub_by_segments (this : dbclass) (subname : string) :
  sub this subname
  = if forallb nametest (split_dot subname)
    then Ok (nested_sub this (split_dot subname))
    else Throw SyntaxError.
Proof. rewrite sub_sub_names. apply sub_names_forallb. Qed.

(** X2.  The class [sub] makes has the UID of its parent, a dot, and the
    dotted name as given; so below one parent, two names that give the
    same UID are the same name. *)
Theorem sub_UID (this k : dbclass) (subname : string) :
  sub this subname = Ok k ->
  class_UID k = (class_UID this ++ "." ++ subname)%string
  /\ forall subname' k',
       sub this subname' = Ok k' -> class_UID k' = class_UID k -> subname' = subname.
Proof.
  assert (Huid : forall s x, sub this s = Ok x ->
                             class_UID x = (class_UID this ++ "." ++ s)%string).
  { intros s x Hs. apply sub_ok_UID, Hs. }
  intros Hk. split; [apply Huid, Hk|].
  intros s' k' Hk' He. rewrite (Huid _ _ Hk), (Huid _ _ Hk') in He.
  apply String.app_inj in He. apply (String.app_inj ".") in He. exact He.
Qed.

Lemma sub_UID_witness :
  class_UID (SubDB "posts" (SubDB "user" BaseDB)) = "SillyDB.user.posts".
Proof.
  apply (sub_UID BaseDB (SubDB "posts" (SubDB "user" BaseDB)) "user.posts"). reflexivity.
Defined.

(** X3.  [sub] on [a.b] is [sub] on [a] followed by [sub] on [b], also
    when [a] and [b] have dots themselves; it throws when either does. *)
Theorem sub_composes (this : dbclass) (a b : string) :
  sub this (a ++ "." ++ b)%string
  = match sub this a with
    | Ok k => sub k b
    | Throw e => Throw e
    end.
Proof.
  rewrite !sub_sub_names, split_dot_app, sub_names_app.
  destruct (sub_names this (split_dot a)) as [k|e]; [|reflexivity].
  symmetry. apply sub_sub_names.
Qed.

Lemma tail_app_nonempty {A} (l l' : list A) : l <> [] -> tail (l ++ l') = tail l ++ l'.
Proof. destruct l; [congruence | reflexivity]. Qed.

(** X4.  The directory of the database of [this.sub(subname)] is the
    directory of the database of [this], followed by one level per
    segment of [subname]; every such level is a name of [nametest]. *)
Theorem sub_directory (this k : dbclass) (subname : string) (m : machine) :
  sub this subname = Ok k ->
  getPath (class_UID k) m = getPath (class_UID this) m ++ split_dot subname
  /\ forallb nametest (split_dot subname) = true.
Proof.
  intros Hk. split; [|eapply sub_ok_names; exact Hk].
  unfold getPath. rewrite (sub_ok_UID _ _ _ Hk), split_dot_app.
  rewrite tail_app_nonempty by apply split_dot_nonempty. reflexivity.
Qed.

Lemma sub_directory_witness :
  getPath (class_UID (SubDB "posts" (SubDB "user" BaseDB))) (boot Example.empty_disk)
  = ["./data"; "user"; "posts"]%string.
Proof.
  apply (sub_directory BaseDB (SubDB "posts" (SubDB "user" BaseDB)) "user.posts"
           (boot Example.empty_disk)).
  reflexivity.
Defined.

Lemma str_app_nil_r (a : string) : (a ++ EmptyString)%string = a.
Proof.
  induction a as [|c a IH]; [reflexivity|].
  change (String c (a ++ EmptyString) = String c a). rewrite IH. reflexivity.
Qed.

Lemma UID_getter_declared names : forall this,
  UID_getter (declared names this) = UID_getter this.
Proof.
  induction names as [|n names IH]; intros this; [reflexivity|].
  change (declared (n :: names) this) with (declared names (Extends n this)).
  rewrite IH. reflexivity.
Qed.

Lemma declared_snoc names n this :
  declared (names ++ [n]) this = Extends n (declared names this).
Proof. unfold declared. rewrite fold_left_app. reflexivity. Qed.

Lemma dotted_snoc n s : dotted (S n) s = (dotted n s ++ "." ++ s)%string.
Proof.
  induction n as [|n IH]; [cbn [dotted]; rewrite str_app_nil_r; reflexivity|].
  change ("." ++ s ++ dotted (S n) s = ("." ++ s ++ dotted n s) ++ "." ++ s)%string.
  rewrite IH, !str_app_assoc. reflexivity.
Qed.

Lemma declared_UID subname names this :
  UID_getter this = Some subname ->
  class_UID (declared names this)
  = (class_UID this ++ dotted (length names) subname)%string.
Proof.
  intros Hg. induction names as [|n names IH] using rev_ind.
  - cbn [declared fold_left length dotted]. rewrite str_app_nil_r. reflexivity.
  - rewrite declared_snoc, length_app, Nat.add_comm. cbn [length Nat.add].
    cbn [class_UID UID_getter]. rewrite UID_getter_declared, Hg, IH, dotted_snoc.
    rewrite !str_app_assoc. reflexivity.
Qed.

Lemma dotted_length n s : String.length (dotted n s) = n * S (String.length s).
Proof.
  induction n as [|n IH]; [reflexivity|]. cbn [dotted].
  rewrite !TextRoundTrip.length_app_string, IH. cbn [String.length]. lia.
Qed.

(** X5.  Below a class that descends from [SillyDB] by declarations
    only, [sub(name)] names the database of the class declared as
    [class name extends this].  Below a class made by [sub], or
    declared below one, a declared class takes the subname in place of
    its own name, once for every level of declaration: the classes
    declared at one depth below it name one database whatever their
    names, and classes declared at different depths name different
    ones. *)
Theorem sub_and_declared_classes (this : dbclass) :
  (forall name k,
     UID_getter this = None -> sub this name = Ok k ->
     class_UID k = class_UID (Extends name this))
  /\ (forall subname names,
        UID_getter this = Some subname ->
        class_UID (declared names this)
        = (class_UID this ++ dotted (length names) subname)%string)
  /\ (forall subname names names',
        UID_getter this = Some subname ->
        (class_UID (declared names this) = class_UID (declared names' this)
         <-> length names = length names')).
Proof.
  split; [|split].
  - intros name k Hg Hk. rewrite (sub_ok_UID _ _ _ Hk). cbn [class_UID UID_getter].
    rewrite Hg. reflexivity.
  - intros subname names Hg. apply declared_UID, Hg.
  - intros subname names names' Hg.
    rewrite (declared_UID subname names this Hg), (declared_UID subname names' this Hg).
    split.
    + intros He. apply (f_equal String.length) in He.
      rewrite !TextRoundTrip.length_app_string, !dotted_length in He. nia.
    + intros ->. reflexivity.
Qed.

Lemma sub_and_declared_classes_witness :
  class_UID (SubDB "nya" (Extends "uwu" BaseDB)) = class_UID (Extends "nya" (Extends "uwu" BaseDB))
  /\ class_UID (Extends "A" (SubDB "x" BaseDB)) = "SillyDB.x.x"%string
  /\ class_UID (Extends "C" (Extends "A" (SubDB "x" BaseDB))) = "SillyDB.x.x.x"%string.
Proof.
  split; [|split].
  - apply (proj1 (sub_and_declared_classes (Extends "uwu" BaseDB)) "nya"); reflexivity.
  - apply (proj1 (proj2 (sub_and_declared_classes (SubDB "x" BaseDB))) "x" ["A"]%string).
    reflexivity.
  - apply (proj1 (proj2 (sub_and_declared_classes (SubDB "x" BaseDB))) "x"
             ["A"; "C"]%string).
    reflexivity.
Defined.

(** ** Saving: directories, and documents that cannot be printed *)

Lemma ancestors_self (p : path) : p <> [] -> p ∈ ancestors p.
Proof.
  induction p as [|x p IH]; [congruence|]. intros _. simpl.
  destruct p as [|y p]; [left|]. right.
  apply list_elem_of_fmap. exists (y :: p). split; [reflexivity|]. apply IH. discriminate.
Qed.


Section Writable.
Context `{JSONText}.





Lemma writeToPath_unprintable dir name data d :
  (forall t, JSON_stringify data <> Ok (Some t)) ->
  exists d' e, writeToPath dir name data d = (d', Throw e)
               /\ files d' = files d /\ journal d' = journal d.
Proof.
  intros Hs. destruct (writeToPath dir name data d) as [d' [[]|e]] eqn:Hw.
  - apply writeToPath_ok in Hw. destruct Hw as (t & Ht & _). destruct (Hs t Ht).
  - exists d', e. split; [reflexivity|]. eapply writeToPath_throw. exact Hw.
Qed.

(** X7.  When the document of the database cannot be printed (it is
    absent, a function, or cyclic), [writeDB] does not throw: it answers
    "failed", and no file is written or changed. *)
Theorem writeDB_unprintable_document (u : string) (m : machine) (D : jsval) :
  getData u m = Ok D -> (forall t, JSON_stringify D <> Ok (Some t)) ->
  snd (writeDB u m) = "failed"%string
  /\ files (disk (fst (writeDB u m))) = files (disk m)
  /\ journal (disk (fst (writeDB u m))) = journal (disk m).
Proof.
  intros Hd Hs. rewrite writeDB_write_files, Hd. unfold write_files.
  destruct (writeToPath_unprintable (getPath u m) "data.swp.json" D (disk m) Hs)
    as (d' & e & Hw & Hf & Hj).
  rewrite Hw. cbn [fst snd disk with_disk]. auto.
Qed.
End Writable.


Lemma writeDB_unprintable_document_witness :
  snd (writeDB Example.u Fresh.constructed) = "failed"%string.
Proof.
  refine (proj1 (writeDB_unprintable_document Example.u Fresh.constructed VUndefined _ _)).
  - vm_compute. reflexivity.
  - intros t. vm_compute. discriminate.
Defined.

(** ** Copies *)

Lemma serialize_elems_spec l r :
  serialize_elems l = Some r ->
  length r = length l
  /\ forall i x, l !! i = Some x ->
       r !! i = Some (match serialize x with SValue j => j | _ => VNull end).
Proof.
  revert r. induction l as [|y l IH]; intros r; cbn [serialize_elems].
  - intros [= <-]. split; [reflexivity|]. intros i x Hx. inversion Hx.
  - destruct (serialize y) eqn:Hy; destruct (serialize_elems l) as [r'|]; try discriminate;
      intros [= <-]; destruct (IH r' eq_refl) as [Hlen Hall]; (split; [simpl; congruence|]);
      intros [|i] x Hx; simpl in Hx |- *; try (apply Hall; exact Hx);
      injection Hx as <-; rewrite Hy; reflexivity.
Qed.

Section Copies.
Context `{JSONText}.

Lemma copyData_json D : is_json D = true -> copyData D = Ok D.
Proof.
  intros HD. unfold copyData. rewrite stringify_json by exact HD.
  apply parse_stringify_json, HD.
Qed.

Lemma copyData_ok v w :
  unique_keys v = true -> copyData v = Ok w -> serialize v = SValue w /\ is_json w = true.
Proof.
  intros Hu. unfold copyData, JSON_stringify.
  destruct (serialize v) as [| |j] eqn:Hs; [discriminate| |].
  - unfold JSON_parse. simpl. rewrite json_decode_undefined. discriminate.
  - pose proof (serialize_is_json v j Hu Hs) as Hj.
    rewrite parse_stringify_json by exact Hj. intros [= <-]. auto.
Qed.

(** X8.  What [copyData] returns is a JSON document, and a JSON document
    is its own copy: copying the copy again gives the same document. *)
Theorem copyData_fixed_point (v w : jsval) :
  unique_keys v = true -> copyData v = Ok w ->
  is_json w = true /\ copyData w = Ok w.
Proof.
  intros Hu Hc. destruct (copyData_ok v w Hu Hc) as [_ Hj].
  split; [exact Hj | apply copyData_json, Hj].
Qed.

(** X9.  The copy of an array is an array of the same length: an element
    that is [undefined] or a function is [null] in the copy (where a
    property of an object would be dropped), and every other element is
    its own serialization. *)
Theorem copyData_array (l : list jsval) (w : jsval) :
  unique_keys (VArr l) = true -> copyData (VArr l) = Ok w ->
  exists l',
    w = VArr l' /\ length l' = length l
    /\ forall i x, l !! i = Some x ->
         ((x = VUndefined \/ x = VFun) -> l' !! i = Some VNull)
         /\ (forall j, serialize x = SValue j -> l' !! i = Some j).
Proof.
  intros Hu Hc. destruct (copyData_ok _ _ Hu Hc) as [Hs _].
  rewrite serialize_VArr in Hs.
  destruct (serialize_elems l) as [r|] eqn:Hr; [|discriminate]. injection Hs as <-.
  destruct (serialize_elems_spec l r Hr) as [Hlen Hall].
  exists r. split; [reflexivity|]. split; [exact Hlen|].
  intros i x Hx. specialize (Hall i x Hx). split.
  - intros [-> | ->]; exact Hall.
  - intros j Hj. rewrite Hj in Hall. exact Hall.
Qed.

(** X10.  The document is shared by the handles of a database: after the
    locked handle assigns a JSON document (one that does not count as
    false) to [data], it reads that document back, and any other handle
    of the database, locked or not, gets it from [datacopy()] and as the
    document of its read-only view. *)
Theorem assigned_document_is_shared (h h' : nat) (o o' : SillyDB) (st : SillyDBStatus)
    (v : jsval) (m : machine) :
  objects m !! h = Some o -> __locking o = true -> databases m !! UID o = Some st ->
  objects m !! h' = Some o' -> UID o' = UID o ->
  is_json v = true -> falsy v = false ->
  snd (set_data h v m) = Ok ()
  /\ get_data h (fst (set_data h v m)) = (fst (set_data h v m), Ok v)
  /\ datacopy h' (fst (set_data h v m)) = Ok v
  /\ dataReadonly h' (fst (set_data h v m)) = Ok (makeReadonly (SharedData (UID o)) [] v).
Proof.
  intros Ho Hl Hst Ho' Hu Hj Hf.
  assert (Hset : set_data h v m
                 = (with_databases (<[UID o := with_data v st]> (databases m)) m, Ok ())).
  { unfold set_data, setData, getDBStatus, hasDB. rewrite Ho, Hl, Hst. reflexivity. }
  rewrite Hset. cbn [fst snd].
  assert (Hst' : databases (with_databases (<[UID o := with_data v st]> (databases m)) m)
                   !! UID o = Some (with_data v st))
    by (cbn [databases with_databases]; apply lookup_insert_eq).
  split; [reflexivity|]. split; [|split].
  - rewrite (get_data_present h o (with_data v st)); auto.
  - unfold datacopy, getData, getDBStatus, hasDB. cbn [objects with_databases].
    rewrite Ho', Hu, Hst'. cbn [__data with_data]. rewrite Hf. apply copyData_json, Hj.
  - unfold dataReadonly, getData, getDBStatus, hasDB. cbn [objects with_databases].
    rewrite Ho', Hu, Hst'. cbn [__data with_data]. rewrite Hf. reflexivity.
Qed.
End Copies.

(** X11.  Reading through the view [dataReadonly] returns.  The
    property [k] (any name but [__proto__]) of an object or array found
    at [p] in the document is read as follows: a property the object or
    array lists is read as [makeReadonly] of its value, that is a
    primitive value as itself, an object or array as a view again, and a
    function as the function that does nothing; the [length] of an array
    is read as its length; the name of an inherited method is read as the
    function that does nothing; and every other name as [undefined]. *)
Theorem readonly_view_reads (h : nat) (m : machine) (view : jsref) :
  dataReadonly h m = Ok view ->
  exists r,
    view_root h m = Some r
    /\ forall p k,
         is_container (deref (root_doc r m) p) = true ->
         k <> "__proto__"%string ->
         navigate view (p ++ [k]) m
         = Ok (match own_value (deref (root_doc r m) p) k with
               | Some x => makeReadonly r (p ++ [k]) x
               | None =>
                   match deref (root_doc r m) p with
                   | VArr l =>
                       if String.eqb k "length" then Prim (VNum (Z.of_nat (length l)))
                       else if bool_decide (k ∈ array_methods ++ object_methods)
                            then Noop else Prim VUndefined
                   | _ =>
                       if bool_decide (k ∈ object_methods) then Noop else Prim VUndefined
                   end
               end).
Proof.
  intros Hv. destruct (dataReadonly_view h m view Hv) as (r & Hr & ->).
  exists r. split; [exact Hr|]. intros p k Hc _.
  rewrite navigate_snoc, (navigate_proxy r m p Hc). cbn [ref_get]. unfold get_prop.
  destruct (own_value (deref (root_doc r m) p) k) as [x|]; [reflexivity|].
  destruct (deref (root_doc r m) p) as [ | | | | | | l | ps | ]; try discriminate Hc;
    cbn [inherited_value].
  - destruct (String.eqb k "length"); [reflexivity|].
    destruct (bool_decide (k ∈ array_methods ++ object_methods)); reflexivity.
  - destruct (bool_decide (k ∈ object_methods)); reflexivity.
Qed.

Lemma copyData_fixed_point_witness :
  copyData (VObj [("a", VNum 1)]%string) = Ok (VObj [("a", VNum 1)]%string).
Proof.
  refine (proj2 (copyData_fixed_point (VObj [("a", VNum 1); ("f", VFun)]%string)
                   (VObj [("a", VNum 1)]%string) _ _)); vm_compute; reflexivity.
Defined.

Lemma copyData_array_witness :
  exists l', copyData (VArr [VNum 1; VUndefined; VFun]) = Ok (VArr l')
             /\ length l' = 3 /\ l' !! 1 = Some VNull.
Proof.
  destruct (copyData_array [VNum 1; VUndefined; VFun] (VArr [VNum 1; VNull; VNull]))
    as (l' & Hw & Hlen & Hall); try (vm_compute; reflexivity).
  exists l'. rewrite <- Hw. split; [vm_compute; reflexivity|]. split; [exact Hlen|].
  apply (proj1 (Hall 1 VUndefined eq_refl)). left. reflexivity.
Defined.

Lemma assigned_document_is_shared_witness :
  datacopy 1 (fst (set_data 0 Scenario.nested_doc Fresh.one_locked)) = Ok Scenario.nested_doc.
Proof.
  eapply (fun o o' st H1 H2 H3 H4 H5 H6 H7 =>
            proj1 (proj2 (proj2
              (assigned_document_is_shared 0 1 o o' st Scenario.nested_doc Fresh.one_locked
                 H1 H2 H3 H4 H5 H6 H7))));
    vm_compute; reflexivity.
Defined.

Lemma readonly_view_reads_witness :
  navigate (Proxy (SharedData Example.u) []) ["a"; "b"; "1"]%string Scenario.nested
  = Ok (Prim (VNum 2))
  /\ navigate (Proxy (SharedData Example.u) []) ["a"; "b"; "map"]%string Scenario.nested
     = Ok Noop.
Proof.
  destruct (readonly_view_reads 0 Scenario.nested (Proxy (SharedData Example.u) []) eq_refl)
    as (r & Hr & Hread).
  assert (Hr' : Some (SharedData Example.u) = Some r) by exact Hr.
  injection Hr' as <-. split.
  - apply (Hread ["a"; "b"]%string "1"%string); [vm_compute; reflexivity | discriminate].
  - apply (Hread ["a"; "b"]%string "map"%string); [vm_compute; reflexivity | discriminate].
Defined.

(** ** Sessions on a database nobody else uses *)

Ltac machine_simpl :=
  unfold observe, schedule, with_root, with_databases, with_disk, with_objects,
    with_lockcalls, with_jobqueue, with_history;
  cbn [root databases disk objects lockcalls jobqueue history fst snd].

Section Sessions.
Context `{JSONText}.

(** [use()] on a handle of a database whose lock nobody holds or waits
    for, when no continuation is pending: the state after the three
    continuations of the call. *)
Lemma use_idle_state (h : nat) (o : SillyDB) (st : SillyDBStatus) (m : machine) :
  objects m !! h = Some o -> __locking o = false -> databases m !! UID o = Some st ->
  tx_uuid (tx_unlock st) = None -> tx_list (tx_unlock st) = [] -> jobqueue m = [] ->
  run [Call (Use h); Tick; Tick; Tick] m
  = {| root := root m;
       databases :=
         <[UID o := with_transaction unlock
                      {| tx_list := []; tx_uuid := Some (__uuid o) |} st]> (databases m);
       disk := disk m;
       objects :=
         <[h := with_locking true (with_unlockDB (Some (length (lockcalls m))) o)]>
           (objects m);
       lockcalls :=
         lockcalls m
         ++ [{| lc_db := h; lc_status := UID o; lc_uuid := __uuid o; lc_resolved := false;
                lc_parked := Some (MHandler (UID o) unlock (__uuid o) None None) |}];
       jobqueue := [];
       history :=
         history m
         ++ [Requested (UID o) h (length (lockcalls m));
             Enqueued (UID o) unlock
               {| job_todo := TodoLock (length (lockcalls m)); job_uuid := __uuid o;
                  job_resolve := None |};
             Started (UID o) unlock
               {| job_todo := TodoLock (length (lockcalls m)); job_uuid := __uuid o;
                  job_resolve := None |};
             Locked (UID o) h (length (lockcalls m))] |}.
Proof.
  intros Ho Hl Hst Hu Hlist Hj.
  set (c := length (lockcalls m)).
  set (job := {| job_todo := TodoLock c; job_uuid := __uuid o; job_resolve := None |}).
  set (l := {| lc_db := h; lc_status := UID o; lc_uuid := __uuid o; lc_resolved := false;
               lc_parked := None |}).
  set (l' := {| lc_db := h; lc_status := UID o; lc_uuid := __uuid o; lc_resolved := false;
                lc_parked := Some (MHandler (UID o) unlock (__uuid o) None None) |}).
  set (st2 := with_transaction unlock {| tx_list := []; tx_uuid := Some (__uuid o) |} st).
  set (m1 := {| root := root m; databases := databases m; disk := disk m;
                objects := objects m; lockcalls := lockcalls m ++ [l];
                jobqueue := [MLockDB_wait c];
                history := history m ++ [Requested (UID o) h c] |}).
  set (m2 := {| root := root m; databases := <[UID o := st2]> (databases m); disk := disk m;
                objects := objects m; lockcalls := lockcalls m ++ [l'];
                jobqueue := [MLockDB_return c];
                history := history m ++ [Requested (UID o) h c; Enqueued (UID o) unlock job;
                                         Started (UID o) unlock job] |}).
  set (m3 := {| root := root m; databases := <[UID o := st2]> (databases m); disk := disk m;
                objects := objects m; lockcalls := lockcalls m ++ [l'];
                jobqueue := [MUse h c];
                history := history m ++ [Requested (UID o) h c; Enqueued (UID o) unlock job;
                                         Started (UID o) unlock job] |}).
  assert (H1 : fst (use h m) = m1).
  { unfold use. rewrite Ho, Hl. unfold lockDB, hasDB. rewrite Hst. cbn [fst].
    unfold observe, schedule, with_history, with_jobqueue, with_lockcalls. cbn.
    rewrite Hj. reflexivity. }
  assert (H2 : tick m1 = m2).
  { unfold tick, m1. machine_simpl. cbn [run_microtask]. machine_simpl.
    rewrite list_lookup_middle by reflexivity. cbn [lc_status lc_uuid l].
    unfold wait. machine_simpl. rewrite Hst. cbn [transactions]. rewrite Hu, Hlist.
    cbn [app]. unfold handler. machine_simpl.
    rewrite lookup_insert_eq. cbn [transactions with_transaction tx_unlock tx_list].
    unfold run_todo. cbn [job_todo job_uuid job_resolve]. machine_simpl.
    rewrite list_lookup_middle by reflexivity. cbn [lc_resolved l]. machine_simpl.
    unfold m2. f_equal.
    - rewrite insert_insert_eq. reflexivity.
    - unfold with_parked. cbn [lc_db lc_status lc_uuid lc_resolved l].
      rewrite insert_app_r_alt by (unfold c; lia). unfold c. rewrite Nat.sub_diag.
      reflexivity.
    - rewrite <- !app_assoc. reflexivity. }
  assert (H3 : tick m2 = m3).
  { unfold tick, m2. cbn [jobqueue run_microtask with_jobqueue lockcalls].
    rewrite list_lookup_middle by reflexivity. reflexivity. }
  unfold run. cbn [fold_left step perform]. rewrite H1, H2, H3.
  unfold tick, m3. cbn [jobqueue run_microtask with_jobqueue objects]. rewrite Ho.
  unfold observe, with_history, with_objects. cbn. rewrite <- app_assoc. reflexivity.
Qed.
End Sessions.

Section SessionsOpen.
Context `{JSONText}.

(** X12.  Opening a free database.  In a state the program can reach,
    when no continuation is pending and the lock queue of the database
    is idle, [use()] on an unlocked handle completes after three
    continuations: the handle is then the one locked handle of its
    database, and no continuation is pending. *)
Theorem use_completes_on_idle_database
    (d : filesystem) (ins : list input) (h : nat) (o : SillyDB) (st : SillyDBStatus) :
  objects (run ins (boot d)) !! h = Some o -> __locking o = false ->
  databases (run ins (boot d)) !! UID o = Some st ->
  tx_uuid (tx_unlock st) = None -> tx_list (tx_unlock st) = [] ->
  jobqueue (run ins (boot d)) = [] ->
  locked_handles (UID o) (run [Call (Use h); Tick; Tick; Tick] (run ins (boot d))) = [h]
  /\ jobqueue (run [Call (Use h); Tick; Tick; Tick] (run ins (boot d))) = [].
Proof.
  intros Ho Hl Hst Hu Hlist Hj.
  pose proof (use_idle_state h o st _ Ho Hl Hst Hu Hlist Hj) as Hrun.
  assert (Hinv : lock_inv (run [Call (Use h); Tick; Tick; Tick] (run ins (boot d))))
    by apply lock_inv_run, lock_inv_reachable.
  assert (Hh : holds (run [Call (Use h); Tick; Tick; Tick] (run ins (boot d))) h (UID o)).
  { rewrite Hrun. eexists. cbn [objects]. split.
    - apply list_lookup_insert_eq. eapply lookup_lt_Some. exact Ho.
    - split; reflexivity. }
  split.
  - apply one_element; [apply NoDup_locked_handles | apply elem_of_locked_handles, Hh |].
    intros y Hy. apply elem_of_locked_handles in Hy.
    eapply lock_inv_exclusive; [exact Hinv | exact Hy | exact Hh].
  - rewrite Hrun. reflexivity.
Qed.
End SessionsOpen.

Lemma use_completes_on_idle_database_witness :
  locked_handles Example.u
    (run [Call (Use 1); Tick; Tick; Tick]
       (run [Call (New Example.u (VArr [])); Call (New Example.u (VArr []))]
          (boot Example.empty_disk)))
  = [1].
Proof.
  eapply (fun st H1 H2 H3 H4 H5 H6 =>
            proj1 (use_completes_on_idle_database Example.empty_disk
                     [Call (New Example.u (VArr [])); Call (New Example.u (VArr []))] 1
                     {| UID := Example.u; __default := VArr []; __locking := false;
                        __uuid := 1; unlockDB := None |} st H1 H2 H3 H4 H5 H6));
    vm_compute; reflexivity.
Defined.

Section SessionsClose.
Context `{JSONText}.

(** [saveClose()] on a locked handle whose flush queue is idle, when no
    continuation is pending: the state when only the [close()] of the
    call is left to run. *)
Lemma saveClose_idle_state (h : nat) (o : SillyDB) (st : SillyDBStatus) (m : machine) :
  objects m !! h = Some o -> __locking o = true -> databases m !! UID o = Some st ->
  tx_uuid (tx_write_end st) = None -> tx_list (tx_write_end st) = [] -> jobqueue m = [] ->
  run [Call (SaveClose h); Tick; Tick; Tick] m
  = {| root := root m;
       databases :=
         <[UID o := with_transaction write_end {| tx_list := []; tx_uuid := None |} st]>
           (databases m);
       disk := disk (fst (writeDB (UID o) m));
       objects := objects m;
       lockcalls := lockcalls m;
       jobqueue := [MSaveClose h];
       history :=
         history m
         ++ [Enqueued (UID o) write_end
               {| job_todo := TodoWrite (UID o); job_uuid := __uuid o;
                  job_resolve := Some (KSaveClose h) |};
             Started (UID o) write_end
               {| job_todo := TodoWrite (UID o); job_uuid := __uuid o;
                  job_resolve := Some (KSaveClose h) |};
             Finished (UID o) write_end (__uuid o)] |}.
Proof.
  intros Ho Hl Hst Hu Hlist Hj.
  set (job := {| job_todo := TodoWrite (UID o); job_uuid := __uuid o;
                 job_resolve := Some (KSaveClose h) |}).
  set (W := write_files (getPath (UID o) m) (Ok (__data st)) (disk m)).
  set (st2 := with_transaction write_end {| tx_list := []; tx_uuid := Some (__uuid o) |} st).
  set (st3 := with_transaction write_end {| tx_list := []; tx_uuid := None |} st).
  assert (HW : disk (fst (writeDB (UID o) m)) = fst W).
  { rewrite writeDB_write_files. unfold W, getData, getDBStatus, hasDB.
    rewrite Hst. reflexivity. }
  rewrite HW.
  set (mk := fun dbs q hs =>
               {| root := root m; databases := dbs; disk := fst W; objects := objects m;
                  lockcalls := lockcalls m; jobqueue := q; history := hs |}).
  assert (H1 : fst (saveClose h m)
               = mk (<[UID o := st2]> (databases m))
                    [MHandler (UID o) write_end (__uuid o) (Some (KSaveClose h))
                       (Some (snd W))]
                    (history m ++ [Enqueued (UID o) write_end job;
                                   Started (UID o) write_end job])).
  { unfold saveClose. rewrite Ho, Hl. unfold save_for. rewrite Ho, Hl.
    unfold safeWriteDB, getDBStatus, hasDB. rewrite Hst. cbn [fst].
    unfold wait. rewrite Hst. cbn [transactions]. rewrite Hu, Hlist. cbn [app].
    unfold handler. machine_simpl.
    rewrite lookup_insert_eq. cbn [transactions with_transaction tx_write_end tx_list].
    unfold run_todo. cbn [job_todo job_uuid job_resolve].
    rewrite writeDB_write_files. unfold getData, getDBStatus, hasDB, getPath. machine_simpl.
    rewrite lookup_insert_eq. cbn [__data]. fold (getPath (UID o) m). fold W. machine_simpl.
    rewrite Hj. unfold mk. f_equal.
    - rewrite insert_insert_eq. reflexivity.
    - rewrite <- !app_assoc. reflexivity. }
  assert (H2 : tick (mk (<[UID o := st2]> (databases m))
                        [MHandler (UID o) write_end (__uuid o) (Some (KSaveClose h))
                           (Some (snd W))]
                        (history m ++ [Enqueued (UID o) write_end job;
                                       Started (UID o) write_end job]))
               = mk (<[UID o := st3]> (databases m))
                    [MSafeWriteDB (KSaveClose h) (Some (snd W))]
                    (history m ++ [Enqueued (UID o) write_end job;
                                   Started (UID o) write_end job;
                                   Finished (UID o) write_end (__uuid o)])).
  { unfold tick, mk. machine_simpl. cbn [run_microtask]. machine_simpl.
    unfold handler. machine_simpl. rewrite lookup_insert_eq.
    cbn [transactions with_transaction tx_write_end tx_list st2]. machine_simpl.
    f_equal.
    - rewrite insert_insert_eq. reflexivity.
    - rewrite <- !app_assoc. reflexivity. }
  unfold run. cbn [fold_left step perform]. rewrite H1, H2.
  unfold tick, mk. machine_simpl. cbn [run_microtask]. machine_simpl. reflexivity.
Qed.

(** The state after [saveClose()] and its four continuations. *)
Lemma saveClose_final_state (h : nat) (o : SillyDB) (st : SillyDBStatus) (m : machine) :
  lock_inv m ->
  objects m !! h = Some o -> __locking o = true -> databases m !! UID o = Some st ->
  tx_uuid (tx_write_end st) = None -> tx_list (tx_write_end st) = [] -> jobqueue m = [] ->
  exists c l hs,
    unlockDB o = Some c /\ lockcalls m !! c = Some l
    /\ run [Call (SaveClose h); Tick; Tick; Tick; Tick] m
       = {| root := root m;
            databases :=
              <[UID o := with_transaction write_end
                           {| tx_list := []; tx_uuid := None |} st]> (databases m);
            disk := disk (fst (writeDB (UID o) m));
            objects := <[h := with_locking false o]> (objects m);
            lockcalls := <[c := with_resolved l]> (lockcalls m);
            jobqueue := match lc_parked l with Some t => [t] | None => [] end;
            history := hs |}.
Proof.
  intros Hinv Ho Hl Hst Hu Hlist Hj.
  pose proof (saveClose_idle_state h o st m Ho Hl Hst Hu Hlist Hj) as Hrun.
  destruct (inv_handles _ Hinv h o Ho) as [Hsome Hc].
  destruct (Hsome Hl) as [c Hun]. destruct (Hc c Hun) as (Hin & Hdb & Hres).
  specialize (Hres Hl).
  assert (Hlc : exists l, lockcalls m !! c = Some l /\ lc_resolved l = false).
  { unfold resolved in Hres. unfold lock_db in Hdb.
    destruct (lockcalls m !! c) as [l|]; [|discriminate]. eauto. }
  destruct Hlc as (l & Hlc & Hlr).
  change (run [Call (SaveClose h); Tick; Tick; Tick; Tick] m)
    with (tick (run [Call (SaveClose h); Tick; Tick; Tick] m)).
  rewrite Hrun. unfold tick. machine_simpl. cbn [run_microtask].
  unfold close. machine_simpl. rewrite Ho, Hun. unfold resolve_lock. machine_simpl.
  rewrite Hlc, Hlr.
  destruct (lc_parked l) eqn:Hp; machine_simpl; exists c, l; eexists; rewrite ?Hp;
    (split; [first [exact Hun | reflexivity]|]);
    (split; [first [exact Hlc | reflexivity]|]); reflexivity.
Qed.

(** When the one locked handle of a database is unlocked, none is. *)
Lemma released_lock (h : nat) (o : SillyDB) (m m5 : machine) :
  lock_inv m -> objects m !! h = Some o -> __locking o = true ->
  objects m5 = <[h := with_locking false o]> (objects m) ->
  locked_handles (UID o) m5 = [].
Proof.
  intros Hinv Ho Hl Hob.
  destruct (locked_handles (UID o) m5) as [|y ys] eqn:Hy; [reflexivity|].
  assert (Hyh : holds m5 y (UID o)) by (apply elem_of_locked_handles; rewrite Hy; left).
  assert (Hmh : holds m h (UID o)) by (exists o; auto).
  destruct Hyh as (oy & Hoy & Huy & Hly). rewrite Hob in Hoy.
  destruct (decide (y = h)) as [->|Hne].
  - rewrite list_lookup_insert_eq in Hoy by (eapply lookup_lt_Some; exact Ho).
    injection Hoy as <-. discriminate Hly.
  - rewrite list_lookup_insert_ne in Hoy by congruence.
    destruct Hne. eapply lock_inv_exclusive; [exact Hinv | exists oy; eauto | exact Hmh].
Qed.

(** X13.  [saveClose()] releases the lock whatever the save answers.  On
    a locked handle in a state the program can reach, when its flush
    queue is idle and no continuation is pending, after the four
    continuations of the call the handle is not locked, its lock call is
    resolved, the disk is as [writeDB] left it, and the document in
    memory is what it was. *)
Theorem saveClose_releases_the_lock
    (d : filesystem) (ins : list input) (h : nat) (o : SillyDB) (st : SillyDBStatus) :
  objects (run ins (boot d)) !! h = Some o -> __locking o = true ->
  databases (run ins (boot d)) !! UID o = Some st ->
  tx_uuid (tx_write_end st) = None -> tx_list (tx_write_end st) = [] ->
  jobqueue (run ins (boot d)) = [] ->
  locked_handles (UID o)
    (run [Call (SaveClose h); Tick; Tick; Tick; Tick] (run ins (boot d))) = []
  /\ (exists c, unlockDB o = Some c
                /\ resolved (run [Call (SaveClose h); Tick; Tick; Tick; Tick]
                               (run ins (boot d))) c = true)
  /\ disk (run [Call (SaveClose h); Tick; Tick; Tick; Tick] (run ins (boot d)))
     = disk (fst (writeDB (UID o) (run ins (boot d))))
  /\ __data <$> databases (run [Call (SaveClose h); Tick; Tick; Tick; Tick]
                             (run ins (boot d))) !! UID o
     = Some (__data st).
Proof.
  intros Ho Hl Hst Hu Hlist Hj.
  set (m := run ins (boot d)) in *.
  assert (Hinv : lock_inv m) by apply lock_inv_reachable.
  destruct (saveClose_final_state h o st m Hinv Ho Hl Hst Hu Hlist Hj)
    as (c & l & hs & Hun & Hlc & Hfin).
  rewrite Hfin. machine_simpl. split; [|split; [|split]].
  - apply (released_lock h o m); auto.
  - exists c. split; [exact Hun|]. unfold resolved. machine_simpl.
    rewrite list_lookup_insert_eq by (eapply lookup_lt_Some; exact Hlc). reflexivity.
  - reflexivity.
  - rewrite lookup_insert_eq. reflexivity.
Qed.
End SessionsClose.

Lemma saveClose_releases_the_lock_witness :
  locked_handles Example.u (run [Call (SaveClose 0); Tick; Tick; Tick; Tick] Example.opened)
  = [].
Proof.
  eapply (fun st H1 H2 H3 H4 H5 H6 =>
            proj1 (saveClose_releases_the_lock Example.empty_disk
                     [Call (New Example.u (VArr [])); Call (Use 0); Tick; Tick; Tick;
                      Call (GetData 0)] 0
                     {| UID := Example.u; __default := VArr []; __locking := true;
                        __uuid := 0; unlockDB := Some 0 |} st H1 H2 H3 H4 H5 H6));
    vm_compute; reflexivity.
Defined.

Section SessionsFirst.
Context `{JSONText}.

(** X14.  The first session on a database.  When the registry does not
    hold the database and no continuation is pending,
    [SillyDB.use(defaultValue)] loads the document from the disk, and
    three continuations later the new handle is locked; reading [data]
    then gives the loaded document, or the copy of the default when
    no document was loaded (or one that counts as false). *)
Theorem static_use_opens_new_database
    (u : string) (defaultValue copy : jsval) (m : machine) :
  databases m !! u = None -> jobqueue m = [] -> copyData defaultValue = Ok copy ->
  snd (static_use u defaultValue m) = Ok (length (objects m))
  /\ holds (run [Tick; Tick; Tick] (fst (static_use u defaultValue m)))
       (length (objects m)) u
  /\ jobqueue (run [Tick; Tick; Tick] (fst (static_use u defaultValue m))) = []
  /\ snd (get_data (length (objects m))
            (run [Tick; Tick; Tick] (fst (static_use u defaultValue m))))
     = Ok (if falsy (safeReadDB u m) then copy else safeReadDB u m).
Proof.
  intros Hdb Hj Hcopy.
  set (h := length (objects m)).
  set (o := {| UID := u; __default := copy; __locking := false; __uuid := h;
               unlockDB := None |}).
  set (st := new_SillyDBStatus u m).
  set (m1 := with_objects (objects m ++ [o])
               (with_databases (<[u := st]> (databases m)) m)).
  assert (Hnew : new_SillyDB u defaultValue m = (m1, Ok h)).
  { unfold new_SillyDB, regist, hasDB. rewrite Hdb, Hcopy. reflexivity. }
  assert (Hrun : run [Tick; Tick; Tick] (fst (static_use u defaultValue m))
                 = run [Call (Use h); Tick; Tick; Tick] m1).
  { unfold static_use. rewrite Hnew. reflexivity. }
  assert (Ho : objects m1 !! h = Some o).
  { unfold m1. cbn [objects with_objects with_databases].
    apply list_lookup_middle. reflexivity. }
  assert (Hst : databases m1 !! UID o = Some st).
  { unfold m1. cbn [databases with_objects with_databases UID o]. apply lookup_insert_eq. }
  rewrite Hrun.
  rewrite (use_idle_state h o st m1 Ho eq_refl Hst eq_refl eq_refl Hj).
  split; [unfold static_use; rewrite Hnew; reflexivity|].
  split; [|split; [reflexivity|]].
  - eexists. cbn [objects].
    split; [apply list_lookup_insert_eq; eapply lookup_lt_Some; exact Ho|].
    split; reflexivity.
  - unfold get_data. cbn [objects].
    rewrite list_lookup_insert_eq by (eapply lookup_lt_Some; exact Ho).
    cbn [__locking with_locking UID with_unlockDB o].
    unfold getData, getDBStatus, hasDB. cbn [databases]. rewrite lookup_insert_eq.
    cbn [__data with_transaction st new_SillyDBStatus].
    destruct (falsy (safeReadDB u m)); [|reflexivity].
    unfold setData, getDBStatus, hasDB. cbn [databases]. rewrite lookup_insert_eq.
    reflexivity.
Qed.
End SessionsFirst.

Lemma static_use_opens_new_database_witness :
  snd (get_data 0 (run [Tick; Tick; Tick]
                     (fst (static_use Example.u (VArr [VFun]) (boot Scenario.damaged_disk)))))
  = Ok (VArr [VNum 1; VNum 2]).
Proof.
  refine (proj2 (proj2 (proj2
            (static_use_opens_new_database Example.u (VArr [VFun]) (VArr [VNull])
               (boot Scenario.damaged_disk) _ _ _))));
    vm_compute; reflexivity.
Defined.

(** ** The registry and the documents, step by step *)

Lemma keeps_refl m : keeps m m.
Proof. split; eauto. Qed.

Lemma keeps_trans m1 m2 m3 : keeps m1 m2 -> keeps m2 m3 -> keeps m1 m3.
Proof.
  intros [A1 A2 A3] [B1 B2 B3]. split.
  - intros u st Hst. destruct (A1 u st Hst) as (st' & Hst' & Hd).
    destruct (B1 u st' Hst') as (st'' & Hst'' & Hd'). exists st''. split; [exact Hst''|].
    congruence.
  - intros h o Ho. destruct (A2 h o Ho) as (o' & Ho' & Hu & Hd).
    destruct (B2 h o' Ho') as (o'' & Ho'' & Hu' & Hd'). exists o''. split; [exact Ho''|].
    split; congruence.
  - intros h o'' Ho''. destruct (B3 h o'' Ho'') as [[o' Ho']|Hreg]; [|right; exact Hreg].
    destruct (A3 h o' Ho') as [Hold|[st' Hst']]; [left; exact Hold|]. right.
    destruct (B2 h o' Ho') as (ox & Hox & Hux & _). assert (ox = o'') by congruence. subst ox.
    destruct (B1 _ st' Hst') as (st'' & Hst'' & _). rewrite Hux. eauto.
Qed.

Lemma keeps_same m m' :
  databases m' = databases m -> objects m' = objects m -> keeps m m'.
Proof. intros E1 E2. split; rewrite ?E1, ?E2; eauto. Qed.

Lemma keeps_ext m m' m'' :
  keeps m m' -> databases m'' = databases m' -> objects m'' = objects m' -> keeps m m''.
Proof. intros Hk E1 E2. eapply keeps_trans; [exact Hk | apply keeps_same; assumption]. Qed.

Lemma keeps_with_status u st' m :
  (forall st, databases m !! u = Some st -> __data st' = __data st) ->
  keeps m (with_databases (<[u := st']> (databases m)) m).
Proof.
  intros Hd. split; cbn [databases objects with_databases]; eauto.
  intros u0 st Hst. destruct (decide (u0 = u)) as [->|Hne].
  - rewrite lookup_insert_eq. eauto.
  - rewrite lookup_insert_ne by congruence. eauto.
Qed.

Lemma keeps_with_handle h o o' m :
  objects m !! h = Some o -> UID o' = UID o -> __default o' = __default o ->
  keeps m (with_objects (<[h := o']> (objects m)) m).
Proof.
  intros Ho Hu Hd. split; cbn [databases objects with_objects]; eauto.
  - intros h0 o0 Ho0. destruct (decide (h0 = h)) as [->|Hne].
    + rewrite list_lookup_insert_eq by (eapply lookup_lt_Some; exact Ho).
      assert (o0 = o) by congruence. subst o0. eauto.
    + rewrite list_lookup_insert_ne by congruence. eauto.
  - intros h0 o0 Ho0. left. apply lookup_lt_is_Some. apply lookup_lt_Some in Ho0.
    rewrite length_insert in Ho0. exact Ho0.
Qed.

Lemma keeps_resolve_lock c m : keeps m (resolve_lock c m).
Proof.
  apply keeps_same; unfold resolve_lock; destruct (lockcalls m !! c) as [l|]; try reflexivity;
    destruct (lc_resolved l); try reflexivity; destruct (lc_parked l); reflexivity.
Qed.

Lemma keeps_close h m : keeps m (fst (close h m)).
Proof.
  unfold close, no_object. destruct (objects m !! h) as [o|] eqn:Ho; [|apply keeps_refl].
  destruct (unlockDB o) as [c|]; [|apply keeps_refl]. cbn [fst].
  eapply keeps_trans; [apply keeps_resolve_lock|].
  apply (keeps_with_handle h o); [|reflexivity|reflexivity].
  rewrite objects_resolve_lock. exact Ho.
Qed.

Lemma keeps_use h m : keeps m (fst (use h m)).
Proof. apply keeps_same; [|apply objects_use]. unfold use, no_object.
  destruct (objects m !! h) as [o|]; [|reflexivity].
  destruct (__locking o); [reflexivity|]. unfold lockDB.
  destruct (hasDB (UID o) m); reflexivity.
Qed.

Section KeepsProgram.
Context `{JSONText}.

Lemma keeps_new_SillyDB u dv m : keeps m (fst (new_SillyDB u dv m)).
Proof.
  assert (Hreg : keeps m (regist u m)).
  { unfold regist, hasDB. destruct (databases m !! u) as [st|] eqn:Hst; [apply keeps_refl|].
    apply keeps_with_status. intros st Hst'. congruence. }
  unfold new_SillyDB. destruct (copyData dv) as [d|e]; [|exact Hreg]. cbn [fst].
  eapply keeps_trans; [exact Hreg|]. split; cbn [databases objects with_objects]; eauto.
  - intros h o Ho. exists o. split; [|auto].
    rewrite lookup_app_l by (eapply lookup_lt_Some; exact Ho). exact Ho.
  - intros h o' Ho'. apply lookup_app_Some in Ho'. destruct Ho' as [Ho'|[_ Ho']];
      [left; eauto|]. right.
    apply list_lookup_singleton_Some in Ho'. destruct Ho' as [_ <-]. cbn [UID].
    unfold regist, hasDB. destruct (databases m !! u) as [st|] eqn:Hst; [eauto|].
    cbn [databases with_databases]. rewrite lookup_insert_eq. eauto.
Qed.

Lemma keeps_run_todo u ev job m : keeps m (run_todo u ev job m).
Proof.
  apply keeps_same; [|apply objects_run_todo].
  unfold run_todo. destruct (job_todo job) as [c|w].
  - destruct (lockcalls (schedule (MLockDB_return c) m) !! c) as [l|]; [|reflexivity].
    destruct (lc_resolved l); reflexivity.
  - rewrite writeDB_write_files. reflexivity.
Qed.

Lemma keeps_handler u ev m : keeps m (handler u ev m).
Proof.
  unfold handler. destruct (databases m !! u) as [st|] eqn:Hst; [|apply keeps_refl].
  destruct (tx_list (transactions st ev)) as [|job rest].
  - apply keeps_with_status. intros st0 Hst0. assert (st0 = st) by congruence. subst st0.
    destruct ev; reflexivity.
  - eapply keeps_trans; [|apply keeps_run_todo].
    eapply keeps_ext; [apply keeps_with_status | reflexivity | reflexivity].
    intros st0 Hst0. assert (st0 = st) by congruence. subst st0.
    destruct ev; reflexivity.
Qed.

Lemma keeps_wait u ev jid td res m : keeps m (wait u ev jid td res m).
Proof.
  unfold wait. destruct (databases m !! u) as [st|] eqn:Hst; [|apply keeps_refl].
  match goal with |- context [observe ?o ?x] => assert (Hk : keeps m (observe o x)) end.
  { eapply keeps_ext; [apply keeps_with_status | reflexivity | reflexivity].
    intros st0 Hst0. assert (st0 = st) by congruence. subst st0.
    destruct ev; reflexivity. }
  destruct (tx_uuid (transactions st ev)); [exact Hk|].
  eapply keeps_trans; [exact Hk | apply keeps_handler].
Qed.

Lemma keeps_save_for k h m : keeps m (fst (save_for k h m)).
Proof.
  unfold save_for, no_object. destruct (objects m !! h) as [o|]; [|apply keeps_refl].
  destruct (__locking o); [|apply keeps_refl].
  unfold safeWriteDB. destruct (getDBStatus (UID o) m); [|apply keeps_refl].
  apply keeps_wait.
Qed.

Lemma keeps_saveClose h m : keeps m (fst (saveClose h m)).
Proof.
  unfold saveClose, no_object. destruct (objects m !! h) as [o|]; [|apply keeps_refl].
  destruct (__locking o); [apply keeps_save_for | apply keeps_refl].
Qed.

Lemma keeps_asyncDispose h m : keeps m (fst (asyncDispose h m)).
Proof.
  unfold asyncDispose, no_object. destruct (objects m !! h) as [o|]; [|apply keeps_refl].
  destruct (__locking o); [apply keeps_saveClose | apply keeps_refl].
Qed.

Lemma keeps_tick m : keeps m (tick m).
Proof.
  unfold tick. destruct (jobqueue m) as [|t q]; [apply keeps_refl|].
  assert (Hpop : keeps m (with_jobqueue q m)) by (apply keeps_same; reflexivity).
  eapply keeps_trans; [exact Hpop|].
  destruct t as [c|c|h c|u ev jid res v|k v|k v|h]; cbn [run_microtask].
  - destruct (lockcalls (with_jobqueue q m) !! c) as [l|]; [apply keeps_wait|apply keeps_refl].
  - destruct (lockcalls (with_jobqueue q m) !! c) as [l|]; [|apply keeps_refl].
    apply keeps_same; reflexivity.
  - destruct (objects (with_jobqueue q m) !! h) as [o|] eqn:Ho; [|apply keeps_refl].
    eapply keeps_ext; [apply (keeps_with_handle h o) | reflexivity | reflexivity];
      [exact Ho | reflexivity | reflexivity].
  - eapply keeps_trans; [|apply keeps_handler].
    destruct res; apply keeps_same; reflexivity.
  - apply keeps_same; reflexivity.
  - destruct k; apply keeps_same; reflexivity.
  - apply keeps_close.
Qed.

Lemma keeps_step m i : writes_document i = false -> keeps m (step m i).
Proof.
  destruct i as [c|]; [|intros _; apply keeps_tick].
  destruct c as [u dv|h|h|h|h|h|h|h v|p|o k x|o k]; cbn [writes_document step perform];
    try discriminate; intros _.
  - apply keeps_new_SillyDB.
  - apply keeps_use.
  - apply keeps_close.
  - apply keeps_save_for.
  - apply keeps_saveClose.
  - apply keeps_asyncDispose.
  - apply keeps_same; unfold root_path; destruct p as [p|]; try reflexivity;
      destruct (String.eqb p EmptyString); reflexivity.
Qed.
End KeepsProgram.

Lemma keeps_keeps_registry m m' : keeps m m' -> keeps_registry m m'.
Proof.
  intros [A1 A2 A3]. split; [| |exact A3].
  - intros u [st Hst]. destruct (A1 u st Hst) as (st' & Hst' & _). eauto.
  - intros h o Ho. destruct (A2 h o Ho) as (o' & Ho' & Hu & _). eauto.
Qed.

Lemma keeps_registry_refl m : keeps_registry m m.
Proof. apply keeps_keeps_registry, keeps_refl. Qed.

Lemma keeps_registry_trans m1 m2 m3 :
  keeps_registry m1 m2 -> keeps_registry m2 m3 -> keeps_registry m1 m3.
Proof.
  intros [A1 A2 A3] [B1 B2 B3]. split.
  - intros u Hu. apply B1, A1, Hu.
  - intros h o Ho. destruct (A2 h o Ho) as (o' & Ho' & Hu).
    destruct (B2 h o' Ho') as (o'' & Ho'' & Hu'). exists o''. split; [exact Ho''|]. congruence.
  - intros h o'' Ho''. destruct (B3 h o'' Ho'') as [[o' Ho']|Hreg]; [|right; exact Hreg].
    destruct (A3 h o' Ho') as [Hold|Hreg]; [left; exact Hold|]. right.
    destruct (B2 h o' Ho') as (ox & Hox & Hux). assert (ox = o'') by congruence. subst ox.
    rewrite Hux. apply B1, Hreg.
Qed.

Lemma keeps_registry_setData u v a m : keeps_registry m (fst (setData u v a m)).
Proof.
  unfold setData, getDBStatus, hasDB. destruct (databases m !! u) as [st|] eqn:Hst;
    [|apply keeps_registry_refl]. cbn [fst].
  split; cbn [databases objects with_databases]; eauto.
  intros u0 Hu0. destruct (decide (u0 = u)) as [->|Hne].
  - rewrite lookup_insert_eq. eauto.
  - rewrite lookup_insert_ne by congruence. exact Hu0.
Qed.

Lemma keeps_registry_edit_data u v m : keeps_registry m (edit_data u v m).
Proof.
  unfold edit_data. destruct (databases m !! u) as [st|] eqn:Hst;
    [|apply keeps_registry_refl].
  pose proof (keeps_registry_setData u v (__data_of st) m) as Hk.
  unfold setData, getDBStatus, hasDB in Hk. rewrite Hst in Hk. exact Hk.
Qed.

Lemma keeps_registry_edit_default h v m : keeps_registry m (edit_default h v m).
Proof.
  unfold edit_default. destruct (objects m !! h) as [o|] eqn:Ho; [|apply keeps_registry_refl].
  split; cbn [databases objects with_objects]; eauto.
  - intros h0 o0 Ho0. destruct (decide (h0 = h)) as [->|Hne].
    + rewrite list_lookup_insert_eq by (eapply lookup_lt_Some; exact Ho).
      assert (o0 = o) by congruence. subst o0. eauto.
    + rewrite list_lookup_insert_ne by congruence. eauto.
  - intros h0 o0 Ho0. left. apply lookup_lt_is_Some. apply lookup_lt_Some in Ho0.
    rewrite length_insert in Ho0. exact Ho0.
Qed.

Lemma keeps_registry_set_root_doc r v m : keeps_registry m (set_root_doc r v m).
Proof.
  destruct (set_root_doc_cases r v m)
    as [->|[(u & ->)|[(h & ->)|[(u & h & ->)|(u & h & ->)]]]].
  - apply keeps_registry_refl.
  - apply keeps_registry_edit_data.
  - apply keeps_registry_edit_default.
  - eapply keeps_registry_trans;
      [apply keeps_registry_edit_data | apply keeps_registry_edit_default].
  - eapply keeps_registry_trans;
      [apply keeps_registry_edit_default | apply keeps_registry_edit_data].
Qed.

Section RegistryProgram.
Context `{JSONText}.

Lemma keeps_registry_step m i : keeps_registry m (step m i).
Proof.
  destruct (writes_document i) eqn:Hw; [|apply keeps_keeps_registry, keeps_step, Hw].
  destruct i as [c|]; [|discriminate].
  destruct c as [u dv|h|h|h|h|h|h|h v|p|o k x|o k]; try discriminate; cbn [step perform].
  - unfold get_data, no_object. destruct (objects m !! h) as [o|]; [|apply keeps_registry_refl].
    destruct (__locking o); [|apply keeps_registry_refl].
    destruct (getData (UID o) m) as [d|e]; [|apply keeps_registry_refl].
    destruct (falsy d); [|apply keeps_registry_refl].
    pose proof (keeps_registry_setData (UID o) (__default o) (Some h) m) as Hq.
    destruct (setData (UID o) (__default o) (Some h) m) as [m1 [[]|e]]; exact Hq.
  - unfold set_data, no_object. destruct (objects m !! h) as [o|]; [|apply keeps_registry_refl].
    destruct (__locking o); [apply keeps_registry_setData | apply keeps_registry_refl].
  - destruct (ref_assign_cases o k x m) as [->|(r & v & ->)];
      [apply keeps_registry_refl | apply keeps_registry_set_root_doc].
  - destruct (ref_delete_cases o k m) as [->|(r & v & ->)];
      [apply keeps_registry_refl | apply keeps_registry_set_root_doc].
Qed.

Lemma registered_step m i : registered m -> registered (step m i).
Proof.
  intros Hreg h o' Ho'. destruct (keeps_registry_step m i) as [A1 A2 A3].
  destruct (A3 h o' Ho') as [[o Ho]|Hr]; [|exact Hr].
  destruct (A2 h o Ho) as (ox & Hox & Hux). assert (ox = o') by congruence. subst ox.
  rewrite Hux. apply A1. eapply Hreg. exact Ho.
Qed.

Lemma registered_reachable d ins : registered (run ins (boot d)).
Proof.
  unfold run. assert (Hb : registered (boot d)) by (intros h o Ho; inversion Ho).
  revert Hb. generalize (boot d). induction ins as [|i ins IH]; intros m Hm; [exact Hm|].
  apply IH, registered_step, Hm.
Qed.

(** X15.  In every state the program can reach, the database of every
    handle is in the registry: [use()] on any handle returns, and so
    does [dataReadonly]; no handle meets the error of a database that
    is not registered. *)
Theorem handles_are_registered (d : filesystem) (ins : list input) (h : nat) (o : SillyDB) :
  objects (run ins (boot d)) !! h = Some o ->
  is_Some (databases (run ins (boot d)) !! UID o)
  /\ snd (use h (run ins (boot d))) = Ok ()
  /\ is_ok (dataReadonly h (run ins (boot d))) = true.
Proof.
  intros Ho. destruct (registered_reachable d ins h o Ho) as [st Hst].
  split; [eauto|]. split.
  - unfold use. rewrite Ho. destruct (__locking o); [reflexivity|].
    unfold lockDB, hasDB. rewrite Hst. reflexivity.
  - unfold dataReadonly, getData, getDBStatus, hasDB. rewrite Ho, Hst.
    destruct (falsy (__data st)); reflexivity.
Qed.

Lemma keeps_run ins : forall m,
  forallb (fun i => negb (writes_document i)) ins = true -> keeps m (run ins m).
Proof.
  induction ins as [|i ins IH]; intros m Hins; [apply keeps_refl|].
  cbn [forallb] in Hins. apply andb_true_iff in Hins. destruct Hins as [Hi Hins].
  apply negb_true_iff in Hi. change (run (i :: ins) m) with (run ins (step m i)).
  eapply keeps_trans; [apply keeps_step, Hi | apply IH, Hins].
Qed.

(** X16.  Documents change only by the application's writes.  Over any
    run in which the application neither reads nor assigns [data] and
    neither assigns to nor deletes a property, every database keeps its
    document and every handle its default: continuations, [use()],
    [close()], saves, a change of the root path and the construction of
    further handles (which does not load a database again) leave them
    as they are. *)
Theorem documents_change_only_by_writes (m : machine) (ins : list input) :
  forallb (fun i => negb (writes_document i)) ins = true ->
  (forall u st, databases m !! u = Some st ->
                __data <$> databases (run ins m) !! u = Some (__data st))
  /\ (forall h o, objects m !! h = Some o ->
                  __default <$> objects (run ins m) !! h = Some (__default o)).
Proof.
  intros Hins. destruct (keeps_run ins m Hins) as [A1 A2 _]. split.
  - intros u st Hst. destruct (A1 u st Hst) as (st' & -> & <-). reflexivity.
  - intros h o Ho. destruct (A2 h o Ho) as (o' & -> & _ & <-). reflexivity.
Qed.
End RegistryProgram.

Lemma handles_are_registered_witness :
  snd (use 0 Scenario.stored_zero) = Ok ().
Proof.
  eapply (fun o Ho =>
            proj1 (proj2 (handles_are_registered Example.empty_disk
              [Call (New Example.u (VStr "none")); Call (Use 0); Tick; Tick; Tick;
               Call (SetData 0 (VNum 0)); Call (SaveClose 0); Tick; Tick; Tick; Tick; Tick]
              0 o Ho))).
  vm_compute. reflexivity.
Defined.

Lemma documents_change_only_by_writes_witness :
  __data <$> databases
               (run [Call (New Example.u VNull); Call (Save 0); Tick; Call (Close 0);
                     Call (RootPath (Some "./elsewhere"%string)); Tick; Tick]
                  Scenario.nested) !! Example.u
  = Some Scenario.nested_doc.
Proof.
  apply (proj1 (documents_change_only_by_writes Scenario.nested
                  [Call (New Example.u VNull); Call (Save 0); Tick; Call (Close 0);
                   Call (RootPath (Some "./elsewhere"%string)); Tick; Tick] eq_refl)
           (Example.u)
           {| __db_name := Example.u; __data := Scenario.nested_doc;
              __data_of := None;
              tx_unlock := {| tx_list := []; tx_uuid := Some 0 |};
              tx_write_end := empty_transaction |}).
  vm_compute. reflexivity.
Defined.

Section RegistryRuns.
Context `{JSONText}.

Lemma keeps_registry_run ins : forall m, keeps_registry m (run ins m).
Proof.
  induction ins as [|i ins IH]; intros m; [apply keeps_registry_refl|].
  change (run (i :: ins) m) with (run ins (step m i)).
  eapply keeps_registry_trans; [apply keeps_registry_step | apply IH].
Qed.

(** X18.  The registry never forgets.  Over any run, from any state, a
    database that is in the registry stays in it, and a handle stays a
    handle of the database it was constructed for. *)
Theorem registry_never_forgets (m : machine) (ins : list input) :
  (forall u, is_Some (databases m !! u) -> is_Some (databases (run ins m) !! u))
  /\ (forall h o, objects m !! h = Some o ->
                  UID <$> objects (run ins m) !! h = Some (UID o)).
Proof.
  destruct (keeps_registry_run ins m) as [A1 A2 _]. split; [exact A1|].
  intros h o Ho. destruct (A2 h o Ho) as (o' & -> & <-). reflexivity.
Qed.
End RegistryRuns.

Lemma registry_never_forgets_witness :
  UID <$> objects (run [Call (Close 0); Call (SetData 0 VNull); Call (New "SillyDB.Other" VNull)]
                     Scenario.nested) !! 0
  = Some Example.u.
Proof.
  apply (proj2 (registry_never_forgets Scenario.nested
                  [Call (Close 0); Call (SetData 0 VNull); Call (New "SillyDB.Other" VNull)])
           0 {| UID := Example.u; __default := VArr []; __locking := true; __uuid := 0;
                unlockDB := Some 0 |}).
  vm_compute. reflexivity.
Defined.

(** ** Unresolved lock calls are never lost *)

Lemma jobs_ok_lock_inv m : lock_inv m -> jobs_ok m.
Proof.
  intros Hinv u j Hj. destruct (inv_jobs _ Hinv u j Hj) as (c & Hc & Hr).
  assert (Hq : c ∈ queued u m).
  { unfold queued. apply list_elem_of_omap. exists j. split; [exact Hj|].
    unfold job_lock. rewrite Hc. reflexivity. }
  destruct (lock_lists_valid u m c Hinv) as [Hlt Hs].
  { apply elem_of_app. right. apply elem_of_app. right. apply elem_of_app. left. exact Hq. }
  destruct (lockcalls m !! c) as [l|] eqn:Hl; [|discriminate Hs].
  exists c, l. simpl in Hs. injection Hs as Hs. auto.
Qed.

(** A step that leaves the lock calls and the lock queues as they are,
    and loses no first continuation, loses no lock call. *)
Lemma wait_inv_mono m m' :
  lockcalls m' = lockcalls m ->
  (forall c, MLockDB_wait c ∈ jobqueue m -> MLockDB_wait c ∈ jobqueue m') ->
  (forall u, tx_list (queue_of u unlock m') = tx_list (queue_of u unlock m)) ->
  wait_inv m -> wait_inv m'.
Proof.
  intros El Hq Et Hinv c l Hl Hr. rewrite El in Hl.
  destruct (Hinv c l Hl Hr) as [Hw|[(j & Hj & Hc)|Hp]].
  - left. apply Hq, Hw.
  - right. left. exists j. rewrite Et. auto.
  - right. right. exact Hp.
Qed.

Lemma wait_in_omap c (q : list microtask) : MLockDB_wait c ∈ q <-> c ∈ omap wait_id q.
Proof.
  rewrite list_elem_of_omap. split.
  - intros Hin. exists (MLockDB_wait c). auto.
  - intros (t & Ht & Hc). destruct t; try discriminate. injection Hc as ->. exact Ht.
Qed.

Lemma wait_inv_quiet m m' : quiet m m' -> wait_inv m -> wait_inv m'.
Proof.
  intros Hq. apply wait_inv_mono.
  - apply (q_lockcalls _ _ Hq).
  - intros c. rewrite !wait_in_omap, (q_wait _ _ Hq). auto.
  - intros u. rewrite (q_queue _ _ Hq). reflexivity.
Qed.

Lemma wait_inv_boot d : wait_inv (boot d).
Proof. intros c l Hl. inversion Hl. Qed.

Lemma wait_inv_use h m : wait_inv m -> wait_inv (fst (use h m)).
Proof.
  intros Hinv. unfold use, no_object. destruct (objects m !! h) as [o|]; [|exact Hinv].
  destruct (__locking o); [exact Hinv|]. unfold lockDB.
  destruct (hasDB (UID o) m); [|exact Hinv]. cbn [fst].
  intros c l Hl Hr. cbn [lockcalls observe schedule with_history with_jobqueue
    with_lockcalls] in Hl. unfold call_waits.
  cbn [jobqueue observe schedule with_history with_jobqueue with_lockcalls].
  apply lookup_app_Some in Hl. destruct Hl as [Hl|[Hlen Hl]].
  - destruct (Hinv c l Hl Hr) as [Hw|[Hj|Hp]].
    + left. apply elem_of_app. left. exact Hw.
    + right. left. exact Hj.
    + right. right. exact Hp.
  - apply list_lookup_singleton_Some in Hl. destruct Hl as [Hc _].
    left. apply elem_of_app. right. replace c with (length (lockcalls m)) by lia. left.
Qed.

Lemma wait_inv_resolve_lock c0 m : wait_inv m -> wait_inv (resolve_lock c0 m).
Proof.
  intros Hinv. unfold resolve_lock. destruct (lockcalls m !! c0) as [l0|] eqn:Hl0;
    [|exact Hinv].
  destruct (lc_resolved l0) eqn:Hr0; [exact Hinv|].
  assert (Hmain : forall q, (forall c, MLockDB_wait c ∈ jobqueue m -> MLockDB_wait c ∈ q) ->
            wait_inv (with_jobqueue q
                        (with_lockcalls (<[c0 := with_resolved l0]> (lockcalls m)) m))).
  { intros q Hq c l Hl Hr. cbn [lockcalls with_jobqueue with_lockcalls] in Hl.
    destruct (decide (c = c0)) as [->|Hne].
    - rewrite list_lookup_insert_eq in Hl by (eapply lookup_lt_Some; exact Hl0).
      injection Hl as <-. discriminate Hr.
    - rewrite list_lookup_insert_ne in Hl by congruence.
      destruct (Hinv c l Hl Hr) as [Hw|[Hj|Hp]]; [left; apply Hq, Hw | right; left; exact Hj |
        right; right; exact Hp]. }
  destruct (lc_parked l0) as [t|].
  - apply (Hmain (jobqueue m ++ [t])). intros c Hc. apply elem_of_app. left. exact Hc.
  - apply (Hmain (jobqueue m)). auto.
Qed.

Lemma wait_inv_close h m : wait_inv m -> wait_inv (fst (close h m)).
Proof.
  intros Hinv. unfold close, no_object. destruct (objects m !! h) as [o|]; [|exact Hinv].
  destruct (unlockDB o) as [c|]; [|exact Hinv]. cbn [fst].
  eapply wait_inv_mono; [| | |apply (wait_inv_resolve_lock c), Hinv]; auto.
Qed.

Section WaitSteps.
Context `{JSONText}.

Lemma wait_inv_handler u m : jobs_ok m -> wait_inv m -> wait_inv (handler u unlock m).
Proof.
  intros Hjobs Hinv. unfold handler. destruct (databases m !! u) as [st|] eqn:Hst;
    [|exact Hinv].
  assert (Hq : queue_of u unlock m = tx_unlock st) by (unfold queue_of; rewrite Hst; reflexivity).
  cbn [transactions].
  destruct (tx_list (tx_unlock st)) as [|job rest] eqn:Hlist.
  - eapply wait_inv_mono; [| | |exact Hinv]; auto.
    intros u'. rewrite (queue_of_update u unlock _ st m u' unlock Hst).
    destruct (same_queue u' unlock u unlock) eqn:Hs; [|reflexivity].
    apply same_queue_true in Hs. destruct Hs as [-> _]. rewrite Hq, Hlist. reflexivity.
  - destruct (Hjobs u job) as (c1 & l1 & Hc1 & Hr1 & Hl1 & Hs1).
    { rewrite Hq, Hlist. left. }
    set (m2 := observe (Started u unlock job)
                 (with_databases
                    (<[u := with_transaction unlock
                              {| tx_list := rest; tx_uuid := Some (job_uuid job) |} st]>
                       (databases m)) m)).
    assert (Hlist2 : forall u', tx_list (queue_of u' unlock m2)
                                = if decide (u' = u) then rest
                                  else tx_list (queue_of u' unlock m)).
    { intros u'. unfold m2. change (queue_of u' unlock (observe ?o ?x)) with (queue_of u' unlock x).
      rewrite (queue_of_update u unlock _ st m u' unlock Hst).
      destruct (decide (u' = u)) as [->|Hne].
      - rewrite same_queue_refl. reflexivity.
      - destruct (same_queue u' unlock u unlock) eqn:Hs; [|reflexivity].
        apply same_queue_true in Hs. destruct Hs as [Hs _]. congruence. }
    (* what the calls other than [c1] keep *)
    assert (Hother : forall (m3 : machine) c l,
              (forall x, MLockDB_wait x ∈ jobqueue m -> MLockDB_wait x ∈ jobqueue m3) ->
              (forall u', tx_list (queue_of u' unlock m3) = tx_list (queue_of u' unlock m2)) ->
              c <> c1 -> lockcalls m !! c = Some l -> lc_resolved l = false ->
              call_waits m3 c l).
    { intros m3 c l Hjq Htx Hne Hl Hr.
      destruct (Hinv c l Hl Hr) as [Hw|[(j & Hj & Hc)|Hp]].
      - left. apply Hjq, Hw.
      - right. left. exists j. split; [|exact Hc]. rewrite Htx, Hlist2.
        destruct (decide (lc_status l = u)) as [Hu|Hu]; [|exact Hj].
        rewrite Hu, Hq, Hlist in Hj. apply elem_of_cons in Hj. destruct Hj as [->|Hj];
          [|exact Hj]. congruence.
      - right. right. exact Hp. }
    unfold run_todo. rewrite Hc1. fold m2.
    assert (Hl1' : lockcalls (schedule (MLockDB_return c1) m2) !! c1 = Some l1) by exact Hl1.
    rewrite Hl1'. destruct (lc_resolved l1) eqn:Hres1.
    + intros c l Hl Hr. cbn [lockcalls schedule with_jobqueue] in Hl.
      change (lockcalls m2) with (lockcalls m) in Hl.
      assert (Hne : c <> c1) by (intros ->; congruence).
      apply (Hother _ c l); auto.
      intros x Hx. cbn [jobqueue schedule with_jobqueue].
      apply elem_of_app. left. apply elem_of_app. left. exact Hx.
    + intros c l Hl Hr. cbn [lockcalls with_lockcalls schedule with_jobqueue] in Hl.
      change (lockcalls m2) with (lockcalls m) in Hl.
      destruct (decide (c = c1)) as [->|Hne].
      * rewrite list_lookup_insert_eq in Hl by (eapply lookup_lt_Some; exact Hl1).
        injection Hl as <-. right. right. exists (job_uuid job).
        cbn [lc_parked lc_status with_parked]. rewrite Hr1, Hs1. reflexivity.
      * rewrite list_lookup_insert_ne in Hl by congruence.
        apply (Hother _ c l); auto.
        intros x Hx. cbn [jobqueue with_lockcalls schedule with_jobqueue].
        apply elem_of_app. left. exact Hx.
Qed.

Lemma wait_inv_tick_wait c0 q m :
  jobqueue m = MLockDB_wait c0 :: q -> lock_inv m -> wait_inv m ->
  wait_inv (run_microtask (MLockDB_wait c0) (with_jobqueue q m)).
Proof.
  intros Hj Hlock Hinv. cbn [run_microtask]. cbn [lockcalls with_jobqueue].
  destruct (lockcalls m !! c0) as [l0|] eqn:Hl0.
  2:{ intros c l Hl Hr. cbn [lockcalls with_jobqueue] in Hl.
      destruct (Hinv c l Hl Hr) as [Hw|[Hx|Hp]]; [|right; left; exact Hx|right; right; exact Hp].
      left. cbn [jobqueue with_jobqueue]. rewrite Hj in Hw.
      apply elem_of_cons in Hw. destruct Hw as [Hw|Hw]; [|exact Hw].
      injection Hw as ->. congruence. }
  destruct (inv_frames _ Hlock c0 l0 Hl0) as (_ & [st Hst] & _).
  unfold wait. cbn [databases with_jobqueue]. rewrite Hst.
  set (job := {| job_todo := TodoLock c0; job_uuid := lc_uuid l0; job_resolve := None |}).
  match goal with |- context [observe (Enqueued _ _ _) ?x] =>
    set (m1 := observe (Enqueued (lc_status l0) unlock job) x) end.
  assert (Hq : queue_of (lc_status l0) unlock m = tx_unlock st)
    by (unfold queue_of; rewrite Hst; reflexivity).
  assert (Hlist1 : forall u', tx_list (queue_of u' unlock m1)
                              = if decide (u' = lc_status l0)
                                then tx_list (queue_of u' unlock m) ++ [job]
                                else tx_list (queue_of u' unlock m)).
  { intros u'. unfold m1. change (queue_of u' unlock (observe ?o ?x)) with (queue_of u' unlock x).
    rewrite (queue_of_update (lc_status l0) unlock _ st (with_jobqueue q m) u' unlock Hst).
    change (queue_of u' unlock (with_jobqueue q m)) with (queue_of u' unlock m).
    destruct (decide (u' = lc_status l0)) as [->|Hne].
    - rewrite same_queue_refl, Hq. reflexivity.
    - destruct (same_queue u' unlock (lc_status l0) unlock) eqn:Hs; [|reflexivity].
      apply same_queue_true in Hs. destruct Hs as [Hs _]. congruence. }
  assert (Hinv1 : wait_inv m1).
  { intros c l Hl Hr. change (lockcalls m1) with (lockcalls m) in Hl.
    destruct (decide (c = c0)) as [->|Hne].
    - assert (l = l0) by congruence. subst l. right. left. exists job.
      split; [|reflexivity]. rewrite Hlist1, decide_True by reflexivity.
      apply elem_of_app. right. left.
    - destruct (Hinv c l Hl Hr) as [Hw|[(j & Hjj & Hc)|Hp]].
      + left. change (jobqueue m1) with q. rewrite Hj in Hw.
        apply elem_of_cons in Hw. destruct Hw as [Hw|Hw]; [congruence | exact Hw].
      + right. left. exists j. split; [|exact Hc]. rewrite Hlist1.
        destruct (decide (lc_status l = lc_status l0)); [|exact Hjj].
        apply elem_of_app. left. exact Hjj.
      + right. right. exact Hp. }
  assert (Hjobs1 : jobs_ok m1).
  { intros u' j Hjj. change (lockcalls m1) with (lockcalls m). rewrite Hlist1 in Hjj.
    destruct (decide (u' = lc_status l0)) as [->|Hne];
      [|apply (jobs_ok_lock_inv m Hlock u' j Hjj)].
    apply elem_of_app in Hjj. destruct Hjj as [Hjj|Hjj];
      [apply (jobs_ok_lock_inv m Hlock _ j Hjj)|].
    apply list_elem_of_singleton in Hjj. subst j. exists c0, l0. auto. }
  cbn [transactions]. destruct (tx_uuid (tx_unlock st)); [exact Hinv1|].
  apply wait_inv_handler; assumption.
Qed.

Lemma wait_inv_tick m : lock_inv m -> wait_inv m -> wait_inv (tick m).
Proof.
  intros Hlock Hinv. unfold tick. destruct (jobqueue m) as [|t q] eqn:Hj; [exact Hinv|].
  assert (Hok : task_ok m t) by (apply (inv_tasks _ Hlock); rewrite Hj; left).
  pose proof (inv_wjobs _ Hlock) as Hw.
  assert (Hpop : forall t', jobqueue m = t' :: q -> wait_id t' = None ->
                            wait_inv (with_jobqueue q m)).
  { intros t' Ht' Hid. eapply wait_inv_mono; [| | |exact Hinv]; auto.
    intros c Hc. cbn [jobqueue with_jobqueue]. rewrite Ht' in Hc.
    apply elem_of_cons in Hc. destruct Hc as [Hc|Hc]; [|exact Hc]. subst t'. discriminate. }
  destruct t as [c|c|h c|u ev jid res v|k v|k v|h].
  - apply wait_inv_tick_wait; assumption.
  - cbn [run_microtask]. destruct (lockcalls (with_jobqueue q m) !! c) as [l|];
      [|apply (Hpop _ Hj eq_refl)].
    eapply wait_inv_mono; [| | |apply (Hpop _ Hj eq_refl)]; auto.
    intros x Hx. cbn [jobqueue schedule with_jobqueue] in *. apply elem_of_app. left. exact Hx.
  - cbn [run_microtask]. destruct (objects (with_jobqueue q m) !! h) as [o|];
      [|apply (Hpop _ Hj eq_refl)].
    eapply wait_inv_mono; [| | |apply (Hpop _ Hj eq_refl)]; auto.
  - destruct ev.
    + cbn [run_microtask]. apply wait_inv_handler.
      * intros u' j Hjj. destruct res; apply (jobs_ok_lock_inv m Hlock u' j Hjj).
      * destruct res as [k|]; (eapply wait_inv_mono; [| | |apply (Hpop _ Hj eq_refl)]; auto).
        intros x Hx. cbn [jobqueue schedule observe with_history with_jobqueue] in *.
        apply elem_of_app. left. exact Hx.
    + eapply wait_inv_quiet; [|exact Hinv]. apply quiet_tick_flush; auto.
  - eapply wait_inv_quiet; [|exact Hinv]. apply quiet_tick_flush; auto.
  - eapply wait_inv_quiet; [|exact Hinv]. apply quiet_tick_flush; auto.
  - cbn [run_microtask]. apply wait_inv_close. apply (Hpop _ Hj eq_refl).
Qed.

Lemma wait_inv_perform c m : lock_inv m -> wait_inv m -> wait_inv (perform c m).
Proof.
  intros Hlock Hinv. pose proof (inv_wjobs _ Hlock) as Hw.
  destruct c as [u dv|h|h|h|h|h|h|h v|p|o k x|o k]; cbn [perform].
  - eapply wait_inv_quiet; [apply quiet_new_SillyDB | exact Hinv].
  - apply wait_inv_use, Hinv.
  - apply wait_inv_close, Hinv.
  - eapply wait_inv_quiet; [apply quiet_save_for; exact Hw | exact Hinv].
  - eapply wait_inv_quiet; [apply quiet_saveClose; exact Hw | exact Hinv].
  - eapply wait_inv_quiet; [apply quiet_asyncDispose; exact Hw | exact Hinv].
  - eapply wait_inv_quiet; [apply quiet_get_data | exact Hinv].
  - eapply wait_inv_quiet; [apply quiet_set_data | exact Hinv].
  - eapply wait_inv_quiet; [apply quiet_root_path | exact Hinv].
  - eapply wait_inv_quiet; [apply quiet_ref_assign | exact Hinv].
  - eapply wait_inv_quiet; [apply quiet_ref_delete | exact Hinv].
Qed.

Lemma wait_inv_reachable d ins : wait_inv (run ins (boot d)).
Proof.
  assert (Hb : lock_inv (run ins (boot d)) /\ wait_inv (run ins (boot d))).
  { unfold run. generalize (conj (lock_inv_boot d) (wait_inv_boot d)). generalize (boot d).
    induction ins as [|i ins IH]; intros m Hinv; [exact Hinv|].
    apply IH. destruct Hinv as [Hl Hw]. split; [apply lock_inv_step, Hl|].
    destruct i; [apply wait_inv_perform | apply wait_inv_tick]; assumption. }
  apply Hb.
Qed.
End WaitSteps.

Section Handoff.
Context `{JSONText}.

(** [close()] by the holder of the lock when another lock call is first
    in the queue and no continuation is pending: three continuations
    later the handle of that call is locked. *)
Lemma close_handoff_state (h c c' jid : nat) (o o' : SillyDB) (l l' : lockcall)
    (u : string) (st : SillyDBStatus) (job : DBTransaction) (rest : list DBTransaction)
    (m : machine) :
  objects m !! h = Some o -> unlockDB o = Some c ->
  lockcalls m !! c = Some l -> lc_resolved l = false ->
  lc_parked l = Some (MHandler u unlock jid None None) ->
  databases m !! u = Some st -> tx_list (tx_unlock st) = job :: rest ->
  job_todo job = TodoLock c' ->
  lockcalls m !! c' = Some l' -> c' <> c -> lc_resolved l' = false ->
  objects m !! lc_db l' = Some o' ->
  jobqueue m = [] ->
  holds (run [Call (Close h); Tick; Tick; Tick] m) (lc_db l') (UID o')
  /\ tx_list (queue_of u unlock (run [Call (Close h); Tick; Tick; Tick] m)) = rest.
Proof.
  intros Ho Hun Hlc Hlr Hlp Hst Hlist Hjob Hlc' Hne Hlr' Ho' Hj.
  set (os1 := <[h := with_locking false o]> (objects m)).
  set (ls1 := <[c := with_resolved l]> (lockcalls m)).
  set (t' := MHandler u unlock (job_uuid job) (job_resolve job) None).
  set (ls2 := <[c' := with_parked t' l']> ls1).
  set (st2 := with_transaction unlock {| tx_list := rest; tx_uuid := Some (job_uuid job) |} st).
  set (mk := fun dbs ls q hs =>
               {| root := root m; databases := dbs; disk := disk m; objects := os1;
                  lockcalls := ls; jobqueue := q; history := hs |}).
  assert (H1 : fst (close h m) = mk (databases m) ls1 [MHandler u unlock jid None None]
                                    (history m)).
  { unfold close. rewrite Ho, Hun. unfold resolve_lock. rewrite Hlc, Hlr, Hlp.
    machine_simpl. rewrite Hj. reflexivity. }
  assert (Hls1 : ls1 !! c' = Some l').
  { unfold ls1. rewrite list_lookup_insert_ne by congruence. exact Hlc'. }
  assert (H2 : tick (mk (databases m) ls1 [MHandler u unlock jid None None] (history m))
               = mk (<[u := st2]> (databases m)) ls2 [MLockDB_return c']
                    (history m ++ [Finished u unlock jid; Started u unlock job])).
  { unfold tick, mk. machine_simpl. cbn [run_microtask]. machine_simpl.
    unfold handler. machine_simpl. rewrite Hst. cbn [transactions]. rewrite Hlist.
    unfold run_todo. rewrite Hjob. machine_simpl. rewrite Hls1, Hlr'. machine_simpl.
    f_equal. rewrite <- app_assoc. reflexivity. }
  assert (H3 : tick (mk (<[u := st2]> (databases m)) ls2 [MLockDB_return c']
                        (history m ++ [Finished u unlock jid; Started u unlock job]))
               = mk (<[u := st2]> (databases m)) ls2 [MUse (lc_db l') c']
                    (history m ++ [Finished u unlock jid; Started u unlock job])).
  { unfold tick, mk. machine_simpl. cbn [run_microtask]. machine_simpl.
    unfold ls2. rewrite list_lookup_insert_eq by (eapply lookup_lt_Some; exact Hls1).
    machine_simpl. reflexivity. }
  assert (Hox : exists ox, os1 !! lc_db l' = Some ox /\ UID ox = UID o').
  { unfold os1. destruct (decide (lc_db l' = h)) as [E|E].
    - rewrite E in *. rewrite list_lookup_insert_eq by (eapply lookup_lt_Some; exact Ho).
      eexists. split; [reflexivity|]. cbn [UID with_locking]. congruence.
    - rewrite list_lookup_insert_ne by congruence. eauto. }
  destruct Hox as (ox & Hox & Hux).
  unfold run. cbn [fold_left step perform]. rewrite H1, H2, H3.
  unfold tick, mk. machine_simpl. cbn [run_microtask]. machine_simpl. rewrite Hox.
  machine_simpl. split.
  - eexists. cbn [objects].
    split; [apply list_lookup_insert_eq; eapply lookup_lt_Some; exact Hox|].
    split; [exact Hux | reflexivity].
  - unfold queue_of. cbn [databases]. rewrite lookup_insert_eq. reflexivity.
Qed.
End Handoff.

Section HandoffReachable.
Context `{JSONText}.

Lemma queued_head u m c' cs :
  lock_inv m -> queued u m = c' :: cs ->
  exists st job rest,
    databases m !! u = Some st /\ tx_list (tx_unlock st) = job :: rest
    /\ job_todo job = TodoLock c' /\ omap job_lock rest = cs.
Proof.
  intros Hinv Hq. unfold queued in Hq.
  destruct (databases m !! u) as [st|] eqn:Hst.
  2:{ unfold queue_of in Hq. rewrite Hst in Hq. discriminate Hq. }
  assert (Hqu : queue_of u unlock m = tx_unlock st) by (unfold queue_of; rewrite Hst; reflexivity).
  rewrite Hqu in Hq. destruct (tx_list (tx_unlock st)) as [|job rest] eqn:Hlist;
    [discriminate Hq|].
  destruct (inv_jobs _ Hinv u job) as (c1 & Hc1 & _); [rewrite Hqu, Hlist; left|].
  rewrite omap_step in Hq. unfold job_lock at 1 in Hq. rewrite Hc1 in Hq.
  injection Hq as -> Hcs. exists st, job, rest. auto.
Qed.

(** X17.  [close()] hands the lock over.  In a state the program can
    reach, when a handle holds the lock of a database, no continuation
    is pending and the lock call [c'] is the first in the queue of the
    database, then three continuations after the holder calls [close()]
    the handle that made the call [c'] is the one locked handle of the
    database, and the queue holds the calls that were behind [c']. *)
Theorem close_hands_over_the_lock
    (d : filesystem) (ins : list input) (u : string) (h c' : nat) (cs : list nat) :
  holds (run ins (boot d)) h u ->
  jobqueue (run ins (boot d)) = [] ->
  queued u (run ins (boot d)) = c' :: cs ->
  exists h',
    lock_db (run ins (boot d)) c' = Some h'
    /\ locked_handles u (run [Call (Close h); Tick; Tick; Tick] (run ins (boot d))) = [h']
    /\ queued u (run [Call (Close h); Tick; Tick; Tick] (run ins (boot d))) = cs.
Proof.
  set (m := run ins (boot d)). intros (o & Ho & Hu & Hl) Hj Hq.
  assert (Hinv : lock_inv m) by apply lock_inv_reachable.
  assert (Hwait : wait_inv m) by apply wait_inv_reachable.
  destruct (inv_handles _ Hinv h o Ho) as [Hsome Hc].
  destruct (Hsome Hl) as [c Hun]. destruct (Hc c Hun) as (Hin & Hdb & Hres).
  specialize (Hres Hl). rewrite Hu in Hin.
  assert (Hnd : NoDup (locked u m ++ granting u m ++ queued u m ++ waiting u m))
    by apply lock_lists_NoDup, Hinv.
  assert (Hlc : exists l, lockcalls m !! c = Some l /\ lc_resolved l = false
                          /\ lc_status l = u).
  { destruct (lock_lists_valid u m c Hinv) as [_ Hs]; [apply elem_of_app; left; exact Hin|].
    unfold resolved in Hres. destruct (lockcalls m !! c) as [l|]; [|discriminate Hs].
    simpl in Hs. injection Hs as Hs. eauto. }
  destruct Hlc as (l & Hlc & Hlr & Hls).
  assert (Hc'q : c' ∈ queued u m) by (rewrite Hq; left).
  assert (Hcne : c' <> c).
  { intros ->. apply NoDup_app in Hnd. destruct Hnd as (_ & Hdis & _).
    apply (Hdis c Hin). apply elem_of_app. right. apply elem_of_app. left. exact Hc'q. }
  assert (Hpark : exists jid, lc_parked l = Some (MHandler u unlock jid None None)).
  { destruct (Hwait c l Hlc Hlr) as [Hw|[(j & Hjj & Hjc)|Hp]].
    - rewrite Hj in Hw. inversion Hw.
    - exfalso. rewrite Hls in Hjj. apply NoDup_app in Hnd. destruct Hnd as (_ & Hdis & _).
      apply (Hdis c Hin). apply elem_of_app. right. apply elem_of_app. left.
      unfold queued. apply list_elem_of_omap. exists j. split; [exact Hjj|].
      unfold job_lock. rewrite Hjc. reflexivity.
    - rewrite Hls in Hp. exact Hp. }
  destruct Hpark as (jid & Hpark).
  destruct (queued_head u m c' cs Hinv Hq) as (st & job & rest & Hst & Hlist & Hjob & Hrest).
  assert (Hlc' : exists l', lockcalls m !! c' = Some l' /\ lc_resolved l' = false
                            /\ lc_status l' = u).
  { destruct (lock_lists_valid u m c' Hinv) as [_ Hs].
    { apply elem_of_app. right. apply elem_of_app. right. apply elem_of_app. left.
      exact Hc'q. }
    assert (Hr' : resolved m c' = false).
    { apply (inv_pending _ Hinv u). apply elem_of_app. right. apply elem_of_app. left.
      exact Hc'q. }
    unfold resolved in Hr'. destruct (lockcalls m !! c') as [l'|]; [|discriminate Hs].
    simpl in Hs. injection Hs as Hs. eauto. }
  destruct Hlc' as (l' & Hlc' & Hlr' & Hls').
  destruct (inv_frames _ Hinv c' l' Hlc') as ((o' & Ho' & Hu') & _).
  destruct (close_handoff_state h c c' jid o o' l l' u st job rest m
              Ho Hun Hlc Hlr Hpark Hst Hlist Hjob Hlc' Hcne Hlr' Ho' Hj) as [Hh Htx].
  rewrite Hu', Hls' in Hh.
  exists (lc_db l'). split; [unfold lock_db; rewrite Hlc'; reflexivity|]. split.
  - assert (Hinv' : lock_inv (run [Call (Close h); Tick; Tick; Tick] m))
      by apply lock_inv_run, Hinv.
    apply one_element; [apply NoDup_locked_handles | apply elem_of_locked_handles, Hh |].
    intros y Hy. apply elem_of_locked_handles in Hy.
    eapply lock_inv_exclusive; [exact Hinv' | exact Hy | exact Hh].
  - unfold queued. rewrite Htx. exact Hrest.
Qed.
End HandoffReachable.

Lemma close_hands_over_the_lock_witness :
  locked_handles Race.u
    (run [Call (Close 0); Tick; Tick; Tick] (run Race.start (boot Example.empty_disk)))
  = [1].
Proof.
  assert (Hh : holds (run Race.start (boot Example.empty_disk)) 0 Race.u).
  { exists {| UID := Race.u; __default := VNull; __locking := true; __uuid := 0;
              unlockDB := Some 0 |}. vm_compute. repeat split; reflexivity. }
  assert (Hj : jobqueue (run Race.start (boot Example.empty_disk)) = [])
    by (vm_compute; reflexivity).
  assert (Hq : queued Race.u (run Race.start (boot Example.empty_disk)) = [1])
    by (vm_compute; reflexivity).
  destruct (close_hands_over_the_lock Example.empty_disk Race.start Race.u 0 1 [] Hh Hj Hq)
    as (h' & Hdb & Hlocked & _).
  assert (E : Some 1 = Some h') by exact Hdb. injection E as <-. exact Hlocked.
Defined.

(** ** Sessions: a whole session *)

Section SessionsWhole.
Context `{JSONText}.
















Lemma run_append (a b : list input) (m : machine) : run (a ++ b) m = run b (run a m).
Proof. unfold run. apply fold_left_app. Qed.


End SessionsWhole.


(** ** The queues: a running job has a continuation *)

Lemma live_frame_refl u ev m : live_frame u ev m m.
Proof. split; [reflexivity | apply Nat.le_refl]. Qed.

Lemma live_frame_trans u ev m1 m2 m3 :
  live_frame u ev m1 m2 -> live_frame u ev m2 m3 -> live_frame u ev m1 m3.
Proof. intros [A1 A2] [B1 B2]. split; [congruence | lia]. Qed.

Lemma live_ok_frame u ev m m' : live_frame u ev m m' -> live_ok u ev m -> live_ok u ev m'.
Proof.
  intros [A1 A2] [B1 B2]. unfold active in *. split; unfold active; rewrite A1; [lia | exact B2].
Qed.

Lemma live_frame_still u ev m m' : still m m' -> live_frame u ev m m'.
Proof.
  intros [A1 A2 A3 A4]. split; [apply A3|]. unfold pending. rewrite A2, A4. apply Nat.le_refl.
Qed.

Lemma live_frame_observe u ev o m : live_frame u ev m (observe o m).
Proof. split; [reflexivity | apply Nat.le_refl]. Qed.

Lemma live_frame_new_call u ev l m :
  lc_parked l = None -> live_frame u ev m (with_lockcalls (lockcalls m ++ [l]) m).
Proof.
  intros Hp. split; [reflexivity|]. unfold pending.
  cbn [lockcalls with_lockcalls]. rewrite List.filter_app, length_app.
  unfold resumes. cbn [jobqueue with_lockcalls]. lia.
Qed.

Lemma live_frame_resolve_lock u ev c m : live_frame u ev m (resolve_lock c m).
Proof.
  unfold resolve_lock. destruct (lockcalls m !! c) as [l|] eqn:Hl; [|apply live_frame_refl].
  destruct (lc_resolved l) eqn:Hr; [apply live_frame_refl|].
  pose proof (filter_length_insert (parked_resume u ev) (lockcalls m) c l (with_resolved l) Hl)
    as Hf.
  assert (Hnew : parked_resume u ev (with_resolved l) = false) by reflexivity.
  rewrite Hnew in Hf. unfold parked_resume at 2 in Hf. rewrite Hr in Hf. simpl in Hf.
  destruct (lc_parked l) as [t|] eqn:Hp.
  - split; [reflexivity|]. unfold pending, resumes.
    cbn [lockcalls jobqueue schedule with_jobqueue with_lockcalls].
    rewrite List.filter_app, length_app. simpl.
    destruct (is_resume u ev t); simpl; lia.
  - split; [reflexivity|]. unfold pending, resumes.
    cbn [lockcalls jobqueue with_lockcalls]. lia.
Qed.

Lemma live_frame_close u ev h m : live_frame u ev m (fst (close h m)).
Proof.
  unfold close, no_object. destruct (objects m !! h) as [o|]; [|apply live_frame_refl].
  destruct (unlockDB o) as [c|]; [|apply live_frame_refl]. cbn [fst].
  eapply live_frame_trans; [apply live_frame_resolve_lock|].
  apply live_frame_still, still_with_objects.
Qed.

Lemma live_frame_use u ev h m : live_frame u ev m (fst (use h m)).
Proof.
  unfold use, no_object. destruct (objects m !! h) as [o|]; [|apply live_frame_refl].
  destruct (__locking o); [apply live_frame_refl|]. unfold lockDB.
  destruct (hasDB (UID o) m); [|apply live_frame_refl]. cbn [fst].
  eapply live_frame_trans; [|apply live_frame_observe].
  eapply live_frame_trans; [|apply live_frame_still, still_schedule; exact I].
  apply live_frame_new_call. reflexivity.
Qed.

Lemma parkable_same m m' j : lockcalls m' = lockcalls m -> parkable m j -> parkable m' j.
Proof. intros E Hp c Hc. rewrite E. apply Hp, Hc. Qed.

Section LiveSteps.
Context `{JSONText}.

Lemma live_run_todo u ev job m u' ev' :
  parkable m job ->
  queue_of u' ev' (run_todo u ev job m) = queue_of u' ev' m
  /\ pending u' ev' m + (if same_queue u' ev' u ev then 1 else 0)
     <= pending u' ev' (run_todo u ev job m).
Proof.
  intros Hp. split; [apply (qs_queue _ _ _ _ _ (queue_step_run_todo u ev job m u' ev'))|].
  unfold run_todo. destruct (job_todo job) as [c|w] eqn:Hjob.
  - destruct (Hp c Hjob) as (l & Hl & Hpark).
    cbn [lockcalls schedule with_jobqueue]. rewrite Hl.
    destruct (lc_resolved l) eqn:Hr.
    + unfold pending, resumes. cbn [lockcalls jobqueue schedule with_jobqueue].
      rewrite !List.filter_app, !length_app. cbn [List.filter].
      change (is_resume u' ev' (MLockDB_return c)) with false.
      change (is_resume u' ev' (MHandler u ev (job_uuid job) (job_resolve job) None))
        with (same_queue u' ev' u ev).
      destruct (same_queue u' ev' u ev); simpl; lia.
    + pose proof (filter_length_insert (parked_resume u' ev') (lockcalls m) c l
                    (with_parked (MHandler u ev (job_uuid job) (job_resolve job) None) l) Hl)
        as Hf.
      assert (Hold : parked_resume u' ev' l = false).
      { unfold parked_resume. rewrite Hpark. apply andb_false_r. }
      assert (Hnew : parked_resume u' ev'
                       (with_parked (MHandler u ev (job_uuid job) (job_resolve job) None) l)
                     = same_queue u' ev' u ev).
      { unfold parked_resume. cbn [lc_resolved lc_parked with_parked]. rewrite Hr. reflexivity. }
      rewrite Hold, Hnew in Hf.
      unfold pending, resumes. cbn [lockcalls jobqueue schedule with_jobqueue with_lockcalls].
      rewrite !List.filter_app, !length_app. cbn [List.filter].
      change (is_resume u' ev' (MLockDB_return c)) with false.
      destruct (same_queue u' ev' u ev); simpl in *; lia.
  - pose proof (still_writeDB w m) as Hw. destruct (writeDB w m) as [m1 s]. cbn [fst] in Hw.
    destruct Hw as [A1 A2 A3 A4].
    unfold pending. unfold resumes at 2. cbn [lockcalls jobqueue schedule with_jobqueue].
    rewrite !List.filter_app, !length_app. fold (resumes u' ev' m1). rewrite A2, A4.
    cbn [List.filter].
    change (is_resume u' ev' (MHandler u ev (job_uuid job) (job_resolve job) (Some s)))
      with (same_queue u' ev' u ev).
    destruct (same_queue u' ev' u ev); simpl; lia.
Qed.

Lemma live_ok_handler u ev m :
  (forall j, j ∈ tx_list (queue_of u ev m) -> parkable m j) ->
  live_ok u ev (handler u ev m).
Proof.
  intros Hp. unfold handler. destruct (databases m !! u) as [st|] eqn:Hst.
  - rewrite (queue_of_Some _ _ _ _ Hst) in Hp.
    destruct (tx_list (transactions st ev)) as [|job rest] eqn:Hl.
    + split; unfold active; rewrite (queue_of_update _ _ _ _ _ _ _ Hst), same_queue_refl;
        simpl; [lia | reflexivity].
    + set (m2 := observe (Started u ev job)
                   (with_databases (<[u := with_transaction ev
                      {| tx_list := rest; tx_uuid := Some (job_uuid job) |} st]>
                      (databases m)) m)).
      assert (Q : queue_of u ev m2 = {| tx_list := rest; tx_uuid := Some (job_uuid job) |}).
      { unfold m2. change (queue_of u ev (observe ?o ?x)) with (queue_of u ev x).
        rewrite (queue_of_update _ _ _ _ _ _ _ Hst), same_queue_refl. reflexivity. }
      assert (Hp2 : parkable m2 job).
      { apply (parkable_same m); [reflexivity|]. apply Hp. left. }
      destruct (live_run_todo u ev job m2 u ev Hp2) as [R1 R2].
      rewrite same_queue_refl in R2.
      split; unfold active; rewrite R1, Q; simpl; [lia | discriminate].
  - assert (Q : queue_of u ev m = empty_transaction) by (unfold queue_of; rewrite Hst; reflexivity).
    split; unfold active; rewrite Q; simpl; [lia | reflexivity].
Qed.

Lemma live_frame_handler u ev m u' ev' :
  same_queue u' ev' u ev = false ->
  (forall j, j ∈ tx_list (queue_of u ev m) -> parkable m j) ->
  live_frame u' ev' m (handler u ev m).
Proof.
  intros Hs Hp. unfold handler. destruct (databases m !! u) as [st|] eqn:Hst;
    [|apply live_frame_refl].
  rewrite (queue_of_Some _ _ _ _ Hst) in Hp.
  destruct (tx_list (transactions st ev)) as [|job rest] eqn:Hl.
  - split; [|apply Nat.le_refl]. rewrite (queue_of_update _ _ _ _ _ _ _ Hst), Hs. reflexivity.
  - set (m2 := observe (Started u ev job)
                 (with_databases (<[u := with_transaction ev
                    {| tx_list := rest; tx_uuid := Some (job_uuid job) |} st]>
                    (databases m)) m)).
    assert (Hp2 : parkable m2 job).
    { apply (parkable_same m); [reflexivity|]. apply Hp. left. }
    destruct (live_run_todo u ev job m2 u' ev' Hp2) as [R1 R2]. rewrite Hs in R2.
    split.
    + rewrite R1. unfold m2. change (queue_of u' ev' (observe ?o ?x)) with (queue_of u' ev' x).
      rewrite (queue_of_update _ _ _ _ _ _ _ Hst), Hs. reflexivity.
    + change (pending u' ev' m2) with (pending u' ev' m) in R2. lia.
Qed.

Lemma live_ok_wait u ev jid td res m :
  live_ok u ev m ->
  (forall j, j ∈ tx_list (queue_of u ev m) -> parkable m j) ->
  parkable m {| job_todo := td; job_uuid := jid; job_resolve := res |} ->
  live_ok u ev (wait u ev jid td res m).
Proof.
  intros [Hpend Hidle] Hp Hnew. unfold wait.
  destruct (databases m !! u) as [st|] eqn:Hst; [|split; assumption].
  unfold active in *. rewrite (queue_of_Some _ _ _ _ Hst) in *.
  remember (tx_uuid (transactions st ev)) as a eqn:Ha.
  remember {| job_todo := td; job_uuid := jid; job_resolve := res |} as job eqn:Hjob.
  match goal with |- context [observe (Enqueued u ev job) ?x] =>
    remember (observe (Enqueued u ev job) x) as m1 eqn:Hm1 end.
  assert (Q : queue_of u ev m1 = {| tx_list := tx_list (transactions st ev) ++ [job];
                                    tx_uuid := a |}).
  { rewrite Hm1. change (queue_of u ev (observe ?o ?x)) with (queue_of u ev x).
    rewrite (queue_of_update _ _ _ _ _ _ _ Hst), same_queue_refl. reflexivity. }
  assert (P : pending u ev m1 = pending u ev m) by (rewrite Hm1; reflexivity).
  assert (L : lockcalls m1 = lockcalls m) by (rewrite Hm1; reflexivity).
  clear Hm1. destruct a as [a|].
  - split; unfold active; rewrite ?Q, ?P; simpl; [exact Hpend | discriminate].
  - apply live_ok_handler. rewrite Q. simpl. intros j Hj.
    apply (parkable_same m); [exact L|]. apply elem_of_app in Hj. destruct Hj as [Hj|Hj].
    + apply Hp, Hj.
    + apply list_elem_of_singleton in Hj. subst j. exact Hnew.
Qed.

Lemma live_frame_wait u ev jid td res m u' ev' :
  same_queue u' ev' u ev = false ->
  (forall j, j ∈ tx_list (queue_of u ev m) -> parkable m j) ->
  parkable m {| job_todo := td; job_uuid := jid; job_resolve := res |} ->
  live_frame u' ev' m (wait u ev jid td res m).
Proof.
  intros Hs Hp Hnew. unfold wait. destruct (databases m !! u) as [st|] eqn:Hst;
    [|apply live_frame_refl].
  rewrite (queue_of_Some _ _ _ _ Hst) in Hp.
  match goal with |- context [observe ?o ?x] => set (m1 := observe o x) end.
  assert (Hf : live_frame u' ev' m m1).
  { split; [|apply Nat.le_refl]. unfold m1.
    change (queue_of u' ev' (observe ?o ?x)) with (queue_of u' ev' x).
    rewrite (queue_of_update _ _ _ _ _ _ _ Hst), Hs. reflexivity. }
  destruct (tx_uuid (transactions st ev)); [exact Hf|].
  eapply live_frame_trans; [exact Hf|]. apply live_frame_handler; [exact Hs|].
  intros j Hj. apply (parkable_same m); [reflexivity|].
  unfold m1 in Hj. change (queue_of u ev (observe ?o ?x)) with (queue_of u ev x) in Hj.
  rewrite (queue_of_update _ _ _ _ _ _ _ Hst), same_queue_refl in Hj. simpl in Hj.
  apply elem_of_app in Hj. destruct Hj as [Hj|Hj].
  - apply Hp, Hj.
  - apply list_elem_of_singleton in Hj. subst j. exact Hnew.
Qed.

Lemma live_inv_wait u ev jid td res m :
  live_inv m ->
  (forall j, j ∈ tx_list (queue_of u ev m) -> parkable m j) ->
  parkable m {| job_todo := td; job_uuid := jid; job_resolve := res |} ->
  live_inv (wait u ev jid td res m).
Proof.
  intros Hinv Hp Hnew u' ev'. destruct (same_queue u' ev' u ev) eqn:Hs.
  - apply same_queue_true in Hs. destruct Hs as [-> ->]. apply live_ok_wait; auto.
  - eapply live_ok_frame; [apply live_frame_wait; eassumption | apply Hinv].
Qed.
End LiveSteps.

(** A job that waits in a queue is not yet served, so nothing is parked
    on its lock call. *)
Lemma parkable_lock_inv m u ev j :
  lock_inv m -> j ∈ tx_list (queue_of u ev m) -> parkable m j.
Proof.
  intros Hinv Hj c Hc. destruct ev.
  - destruct (jobs_ok_lock_inv m Hinv u j Hj) as (c1 & l & Hc1 & _ & Hl & Hs).
    assert (c1 = c) by congruence. subst c1. exists l. split; [exact Hl|].
    destruct (lc_parked l) as [t|] eqn:Hp; [|reflexivity]. exfalso.
    destruct (inv_frames _ Hinv c l Hl) as (_ & _ & Hpark).
    destruct (Hpark t Hp) as [_ Hst]. rewrite Hs in Hst.
    pose proof (lock_lists_NoDup u m Hinv) as Hnd.
    rewrite app_assoc in Hnd. apply NoDup_app in Hnd. destruct Hnd as (_ & Hdis & _).
    apply (Hdis c Hst). apply elem_of_app. left.
    unfold queued. apply list_elem_of_omap. exists j. split; [exact Hj|].
    unfold job_lock. rewrite Hc. reflexivity.
  - destruct (inv_wjobs _ Hinv u j Hj) as (u' & Hw). congruence.
Qed.

(** Nothing is parked on a lock call whose first continuation has not
    run. *)
Lemma parkable_waiting m c l q :
  lock_inv m -> jobqueue m = MLockDB_wait c :: q -> lockcalls m !! c = Some l ->
  lc_parked l = None.
Proof.
  intros Hinv Hj Hl. destruct (lc_parked l) as [t|] eqn:Hp; [|reflexivity]. exfalso.
  destruct (inv_frames _ Hinv c l Hl) as (_ & _ & Hpark).
  destruct (Hpark t Hp) as [_ Hst].
  pose proof (lock_lists_NoDup (lc_status l) m Hinv) as Hnd.
  rewrite app_assoc in Hnd. apply NoDup_app in Hnd. destruct Hnd as (_ & Hdis & _).
  apply (Hdis c Hst). apply elem_of_app. right.
  unfold waiting. apply ids_with_elem. split.
  - rewrite Hj. simpl. left.
  - rewrite Hl. reflexivity.
Qed.

Lemma live_inv_still m m' : still m m' -> live_inv m -> live_inv m'.
Proof. intros Hs Hinv u ev. eapply live_ok_frame; [apply live_frame_still, Hs | apply Hinv]. Qed.

Lemma live_inv_boot d : live_inv (boot d).
Proof. intros u ev. split; [apply Nat.le_0_l | reflexivity]. Qed.

Section LiveProgram.
Context `{JSONText}.

Lemma live_inv_save_for k h m : lock_inv m -> live_inv m -> live_inv (fst (save_for k h m)).
Proof.
  intros Hlock Hinv. unfold save_for, no_object. destruct (objects m !! h) as [o|]; [|exact Hinv].
  destruct (__locking o); [|exact Hinv].
  unfold safeWriteDB. destruct (getDBStatus (UID o) m); [|exact Hinv]. cbn [fst].
  apply live_inv_wait; [exact Hinv | |].
  - intros j Hj. eapply parkable_lock_inv; eassumption.
  - intros c Hc. discriminate Hc.
Qed.

Lemma live_inv_saveClose h m : lock_inv m -> live_inv m -> live_inv (fst (saveClose h m)).
Proof.
  intros Hlock Hinv. unfold saveClose, no_object.
  destruct (objects m !! h) as [o|]; [|exact Hinv].
  destruct (__locking o); [apply live_inv_save_for; assumption | exact Hinv].
Qed.

Lemma live_inv_asyncDispose h m :
  lock_inv m -> live_inv m -> live_inv (fst (asyncDispose h m)).
Proof.
  intros Hlock Hinv. unfold asyncDispose, no_object.
  destruct (objects m !! h) as [o|]; [|exact Hinv].
  destruct (__locking o); [apply live_inv_saveClose; assumption | exact Hinv].
Qed.

Lemma live_inv_perform c m : lock_inv m -> live_inv m -> live_inv (perform c m).
Proof.
  intros Hlock Hinv. destruct c as [u dv|h|h|h|h|h|h|h v|p|o k x|o k]; cbn [perform].
  - eapply live_inv_still; [apply still_new_SillyDB | exact Hinv].
  - intros u ev. eapply live_ok_frame; [apply live_frame_use | apply Hinv].
  - intros u ev. eapply live_ok_frame; [apply live_frame_close | apply Hinv].
  - apply live_inv_save_for; assumption.
  - apply live_inv_saveClose; assumption.
  - apply live_inv_asyncDispose; assumption.
  - eapply live_inv_still; [apply still_get_data | exact Hinv].
  - eapply live_inv_still; [apply still_set_data | exact Hinv].
  - eapply live_inv_still; [apply still_root_path | exact Hinv].
  - eapply live_inv_still; [apply still_ref_assign | exact Hinv].
  - eapply live_inv_still; [apply still_ref_delete | exact Hinv].
Qed.

Lemma live_inv_tick_handler u ev jid res v q m :
  jobqueue m = MHandler u ev jid res v :: q -> lock_inv m -> live_inv m ->
  live_inv (run_microtask (MHandler u ev jid res v) (with_jobqueue q m)).
Proof.
  intros Hj Hlock Hinv u' ev'. cbn [run_microtask].
  match goal with |- live_ok u' ev' (handler u ev ?x) => set (m2 := x) end.
  assert (L : lockcalls m2 = lockcalls m) by (unfold m2; destruct res; reflexivity).
  assert (Q : forall u0 ev0, queue_of u0 ev0 m2 = queue_of u0 ev0 m)
    by (intros u0 ev0; unfold m2; destruct res; reflexivity).
  assert (Hp : forall j, j ∈ tx_list (queue_of u ev m2) -> parkable m2 j).
  { intros j Hjj. rewrite Q in Hjj. apply (parkable_same m); [exact L|].
    eapply parkable_lock_inv; eassumption. }
  destruct (same_queue u' ev' u ev) eqn:Hs.
  - apply same_queue_true in Hs. destruct Hs as [-> ->]. apply live_ok_handler, Hp.
  - eapply live_ok_frame; [|apply Hinv].
    eapply live_frame_trans; [|apply live_frame_handler; [exact Hs | exact Hp]].
    split; [apply Q|]. unfold pending. rewrite L.
    apply Nat.add_le_mono_r. unfold resumes. rewrite Hj. cbn [List.filter].
    change (is_resume u' ev' (MHandler u ev jid res v)) with (same_queue u' ev' u ev).
    rewrite Hs. unfold m2.
    destruct res as [k|]; cbn [jobqueue observe schedule with_history with_jobqueue];
      [|apply Nat.le_refl].
    rewrite List.filter_app, length_app. lia.
Qed.

Lemma live_inv_tick m : lock_inv m -> live_inv m -> live_inv (tick m).
Proof.
  intros Hlock Hinv. unfold tick. destruct (jobqueue m) as [|t q] eqn:Hj; [exact Hinv|].
  destruct t as [c|c|h c|u ev jid res v|k v|k v|h];
    try (assert (Hpop : live_inv (with_jobqueue q m))
           by (eapply live_inv_still; [|exact Hinv]; eapply still_pop; [exact Hj | exact I]));
    cbn [run_microtask].
  - destruct (lockcalls (with_jobqueue q m) !! c) as [l|] eqn:Hl; [|exact Hpop].
    apply live_inv_wait; [exact Hpop | |].
    + intros j Hjj. apply (parkable_same m); [reflexivity|].
      eapply (parkable_lock_inv m (lc_status l) unlock); [exact Hlock | exact Hjj].
    + intros c' Hc'. injection Hc' as <-. exists l. split; [exact Hl|].
      eapply parkable_waiting; [exact Hlock | exact Hj | exact Hl].
  - destruct (lockcalls (with_jobqueue q m) !! c) as [l|]; [|exact Hpop].
    eapply live_inv_still; [|exact Hpop]. apply still_schedule. exact I.
  - destruct (objects (with_jobqueue q m) !! h) as [o|]; [|exact Hpop].
    intros u ev. eapply live_ok_frame; [|apply Hpop].
    eapply live_frame_trans; [apply live_frame_still, still_with_objects|].
    apply live_frame_observe.
  - apply (live_inv_tick_handler u ev jid res v q m Hj Hlock Hinv).
  - eapply live_inv_still; [|exact Hpop]. apply still_schedule. exact I.
  - destruct k; [exact Hpop|].
    eapply live_inv_still; [|exact Hpop]. apply still_schedule. exact I.
  - intros u ev. eapply live_ok_frame; [apply live_frame_close | apply Hpop].
Qed.

Lemma live_inv_reachable d ins : live_inv (run ins (boot d)).
Proof.
  assert (Hb : lock_inv (run ins (boot d)) /\ live_inv (run ins (boot d))).
  { unfold run. generalize (conj (lock_inv_boot d) (live_inv_boot d)). generalize (boot d).
    induction ins as [|i ins IH]; intros m Hinv; [exact Hinv|].
    apply IH. destruct Hinv as [Hl Hw]. split; [apply lock_inv_step, Hl|].
    destruct i; [apply live_inv_perform | apply live_inv_tick]; assumption. }
  apply Hb.
Qed.
End LiveProgram.

(** ** The lock: an unresolved call that was served has a holder *)

Lemma held_inv_frame m m' :
  (forall u, locked u m' = locked u m) ->
  (forall c, resolved m' c = resolved m c) ->
  (forall c h, lock_db m c = Some h -> lock_db m' c = Some h) ->
  (forall h o, objects m !! h = Some o ->
     exists o', objects m' !! h = Some o' /\ UID o' = UID o
                /\ __locking o' = __locking o /\ unlockDB o' = unlockDB o) ->
  held_inv m -> held_inv m'.
Proof.
  intros Hl Hr Hd Ho Hinv u c Hc Hres. rewrite Hl in Hc. rewrite Hr in Hres.
  destruct (Hinv u c Hc Hres) as (h & o & Hdb & Hob & Hu & Hlk & Hun).
  destruct (Ho h o Hob) as (o' & Hob' & Hu' & Hlk' & Hun').
  exists h, o'. split; [apply Hd, Hdb|]. split; [exact Hob'|].
  split; [congruence|]. split; congruence.
Qed.

Lemma held_inv_quiet m m' : quiet m m' -> held_inv m -> held_inv m'.
Proof.
  intros Hq. apply held_inv_frame.
  - apply (q_locked _ _ Hq).
  - intros c. unfold resolved. rewrite (q_lockcalls _ _ Hq). reflexivity.
  - intros c h. unfold lock_db. rewrite (q_lockcalls _ _ Hq). auto.
  - intros h o Ho. destruct (q_handles _ _ Hq h o Ho) as (o' & Ho' & Hu).
    exists o'. split; [exact Ho'|]. split; [exact Hu|].
    destruct (q_handles' _ _ Hq h o' Ho') as [(o2 & Ho2 & _ & Hl2 & Hun2)|(Hn & _)];
      [|congruence].
    assert (o2 = o) by congruence. subst o2. split; congruence.
Qed.

Lemma locked_still_locks u m m' : still_locks m m' -> locked u m' = locked u m.
Proof.
  intros [(new & A1 & A1') _ _ _]. unfold locked.
  rewrite A1, omap_app, (omap_no_lock_event (locked_id u) new); [apply app_nil_r | | exact A1'].
  intros [] Ho; try reflexivity; discriminate.
Qed.

Lemma held_inv_still_locks m m' :
  still_locks m m' -> (forall c, resolved m' c = resolved m c) -> objects m' = objects m ->
  held_inv m -> held_inv m'.
Proof.
  intros Hs Hr Ho. apply held_inv_frame.
  - intros u. apply locked_still_locks, Hs.
  - exact Hr.
  - intros c h. rewrite (lock_db_still_locks m m' c Hs). auto.
  - intros h o Hob. rewrite Ho. exists o. auto.
Qed.

Lemma held_inv_boot d : held_inv (boot d).
Proof. intros u c Hc. inversion Hc. Qed.

Lemma resolved_park c l t m x :
  lockcalls m !! c = Some l ->
  resolved (with_lockcalls (<[c := with_parked t l]> (lockcalls m)) m) x = resolved m x.
Proof.
  intros Hl. unfold resolved. cbn [lockcalls with_lockcalls].
  destruct (decide (x = c)) as [->|Hne].
  - rewrite list_lookup_insert_eq by (eapply lookup_lt_Some; exact Hl). rewrite Hl. reflexivity.
  - rewrite list_lookup_insert_ne by congruence. reflexivity.
Qed.

Lemma resolved_resolve_lock c0 m c :
  resolved (resolve_lock c0 m) c = false ->
  resolved m c = false /\ (c = c0 -> lockcalls m !! c0 = None).
Proof.
  unfold resolve_lock. destruct (lockcalls m !! c0) as [l|] eqn:Hl; [|auto].
  destruct (lc_resolved l) eqn:Hr.
  - intros Hc. split; [exact Hc|]. intros ->. unfold resolved in Hc. rewrite Hl in Hc.
    congruence.
  - assert (E : resolved (match lc_parked l with
                          | Some t => schedule t
                                        (with_lockcalls (<[c0 := with_resolved l]> (lockcalls m)) m)
                          | None => with_lockcalls (<[c0 := with_resolved l]> (lockcalls m)) m
                          end) c
                = if decide (c = c0) then true else resolved m c).
    { unfold resolved. destruct (lc_parked l); cbn [lockcalls schedule with_jobqueue
        with_lockcalls]; (destruct (decide (c = c0)) as [->|Hne];
        [rewrite list_lookup_insert_eq by (eapply lookup_lt_Some; exact Hl); reflexivity
        |rewrite list_lookup_insert_ne by congruence; reflexivity]). }
    rewrite E. destruct (decide (c = c0)); [discriminate|]. intros Hc. split; [exact Hc|].
    congruence.
Qed.

Lemma held_inv_close h m : held_inv m -> held_inv (fst (close h m)).
Proof.
  intros Hinv. pose proof (still_locks_close h m) as Hs. revert Hs.
  unfold close, no_object. destruct (objects m !! h) as [o|] eqn:Ho; [|auto].
  destruct (unlockDB o) as [c0|] eqn:Hun; [|auto]. cbn [fst]. intros Hs u c Hc Hr.
  rewrite (locked_still_locks u _ _ Hs) in Hc.
  change (resolved (resolve_lock c0 m) c = false) in Hr.
  apply resolved_resolve_lock in Hr. destruct Hr as [Hr Hnone].
  destruct (Hinv u c Hc Hr) as (h1 & o1 & Hdb & Hob & Hu & Hlk & Hun1).
  assert (Hne : h1 <> h).
  { intros ->. assert (o1 = o) by congruence. subst o1.
    assert (c = c0) by congruence. subst c0. specialize (Hnone eq_refl).
    unfold lock_db in Hdb. rewrite Hnone in Hdb. discriminate. }
  exists h1, o1. split; [rewrite (lock_db_still_locks _ _ c Hs); exact Hdb|].
  split; [|auto]. cbn [objects with_objects].
  rewrite list_lookup_insert_ne by congruence. rewrite objects_resolve_lock. exact Hob.
Qed.

Lemma held_inv_use h m : held_inv m -> held_inv (fst (use h m)).
Proof.
  unfold use, no_object. destruct (objects m !! h) as [o|]; [|auto].
  destruct (__locking o); [auto|]. unfold lockDB.
  destruct (hasDB (UID o) m); [|auto]. cbn [fst].
  apply held_inv_frame.
  - intros u. unfold locked. cbn [history observe schedule with_history with_jobqueue
      with_lockcalls]. rewrite omap_app. simpl. apply app_nil_r.
  - intros c. unfold resolved. cbn [lockcalls observe schedule with_history with_jobqueue
      with_lockcalls].
    destruct (lockcalls m !! c) as [l|] eqn:Hl.
    + rewrite lookup_app_l by (eapply lookup_lt_Some; exact Hl). rewrite Hl. reflexivity.
    + apply lookup_ge_None in Hl.
      destruct (decide (c = length (lockcalls m))) as [->|Hne].
      * rewrite list_lookup_middle by reflexivity. reflexivity.
      * rewrite lookup_ge_None_2; [reflexivity|]. rewrite length_app. simpl. lia.
  - intros c h' Hdb. unfold lock_db in *. cbn [lockcalls observe schedule with_history
      with_jobqueue with_lockcalls].
    destruct (lockcalls m !! c) as [l|] eqn:Hl; [|discriminate].
    rewrite lookup_app_l by (eapply lookup_lt_Some; exact Hl). rewrite Hl. exact Hdb.
  - intros h' o' Ho'. exists o'. auto.
Qed.

Lemma held_inv_tick_use h c0 q m :
  jobqueue m = MUse h c0 :: q -> lock_inv m -> held_inv m ->
  held_inv (run_microtask (MUse h c0) (with_jobqueue q m)).
Proof.
  intros Hj Hlock Hinv. cbn [run_microtask]. cbn [objects with_jobqueue].
  assert (Hpop : held_inv (with_jobqueue q m)).
  { revert Hinv. apply held_inv_frame; auto. intros h' o' Ho'. exists o'. auto. }
  destruct (objects m !! h) as [o|] eqn:Ho; [|exact Hpop].
  assert (Hok : lock_db m c0 = Some h).
  { apply (inv_tasks _ Hlock (MUse h c0)). rewrite Hj. left. }
  intros u c Hc Hr. change (resolved m c = false) in Hr.
  unfold locked in Hc. cbn [history observe with_history with_objects with_jobqueue] in Hc.
  rewrite omap_app in Hc. apply elem_of_app in Hc. fold (locked u m) in Hc.
  destruct Hc as [Hc|Hc].
  - destruct (Hinv u c Hc Hr) as (h1 & o1 & Hdb & Hob & Hu & Hlk & Hun).
    destruct (decide (h1 = h)) as [->|Hne].
    + exfalso. assert (o1 = o) by congruence. subst o1.
      assert (Hg : c0 ∈ granting u m).
      { unfold granting. apply ids_with_elem. split; [rewrite Hj; simpl; left|].
        unfold lock_db in Hok. destruct (lockcalls m !! c0) as [l0|] eqn:Hl0; [|discriminate].
        simpl in Hok. injection Hok as Hok.
        destruct (inv_frames _ Hlock c0 l0 Hl0) as ((o' & Ho' & Hu') & _).
        rewrite Hok in Ho'. simpl. congruence. }
      assert (Hr0 : resolved m c0 = false).
      { apply (inv_pending _ Hlock u). apply elem_of_app. left. exact Hg. }
      assert (Hl1 : last (started u m) = Some c).
      { apply (inv_last _ Hlock); [apply elem_of_app; left; exact Hc | exact Hr]. }
      assert (Hl2 : last (started u m) = Some c0).
      { apply (inv_last _ Hlock); [apply elem_of_app; right; exact Hg | exact Hr0]. }
      assert (c = c0) by congruence. subst c0.
      pose proof (lock_lists_NoDup u m Hlock) as Hnd.
      apply NoDup_app in Hnd. destruct Hnd as (_ & Hdis & _).
      apply (Hdis c Hc). apply elem_of_app. left. exact Hg.
    + exists h1, o1. split; [exact Hdb|]. split; [|auto].
      cbn [objects observe with_history with_objects].
      rewrite list_lookup_insert_ne by congruence. exact Hob.
  - simpl in Hc. destruct (decide (UID o = u)) as [Hu|Hu]; [|inversion Hc].
    apply list_elem_of_singleton in Hc. subst c.
    exists h, (with_locking true (with_unlockDB (Some c0) o)).
    split; [exact Hok|]. split; [|auto].
    cbn [objects observe with_history with_objects].
    apply list_lookup_insert_eq. eapply lookup_lt_Some. exact Ho.
Qed.

Section HeldSteps.
Context `{JSONText}.

Lemma resolved_run_todo u ev job m c : resolved (run_todo u ev job m) c = resolved m c.
Proof.
  unfold run_todo. destruct (job_todo job) as [c1|w].
  - destruct (lockcalls (schedule (MLockDB_return c1) m) !! c1) as [l|] eqn:Hl; [|reflexivity].
    destruct (lc_resolved l); [reflexivity|].
    apply (resolved_park c1 l _ (schedule (MLockDB_return c1) m) c Hl).
  - pose proof (still_writeDB w m) as Hw. destruct (writeDB w m) as [m1 s]. cbn [fst] in Hw.
    unfold resolved. cbn [lockcalls schedule with_jobqueue]. rewrite (st_lockcalls _ _ Hw).
    reflexivity.
Qed.

Lemma resolved_handler u ev m c : resolved (handler u ev m) c = resolved m c.
Proof.
  unfold handler. destruct (databases m !! u) as [st|]; [|reflexivity].
  destruct (tx_list (transactions st ev)) as [|job rest]; [reflexivity|].
  rewrite resolved_run_todo. reflexivity.
Qed.

Lemma resolved_wait u ev jid td res m c : resolved (wait u ev jid td res m) c = resolved m c.
Proof.
  unfold wait. destruct (databases m !! u) as [st|]; [|reflexivity].
  destruct (tx_uuid (transactions st ev)); [reflexivity|].
  rewrite resolved_handler. reflexivity.
Qed.

Lemma held_inv_perform c m : lock_inv m -> held_inv m -> held_inv (perform c m).
Proof.
  intros Hlock Hinv. pose proof (inv_wjobs _ Hlock) as Hw.
  destruct c as [u dv|h|h|h|h|h|h|h v|p|o k x|o k]; cbn [perform].
  - eapply held_inv_quiet; [apply quiet_new_SillyDB | exact Hinv].
  - apply held_inv_use, Hinv.
  - apply held_inv_close, Hinv.
  - eapply held_inv_quiet; [apply quiet_save_for; exact Hw | exact Hinv].
  - eapply held_inv_quiet; [apply quiet_saveClose; exact Hw | exact Hinv].
  - eapply held_inv_quiet; [apply quiet_asyncDispose; exact Hw | exact Hinv].
  - eapply held_inv_quiet; [apply quiet_get_data | exact Hinv].
  - eapply held_inv_quiet; [apply quiet_set_data | exact Hinv].
  - eapply held_inv_quiet; [apply quiet_root_path | exact Hinv].
  - eapply held_inv_quiet; [apply quiet_ref_assign | exact Hinv].
  - eapply held_inv_quiet; [apply quiet_ref_delete | exact Hinv].
Qed.

Lemma held_inv_tick m : lock_inv m -> held_inv m -> held_inv (tick m).
Proof.
  intros Hlock Hinv. unfold tick. destruct (jobqueue m) as [|t q] eqn:Hj; [exact Hinv|].
  pose proof (inv_wjobs _ Hlock) as Hw.
  assert (Hok : task_ok m t) by (apply (inv_tasks _ Hlock); rewrite Hj; left).
  assert (Hpop : held_inv (with_jobqueue q m)).
  { revert Hinv. apply held_inv_frame; auto. intros h' o' Ho'. exists o'. auto. }
  destruct t as [c|c|h c|u ev jid res v|k v|k v|h].
  - cbn [run_microtask]. destruct (lockcalls (with_jobqueue q m) !! c) as [l|]; [|exact Hpop].
    eapply held_inv_still_locks; [apply still_locks_wait | | | exact Hpop].
    + intros c'. apply resolved_wait.
    + apply objects_wait.
  - cbn [run_microtask]. destruct (lockcalls (with_jobqueue q m) !! c) as [l|]; [|exact Hpop].
    eapply held_inv_still_locks; [| | |exact Hpop]; try reflexivity.
    apply still_locks_same; reflexivity.
  - apply held_inv_tick_use; assumption.
  - destruct ev.
    + cbn [run_microtask].
      eapply held_inv_still_locks; [apply still_locks_handler | | |].
      * intros c'. apply resolved_handler.
      * apply objects_handler.
      * eapply held_inv_still_locks; [| | |exact Hpop].
        -- destruct res; [|apply still_locks_observe; reflexivity].
           apply (still_locks_trans _ (observe (Finished u unlock jid) (with_jobqueue q m)));
             [apply still_locks_observe; reflexivity | apply still_locks_same; reflexivity].
        -- intros c'. destruct res; reflexivity.
        -- destruct res; reflexivity.
    + eapply held_inv_quiet; [|exact Hinv]. apply quiet_tick_flush; auto.
  - eapply held_inv_quiet; [|exact Hinv]. apply quiet_tick_flush; auto.
  - eapply held_inv_quiet; [|exact Hinv]. apply quiet_tick_flush; auto.
  - cbn [run_microtask]. apply held_inv_close, Hpop.
Qed.

Lemma held_inv_reachable d ins : held_inv (run ins (boot d)).
Proof.
  assert (Hb : lock_inv (run ins (boot d)) /\ held_inv (run ins (boot d))).
  { unfold run. generalize (conj (lock_inv_boot d) (held_inv_boot d)). generalize (boot d).
    induction ins as [|i ins IH]; intros m Hinv; [exact Hinv|].
    apply IH. destruct Hinv as [Hl Hw]. split; [apply lock_inv_step, Hl|].
    destruct i; [apply held_inv_perform | apply held_inv_tick]; assumption. }
  apply Hb.
Qed.
End HeldSteps.

(** ** The engine at rest *)

Lemma idle_granting u m : jobqueue m = [] -> granting u m = [] /\ waiting u m = [].
Proof. intros Hj. unfold granting, waiting. rewrite Hj. split; reflexivity. Qed.

(** The handles that asked for the lock are those that got it followed
    by those that wait in the queue. *)
Lemma idle_opened u m :
  lock_inv m -> hist_inv m -> jobqueue m = [] ->
  opened u m = became_locked u m ++ omap (lock_db m) (queued u m).
Proof.
  intros Hlock [B1 B2 B3] Hj. destruct (idle_granting u m Hj) as [Hg Hw].
  unfold opened, became_locked.
  rewrite (opened_lock_db m u (history m) B2), (locked_lock_db m u (history m) B3), B1.
  fold (locked u m). rewrite (inv_fifo _ Hlock u), Hg, Hw, app_nil_r. simpl. apply omap_app.
Qed.

Lemma filter_nonempty {A} (f : A -> bool) (l : list A) :
  0 < length (List.filter f l) -> exists i x, l !! i = Some x /\ f x = true.
Proof.
  intros Hlen. destruct (List.filter f l) as [|x l'] eqn:Hf; [simpl in Hlen; lia|].
  assert (Hin : In x (List.filter f l)) by (rewrite Hf; left; reflexivity).
  apply filter_In in Hin. destruct Hin as [Hin Hx].
  apply list_elem_of_In, list_elem_of_lookup_1 in Hin. destruct Hin as [i Hi]. eauto.
Qed.

(** The handler of a queue that carries the mark of a running job, when
    no continuation is ready, is parked on a lock call that was served
    and is not resolved. *)
Lemma idle_parked u ev m :
  lock_inv m -> live_inv m -> jobqueue m = [] -> tx_uuid (queue_of u ev m) <> None ->
  ev = unlock /\ exists c, c ∈ locked u m /\ resolved m c = false.
Proof.
  intros Hlock Hlive Hj Hbusy. pose proof (lv_pending _ _ _ (Hlive u ev)) as Hp.
  unfold active in Hp. destruct (tx_uuid (queue_of u ev m)) as [a|]; [|congruence].
  unfold pending, resumes in Hp. rewrite Hj in Hp. simpl in Hp.
  destruct (filter_nonempty (parked_resume u ev) (lockcalls m)) as (c & l & Hl & Hpr); [lia|].
  unfold parked_resume in Hpr. apply andb_true_iff in Hpr. destruct Hpr as [Hr Hpr].
  apply negb_true_iff in Hr.
  destruct (lc_parked l) as [t|] eqn:Hpk; [|discriminate].
  destruct (inv_frames _ Hlock c l Hl) as (_ & _ & Hpark).
  destruct (Hpark t Hpk) as [(jid & ->) Hst].
  change (same_queue u ev (lc_status l) unlock = true) in Hpr.
  apply same_queue_true in Hpr. destruct Hpr as [Hu Hev]. subst ev. split; [reflexivity|].
  exists c. rewrite Hu in Hst. unfold started in Hst.
  rewrite (proj1 (idle_granting u m Hj)), app_nil_r in Hst. split; [exact Hst|].
  unfold resolved. rewrite Hl. exact Hr.
Qed.

(** At rest every job given to a flush queue has started and finished. *)
Lemma idle_flush u m :
  lock_inv m -> queue_inv m -> live_inv m -> jobqueue m = [] ->
  started_jobs u write_end m = enqueued u write_end m
  /\ length (finished u write_end m) = length (enqueued u write_end m).
Proof.
  intros Hlock Hq Hlive Hj. destruct (Hq u write_end) as [Hfifo Hcount _].
  assert (Hidle : tx_uuid (queue_of u write_end m) = None).
  { destruct (tx_uuid (queue_of u write_end m)) as [a|] eqn:Ha; [|reflexivity].
    destruct (idle_parked u write_end m Hlock Hlive Hj) as [Hev _]; [|discriminate Hev].
    rewrite Ha. discriminate. }
  pose proof (lv_idle _ _ _ (Hlive u write_end) Hidle) as Hnil.
  unfold active in Hcount. rewrite Hidle in Hcount. rewrite Hnil, app_nil_r in Hfifo.
  split; [symmetry; exact Hfifo|]. rewrite Hfifo. lia.
Qed.

Lemma last_omap {A B} (f : A -> option B) (l : list A) (x : A) (y : B) :
  last l = Some x -> f x = Some y -> last (omap f l) = Some y.
Proof.
  intros Hl Hx. apply last_Some in Hl. destruct Hl as [l' ->].
  rewrite omap_app. simpl. rewrite Hx. apply last_snoc.
Qed.

(** At rest the handle that holds the lock is the last that got it. *)
Lemma idle_holder u m h :
  lock_inv m -> hist_inv m -> jobqueue m = [] -> holds m h u ->
  last (became_locked u m) = Some h.
Proof.
  intros Hlock [B1 B2 B3] Hj (o & Ho & Hu & Hl).
  destruct (inv_handles _ Hlock h o Ho) as [Hsome Hc].
  destruct (Hsome Hl) as [c Hun]. destruct (Hc c Hun) as (Hin & Hdb & Hres).
  specialize (Hres Hl). rewrite Hu in Hin.
  assert (Hlast : last (locked u m) = Some c).
  { rewrite <- (app_nil_r (locked u m)), <- (proj1 (idle_granting u m Hj)).
    apply (inv_last _ Hlock); [apply elem_of_app; left; exact Hin | exact Hres]. }
  unfold became_locked. rewrite (locked_lock_db m u (history m) B3). fold (locked u m).
  eapply last_omap; eassumption.
Qed.

(** At rest, when no handle holds the lock, nobody waits for it. *)
Lemma idle_no_holder u m :
  lock_inv m -> live_inv m -> held_inv m -> jobqueue m = [] ->
  (forall h, ~ holds m h u) -> queued u m = [].
Proof.
  intros Hlock Hlive Hheld Hj Hnone.
  destruct (queued u m) as [|c' cs] eqn:Hq; [reflexivity|]. exfalso.
  destruct (queued_head u m c' cs Hlock Hq) as (st & job & rest & Hst & Hlist & _).
  assert (Hqu : queue_of u unlock m = tx_unlock st)
    by (unfold queue_of; rewrite Hst; reflexivity).
  destruct (idle_parked u unlock m Hlock Hlive Hj) as (_ & c & Hc & Hr).
  { intros Hidle. pose proof (lv_idle _ _ _ (Hlive u unlock) Hidle) as Hnil.
    rewrite Hqu, Hlist in Hnil. discriminate. }
  destruct (Hheld u c Hc Hr) as (h & o & _ & Ho & Hu & Hl & _).
  apply (Hnone h). exists o. auto.
Qed.

(** ** What the engine records *)

Lemma engine_only_refl m : engine_only m m.
Proof. exists []. rewrite app_nil_r. split; [reflexivity|]. intros o Ho. inversion Ho. Qed.

Lemma engine_only_trans m1 m2 m3 :
  engine_only m1 m2 -> engine_only m2 m3 -> engine_only m1 m3.
Proof.
  intros (n1 & A1 & A1') (n2 & B1 & B1'). exists (n1 ++ n2).
  rewrite B1, A1, app_assoc. split; [reflexivity|].
  intros o Ho. apply elem_of_app in Ho. destruct Ho; auto.
Qed.

Lemma engine_only_same m m' : history m' = history m -> engine_only m m'.
Proof. intros E. exists []. rewrite app_nil_r. split; [exact E|]. intros o Ho. inversion Ho. Qed.

Lemma engine_only_observe o m : engine_event o = true -> engine_only m (observe o m).
Proof.
  intros Ho. exists [o]. split; [reflexivity|]. intros o' Ho'.
  apply list_elem_of_singleton in Ho'. subst o'. exact Ho.
Qed.

Lemma engine_only_opened u m m' : engine_only m m' -> opened u m' = opened u m.
Proof.
  intros (new & E & Hnew). unfold opened. rewrite E, omap_app.
  assert (Hn : omap (opened_by u) new = []).
  { clear E. induction new as [|o new IH]; [reflexivity|]. rewrite omap_step.
    assert (Ho : engine_event o = true) by (apply Hnew; left).
    rewrite IH by (intros o' Ho'; apply Hnew; right; exact Ho').
    destruct o; try reflexivity. discriminate Ho. }
  rewrite Hn. apply app_nil_r.
Qed.

Lemma engine_only_enqueued u m m' :
  engine_only m m' -> enqueued u write_end m' = enqueued u write_end m.
Proof.
  intros (new & E & Hnew). unfold enqueued. rewrite E, omap_app.
  assert (Hn : omap (enqueued_job u write_end) new = []).
  { clear E. induction new as [|o new IH]; [reflexivity|]. rewrite omap_step.
    assert (Ho : engine_event o = true) by (apply Hnew; left).
    rewrite IH by (intros o' Ho'; apply Hnew; right; exact Ho').
    destruct o as [u' ev' j| | | |]; try reflexivity.
    destruct ev'; [|discriminate Ho]. cbn [enqueued_job].
    destruct (same_queue u write_end u' unlock) eqn:Hs; [|reflexivity].
    apply same_queue_true in Hs. destruct Hs as [_ Hs]. discriminate Hs. }
  rewrite Hn. apply app_nil_r.
Qed.

Lemma history_resolve_lock c m : history (resolve_lock c m) = history m.
Proof.
  unfold resolve_lock. destruct (lockcalls m !! c) as [l|]; [|reflexivity].
  destruct (lc_resolved l); [reflexivity|]. destruct (lc_parked l); reflexivity.
Qed.

Lemma history_close h m : history (fst (close h m)) = history m.
Proof.
  unfold close, no_object. destruct (objects m !! h) as [o|]; [|reflexivity].
  destruct (unlockDB o) as [c|]; [|reflexivity]. cbn [fst]. apply history_resolve_lock.
Qed.

Section EngineRecord.
Context `{JSONText}.

Lemma history_run_todo u ev job m : history (run_todo u ev job m) = history m.
Proof.
  unfold run_todo. destruct (job_todo job) as [c|w].
  - destruct (lockcalls (schedule (MLockDB_return c) m) !! c) as [l|]; [|reflexivity].
    destruct (lc_resolved l); reflexivity.
  - pose proof (still_writeDB w m) as Hw. destruct (writeDB w m) as [m1 s]. cbn [fst] in Hw.
    apply (st_history _ _ Hw).
Qed.

Lemma engine_only_handler u ev m : engine_only m (handler u ev m).
Proof.
  unfold handler. destruct (databases m !! u) as [st|]; [|apply engine_only_refl].
  destruct (tx_list (transactions st ev)) as [|job rest];
    [apply engine_only_same; reflexivity|].
  exists [Started u ev job]. rewrite history_run_todo. split; [reflexivity|].
  intros o Ho. apply list_elem_of_singleton in Ho. subst o. reflexivity.
Qed.

Lemma engine_only_wait_unlock u jid td res m : engine_only m (wait u unlock jid td res m).
Proof.
  unfold wait. destruct (databases m !! u) as [st|]; [|apply engine_only_refl].
  match goal with |- context [observe ?o ?x] =>
    assert (Hs : engine_only m (observe o x)) by (apply (engine_only_observe o x); reflexivity)
  end.
  destruct (tx_uuid (transactions st unlock)); [exact Hs|].
  eapply engine_only_trans; [exact Hs | apply engine_only_handler].
Qed.

Lemma engine_only_tick m : engine_only m (tick m).
Proof.
  unfold tick. destruct (jobqueue m) as [|t q]; [apply engine_only_refl|].
  destruct t as [c|c|h c|u ev jid res v|k v|k v|h]; cbn [run_microtask].
  - destruct (lockcalls (with_jobqueue q m) !! c) as [l|];
      [|apply engine_only_same; reflexivity].
    apply (engine_only_trans _ (with_jobqueue q m));
      [apply engine_only_same; reflexivity | apply engine_only_wait_unlock].
  - destruct (lockcalls (with_jobqueue q m) !! c) as [l|]; apply engine_only_same; reflexivity.
  - destruct (objects (with_jobqueue q m) !! h) as [o|];
      [|apply engine_only_same; reflexivity].
    exists [Locked (UID o) h c]. split; [reflexivity|].
    intros o' Ho'. apply list_elem_of_singleton in Ho'. subst o'. reflexivity.
  - eapply engine_only_trans; [|apply engine_only_handler].
    exists [Finished u ev jid]. split; [destruct res; reflexivity|].
    intros o' Ho'. apply list_elem_of_singleton in Ho'. subst o'. reflexivity.
  - apply engine_only_same; reflexivity.
  - destruct k; apply engine_only_same; reflexivity.
  - apply engine_only_same. apply (history_close h (with_jobqueue q m)).
Qed.

Lemma engine_only_ticks n m : engine_only m (run (repeat Tick n) m).
Proof.
  revert m. induction n as [|n IH]; intros m; [apply engine_only_refl|].
  eapply engine_only_trans; [apply engine_only_tick|]. apply (IH (tick m)).
Qed.
End EngineRecord.

(** ** The engine comes to rest *)

Lemma registry_weight_update dbs u st st' :
  dbs !! u = Some st ->
  registry_weight (<[u := st']> dbs) + status_weight st
  = registry_weight dbs + status_weight st'.
Proof.
  intros Hst. unfold registry_weight.
  rewrite (map_fold_delete_L _ _ u st dbs); [|intros; lia|exact Hst].
  rewrite <- (insert_delete_eq dbs u st').
  rewrite (map_fold_insert_L _ _ u st' (delete u dbs));
    [lia | intros; lia | apply lookup_delete_eq].
Qed.

Lemma status_weight_with_transaction ev t st :
  status_weight (with_transaction ev t st) + jobs_weight (tx_list (transactions st ev))
  = status_weight st + jobs_weight (tx_list t).
Proof. destruct ev; unfold status_weight; cbn [with_transaction transactions tx_unlock tx_write_end]; lia. Qed.

Lemma jobs_weight_cons j js : jobs_weight (j :: js) = job_weight j + jobs_weight js.
Proof. reflexivity. Qed.

Lemma jobs_weight_snoc js j : jobs_weight (js ++ [j]) = jobs_weight js + job_weight j.
Proof.
  unfold jobs_weight. rewrite map_app, list_sum_app.
  change (list_sum (map job_weight [j])) with (job_weight j + 0). lia.
Qed.

Lemma work_with_transaction u ev t st m :
  databases m !! u = Some st ->
  work (with_databases (<[u := with_transaction ev t st]> (databases m)) m)
  + jobs_weight (tx_list (transactions st ev))
  = work m + jobs_weight (tx_list t).
Proof.
  intros Hst. unfold work. cbn [jobqueue databases lockcalls with_databases].
  pose proof (registry_weight_update (databases m) u st (with_transaction ev t st) Hst).
  pose proof (status_weight_with_transaction ev t st). lia.
Qed.

Lemma list_sum_insert {A} (f : A -> nat) (ls : list A) c l l' :
  ls !! c = Some l ->
  list_sum (map f (<[c := l']> ls)) + f l = list_sum (map f ls) + f l'.
Proof.
  intros Hl. rewrite insert_take_drop by (eapply lookup_lt_Some; exact Hl).
  rewrite <- (take_drop_middle ls c l Hl) at 3.
  rewrite !map_app, !list_sum_app. simpl. lia.
Qed.

Lemma work_schedule t m : work (schedule t m) = work m + task_weight t.
Proof.
  unfold work. cbn [jobqueue databases lockcalls schedule with_jobqueue].
  rewrite map_app, list_sum_app. simpl. lia.
Qed.

Lemma work_pop t q m : jobqueue m = t :: q -> work m = task_weight t + work (with_jobqueue q m).
Proof.
  intros Hj. unfold work. cbn [jobqueue databases lockcalls with_jobqueue]. rewrite Hj.
  simpl. lia.
Qed.

Lemma work_park c l t m :
  lockcalls m !! c = Some l ->
  work (with_lockcalls (<[c := with_parked t l]> (lockcalls m)) m) <= work m + task_weight t.
Proof.
  intros Hl. unfold work. cbn [jobqueue databases lockcalls with_lockcalls].
  pose proof (list_sum_insert parked_weight (lockcalls m) c l (with_parked t l) Hl) as Hs.
  assert (parked_weight (with_parked t l) <= task_weight t).
  { unfold parked_weight. cbn [lc_resolved lc_parked with_parked].
    destruct (lc_resolved l); lia. }
  lia.
Qed.

Lemma work_resolve_lock c m : work (resolve_lock c m) <= work m.
Proof.
  unfold resolve_lock. destruct (lockcalls m !! c) as [l|] eqn:Hl; [|apply Nat.le_refl].
  destruct (lc_resolved l) eqn:Hr; [apply Nat.le_refl|].
  pose proof (list_sum_insert parked_weight (lockcalls m) c l (with_resolved l) Hl) as Hs.
  assert (Hnew : parked_weight (with_resolved l) = 0) by reflexivity.
  unfold parked_weight at 2 in Hs. rewrite Hr, Hnew in Hs.
  destruct (lc_parked l) as [t|].
  - rewrite work_schedule. unfold work. cbn [jobqueue databases lockcalls with_lockcalls]. lia.
  - unfold work. cbn [jobqueue databases lockcalls with_lockcalls]. lia.
Qed.

Lemma work_close h m : work (fst (close h m)) <= work m.
Proof.
  unfold close, no_object. destruct (objects m !! h) as [o|]; [|apply Nat.le_refl].
  destruct (unlockDB o) as [c|]; [|apply Nat.le_refl]. cbn [fst].
  apply (work_resolve_lock c m).
Qed.

Section EngineRest.
Context `{JSONText}.

Lemma work_writeDB u m : work (fst (writeDB u m)) = work m.
Proof. rewrite writeDB_write_files. reflexivity. Qed.

Lemma work_run_todo u ev job m : work (run_todo u ev job m) <= work m + job_weight job.
Proof.
  unfold run_todo, job_weight. destruct (job_todo job) as [c|w].
  - pose proof (work_schedule (MLockDB_return c) m) as Hs. cbn [task_weight] in Hs.
    destruct (lockcalls (schedule (MLockDB_return c) m) !! c) as [l|] eqn:Hl; [|lia].
    destruct (lc_resolved l).
    + rewrite work_schedule. cbn [task_weight]. lia.
    + pose proof (work_park c l (MHandler u ev (job_uuid job) (job_resolve job) None)
                    (schedule (MLockDB_return c) m) Hl) as Hp.
      cbn [task_weight] in Hp. lia.
  - pose proof (work_writeDB w m) as Hw. destruct (writeDB w m) as [m1 s]. cbn [fst] in Hw.
    rewrite work_schedule. cbn [task_weight]. lia.
Qed.

Lemma work_handler u ev m : work (handler u ev m) <= work m.
Proof.
  unfold handler. destruct (databases m !! u) as [st|] eqn:Hst; [|apply Nat.le_refl].
  destruct (tx_list (transactions st ev)) as [|job rest] eqn:Hl.
  - pose proof (work_with_transaction u ev {| tx_list := []; tx_uuid := None |} st m Hst) as Hw.
    rewrite Hl in Hw. cbn [tx_list] in Hw. change (jobs_weight []) with 0 in Hw. lia.
  - pose proof (work_with_transaction u ev
                  {| tx_list := rest; tx_uuid := Some (job_uuid job) |} st m Hst) as Hw.
    rewrite Hl in Hw. cbn [tx_list] in Hw. rewrite jobs_weight_cons in Hw.
    match goal with |- work (run_todo u ev job ?x) <= _ =>
      pose proof (work_run_todo u ev job x) as Hr;
      change (work x) with
        (work (with_databases (<[u := with_transaction ev
                 {| tx_list := rest; tx_uuid := Some (job_uuid job) |} st]> (databases m)) m))
        in Hr
    end.
    lia.
Qed.

Lemma work_wait u ev jid td res m :
  work (wait u ev jid td res m) <= work m + 2 + resolve_weight res.
Proof.
  unfold wait. destruct (databases m !! u) as [st|] eqn:Hst; [|lia].
  set (job := {| job_todo := td; job_uuid := jid; job_resolve := res |}).
  pose proof (work_with_transaction u ev
                {| tx_list := tx_list (transactions st ev) ++ [job];
                   tx_uuid := tx_uuid (transactions st ev) |} st m Hst) as Hw.
  cbn [tx_list] in Hw. rewrite jobs_weight_snoc in Hw.
  unfold job_weight in Hw. cbn [job_resolve job] in Hw.
  match goal with |- context [observe ?o ?x] => set (m1 := observe o x) end.
  assert (Hm1 : work m1 <= work m + 2 + resolve_weight res).
  { change (work m1) with
      (work (with_databases (<[u := with_transaction ev
               {| tx_list := tx_list (transactions st ev) ++ [job];
                  tx_uuid := tx_uuid (transactions st ev) |} st]> (databases m)) m)).
    lia. }
  destruct (tx_uuid (transactions st ev)); [exact Hm1|].
  pose proof (work_handler u ev m1). lia.
Qed.

(** Every continuation the engine runs leaves it less work. *)
Lemma work_tick m : jobqueue m <> [] -> work (tick m) < work m.
Proof.
  intros Hne. unfold tick. destruct (jobqueue m) as [|t q] eqn:Hj; [congruence|].
  rewrite (work_pop t q m Hj).
  destruct t as [c|c|h c|u ev jid res v|k v|k v|h]; cbn [run_microtask task_weight].
  - destruct (lockcalls (with_jobqueue q m) !! c) as [l|]; [|lia].
    pose proof (work_wait (lc_status l) unlock (lc_uuid l) (TodoLock c) None
                  (with_jobqueue q m)) as Hw.
    cbn [resolve_weight] in Hw. lia.
  - destruct (lockcalls (with_jobqueue q m) !! c) as [l|]; [|lia].
    rewrite work_schedule. cbn [task_weight]. lia.
  - destruct (objects (with_jobqueue q m) !! h) as [o|]; [|lia].
    change (work (with_jobqueue q m) < 1 + work (with_jobqueue q m)). lia.
  - match goal with |- work (handler u ev ?x) < _ =>
      pose proof (work_handler u ev x) as Hh;
      assert (Hx : work x + 1 <= resolve_weight res + work (with_jobqueue q m))
    end.
    { destruct res as [k|]; cbn [resolve_weight].
      - rewrite work_schedule. cbn [task_weight].
        change (work (observe (Finished u ev jid) (with_jobqueue q m)))
          with (work (with_jobqueue q m)). lia.
      - change (work (observe (Finished u ev jid) (with_jobqueue q m)))
          with (work (with_jobqueue q m)). lia. }
    lia.
  - rewrite work_schedule. cbn [task_weight]. lia.
  - destruct k; cbn [cont_weight]; [lia|]. rewrite work_schedule. cbn [task_weight]. lia.
  - pose proof (work_close h (with_jobqueue q m)). lia.
Qed.

(** The continuations run out. *)
Lemma ticks_end m : exists n, jobqueue (run (repeat Tick n) m) = [].
Proof.
  remember (work m) as k eqn:Hk. revert m Hk.
  induction k as [k IH] using lt_wf_ind. intros m ->.
  destruct (jobqueue m) as [|t q] eqn:Hj; [exists 0; exact Hj|].
  destruct (IH (work (tick m))) with (m := tick m) as [n Hn];
    [apply work_tick; rewrite Hj; discriminate | reflexivity |].
  exists (S n). exact Hn.
Qed.
End EngineRest.

(** ** The lock passes from handle to handle *)

Section HandoffChain.
Context `{JSONText}.

(** What [close()] by the holder finds, at rest, when a lock call waits
    in the queue: the handler of the queue is parked on the holder's
    lock call, and the first job of the queue is of the call that
    waits. *)
Lemma handoff_ready u m h c' cs :
  lock_inv m -> wait_inv m -> holds m h u -> jobqueue m = [] -> queued u m = c' :: cs ->
  exists c jid o o' l l' st job rest,
    objects m !! h = Some o /\ unlockDB o = Some c
    /\ lockcalls m !! c = Some l /\ lc_resolved l = false
    /\ lc_parked l = Some (MHandler u unlock jid None None)
    /\ databases m !! u = Some st /\ tx_list (tx_unlock st) = job :: rest
    /\ job_todo job = TodoLock c' /\ lockcalls m !! c' = Some l' /\ c' <> c
    /\ lc_resolved l' = false /\ objects m !! lc_db l' = Some o'
    /\ UID o' = u /\ omap job_lock rest = cs.
Proof.
  intros Hinv Hwait (o & Ho & Hu & Hl) Hj Hq.
  destruct (inv_handles _ Hinv h o Ho) as [Hsome Hc].
  destruct (Hsome Hl) as [c Hun]. destruct (Hc c Hun) as (Hin & Hdb & Hres).
  specialize (Hres Hl). rewrite Hu in Hin.
  assert (Hnd : NoDup (locked u m ++ granting u m ++ queued u m ++ waiting u m))
    by apply lock_lists_NoDup, Hinv.
  assert (Hlc : exists l, lockcalls m !! c = Some l /\ lc_resolved l = false
                          /\ lc_status l = u).
  { destruct (lock_lists_valid u m c Hinv) as [_ Hs]; [apply elem_of_app; left; exact Hin|].
    unfold resolved in Hres. destruct (lockcalls m !! c) as [l|]; [|discriminate Hs].
    simpl in Hs. injection Hs as Hs. eauto. }
  destruct Hlc as (l & Hlc & Hlr & Hls).
  assert (Hc'q : c' ∈ queued u m) by (rewrite Hq; left).
  assert (Hcne : c' <> c).
  { intros ->. apply NoDup_app in Hnd. destruct Hnd as (_ & Hdis & _).
    apply (Hdis c Hin). apply elem_of_app. right. apply elem_of_app. left. exact Hc'q. }
  assert (Hpark : exists jid, lc_parked l = Some (MHandler u unlock jid None None)).
  { destruct (Hwait c l Hlc Hlr) as [Hw|[(j & Hjj & Hjc)|Hp]].
    - rewrite Hj in Hw. inversion Hw.
    - exfalso. rewrite Hls in Hjj. apply NoDup_app in Hnd. destruct Hnd as (_ & Hdis & _).
      apply (Hdis c Hin). apply elem_of_app. right. apply elem_of_app. left.
      unfold queued. apply list_elem_of_omap. exists j. split; [exact Hjj|].
      unfold job_lock. rewrite Hjc. reflexivity.
    - rewrite Hls in Hp. exact Hp. }
  destruct Hpark as (jid & Hpark).
  destruct (queued_head u m c' cs Hinv Hq) as (st & job & rest & Hst & Hlist & Hjob & Hrest).
  assert (Hlc' : exists l', lockcalls m !! c' = Some l' /\ lc_resolved l' = false
                            /\ lc_status l' = u).
  { destruct (lock_lists_valid u m c' Hinv) as [_ Hs].
    { apply elem_of_app. right. apply elem_of_app. right. apply elem_of_app. left.
      exact Hc'q. }
    assert (Hr' : resolved m c' = false).
    { apply (inv_pending _ Hinv u). apply elem_of_app. right. apply elem_of_app. left.
      exact Hc'q. }
    unfold resolved in Hr'. destruct (lockcalls m !! c') as [l'|]; [|discriminate Hs].
    simpl in Hs. injection Hs as Hs. eauto. }
  destruct Hlc' as (l' & Hlc' & Hlr' & Hls').
  destruct (inv_frames _ Hinv c' l' Hlc') as ((o' & Ho' & Hu') & _).
  exists c, jid, o, o', l, l', st, job, rest.
  repeat (split; [assumption|]). split; [congruence | exact Hrest].
Qed.

(** The state four steps later. *)
Lemma close_handoff_final (h c c' jid : nat) (o o' : SillyDB) (l l' : lockcall)
    (u : string) (st : SillyDBStatus) (job : DBTransaction) (rest : list DBTransaction)
    (m : machine) :
  objects m !! h = Some o -> unlockDB o = Some c ->
  lockcalls m !! c = Some l -> lc_resolved l = false ->
  lc_parked l = Some (MHandler u unlock jid None None) ->
  databases m !! u = Some st -> tx_list (tx_unlock st) = job :: rest ->
  job_todo job = TodoLock c' ->
  lockcalls m !! c' = Some l' -> c' <> c -> lc_resolved l' = false ->
  objects m !! lc_db l' = Some o' ->
  jobqueue m = [] ->
  exists ox,
    <[h := with_locking false o]> (objects m) !! lc_db l' = Some ox /\ UID ox = UID o'
    /\ run [Call (Close h); Tick; Tick; Tick] m
       = {| root := root m;
            databases :=
              <[u := with_transaction unlock
                       {| tx_list := rest; tx_uuid := Some (job_uuid job) |} st]> (databases m);
            disk := disk m;
            objects :=
              <[lc_db l' := with_locking true (with_unlockDB (Some c') ox)]>
                (<[h := with_locking false o]> (objects m));
            lockcalls :=
              <[c' := with_parked (MHandler u unlock (job_uuid job) (job_resolve job) None) l']>
                (<[c := with_resolved l]> (lockcalls m));
            jobqueue := [];
            history := history m ++ [Finished u unlock jid; Started u unlock job;
                                     Locked (UID ox) (lc_db l') c'] |}.
Proof.
  intros Ho Hun Hlc Hlr Hlp Hst Hlist Hjob Hlc' Hne Hlr' Ho' Hj.
  set (os1 := <[h := with_locking false o]> (objects m)).
  set (ls1 := <[c := with_resolved l]> (lockcalls m)).
  set (t' := MHandler u unlock (job_uuid job) (job_resolve job) None).
  set (ls2 := <[c' := with_parked t' l']> ls1).
  set (st2 := with_transaction unlock {| tx_list := rest; tx_uuid := Some (job_uuid job) |} st).
  set (mk := fun dbs ls q hs =>
               {| root := root m; databases := dbs; disk := disk m; objects := os1;
                  lockcalls := ls; jobqueue := q; history := hs |}).
  assert (H1 : fst (close h m) = mk (databases m) ls1 [MHandler u unlock jid None None]
                                    (history m)).
  { unfold close. rewrite Ho, Hun. unfold resolve_lock. rewrite Hlc, Hlr, Hlp.
    machine_simpl. rewrite Hj. reflexivity. }
  assert (Hls1 : ls1 !! c' = Some l').
  { unfold ls1. rewrite list_lookup_insert_ne by congruence. exact Hlc'. }
  assert (H2 : tick (mk (databases m) ls1 [MHandler u unlock jid None None] (history m))
               = mk (<[u := st2]> (databases m)) ls2 [MLockDB_return c']
                    (history m ++ [Finished u unlock jid; Started u unlock job])).
  { unfold tick, mk. machine_simpl. cbn [run_microtask]. machine_simpl.
    unfold handler. machine_simpl. rewrite Hst. cbn [transactions]. rewrite Hlist.
    unfold run_todo. rewrite Hjob. machine_simpl. rewrite Hls1, Hlr'. machine_simpl.
    f_equal. rewrite <- app_assoc. reflexivity. }
  assert (H3 : tick (mk (<[u := st2]> (databases m)) ls2 [MLockDB_return c']
                        (history m ++ [Finished u unlock jid; Started u unlock job]))
               = mk (<[u := st2]> (databases m)) ls2 [MUse (lc_db l') c']
                    (history m ++ [Finished u unlock jid; Started u unlock job])).
  { unfold tick, mk. machine_simpl. cbn [run_microtask]. machine_simpl.
    unfold ls2. rewrite list_lookup_insert_eq by (eapply lookup_lt_Some; exact Hls1).
    machine_simpl. reflexivity. }
  assert (Hox : exists ox, os1 !! lc_db l' = Some ox /\ UID ox = UID o').
  { unfold os1. destruct (decide (lc_db l' = h)) as [E|E].
    - rewrite E in *. rewrite list_lookup_insert_eq by (eapply lookup_lt_Some; exact Ho).
      eexists. split; [reflexivity|]. cbn [UID with_locking]. congruence.
    - rewrite list_lookup_insert_ne by congruence. eauto. }
  destruct Hox as (ox & Hox & Hux). exists ox. split; [exact Hox|]. split; [exact Hux|].
  unfold run. cbn [fold_left step perform]. rewrite H1, H2, H3.
  unfold tick, mk. machine_simpl. cbn [run_microtask]. machine_simpl. rewrite Hox.
  machine_simpl. f_equal. rewrite <- app_assoc. reflexivity.
Qed.

Lemma omap_same {A B} (f g : A -> option B) (l : list A) :
  (forall x, f x = g x) -> omap f l = omap g l.
Proof.
  intros Hfg. induction l as [|x l IH]; [reflexivity|]. rewrite !omap_step, Hfg, IH.
  reflexivity.
Qed.

(** At rest, [close()] by the holder and three continuations give the
    lock to the handle of the first call of the queue, and the engine is
    at rest again. *)
Lemma handoff_step u m h c' cs :
  lock_inv m -> wait_inv m -> holds m h u -> jobqueue m = [] -> queued u m = c' :: cs ->
  exists h',
    lock_db m c' = Some h'
    /\ holds (run [Call (Close h); Tick; Tick; Tick] m) h' u
    /\ jobqueue (run [Call (Close h); Tick; Tick; Tick] m) = []
    /\ queued u (run [Call (Close h); Tick; Tick; Tick] m) = cs
    /\ became_locked u (run [Call (Close h); Tick; Tick; Tick] m) = became_locked u m ++ [h']
    /\ (forall x, lock_db (run [Call (Close h); Tick; Tick; Tick] m) x = lock_db m x).
Proof.
  intros Hinv Hwait Hh Hj Hq.
  destruct (handoff_ready u m h c' cs Hinv Hwait Hh Hj Hq)
    as (c & jid & o & o' & l & l' & st & job & rest & Ho & Hun & Hlc & Hlr & Hlp & Hst
        & Hlist & Hjob & Hlc' & Hne & Hlr' & Ho' & Hu' & Hrest).
  destruct (close_handoff_final h c c' jid o o' l l' u st job rest m
              Ho Hun Hlc Hlr Hlp Hst Hlist Hjob Hlc' Hne Hlr' Ho' Hj) as (ox & Hox & Hux & E).
  rewrite E. exists (lc_db l'). split; [unfold lock_db; rewrite Hlc'; reflexivity|].
  split; [|split; [|split; [|split]]].
  - eexists. cbn [objects].
    split; [apply list_lookup_insert_eq; eapply lookup_lt_Some; exact Hox|].
    split; [cbn [UID with_locking with_unlockDB]; congruence | reflexivity].
  - reflexivity.
  - unfold queued, queue_of. cbn [databases]. rewrite lookup_insert_eq. exact Hrest.
  - unfold became_locked. cbn [history]. rewrite omap_app. f_equal.
    rewrite !omap_step. cbn [locked_by]. rewrite decide_True by congruence. reflexivity.
  - intros x. unfold lock_db. cbn [lockcalls].
    assert (Hlc1 : <[c := with_resolved l]> (lockcalls m) !! c' = Some l').
    { rewrite list_lookup_insert_ne by congruence. exact Hlc'. }
    destruct (decide (x = c')) as [->|Hx'].
    + rewrite list_lookup_insert_eq by (eapply lookup_lt_Some; exact Hlc1).
      rewrite Hlc'. reflexivity.
    + rewrite list_lookup_insert_ne by congruence.
      destruct (decide (x = c)) as [->|Hx].
      * rewrite list_lookup_insert_eq by (eapply lookup_lt_Some; exact Hlc).
        rewrite Hlc. reflexivity.
      * rewrite list_lookup_insert_ne by congruence. reflexivity.
Qed.

(** The handles that wait become locked in the order of the queue as
    the holders call [close()] in turn. *)
Lemma handoff_chain d u : forall cs ins h,
  holds (run ins (boot d)) h u -> jobqueue (run ins (boot d)) = [] ->
  queued u (run ins (boot d)) = cs ->
  became_locked u (run (handoffs h (omap (lock_db (run ins (boot d))) cs)) (run ins (boot d)))
  = became_locked u (run ins (boot d)) ++ omap (lock_db (run ins (boot d))) cs.
Proof.
  induction cs as [|c' cs IH]; intros ins h Hh Hj Hq.
  - simpl. rewrite app_nil_r. reflexivity.
  - destruct (handoff_step u _ h c' cs (lock_inv_reachable d ins) (wait_inv_reachable d ins)
                Hh Hj Hq) as (h' & Hdb & Hh' & Hj' & Hq' & Hb & Hsame).
    rewrite omap_step, Hdb. cbn [handoffs]. rewrite run_append.
    rewrite <- (omap_same _ _ cs Hsame).
    remember (run [Call (Close h); Tick; Tick; Tick] (run ins (boot d))) as m' eqn:Hm'.
    rewrite <- run_append in Hm'. subst m'.
    rewrite (IH _ h' Hh' Hj' Hq'), Hb, <- app_assoc. reflexivity.
Qed.
End HandoffChain.

Section QueueOrder.
Context `{JSONText}.

Lemma engine_only_handoffs hs : forall h m, engine_only m (run (handoffs h hs) m).
Proof.
  induction hs as [|h' hs IH]; intros h m; [apply engine_only_refl|].
  cbn [handoffs]. rewrite run_append.
  eapply engine_only_trans; [|apply IH].
  apply (engine_only_trans _ (fst (close h m)));
    [apply engine_only_same, history_close | apply (engine_only_ticks 3)].
Qed.

(** C2. First in, first out, and nobody is left behind.  In every state
    the program can reach from its start: the handles of a database
    whose [use()] has completed, in the order of completion, are the
    first of the handles that called [use()], in the order of the calls;
    the jobs a queue of a database has started, in the order in which it
    started them, are the first of the jobs it was given, in the order
    in which [wait] got them; and the queue has started at most one job
    more than have finished, so that at most one job of the queue is
    running.  The engine comes to rest: after finitely many
    continuations none is left, and they record no call of [use()] and
    give no job to a flush queue.  And at rest every job given to the
    flush queue has started and has finished; the handles that called
    [use()] are those that became locked followed by those whose call
    waits in the queue, in the order of the queue; when no handle holds
    the lock, every handle that called [use()] has become locked; and
    when a handle holds it, it is the last that became locked, and as
    the holders call [close()] in turn, each three continuations after
    the one before, the handles that wait become locked one after the
    other until the handles that became locked are the handles that
    called [use()], in the order of the calls. *)
Theorem locks_and_jobs_in_order (d : filesystem) (ins : list input) (u : string) (ev : event) :
  let m := run ins (boot d) in
  became_locked u m `prefix_of` opened u m
  /\ started_jobs u ev m `prefix_of` enqueued u ev m
  /\ length (finished u ev m) <= length (started_jobs u ev m)
  /\ length (started_jobs u ev m) <= length (finished u ev m) + 1
  /\ (exists n,
        jobqueue (run (repeat Tick n) m) = []
        /\ opened u (run (repeat Tick n) m) = opened u m
        /\ enqueued u write_end (run (repeat Tick n) m) = enqueued u write_end m)
  /\ (jobqueue m = [] ->
      started_jobs u write_end m = enqueued u write_end m
      /\ length (finished u write_end m) = length (enqueued u write_end m)
      /\ opened u m = became_locked u m ++ omap (lock_db m) (queued u m)
      /\ (locked_handles u m = [] -> became_locked u m = opened u m)
      /\ (forall h, h ∈ locked_handles u m ->
            last (became_locked u m) = Some h
            /\ became_locked u (run (handoffs h (omap (lock_db m) (queued u m))) m)
               = opened u m
            /\ opened u (run (handoffs h (omap (lock_db m) (queued u m))) m) = opened u m)).
Proof.
  intros m.
  pose proof (queue_inv_reachable d ins u ev) as [Hfifo Hcount _].
  fold m in Hfifo, Hcount.
  pose proof (active_le_1 u ev m) as Ha.
  assert (Hlock : lock_inv m) by apply lock_inv_reachable.
  assert (Hhist : hist_inv m) by apply hist_inv_reachable.
  assert (Hlive : live_inv m) by apply live_inv_reachable.
  assert (Hheld : held_inv m) by apply held_inv_reachable.
  assert (Hqueue : queue_inv m) by apply queue_inv_reachable.
  split; [|split; [|split; [|split; [|split]]]].
  - apply became_locked_prefix; assumption.
  - rewrite Hfifo. eexists. reflexivity.
  - lia.
  - lia.
  - destruct (ticks_end m) as [n Hn]. exists n. split; [exact Hn|].
    split; [apply engine_only_opened | apply engine_only_enqueued]; apply engine_only_ticks.
  - intros Hj. destruct (idle_flush u m Hlock Hqueue Hlive Hj) as [Hs Hf].
    pose proof (idle_opened u m Hlock Hhist Hj) as Ho.
    split; [exact Hs|]. split; [exact Hf|]. split; [exact Ho|]. split.
    + intros Hnone. rewrite Ho, (idle_no_holder u m Hlock Hlive Hheld Hj).
      * simpl. rewrite app_nil_r. reflexivity.
      * intros h Hh. apply elem_of_locked_handles in Hh. rewrite Hnone in Hh. inversion Hh.
    + intros h Hh. apply elem_of_locked_handles in Hh.
      split; [apply idle_holder; assumption|]. split.
      * rewrite Ho. apply (handoff_chain d u _ ins h Hh Hj eq_refl).
      * apply engine_only_opened, engine_only_handoffs.
Qed.
End QueueOrder.

Lemma locks_and_jobs_in_order_witness :
  became_locked Race.u (run (handoffs 0 [1]) (run Race.start (boot Example.empty_disk)))
  = [0; 1].
Proof.
  pose proof (locks_and_jobs_in_order Example.empty_disk Race.start Race.u unlock) as Hthm.
  cbv zeta in Hthm. destruct Hthm as (_ & _ & _ & _ & _ & Hrest).
  destruct Hrest as (_ & _ & _ & _ & Hh); [vm_compute; reflexivity|].
  destruct (Hh 0) as (_ & Hb & _); [vm_compute; left|].
  exact Hb.
Defined.
